(** * MusicStaffPackage: the notation layout engine, embedded and verified

    A shallow embedding of the TypeScript classes [RhythmStaff],
    [NoteRenderer], [MusicStaff] and [ScrollingStaff], followed by the
    theorems that settle the specification's claims about them.

    Conventions of the embedding.

    - A method of a class is a computation in the monad [M S], where [S] is
      the record of the instance's fields.  A JavaScript [throw] keeps every
      mutation made before it, so a computation returns a [Completion]
      together with the state reached, also when it throws.
    - The DOM is modelled by the data the engine writes to it: a group element
      is a record of its class, its [transform] attribute and its children,
      and the "notes" layer is the list of the groups committed to it.
    - Numbers.  The rhythm staff only ever adds and compares integer
      multiples of a quarter (beat values 4, 2, 1, 0.5 and 0.25; positions
      [beatValue * quarterNoteSpacing] with [quarterNoteSpacing] rounded to an
      integer), for which IEEE doubles are exact.  Module [RhythmStaff]
      therefore stores such a number [x] as the integer [4 * x]: a beat count
      in sixteenth-note ticks, a horizontal position in quarter pixels.  The
      pitched staff divides a spacing by two and so uses rationals. *)

From Stdlib Require Import ZArith QArith Qminmax Qround List String Ascii Bool Lia.
From Stdlib Require Import Sorted.
Import ListNotations.

Local Open Scope string_scope.
Local Open Scope list_scope.
Local Open Scope Z_scope.

(** ** Completions and the state-and-exception monad *)

(** The error taxonomy.  The source throws plain [Error] objects; they are
    told apart by their message:
    - [ParseError]: thrown by [parseNoteString] / [parseDurationNoteString];
    - [ConfigError]: "Time signature ... not supported", "Bars count ... not
      supported", "The staff type ... is not supported";
    - [BoundsError]: "Note index was out of bounds.", "Chord index was out of
      bounds.";
    - [MaxBeatError]: "Max beat count reached. ...";
    - [StateError]: "Must provide a value greater than 2 for beamed note.",
      "Provide more than one note for a chord." and the like;
    - [TypeError]: the runtime's own error on reading a property of
      [undefined];
    - [NotFoundError]: the DOM's own exception, from [replaceChild] on a node
      that is not a child. *)
Inductive Error : Type :=
| ParseError
| ConfigError
| BoundsError
| MaxBeatError
| StateError
| TypeError
| NotFoundError.

Inductive Completion (A : Type) : Type :=
| Return (a : A)
| Throw (err : Error).

Arguments Return {A} a.
Arguments Throw {A} err.

Definition M (S A : Type) : Type := S -> Completion A * S.

Definition ret {S A : Type} (a : A) : M S A :=
  fun st => (Return a, st).

Definition bind {S A B : Type} (m : M S A) (k : A -> M S B) : M S B :=
  fun st =>
    match m st with
    | (Return a, st') => k a st'
    | (Throw err, st') => (Throw err, st')
    end.

Definition throw {S A : Type} (err : Error) : M S A :=
  fun st => (Throw err, st).

Definition get {S : Type} : M S S :=
  fun st => (Return st, st).

Definition modify {S : Type} (f : S -> S) : M S unit :=
  fun st => (Return tt, f st).

Declare Scope monad_scope.
Delimit Scope monad_scope with monad.
Notation "x <- c1 ;; c2" := (bind c1 (fun x => c2))
  (at level 61, c1 at next level, right associativity) : monad_scope.
Notation "' pat <- c1 ;; c2" :=
  (bind c1 (fun x => match x with pat => c2 end))
  (at level 61, pat pattern, c1 at next level, right associativity) : monad_scope.
Notation "c1 ;; c2" := (bind c1 (fun _ => c2))
  (at level 61, right associativity) : monad_scope.
Local Open Scope monad_scope.

(** ** The duration vocabulary (types.ts, constants.ts, helpers/notehelpers.ts) *)

(** The [Durations] type: ["w" | "h" | "q" | "e" | "s"]. *)
Inductive Durations : Type :=
| Whole      (* "w" *)
| Half       (* "h" *)
| Quarter    (* "q" *)
| Eighth     (* "e" *)
| Sixteenth. (* "s" *)

(** Modelled from the spec: [durationBeatValueMap] of constants.ts, which is
    not among the sources.  "Duration -> beat value (quarter-note units):
    whole=4, half=2, quarter=1, eighth=0.5, sixteenth=0.25", here in
    sixteenth-note ticks (four ticks to the beat). *)
Definition durationBeatValueMap (d : Durations) : Z :=
  match d with
  | Whole => 16
  | Half => 8
  | Quarter => 4
  | Eighth => 2
  | Sixteenth => 1
  end.

(** Modelled from the spec: [parseDurationNoteString] of
    helpers/notehelpers.ts, which is not among the sources.  "Duration-only
    grammar (rhythm staff): <Duration:w|h|q|e>, with s (sixteenth) accepted
    only by the beam API, not the generic parser.  Fails with ParseError when
    ... duration symbols are missing or unrecognized."  [None] stands for the
    thrown ParseError. *)
Definition parseDurationNoteString (noteString : string) : option Durations :=
  if String.eqb noteString "w" then Some Whole
  else if String.eqb noteString "h" then Some Half
  else if String.eqb noteString "q" then Some Quarter
  else if String.eqb noteString "e" then Some Eighth
  else None.

(** The glyph catalogue (glyphs.ts), as far as the classes name it. *)
Inductive GlyphNames : Type :=
| CLEF_TREBLE | CLEF_BASS | CLEF_ALTO
| TIME_3 | TIME_4
| NOTE_HEAD_WHOLE | NOTE_HEAD_HALF | NOTE_HEAD_QUARTER
| EIGHTH_NOTE | EIGHTH_NOTE_FLIPPED
| REST_WHOLE | REST_HALF | REST_QUARTER | REST_EIGHTH
| ACCIDENTAL_SHARP | ACCIDENTAL_FLAT | ACCIDENTAL_NATURAL
| ACCIDENTAL_DOUBLE_SHARP | ACCIDENTAL_DOUBLE_FLAT.

(** The layout constants of constants.ts, which is not among the sources:
    the development is parametric in them.  [ACCIDENTAL_OFFSET_X] and the
    spacings are whole numbers of pixels. *)
Class Constants : Type := {
  ACCIDENTAL_OFFSET_X : Z;
  CHORD_MAX_CONSECUTIVE_ACCIDENTALS : Z;
  DOUBLE_FLAT_ACCIDENTAL_OFFSET_X : Z;
  DOUBLE_SHARP_ACCIDENTAL_OFFSET_X : Z;
  HALF_NOTEHEAD_WIDTH : Z;
  NOTE_SPACING : Z;
  NOTEHEAD_STEM_HEIGHT : Z;
  STAFF_LINE_SPACING : Z;
  NOTE_LAYER_START_X : Z
}.

(** ** RhythmStaff (the bar/beat allocation engine) *)

Module RhythmStaff.

Definition BAR_SPACING : Z := 12.
Definition STAFF_RIGHT_PADDING : Z := 1.
Definition BEAM_LINE_Y_OFFSET : Z := 6.

(** What the class draws into a group: a glyph ([drawGlyph], with its
    [xOffset] option, 0 when absent), a stem ([drawStem], with its
    [xOffset]) and a beam bar ([renderBeamRect], its width and [yOffset]).
    Horizontal quantities are in quarter pixels, [yOffset] is in pixels. *)
Inductive Shape : Type :=
| Glyph (name : GlyphNames) (xOffset : Z)
| Stem (xOffset : Z)
| BeamRect (width : Z) (yOffset : Z).

(** A group element: [createGroup(className)], its
    [transform = translate(x, 0)] attribute and its children. *)
Record SVGGElement : Type := mkGroup {
  className : string;
  transform : option Z;
  shapes : list Shape
}.

(** The fields of an instance that the note, rest and beam methods read or
    write, and the children of the renderer's "notes" layer.  [topNumber],
    [barsCount] and [quarterNoteSpacing] are as in the source (beats, bars,
    pixels); [currentBeatCount] and [maxBeatCount] are in ticks and
    [noteCursorX] in quarter pixels. *)
Record t : Type := mk {
  topNumber : Z;
  barsCount : Z;
  quarterNoteSpacing : Z;
  noteCursorX : Z;
  noteEntries : list SVGGElement;
  maxBeatCount : Z;
  currentBeatCount : Z;
  notesLayer : list SVGGElement
}.

Definition set_noteCursorX (x : Z) (st : t) : t :=
  mk (topNumber st) (barsCount st) (quarterNoteSpacing st) x
     (noteEntries st) (maxBeatCount st) (currentBeatCount st) (notesLayer st).

Definition set_currentBeatCount (c : Z) (st : t) : t :=
  mk (topNumber st) (barsCount st) (quarterNoteSpacing st) (noteCursorX st)
     (noteEntries st) (maxBeatCount st) c (notesLayer st).

Definition set_noteEntries (l : list SVGGElement) (st : t) : t :=
  mk (topNumber st) (barsCount st) (quarterNoteSpacing st) (noteCursorX st)
     l (maxBeatCount st) (currentBeatCount st) (notesLayer st).

Definition set_notesLayer (l : list SVGGElement) (st : t) : t :=
  mk (topNumber st) (barsCount st) (quarterNoteSpacing st) (noteCursorX st)
     (noteEntries st) (maxBeatCount st) (currentBeatCount st) l.

(** A whole number of beats (or of pixels), in ticks (in quarter pixels). *)
Definition quarters (n : Z) : Z := 4 * n.

(** [rendererInstance.commitElementsToDOM(groups, notesLayer)]: batched
    insertion at the end of the layer. *)
Definition commitElementsToDOM (groups : list SVGGElement) : M t unit :=
  modify (fun st => set_notesLayer (notesLayer st ++ groups) st).

(** [if (groups.length > 0) commitElementsToDOM(groups, notesLayer)], the
    commit made before an error is thrown out of a batch. *)
Definition commitIfAny (groups : list SVGGElement) : M t unit :=
  match groups with
  | [] => ret tt
  | _ :: _ => commitElementsToDOM groups
  end.

(** The constructor's options that bear on layout. *)
Record RhythmStaffOptions : Type := mkOptions {
  opt_width : Z;
  opt_topNumber : Z;
  opt_barsCount : Z
}.

Definition defaultOptions : RhythmStaffOptions :=
  mkOptions 300 4 2.

Section Constructor.
Context {K : Constants}.

(** [Math.round (n / d)] for [0 < d]: the nearest integer, halves up. *)
Definition roundDiv (n d : Z) : Z := (2 * n + d) / (2 * d).

(** The constructor: the time signature and the bar count are checked,
    then the spacing and the beat capacity are computed.
    [quarterNoteSpacing = Math.round(barSpacing / topNumber)] with
    [barSpacing = notesLayerWidth / barsCount]. *)
Definition new (options : RhythmStaffOptions) : Completion t :=
  if negb ((opt_topNumber options =? 3) || (opt_topNumber options =? 4))
  then Throw ConfigError
  else if (opt_barsCount options <? 1) || (3 <? opt_barsCount options)
  then Throw ConfigError
  else
    let notesLayerWidth := opt_width options - NOTE_LAYER_START_X in
    let notesLayerWidth :=
      if 1 <? opt_barsCount options
      then notesLayerWidth - (opt_barsCount options - 1) * BAR_SPACING
      else notesLayerWidth in
    let notesLayerWidth := notesLayerWidth - STAFF_RIGHT_PADDING in
    Return {|
      topNumber := opt_topNumber options;
      barsCount := opt_barsCount options;
      quarterNoteSpacing :=
        roundDiv notesLayerWidth (opt_barsCount options * opt_topNumber options);
      noteCursorX := 0;
      noteEntries := [];
      maxBeatCount := quarters (opt_barsCount options * opt_topNumber options);
      currentBeatCount := 0;
      notesLayer := []
    |}.
End Constructor.

Definition handleNewBar : M t unit :=
  modify (fun st => set_noteCursorX (noteCursorX st + quarters BAR_SPACING) st).

(** [this.currentBeatCount % this.options.topNumber]; JavaScript's [%] takes
    the sign of the dividend, as [Z.rem] does. *)
Definition beatInBar (st : t) : Z :=
  Z.rem (currentBeatCount st) (quarters (topNumber st)).

Definition remainingBeatsInBar (st : t) : Z :=
  quarters (topNumber st) - beatInBar st.

Definition checkAndCreateNewBar : M t unit :=
  st <- get ;;
  let isBarFull := (0 <? currentBeatCount st) && (beatInBar st =? 0) in
  let isNotLastBar := currentBeatCount st <? maxBeatCount st in
  if isBarFull && isNotLastBar then handleNewBar else ret tt.

Definition renderNote (duration : Durations) : list Shape :=
  match duration with
  | Whole => [Glyph NOTE_HEAD_WHOLE 0]
  | Half => [Glyph NOTE_HEAD_HALF 0; Stem 0]
  | Quarter => [Glyph NOTE_HEAD_QUARTER 0; Stem 0]
  | Eighth => [Glyph EIGHTH_NOTE 0; Stem 0]
  | Sixteenth => []
  end.

Definition renderRest (duration : Durations) : list Shape :=
  match duration with
  | Whole => [Glyph REST_WHOLE 0]
  | Half => [Glyph REST_HALF 0]
  | Quarter => [Glyph REST_QUARTER 0]
  | Eighth => [Glyph REST_EIGHTH 0]
  | Sixteenth => []
  end.

(** One turn of the [while (beatsLeft > 0)] loop of [createRemainingRests]:
    the rest that is drawn and its beat value. *)
Definition biggestRest (beatsLeft : Z) : Durations :=
  if 0 <=? beatsLeft - durationBeatValueMap Half then Half
  else if 0 <=? beatsLeft - durationBeatValueMap Quarter then Quarter
  else Eighth.

(** The loop of [createRemainingRests].  Every turn takes at least two
    ticks off [beatsLeft], so [fuel] turns are enough when
    [beatsLeft <= fuel] (lemma [createRemainingRests_loop_fuel]). *)
Fixpoint createRemainingRests_loop (fuel : nat) (beatsLeft : Z)
    (restGroups : list SVGGElement) : M t (list SVGGElement) :=
  match fuel with
  | O => ret restGroups
  | S fuel' =>
      if 0 <? beatsLeft then
        let rest := biggestRest beatsLeft in
        let beatValue := durationBeatValueMap rest in
        st <- get ;;
        let newGroup :=
          mkGroup "rest" (Some (noteCursorX st)) (renderRest rest) in
        modify (set_currentBeatCount (currentBeatCount st + beatValue)) ;;
        modify (set_noteCursorX
                  (noteCursorX st + beatValue * quarterNoteSpacing st)) ;;
        createRemainingRests_loop fuel' (beatsLeft - beatValue)
                                  (restGroups ++ [newGroup])
      else ret restGroups
  end.

Definition createRemainingRests (remainingBeatsInBar : Z)
    : M t (list SVGGElement) :=
  createRemainingRests_loop (Z.to_nat remainingBeatsInBar)
                            remainingBeatsInBar [].

(** Returns the filler rests, or [None] for the source's [null]. *)
Definition checkAndFillBarWithRests (beatValue : Z)
    : M t (option (list SVGGElement)) :=
  st <- get ;;
  let remaining := remainingBeatsInBar st in
  if remaining <? beatValue then
    restGroups <- createRemainingRests remaining ;;
    handleNewBar ;;
    ret (Some restGroups)
  else ret None.

Definition pushEntries (groups : list SVGGElement) : M t unit :=
  modify (fun st => set_noteEntries (noteEntries st ++ groups) st).

(** The body of the [for] loop of [drawNote], for one [noteString];
    [noteGroups] is the method's local list of groups awaiting their commit,
    and the result is that list after this member. *)
Definition drawNoteToken (noteString : string) (noteGroups : list SVGGElement)
    : M t (list SVGGElement) :=
  match parseDurationNoteString noteString with
  | None =>
      commitIfAny noteGroups ;;
      throw ParseError
  | Some durationString =>
      let beatValue := durationBeatValueMap durationString in
      st <- get ;;
      if maxBeatCount st <=? currentBeatCount st then
        commitIfAny noteGroups ;;
        throw MaxBeatError
      else
        checkAndCreateNewBar ;;
        restGroups <- checkAndFillBarWithRests beatValue ;;
        let rests := match restGroups with Some l => l | None => [] end in
        pushEntries rests ;;
        st <- get ;;
        (* translateGroupByDuration, then renderNote *)
        let noteGroup :=
          mkGroup "note" (Some (noteCursorX st)) (renderNote durationString) in
        let cursorXIncrement := quarterNoteSpacing st * beatValue in
        modify (set_noteCursorX (noteCursorX st + cursorXIncrement)) ;;
        modify (fun st => set_currentBeatCount (currentBeatCount st + beatValue) st) ;;
        pushEntries [noteGroup] ;;
        ret (noteGroups ++ rests ++ [noteGroup])
  end.

Fixpoint drawNote_loop (notes : list string) (noteGroups : list SVGGElement)
    : M t unit :=
  match notes with
  | [] => commitElementsToDOM noteGroups
  | noteString :: notes' =>
      noteGroups' <- drawNoteToken noteString noteGroups ;;
      drawNote_loop notes' noteGroups'
  end.

(** [drawNote(notes)]; a single string is the one-member list. *)
Definition drawNote (notes : list string) : M t unit :=
  drawNote_loop notes [].

(** The body of the [for] loop of [drawRest]. *)
Definition drawRestToken (restString : string) (restGroups : list SVGGElement)
    : M t (list SVGGElement) :=
  match parseDurationNoteString restString with
  | None =>
      commitIfAny restGroups ;;
      throw ParseError
  | Some durationString =>
      let beatValue := durationBeatValueMap durationString in
      st0 <- get ;;
      let spacing := beatValue * quarterNoteSpacing st0 in
      if maxBeatCount st0 <=? currentBeatCount st0 then
        commitIfAny restGroups ;;
        throw MaxBeatError
      else
        checkAndCreateNewBar ;;
        remainingGroups <- checkAndFillBarWithRests beatValue ;;
        let rests := match remainingGroups with Some l => l | None => [] end in
        pushEntries rests ;;
        st <- get ;;
        let restGroup :=
          mkGroup "rest" (Some (noteCursorX st)) (renderRest durationString) in
        modify (set_noteCursorX (noteCursorX st + spacing)) ;;
        modify (fun st => set_currentBeatCount (currentBeatCount st + beatValue) st) ;;
        pushEntries [restGroup] ;;
        ret (restGroups ++ rests ++ [restGroup])
  end.

Fixpoint drawRest_loop (rests : list string) (restGroups : list SVGGElement)
    : M t unit :=
  match rests with
  | [] => commitElementsToDOM restGroups
  | restString :: rests' =>
      restGroups' <- drawRestToken restString restGroups ;;
      drawRest_loop rests' restGroups'
  end.

Definition drawRest (rests : list string) : M t unit :=
  drawRest_loop rests [].

Definition Qltb (x y : Q) : bool := negb (Qle_bool y x).

(** The [for (let i = 0; i < fixedNoteCount; i++)] loop of
    [drawBeamedNotes]: the heads and stems drawn, [localX] and the beat
    count.  [fixedNoteCount] is a JavaScript number and need not be whole.
    The loop leaves by its test within [fuel] turns when
    [fixedNoteCount <= i + fuel] (lemma [beam_loop_fuel]). *)
Fixpoint beam_loop (fuel : nat) (i : Z) (fixedNoteCount : Q)
    (spacingAmount beatValue : Z) (localX : Z) (drawn : list Shape)
    : M t (Z * list Shape) :=
  match fuel with
  | O => ret (localX, drawn)
  | S fuel' =>
      if Qltb (inject_Z i) fixedNoteCount then
        modify (fun st => set_currentBeatCount (currentBeatCount st + beatValue) st) ;;
        beam_loop fuel' (i + 1) fixedNoteCount spacingAmount beatValue
                  (localX + spacingAmount)
                  (drawn ++ [Glyph NOTE_HEAD_QUARTER localX; Stem localX])
      else ret (localX, drawn)
  end.

(** [drawBeamedNotes(note, noteCount)]. *)
Definition drawBeamedNotes (note : string) (noteCount : Z) : M t unit :=
  if noteCount <? 2 then throw StateError
  else
    st <- get ;;
    if maxBeatCount st <=? currentBeatCount st then throw MaxBeatError
    else
      match (if String.eqb note "s" then Some Sixteenth
             else parseDurationNoteString note) with
      | None => throw ParseError
      | Some durationString =>
          checkAndCreateNewBar ;;
          st <- get ;;
          let beatValue := durationBeatValueMap durationString in
          let spacingAmount := beatValue * quarterNoteSpacing st in
          let remaining := remainingBeatsInBar st in
          let fixedNoteCount :=
            Qmin (inject_Z noteCount) (inject_Z remaining / inject_Z beatValue) in
          let groupX := noteCursorX st in
          '(localX, drawn) <-
            beam_loop (Z.to_nat noteCount) 0 fixedNoteCount
                      spacingAmount beatValue 0 [] ;;
          let beams :=
            BeamRect (localX - spacingAmount) 0 ::
            (if String.eqb note "s"
             then [BeamRect (localX - spacingAmount) BEAM_LINE_Y_OFFSET]
             else []) in
          let beamedGroup :=
            mkGroup "beamed-note" (Some groupX) (drawn ++ beams) in
          modify (fun st => set_noteCursorX (noteCursorX st + localX) st) ;;
          pushEntries [beamedGroup] ;;
          commitElementsToDOM [beamedGroup]
      end.

Definition clearAllNotes : M t unit :=
  modify (fun st =>
    set_notesLayer [] (set_noteEntries []
      (set_currentBeatCount 0 (set_noteCursorX 0 st)))).

End RhythmStaff.

(** ** Note descriptors and the helpers of the pitched staff *)

Inductive NoteNames : Type :=
| NoteC | NoteD | NoteE | NoteF | NoteG | NoteA | NoteB.

Inductive Accidentals : Type :=
| Sharp        (* "#" *)
| Flat         (* "b" *)
| Natural      (* "n" *)
| DoubleSharp  (* "##" *)
| DoubleFlat.  (* "bb" *)

(** [NoteObj]: [accidental] is absent ([None]) on a plain note. *)
Record NoteObj : Type := mkNoteObj {
  name : NoteNames;
  octave : Z;
  duration : Durations;
  accidental : option Accidentals
}.

(** helpers/notehelpers.ts is not among the sources: [parseNoteString]
    ([None] for the thrown ParseError) and [getNameOctaveIdx], the diatonic
    index of a pitch, are parameters of the development. *)
Class NoteHelpers : Type := {
  parseNoteString : string -> option NoteObj;
  getNameOctaveIdx : NoteNames -> Z -> Z
}.

(** The strategy instance a staff holds: which class was constructed, and
    with which staff type. *)
Inductive StaffStrategy : Type :=
| SingleStaffStrategy (staffType : string)
| GrandStaffStrategy (staffType : string).

Record LedgerLine : Type := mkLedgerLine {
  ledger_x1 : Q;
  ledger_x2 : Q;
  ledger_yPos : Q
}.

(** strategies/*.ts are not among the sources: the methods of the
    [StaffStrategy] interface that the renderer calls are parameters. *)
Class StrategyMethods : Type := {
  calculateNoteYPos : StaffStrategy -> NoteNames -> Z -> Q;
  shouldNoteFlip : StaffStrategy -> Q -> bool;
  getLedgerLinesX : StaffStrategy -> NoteNames -> Z -> Durations -> Q -> list LedgerLine
}.

(** ** SVGRenderer: the drawing collaborator, as far as the staffs drive it *)

Module SVGRenderer.

(** What is drawn into a note group: a [<use>] element ([drawGlyph]) with
    its [transform = translate(x, 0)] attribute when one was set, or a line
    ([drawLine]). *)
Inductive Child : Type :=
| Use (href : GlyphNames) (useTransform : option Q)
| Line (x1 y1 x2 y2 : Q).

(** A group element.  [uid] stands for the identity of the DOM node
    ([createGroup] makes a new one each time); [transform] is
    [translate(x, y)]; [children] are the elements drawn into the group and
    [subgroups] the groups appended to it ([renderChord]). *)
#[warnings="-register-all"] Inductive SVGGElement : Type :=
| mkGroup (uid : nat) (className : string) (transform : option (Q * Q))
          (children : list Child) (subgroups : list SVGGElement).

Definition uid (g : SVGGElement) : nat :=
  match g with mkGroup u _ _ _ _ => u end.
Definition className (g : SVGGElement) : string :=
  match g with mkGroup _ c _ _ _ => c end.
Definition transform (g : SVGGElement) : option (Q * Q) :=
  match g with mkGroup _ _ t _ _ => t end.
Definition children (g : SVGGElement) : list Child :=
  match g with mkGroup _ _ _ c _ => c end.
Definition subgroups (g : SVGGElement) : list SVGGElement :=
  match g with mkGroup _ _ _ _ s => s end.

(** [g.setAttribute("transform", `translate(${x}, ${y})`)]. *)
Definition setTransform (x y : Q) (g : SVGGElement) : SVGGElement :=
  mkGroup (uid g) (className g) (Some (x, y)) (children g) (subgroups g).

Definition appendChildren (cs : list Child) (g : SVGGElement) : SVGGElement :=
  mkGroup (uid g) (className g) (transform g) (children g ++ cs) (subgroups g).

Definition setSubgroups (gs : list SVGGElement) (g : SVGGElement) : SVGGElement :=
  mkGroup (uid g) (className g) (transform g) (children g) gs.

(** The renderer: the next node identity, the children of the "notes"
    layer and its class list, the [drawStaff] calls that reached the "staff"
    layer, the root's accumulated offset and height, and whether the root
    element was committed to the host document. *)
Record t : Type := mk {
  nextUid : nat;
  notesLayer : list SVGGElement;
  notesLayerClassList : list string;
  staffLayer : list (StaffStrategy * Q);
  totalRootSvgYOffset : Q;
  totalRootSvgHeight : Q;
  rootCommitted : bool
}.

(** [new SVGRenderer(rootElementCtx, {..., height: 100, ...})]. *)
Definition new : t := mk 0 [] [] [] 0 100 false.

Definition createGroup (cls : string) : M t SVGGElement :=
  fun r =>
    (Return (mkGroup (nextUid r) cls None [] []),
     mk (S (nextUid r)) (notesLayer r) (notesLayerClassList r) (staffLayer r)
        (totalRootSvgYOffset r) (totalRootSvgHeight r) (rootCommitted r)).

Definition set_notesLayer (l : list SVGGElement) (r : t) : t :=
  mk (nextUid r) l (notesLayerClassList r) (staffLayer r)
     (totalRootSvgYOffset r) (totalRootSvgHeight r) (rootCommitted r).

(** [commitElementsToDOM(groups, notesLayer)]. *)
Definition commitElementsToDOM (groups : list SVGGElement) : M t unit :=
  modify (fun r => set_notesLayer (notesLayer r ++ groups) r).

(** [getLayerByName("notes").replaceChildren()]. *)
Definition replaceChildren : M t unit :=
  modify (set_notesLayer []).

Fixpoint replaceFirst (new old : SVGGElement) (l : list SVGGElement)
    : option (list SVGGElement) :=
  match l with
  | [] => None
  | g :: l' =>
      if Nat.eqb (uid g) (uid old) then Some (new :: l')
      else option_map (cons g) (replaceFirst new old l')
  end.

(** [getLayerByName("notes").replaceChild(new, old)]; the DOM throws when
    [old] is not a child of the layer. *)
Definition replaceChild (new old : SVGGElement) : M t unit :=
  fun r =>
    match replaceFirst new old (notesLayer r) with
    | Some l => (Return tt, set_notesLayer l r)
    | None => (Throw NotFoundError, r)
    end.

(** [strategyInstance.drawStaff(width)], which draws into the "staff"
    layer. *)
Definition drawStaff (s : StaffStrategy) (width : Q) : M t unit :=
  modify (fun r =>
    mk (nextUid r) (notesLayer r) (notesLayerClassList r)
       (staffLayer r ++ [(s, width)])
       (totalRootSvgYOffset r) (totalRootSvgHeight r) (rootCommitted r)).

Definition addTotalRootSvgYOffset (y : Q) : M t unit :=
  modify (fun r =>
    mk (nextUid r) (notesLayer r) (notesLayerClassList r) (staffLayer r)
       (totalRootSvgYOffset r + y)%Q (totalRootSvgHeight r) (rootCommitted r)).

Definition addTotalRootSvgHeight (h : Q) : M t unit :=
  modify (fun r =>
    mk (nextUid r) (notesLayer r) (notesLayerClassList r) (staffLayer r)
       (totalRootSvgYOffset r) (totalRootSvgHeight r + h)%Q (rootCommitted r)).

Definition addNotesLayerClass (cls : string) : M t unit :=
  modify (fun r =>
    mk (nextUid r) (notesLayer r) (notesLayerClassList r ++ [cls]) (staffLayer r)
       (totalRootSvgYOffset r) (totalRootSvgHeight r) (rootCommitted r)).

(** [applySizingToRootSvg(); commitElementsToDOM(rootSvgElement)]. *)
Definition commitRoot : M t unit :=
  modify (fun r =>
    mk (nextUid r) (notesLayer r) (notesLayerClassList r) (staffLayer r)
       (totalRootSvgYOffset r) (totalRootSvgHeight r) true).

End SVGRenderer.

(** ** NoteRenderer (the note and chord layout engine) *)

Module NoteRenderer.
Import SVGRenderer.

Record NoteEntry : Type := mkNoteEntry {
  gElement : SVGGElement;
  note : NoteObj;
  xPos : Q;
  yPos : Q;
  accidentalXOffset : Q
}.

Record RenderNoteReturn : Type := mkRenderNoteReturn {
  noteGroup : SVGGElement;
  accidentalOffset : Q;
  cursorOffset : Q
}.

Definition set_gElement (g : SVGGElement) (n : NoteEntry) : NoteEntry :=
  mkNoteEntry g (note n) (xPos n) (yPos n) (accidentalXOffset n).

(** [href.includes("ACCIDENTAL")]. *)
Definition isAccidentalGlyph (g : GlyphNames) : bool :=
  match g with
  | ACCIDENTAL_SHARP | ACCIDENTAL_FLAT | ACCIDENTAL_NATURAL
  | ACCIDENTAL_DOUBLE_SHARP | ACCIDENTAL_DOUBLE_FLAT => true
  | _ => false
  end.

(** [Array.from(g.getElementsByTagName("use")).find(e =>
    e.getAttribute("href")?.includes("ACCIDENTAL"))]: the transform of the
    first accidental [<use>] of the group, [None] when the group has no
    such element, [Some None] when it has one that carries no transform. *)
Fixpoint accidentalElement (cs : list Child) : option (option Q) :=
  match cs with
  | [] => None
  | Use href tr :: cs' =>
      if isAccidentalGlyph href then Some tr else accidentalElement cs'
  | Line _ _ _ _ :: cs' => accidentalElement cs'
  end.

(** [accidentalElement.setAttribute("transform", `translate(${x}, 0)`)] on
    that first accidental [<use>]; nothing changes without one. *)
Fixpoint setAccidentalTransform (x : Q) (cs : list Child) : list Child :=
  match cs with
  | [] => []
  | Use href tr :: cs' =>
      if isAccidentalGlyph href then Use href (Some x) :: cs'
      else Use href tr :: setAccidentalTransform x cs'
  | Line x1 y1 x2 y2 :: cs' => Line x1 y1 x2 y2 :: setAccidentalTransform x cs'
  end.

Definition setGroupAccidentalTransform (x : Q) (g : SVGGElement) : SVGGElement :=
  mkGroup (uid g) (className g) (transform g)
          (setAccidentalTransform x (children g)) (subgroups g).

(** [Number(transform.match(/([-]?\d+)/)[0])] on [translate(x, 0)]: the
    first run of digits with its sign, which is [x] cut at the decimal
    point (for an [x] that prints in plain decimal notation). *)
Definition readTranslateX (x : Q) : Z :=
  if Qle_bool 0 x then Qfloor x else Qceiling x.

Section WithConstants.
Context {K : Constants} {H : NoteHelpers} {SM : StrategyMethods}.

Definition drawStem (noteFlip : bool) : Child :=
  if noteFlip
  then Line 0 0 0 (inject_Z NOTEHEAD_STEM_HEIGHT)
  else Line (inject_Z HALF_NOTEHEAD_WIDTH) 0
            (inject_Z HALF_NOTEHEAD_WIDTH) (- inject_Z NOTEHEAD_STEM_HEIGHT).

(** *** The consecutive-accidental pass *)

(** The three locals of [chordOffsetConsecutiveAccidentals]. *)
Record AccidentalScan : Type := mkScan {
  consecutiveXOffset : Z;
  maxConsecutiveXOffset : Z;
  currentAccidentalCount : Z
}.

(** [currNote.note.accidental], as a condition. *)
Definition hasAccidental (n : NoteEntry) : bool :=
  match accidental (note n) with Some _ => true | None => false end.

(** The first statement of the loop body: the locals after [currNote]. *)
Definition scanStep (s : AccidentalScan) (currNote : NoteEntry) : AccidentalScan :=
  if hasAccidental currNote
     && (currentAccidentalCount s <? CHORD_MAX_CONSECUTIVE_ACCIDENTALS)
  then mkScan (consecutiveXOffset s + ACCIDENTAL_OFFSET_X)
              (Z.min (maxConsecutiveXOffset s)
                     (consecutiveXOffset s + ACCIDENTAL_OFFSET_X))
              (currentAccidentalCount s + 1)
  else if hasAccidental currNote
          && (currentAccidentalCount s <=? CHORD_MAX_CONSECUTIVE_ACCIDENTALS)
  then mkScan ACCIDENTAL_OFFSET_X (maxConsecutiveXOffset s) 1
  else mkScan 0 (maxConsecutiveXOffset s) 0.

(** The second statement of the loop body: the accidental of [currNote]
    is moved when the offset is not zero. *)
Definition scanApply (s : AccidentalScan) (currNote : NoteEntry) : NoteEntry :=
  if consecutiveXOffset s =? 0 then currNote
  else set_gElement
         (setGroupAccidentalTransform
            (inject_Z (consecutiveXOffset s + - ACCIDENTAL_OFFSET_X))
            (gElement currNote))
         currNote.

(** The [for] loop, which visits every entry in order. *)
Fixpoint accidentals_loop (s : AccidentalScan) (notes : list NoteEntry)
    : AccidentalScan * list NoteEntry :=
  match notes with
  | [] => (s, [])
  | currNote :: notes' =>
      let s' := scanStep s currNote in
      let '(s'', out) := accidentals_loop s' notes' in
      (s'', scanApply s' currNote :: out)
  end.

(** [chordOffsetConsecutiveAccidentals(notes)]: the number returned and
    the entries with their groups as the pass leaves them. *)
Definition chordOffsetConsecutiveAccidentals (notes : list NoteEntry)
    : Z * list NoteEntry :=
  let '(s, out) := accidentals_loop (mkScan 0 0 0) notes in
  (- maxConsecutiveXOffset s, out).

(** *** The close-note pass *)

Definition nameOctaveIdx (n : NoteEntry) : Z :=
  getNameOctaveIdx (name (note n)) (octave (note n)).

(** The branch [nameDiff === 1] applied to [currNote]: the group is
    translated by [closeNotesXOffset], and so is, the other way, its
    accidental when it has one. *)
Definition offsetCloseNote (closeNotesXOffset : Q) (currNote : NoteEntry)
    : NoteEntry :=
  let g := setTransform closeNotesXOffset (yPos currNote) (gElement currNote) in
  let g :=
    match accidentalElement (children g) with
    | Some currentTransform =>
        let newXPos :=
          match currentTransform with
          | Some x => (- closeNotesXOffset + inject_Z (readTranslateX x))%Q
          | None => (- closeNotesXOffset)%Q
          end in
        setGroupAccidentalTransform newXPos g
    | None => g
    end in
  set_gElement g currNote.

Fixpoint replaceNth {A : Type} (i : nat) (x : A) (l : list A) : list A :=
  match l, i with
  | [], _ => []
  | _ :: l', O => x :: l'
  | y :: l', S i' => y :: replaceNth i' x l'
  end.

(** The [for (let i = 1; i < notes.length; i++)] loop with its locals
    [prevNote] ([None] for [undefined]) and [closeNotesXOffset].  Reading
    a field of an [undefined] [prevNote] would throw.  [i] grows at every
    turn, so [length notes] turns are enough. *)
Fixpoint closeNotes_loop (fuel : nat) (i : nat) (prevNote : option NoteEntry)
    (closeNotesXOffset : Q) (notes : list NoteEntry)
    : Completion (Q * list NoteEntry) :=
  match fuel with
  | O => Return (closeNotesXOffset, notes)
  | S fuel' =>
      match nth_error notes i with
      | None => Return (closeNotesXOffset, notes)   (* i >= notes.length *)
      | Some currNote =>
          match prevNote with
          | None => Throw TypeError
          | Some prev =>
              let nameDiff := nameOctaveIdx currNote - nameOctaveIdx prev in
              if nameDiff =? 1 then
                let closeNotesXOffset := (inject_Z NOTE_SPACING / 2)%Q in
                let notes :=
                  replaceNth i (offsetCloseNote closeNotesXOffset currNote) notes in
                closeNotes_loop fuel' (S (S i)) (nth_error notes (S i))
                                closeNotesXOffset notes
              else
                closeNotes_loop fuel' (S i) (Some currNote)
                                closeNotesXOffset notes
          end
      end
  end.

(** [chordOffsetCloseNotes(notes)]. *)
Definition chordOffsetCloseNotes (notes : list NoteEntry)
    : Completion (Q * list NoteEntry) :=
  closeNotes_loop (List.length notes) 1 (nth_error notes 0) 0 notes.

(** *** renderNote and renderChord *)

Definition noteHead (duration : Durations) (noteFlip : bool) : list Child :=
  match duration with
  | Half => [Use NOTE_HEAD_HALF None; drawStem noteFlip]
  | Quarter => [Use NOTE_HEAD_QUARTER None; drawStem noteFlip]
  | Eighth =>
      if noteFlip then [Use EIGHTH_NOTE_FLIPPED None] else [Use EIGHTH_NOTE None]
  | _ => [Use NOTE_HEAD_WHOLE None]
  end.

(** The accidental glyph and the offset it adds. *)
Definition noteAccidental (a : option Accidentals) : list Child * Z :=
  match a with
  | Some Sharp => ([Use ACCIDENTAL_SHARP None], - ACCIDENTAL_OFFSET_X)
  | Some Flat => ([Use ACCIDENTAL_FLAT None], - ACCIDENTAL_OFFSET_X)
  | Some Natural => ([Use ACCIDENTAL_NATURAL None], - ACCIDENTAL_OFFSET_X)
  | Some DoubleSharp =>
      ([Use ACCIDENTAL_DOUBLE_SHARP None],
       - (ACCIDENTAL_OFFSET_X + DOUBLE_SHARP_ACCIDENTAL_OFFSET_X))
  | Some DoubleFlat =>
      ([Use ACCIDENTAL_DOUBLE_FLAT None],
       - (ACCIDENTAL_OFFSET_X + DOUBLE_FLAT_ACCIDENTAL_OFFSET_X))
  | None => ([], 0)
  end.

(** [renderNote(note, ySpacing)], for the renderer of a staff whose
    strategy is [strategy]. *)
Definition renderNote (strategy : StaffStrategy) (n : NoteObj) (ySpacing : Q)
    : M SVGRenderer.t RenderNoteReturn :=
  noteGroup <- createGroup "note" ;;
  let noteFlip := shouldNoteFlip strategy ySpacing in
  let '(accidentalGlyph, xOffset) := noteAccidental (accidental n) in
  let ledgerLines :=
    getLedgerLinesX strategy (name n) (octave n) (duration n) ySpacing in
  let lines :=
    map (fun e => Line (ledger_x1 e) (ledger_yPos e) (ledger_x2 e) (ledger_yPos e))
        ledgerLines in
  ret (mkRenderNoteReturn
         (appendChildren (noteHead (duration n) noteFlip ++ accidentalGlyph ++ lines)
                         noteGroup)
         (inject_Z xOffset) 0).

(** The [for (const noteString of notes)] loop of [renderChord]. *)
Fixpoint renderChord_loop (strategy : StaffStrategy) (notes : list string)
    (noteObjs : list NoteEntry) : M SVGRenderer.t (list NoteEntry) :=
  match notes with
  | [] => ret noteObjs
  | noteString :: notes' =>
      match parseNoteString noteString with
      | None => throw ParseError
      | Some noteObj =>
          let yPos := calculateNoteYPos strategy (name noteObj) (octave noteObj) in
          res <- renderNote strategy noteObj yPos ;;
          let g := setTransform 0 yPos (noteGroup res) in
          renderChord_loop strategy notes'
            (noteObjs ++ [mkNoteEntry g noteObj 0 yPos 0])
      end
  end.

(** [renderChord(notes)].  The note groups are children of the chord
    group and are the very objects the two passes then modify: the chord
    group is given here with its children as the passes leave them. *)
Definition renderChord (strategy : StaffStrategy) (notes : list string)
    : M SVGRenderer.t RenderNoteReturn :=
  chordGroup <- createGroup "chord" ;;
  noteObjs <- renderChord_loop strategy notes [] ;;
  let '(accidentalXOffset, noteObjs) :=
    chordOffsetConsecutiveAccidentals noteObjs in
  match chordOffsetCloseNotes noteObjs with
  | Throw err => throw err
  | Return (closeNotesXOffset, noteObjs) =>
      ret (mkRenderNoteReturn
             (setSubgroups (map gElement noteObjs) chordGroup)
             (inject_Z accidentalXOffset) closeNotesXOffset)
  end.

End WithConstants.
End NoteRenderer.

(** ** MusicStaff (the pitched staff) *)

(** The options of [MusicStaff] and [ScrollingStaff] that bear on layout;
    an absent field is [None].  [staffType] is typed [StaffTypes] in the
    source, and is whatever string the caller passes at run time. *)
Record MusicStaffOptions : Type := mkMusicStaffOptions {
  opt_width : option Q;
  opt_staffType : option string;
  opt_spaceAbove : option Q;
  opt_spaceBelow : option Q
}.

(** [Required<MusicStaffOptions>]. *)
Record RequiredOptions : Type := mkRequiredOptions {
  width : Q;
  staffType : string;
  spaceAbove : Q;
  spaceBelow : Q
}.

(** [{ width: 300, staffType: "treble", spaceAbove: 0, spaceBelow: 0,
      ...options }]. *)
Definition withDefaults (options : MusicStaffOptions) : RequiredOptions :=
  mkRequiredOptions
    (match opt_width options with Some x => x | None => 300%Q end)
    (match opt_staffType options with Some x => x | None => "treble" end)
    (match opt_spaceAbove options with Some x => x | None => 0%Q end)
    (match opt_spaceBelow options with Some x => x | None => 0%Q end).

(** A number as a condition: false on zero. *)
Definition truthy (x : Q) : bool := negb (Qeq_bool x 0).

(** The [switch (this.options.staffType)] of both constructors. *)
Definition selectStrategy (staffType : string) : option StaffStrategy :=
  if String.eqb staffType "grand" then Some (GrandStaffStrategy "grand")
  else if String.eqb staffType "bass" then Some (SingleStaffStrategy "bass")
  else if String.eqb staffType "treble" then Some (SingleStaffStrategy "treble")
  else if String.eqb staffType "alto" then Some (SingleStaffStrategy "alto")
  else None.

Module MusicStaff.
Import SVGRenderer NoteRenderer.

Record t : Type := mk {
  svgRendererInstance : SVGRenderer.t;
  strategyInstance : StaffStrategy;
  options : RequiredOptions;
  noteEntries : list NoteEntry;
  noteCursorX : Q
}.

Definition set_svgRendererInstance (r : SVGRenderer.t) (st : t) : t :=
  mk r (strategyInstance st) (options st) (noteEntries st) (noteCursorX st).

Definition set_noteEntries (l : list NoteEntry) (st : t) : t :=
  mk (svgRendererInstance st) (strategyInstance st) (options st) l (noteCursorX st).

Definition set_noteCursorX (x : Q) (st : t) : t :=
  mk (svgRendererInstance st) (strategyInstance st) (options st) (noteEntries st) x.

(** A call on [this.svgRendererInstance]. *)
Definition onRenderer {A : Type} (m : M SVGRenderer.t A) : M t A :=
  fun st =>
    let '(c, r) := m (svgRendererInstance st) in
    (c, set_svgRendererInstance r st).

Section WithConstants.
Context {K : Constants} {H : NoteHelpers} {SM : StrategyMethods}.

(** The constructor, as it acts on the renderer it has just created: the
    strategy is selected, the staff drawn, the spacing applied and the
    root committed. *)
Definition construct (options : MusicStaffOptions)
    : M SVGRenderer.t (StaffStrategy * RequiredOptions) :=
  let options := withDefaults options in
  match selectStrategy (staffType options) with
  | None => throw ConfigError
  | Some strategy =>
      drawStaff strategy (width options) ;;
      (if truthy (spaceAbove options)
       then addTotalRootSvgYOffset (spaceAbove options * inject_Z STAFF_LINE_SPACING)%Q
       else ret tt) ;;
      (if truthy (spaceBelow options)
       then
         let height := (spaceBelow options * inject_Z STAFF_LINE_SPACING)%Q in
         let height :=
           if String.eqb (staffType options) "grand"
           then (height - inject_Z STAFF_LINE_SPACING / 2)%Q
           else height in
         addTotalRootSvgHeight height
       else ret tt) ;;
      commitRoot ;;
      ret (strategy, options)
  end.

(** [new MusicStaff(rootElementCtx, options)]: the instance, when there
    is one, and the renderer as the constructor leaves it. *)
Definition new (options : MusicStaffOptions) : Completion t * SVGRenderer.t :=
  match construct options SVGRenderer.new with
  | (Return (strategy, options), r) => (Return (mk r strategy options [] 0%Q), r)
  | (Throw err, r) => (Throw err, r)
  end.

Definition commitIfAny (groups : list SVGGElement) : M t unit :=
  match groups with
  | [] => ret tt
  | _ :: _ => onRenderer (commitElementsToDOM groups)
  end.

Definition pushEntry (n : NoteEntry) : M t unit :=
  modify (fun st => set_noteEntries (noteEntries st ++ [n]) st).

(** The body of the [for] loop of [drawNote]. *)
Definition drawNoteToken (noteString : string) (noteGroups : list SVGGElement)
    : M t (list SVGGElement) :=
  match parseNoteString noteString with
  | None =>
      commitIfAny noteGroups ;;
      throw ParseError
  | Some noteObj =>
      st <- get ;;
      let yPos :=
        calculateNoteYPos (strategyInstance st) (name noteObj) (octave noteObj) in
      res <- onRenderer (renderNote (strategyInstance st) noteObj yPos) ;;
      st <- get ;;
      let x := (noteCursorX st + accidentalOffset res)%Q in
      let g := setTransform x yPos (noteGroup res) in
      pushEntry (mkNoteEntry g noteObj x yPos (accidentalOffset res)) ;;
      modify (set_noteCursorX
                (noteCursorX st + (inject_Z NOTE_SPACING + accidentalOffset res))%Q) ;;
      ret (noteGroups ++ [g])
  end.

Fixpoint drawNote_loop (notes : list string) (noteGroups : list SVGGElement)
    : M t unit :=
  match notes with
  | [] => onRenderer (commitElementsToDOM noteGroups)
  | noteString :: notes' =>
      noteGroups' <- drawNoteToken noteString noteGroups ;;
      drawNote_loop notes' noteGroups'
  end.

(** [drawNote(notes)]; a single string is the one-member list. *)
Definition drawNote (notes : list string) : M t unit :=
  drawNote_loop notes [].

(** [parseNoteString(notes[0])]; [notes[0]] is there, the chord having
    two members or more. *)
Definition parseFirst (notes : list string) : M t NoteObj :=
  match notes with
  | [] => throw TypeError
  | n :: _ =>
      match parseNoteString n with
      | None => throw ParseError
      | Some noteObj => ret noteObj
      end
  end.

(** [drawChord(notes)]. *)
Definition drawChord (notes : list string) : M t unit :=
  if (Z.of_nat (List.length notes) <? 2) then throw StateError
  else
    st <- get ;;
    res <- onRenderer (renderChord (strategyInstance st) notes) ;;
    st <- get ;;
    let x := (noteCursorX st + accidentalOffset res)%Q in
    let g := setTransform x 0 (noteGroup res) in
    noteObj <- parseFirst notes ;;
    pushEntry (mkNoteEntry g noteObj x 0 (accidentalOffset res)) ;;
    modify (set_noteCursorX
              (noteCursorX st
               + (inject_Z NOTE_SPACING + accidentalOffset res + cursorOffset res))%Q) ;;
    onRenderer (commitElementsToDOM [g]).

Definition clearAllNotes : M t unit :=
  modify (set_noteCursorX 0%Q) ;;
  onRenderer replaceChildren ;;
  modify (set_noteEntries []).

(** [this.noteEntries[noteIndex]]: [undefined] ([None]) for an index that
    is negative or past the end. *)
Definition entryAt (entries : list NoteEntry) (noteIndex : Z) : option NoteEntry :=
  if noteIndex <? 0 then None else nth_error entries (Z.to_nat noteIndex).

(** [changeNoteByIndex(note, noteIndex)]. *)
Definition changeNoteByIndex (noteString : string) (noteIndex : Z) : M t unit :=
  st <- get ;;
  if Z.of_nat (List.length (noteEntries st)) <=? noteIndex then throw BoundsError
  else
    match parseNoteString noteString with
    | None => throw ParseError
    | Some noteObj =>
        let noteEntry := entryAt (noteEntries st) noteIndex in
        let newNoteYPos :=
          calculateNoteYPos (strategyInstance st) (name noteObj) (octave noteObj) in
        res <- onRenderer (renderNote (strategyInstance st) noteObj newNoteYPos) ;;
        match noteEntry with
        | None => throw TypeError   (* noteEntry.xPos on undefined *)
        | Some noteEntry =>
            let normalizedOriginalXPos :=
              (xPos noteEntry - accidentalXOffset noteEntry)%Q in
            let newXPos := (normalizedOriginalXPos + accidentalOffset res)%Q in
            let g := setTransform newXPos newNoteYPos (noteGroup res) in
            onRenderer (replaceChild g (gElement noteEntry)) ;;
            modify (fun st =>
              set_noteEntries
                (replaceNth (Z.to_nat noteIndex)
                   (mkNoteEntry g noteObj newXPos newNoteYPos (accidentalOffset res))
                   (noteEntries st))
                st)
        end
    end.

(** [changeChordByIndex(notes, chordIndex)]. *)
Definition changeChordByIndex (notes : list string) (chordIndex : Z) : M t unit :=
  st <- get ;;
  if Z.of_nat (List.length (noteEntries st)) <=? chordIndex then throw BoundsError
  else if (Z.of_nat (List.length notes) <? 2) then throw StateError
  else
    let chordEntry := entryAt (noteEntries st) chordIndex in
    res <- onRenderer (renderChord (strategyInstance st) notes) ;;
    match chordEntry with
    | None => throw TypeError   (* chordEntry.xPos on undefined *)
    | Some chordEntry =>
        let normalizedOriginalXPos :=
          (xPos chordEntry - accidentalXOffset chordEntry)%Q in
        let newXPos := (normalizedOriginalXPos + accidentalOffset res)%Q in
        let g := setTransform newXPos 0 (noteGroup res) in
        onRenderer (replaceChild g (gElement chordEntry)) ;;
        noteObj <- parseFirst notes ;;
        modify (fun st =>
          set_noteEntries
            (replaceNth (Z.to_nat chordIndex)
               (mkNoteEntry g noteObj newXPos 0 (accidentalOffset res))
               (noteEntries st))
            st)
    end.

End WithConstants.
End MusicStaff.

(** ** ScrollingStaff: its constructor *)

Module ScrollingStaff.
Import SVGRenderer.

(** The fields the constructor initialises; [activeEntries] and
    [noteBuffer] start empty. *)
Record t : Type := mk {
  svgRendererInstance : SVGRenderer.t;
  strategyInstance : StaffStrategy;
  options : RequiredOptions;
  activeEntries : list (SVGGElement * Q);
  noteBuffer : list (bool * list string);
  noteCursorX : Q
}.

Section WithConstants.
Context {K : Constants}.

Definition construct (options : MusicStaffOptions)
    : M SVGRenderer.t (StaffStrategy * RequiredOptions) :=
  let options := withDefaults options in
  match selectStrategy (staffType options) with
  | None => throw ConfigError
  | Some strategy =>
      drawStaff strategy (width options) ;;
      (if truthy (spaceAbove options)
       then addTotalRootSvgYOffset (spaceAbove options * inject_Z STAFF_LINE_SPACING)%Q
       else ret tt) ;;
      (if truthy (spaceBelow options)
       then
         let height := (spaceBelow options * inject_Z STAFF_LINE_SPACING)%Q in
         let height :=
           if String.eqb (staffType options) "grand"
           then (height - inject_Z STAFF_LINE_SPACING / 2)%Q
           else height in
         addTotalRootSvgHeight height
       else ret tt) ;;
      addNotesLayerClass "scrolling-notes-layer" ;;
      commitRoot ;;
      ret (strategy, options)
  end.

(** [new ScrollingStaff(rootElementCtx, options)]. *)
Definition new (options : MusicStaffOptions) : Completion t * SVGRenderer.t :=
  match construct options SVGRenderer.new with
  | (Return (strategy, options), r) =>
      (Return (mk r strategy options [] [] 0%Q), r)
  | (Throw err, r) => (Throw err, r)
  end.

End WithConstants.

(** *** The methods of the scrolling staff *)

Import NoteRenderer.

Definition SCROLLING_NOTE_SPACING : Q := 60.
Definition SPAWN_X_OFFSET : Q := SCROLLING_NOTE_SPACING.

Definition set_svgRendererInstance (r : SVGRenderer.t) (st : t) : t :=
  mk r (strategyInstance st) (options st) (activeEntries st) (noteBuffer st)
     (noteCursorX st).
Definition set_activeEntries (l : list (SVGGElement * Q)) (st : t) : t :=
  mk (svgRendererInstance st) (strategyInstance st) (options st) l
     (noteBuffer st) (noteCursorX st).
Definition set_noteBuffer (l : list (bool * list string)) (st : t) : t :=
  mk (svgRendererInstance st) (strategyInstance st) (options st)
     (activeEntries st) l (noteCursorX st).
Definition set_noteCursorX (x : Q) (st : t) : t :=
  mk (svgRendererInstance st) (strategyInstance st) (options st)
     (activeEntries st) (noteBuffer st) x.

(** A call on [this.svgRendererInstance]. *)
Definition onRenderer {A : Type} (m : M SVGRenderer.t A) : M t A :=
  fun st =>
    let '(c, r) := m (svgRendererInstance st) in
    (c, set_svgRendererInstance r st).

(** [noteLayer.appendChild(noteWrapper)]. *)
Definition appendChild (g : SVGGElement) : M SVGRenderer.t unit :=
  modify (fun r => set_notesLayer (notesLayer r ++ [g]) r).

Fixpoint removeFirst (old : SVGGElement) (l : list SVGGElement)
    : option (list SVGGElement) :=
  match l with
  | [] => None
  | g :: l' =>
      if Nat.eqb (uid g) (uid old) then Some l'
      else option_map (cons g) (removeFirst old l')
  end.

(** [notesLayer.removeChild(old)]; the DOM throws when [old] is not a child
    of the layer. *)
Definition removeChild (old : SVGGElement) : M SVGRenderer.t unit :=
  fun r =>
    match removeFirst old (notesLayer r) with
    | Some l => (Return tt, set_notesLayer l r)
    | None => (Throw NotFoundError, r)
    end.

(** [noteWrapper.style.transform = `translate(${x}px, 0px)`].  A wrapper is
    given no [transform] attribute: its [transform] holds the translation
    of its style. *)
Definition setStyleTransform (x : Q) (noteWrapper : SVGGElement) : SVGGElement :=
  setTransform x 0 noteWrapper.

(** The same assignment as the document sees it: the wrapper is the node
    [uid noteWrapper] of the layer when it is a child of it. *)
Definition restyleChild (x : Q) (noteWrapper : SVGGElement)
    (layer : list SVGGElement) : list SVGGElement :=
  map (fun g => if Nat.eqb (uid g) (uid noteWrapper)
                then setStyleTransform x g else g) layer.

(** [noteWrapper.appendChild(noteGroup)]. *)
Definition appendGroup (noteGroup noteWrapper : SVGGElement) : SVGGElement :=
  mkGroup (uid noteWrapper) (className noteWrapper) (transform noteWrapper)
          (children noteWrapper) (subgroups noteWrapper ++ [noteGroup]).

(** The [NoteRenderer] the scrolling staff calls (part_001): [renderNote]
    takes the note string, parses it after the group is created and
    returns the note and its height as well.  Its two chord passes are,
    but for the names of the fields ([noteGroup], [noteObj] and [noteYPos]
    for [gElement], [note] and [yPos]), those of [NoteRenderer]: the
    elements of its [noteObjs] array are given here as [NoteEntry]. *)
Module Renderer.

Record RenderNoteReturn : Type := mkRenderNoteReturn {
  noteGroup : SVGGElement;
  noteObj : NoteObj;
  noteYPos : Q;
  accidentalOffset : Q;
  cursorOffset : Q
}.

Definition set_noteGroup (g : SVGGElement) (res : RenderNoteReturn)
    : RenderNoteReturn :=
  mkRenderNoteReturn g (noteObj res) (noteYPos res) (accidentalOffset res)
                     (cursorOffset res).

Section WithConstants.
Context {K : Constants} {H : NoteHelpers} {SM : StrategyMethods}.

(** [renderNote(noteString)]. *)
Definition renderNote (strategy : StaffStrategy) (noteString : string)
    : M SVGRenderer.t RenderNoteReturn :=
  noteGroup <- createGroup "note" ;;
  match parseNoteString noteString with
  | None => throw ParseError
  | Some noteObj =>
      let yPos := calculateNoteYPos strategy (name noteObj) (octave noteObj) in
      let noteFlip := shouldNoteFlip strategy yPos in
      let '(accidentalGlyph, xOffset) := noteAccidental (accidental noteObj) in
      let ledgerLines :=
        getLedgerLinesX strategy (name noteObj) (octave noteObj)
                        (duration noteObj) yPos in
      let lines :=
        map (fun e => Line (ledger_x1 e) (ledger_yPos e) (ledger_x2 e)
                           (ledger_yPos e))
            ledgerLines in
      ret (mkRenderNoteReturn
             (appendChildren
                (noteHead (duration noteObj) noteFlip ++ accidentalGlyph ++ lines)
                noteGroup)
             noteObj yPos (inject_Z xOffset) 0)
  end.

(** The [for (const noteString of notes)] loop of [renderChord]. *)
Fixpoint renderChord_loop (strategy : StaffStrategy) (notes : list string)
    (noteObjs : list NoteEntry) : M SVGRenderer.t (list NoteEntry) :=
  match notes with
  | [] => ret noteObjs
  | noteString :: notes' =>
      res <- renderNote strategy noteString ;;
      let g := setTransform 0 (noteYPos res) (noteGroup res) in
      renderChord_loop strategy notes'
        (noteObjs ++ [mkNoteEntry g (noteObj res) 0 (noteYPos res) 0])
  end.

(** [renderChord(notes)]; reading [noteObjs[0].noteObj] of a chord without
    members throws. *)
Definition renderChord (strategy : StaffStrategy) (notes : list string)
    : M SVGRenderer.t RenderNoteReturn :=
  chordGroup <- createGroup "chord" ;;
  noteObjs <- renderChord_loop strategy notes [] ;;
  let '(accidentalXOffset, noteObjs) :=
    chordOffsetConsecutiveAccidentals noteObjs in
  match chordOffsetCloseNotes noteObjs with
  | Throw err => throw err
  | Return (closeNotesXOffset, noteObjs) =>
      match noteObjs with
      | [] => throw TypeError
      | first :: _ =>
          ret (mkRenderNoteReturn
                 (setSubgroups (map gElement noteObjs) chordGroup)
                 (note first) 0 (inject_Z accidentalXOffset) closeNotesXOffset)
      end
  end.

End WithConstants.
End Renderer.

Section Methods.
Context {K : Constants} {H : NoteHelpers} {SM : StrategyMethods}.

(** [(this.options.width - NOTE_LAYER_START_X) + SPAWN_X_OFFSET]. *)
Definition maxVisibleX (st : t) : Q :=
  (width (options st) - inject_Z NOTE_LAYER_START_X + SPAWN_X_OFFSET)%Q.

(** The two branches on [nextEntry.type], which [renderFirstNoteGroups] and
    [renderNextNote] both have: the entry is rendered and its group
    translated to its height.  An entry is [(true, notes)] for the type
    "chord" and [(false, [note])] for the type "note"; [queueNotes] makes
    no entry of type "note" without its note. *)
Definition renderBuffered (strategy : StaffStrategy)
    (nextEntry : bool * list string)
    : M SVGRenderer.t Renderer.RenderNoteReturn :=
  if fst nextEntry then
    res <- Renderer.renderChord strategy (snd nextEntry) ;;
    ret (Renderer.set_noteGroup
           (setTransform 0 (Renderer.noteYPos res) (Renderer.noteGroup res)) res)
  else
    match snd nextEntry with
    | [] => throw TypeError
    | noteString :: _ =>
        res <- Renderer.renderNote strategy noteString ;;
        ret (Renderer.set_noteGroup
               (setTransform 0 (Renderer.noteYPos res) (Renderer.noteGroup res))
               res)
    end.

(** The [while (this.noteBuffer.length > 0 && this.noteCursorX <
    maxVisibleX)] loop.  Every turn takes an entry off the buffer, so the
    length of the buffer is turns enough. *)
Fixpoint renderFirstNoteGroups_loop (fuel : nat) : M t unit :=
  match fuel with
  | O => ret tt
  | S fuel' =>
      st <- get ;;
      match noteBuffer st with
      | [] => ret tt
      | nextEntry :: _ =>
          if negb (Qle_bool (maxVisibleX st) (noteCursorX st)) then
            let currentX := noteCursorX st in
            noteWrapper <- onRenderer (createGroup "note-wrapper") ;;
            rendererReturn <-
              onRenderer (renderBuffered (strategyInstance st) nextEntry) ;;
            modify (fun st =>
              set_noteCursorX
                (noteCursorX st
                 + (SCROLLING_NOTE_SPACING
                    + Renderer.cursorOffset rendererReturn))%Q st) ;;
            let noteWrapper :=
              setStyleTransform currentX
                (appendGroup (Renderer.noteGroup rendererReturn) noteWrapper) in
            onRenderer (appendChild noteWrapper) ;;
            modify (fun st =>
              set_activeEntries (activeEntries st ++ [(noteWrapper, currentX)]) st) ;;
            modify (fun st => set_noteBuffer (tl (noteBuffer st)) st) ;;
            renderFirstNoteGroups_loop fuel'
          else ret tt
      end
  end.

(** [renderFirstNoteGroups()]. *)
Definition renderFirstNoteGroups : M t unit :=
  st <- get ;;
  renderFirstNoteGroups_loop (List.length (noteBuffer st)) ;;
  st <- get ;;
  if (1 <? List.length (activeEntries st))%nat
  then modify (set_noteCursorX (noteCursorX st - SCROLLING_NOTE_SPACING * 2)%Q)
  else ret tt.

(** [renderNextNote()]. *)
Definition renderNextNote : M t unit :=
  st <- get ;;
  match noteBuffer st with
  | [] => ret tt
  | nextNoteInBuffer :: _ =>
      noteWrapper <- onRenderer (createGroup "note-wrapper") ;;
      res <- onRenderer (renderBuffered (strategyInstance st) nextNoteInBuffer) ;;
      let noteWrapper := appendGroup (Renderer.noteGroup res) noteWrapper in
      let spawnX := (noteCursorX st + SPAWN_X_OFFSET)%Q in
      let noteWrapper := setStyleTransform spawnX noteWrapper in
      modify (fun st =>
        set_activeEntries (activeEntries st ++ [(noteWrapper, spawnX)]) st) ;;
      modify (fun st => set_noteBuffer (tl (noteBuffer st)) st) ;;
      onRenderer (appendChild noteWrapper)
  end.

(** An entry of a [NoteSequence], [string | string[]], as it is buffered. *)
Definition buffered (entry : string + list string) : bool * list string :=
  match entry with
  | inr notes => (true, notes)
  | inl note => (false, [note])
  end.

(** The [for (const entry of notes)] loop of [queueNotes]. *)
Fixpoint queueNotes_loop (notes : list (string + list string)) : M t unit :=
  match notes with
  | [] => ret tt
  | entry :: notes' =>
      modify (fun st => set_noteBuffer (noteBuffer st ++ [buffered entry]) st) ;;
      queueNotes_loop notes'
  end.

(** [queueNotes(notes)]. *)
Definition queueNotes (notes : list (string + list string)) : M t unit :=
  queueNotes_loop notes ;;
  renderFirstNoteGroups.

(** The body of the [forEach] of [advanceNotes], for the entry [e]: the
    entry moves left, and so does its wrapper, which the document shows
    when it is a child of the layer. *)
Definition advanceEntry (e : SVGGElement * Q) : SVGGElement * Q :=
  (setStyleTransform (snd e - SCROLLING_NOTE_SPACING)%Q (fst e),
   (snd e - SCROLLING_NOTE_SPACING)%Q).

Fixpoint advanceEntries_loop (entries : list (SVGGElement * Q))
    (layer : list SVGGElement) : list (SVGGElement * Q) * list SVGGElement :=
  match entries with
  | [] => ([], layer)
  | e :: entries' =>
      let layer := restyleChild (snd e - SCROLLING_NOTE_SPACING)%Q (fst e) layer in
      let '(out, layer) := advanceEntries_loop entries' layer in
      (advanceEntry e :: out, layer)
  end.

(** [advanceNotes()]. *)
Definition advanceNotes : M t unit :=
  st <- get ;;
  match activeEntries st with
  | [] => ret tt
  | _ :: _ =>
      let '(entries, layer) :=
        advanceEntries_loop (activeEntries st)
                            (notesLayer (svgRendererInstance st)) in
      modify (set_activeEntries entries) ;;
      onRenderer (modify (set_notesLayer layer)) ;;
      match entries with
      | [] => throw TypeError
      | firstActiveNote :: rest =>
          (if Qle_bool (snd firstActiveNote) 0
           then onRenderer (removeChild (fst firstActiveNote)) ;;
                modify (set_activeEntries rest)
           else ret tt) ;;
          renderNextNote
      end
  end.

(** [clearAllNotes()]. *)
Definition clearAllNotes : M t unit :=
  modify (set_noteCursorX 0) ;;
  onRenderer replaceChildren ;;
  modify (set_activeEntries []) ;;
  modify (set_noteBuffer []).

End Methods.

End ScrollingStaff.

(** ** Instances of the missing constants and helpers, for closed examples

    The theorems below are proved for every instance of [Constants],
    [NoteHelpers] and [StrategyMethods].  A closed example needs one: these
    are sample values, and nothing proved in general depends on them. *)

Definition exampleConstants : Constants := {|
  ACCIDENTAL_OFFSET_X := -10;
  CHORD_MAX_CONSECUTIVE_ACCIDENTALS := 3;
  DOUBLE_FLAT_ACCIDENTAL_OFFSET_X := -4;
  DOUBLE_SHARP_ACCIDENTAL_OFFSET_X := -4;
  HALF_NOTEHEAD_WIDTH := 10;
  NOTE_SPACING := 28;
  NOTEHEAD_STEM_HEIGHT := 30;
  STAFF_LINE_SPACING := 10;
  NOTE_LAYER_START_X := 38
|}.

(** A rhythm staff of the default width. *)
Definition exampleStaff (topNumber barsCount : Z) : Completion RhythmStaff.t :=
  RhythmStaff.new (K := exampleConstants)
                  (RhythmStaff.mkOptions 300 topNumber barsCount).

Definition parsePitch (c : ascii) : option NoteNames :=
  if Ascii.eqb c "A" then Some NoteA
  else if Ascii.eqb c "B" then Some NoteB
  else if Ascii.eqb c "C" then Some NoteC
  else if Ascii.eqb c "D" then Some NoteD
  else if Ascii.eqb c "E" then Some NoteE
  else if Ascii.eqb c "F" then Some NoteF
  else if Ascii.eqb c "G" then Some NoteG
  else None.

Definition parseAccidental (cs : list ascii) : option Accidentals * list ascii :=
  match cs with
  | "#"%char :: "#"%char :: cs' => (Some DoubleSharp, cs')
  | "#"%char :: cs' => (Some Sharp, cs')
  | "b"%char :: "b"%char :: cs' => (Some DoubleFlat, cs')
  | "b"%char :: cs' => (Some Flat, cs')
  | "n"%char :: cs' => (Some Natural, cs')
  | _ => (None, cs)
  end.

Definition digitValue (c : ascii) : option Z :=
  let n := nat_of_ascii c in
  if ((48 <=? n) && (n <=? 57))%nat then Some (Z.of_nat n - 48) else None.

(** The leading digits of [cs], read as a number on top of [acc], how many
    there were, and what follows them. *)
Fixpoint parseDigits (acc : Z) (count : nat) (cs : list ascii)
    : Z * nat * list ascii :=
  match cs with
  | [] => (acc, count, [])
  | c :: cs' =>
      match digitValue c with
      | Some v => parseDigits (10 * acc + v) (S count) cs'
      | None => (acc, count, cs)
      end
  end.

Definition parseDurationChar (c : ascii) : option Durations :=
  if Ascii.eqb c "w" then Some Whole
  else if Ascii.eqb c "h" then Some Half
  else if Ascii.eqb c "q" then Some Quarter
  else if Ascii.eqb c "e" then Some Eighth
  else None.

(** Modelled from the spec: [parseNoteString] of helpers/notehelpers.ts, which
    is not among the sources.  "Full-token grammar:
    <Pitch:[A-G]><Accidental?:#|b|n|##|bb><Octave:digits><Duration:w|h|q|e>.
    Fails with ParseError when pitch, accidental, octave, or duration symbols
    are missing or unrecognized." *)
Definition exampleParseNoteString (noteString : string) : option NoteObj :=
  match list_ascii_of_string noteString with
  | [] => None
  | p :: cs =>
      match parsePitch p with
      | None => None
      | Some pitch =>
          let '(acc, cs) := parseAccidental cs in
          match parseDigits 0 0 cs with
          | (_, O, _) => None
          | (oct, S _, [d]) =>
              match parseDurationChar d with
              | Some dur => Some (mkNoteObj pitch oct dur acc)
              | None => None
              end
          | _ => None
          end
      end
  end.

Definition noteStep (n : NoteNames) : Z :=
  match n with
  | NoteC => 0 | NoteD => 1 | NoteE => 2 | NoteF => 3
  | NoteG => 4 | NoteA => 5 | NoteB => 6
  end.

(** Modelled from the spec: [getNameOctaveIdx], "integer = f(octave,
    pitchName), strictly monotonic with pitch height". *)
Definition exampleGetNameOctaveIdx (n : NoteNames) (oct : Z) : Z :=
  7 * oct + noteStep n.

Definition exampleHelpers : NoteHelpers := {|
  parseNoteString := exampleParseNoteString;
  getNameOctaveIdx := exampleGetNameOctaveIdx
|}.

(** A strategy for the closed examples: a note sits half a line spacing
    lower per diatonic step below F5, a stem flips from the middle line up, and
    no ledger line is drawn. *)
Definition exampleStrategyMethods : StrategyMethods := {|
  calculateNoteYPos := fun _ n oct =>
    (inject_Z (38 - exampleGetNameOctaveIdx n oct) * (10 / 2))%Q;
  shouldNoteFlip := fun _ y => Qle_bool y 20;
  getLedgerLinesX := fun _ _ _ _ _ => []
|}.

(** ** Definitions of the statements *)

Module RhythmSpec.
Import RhythmStaff.

(** The rests the filler is made of. *)
Definition restDenominations : list Durations := [Half; Quarter; Eighth].

(** Modelled on the spec's words: a "greedy largest-fits-first
    decomposition over {half, quarter, eighth}" of [r] ticks: each rest
    fits what is left, no other rest that fits is longer, and nothing is
    left at the end. *)
Inductive GreedyRests : Z -> list Durations -> Prop :=
| GreedyRests_nil : GreedyRests 0 []
| GreedyRests_cons (r : Z) (d : Durations) (ds : list Durations) :
    In d restDenominations ->
    durationBeatValueMap d <= r ->
    (forall d', In d' restDenominations -> durationBeatValueMap d' <= r ->
                durationBeatValueMap d' <= durationBeatValueMap d) ->
    GreedyRests (r - durationBeatValueMap d) ds ->
    GreedyRests r (d :: ds).

Definition totalBeats (ds : list Durations) : Z :=
  fold_right (fun d acc => durationBeatValueMap d + acc) 0 ds.

(** The rest groups for the durations [ds], laid out from [cursor] on. *)
Fixpoint fillerRests (cursor quarterNoteSpacing : Z) (ds : list Durations)
    : list SVGGElement :=
  match ds with
  | [] => []
  | d :: ds' =>
      mkGroup "rest" (Some cursor) (renderRest d)
      :: fillerRests (cursor + durationBeatValueMap d * quarterNoteSpacing)
                     quarterNoteSpacing ds'
  end.

(** What a token that overflows its bar does: the bar is filled with the
    rests [ds], the cursor moves on by one bar gap, and the token's group
    (of class [cls], drawn by [render]) is placed there; nothing is
    committed yet. *)
Definition fillsBarThenPlaces
    (token : string -> list SVGGElement -> M t (list SVGGElement))
    (cls : string) (render : Durations -> list Shape)
    (st : t) (tokenString : string) (d : Durations)
    (pending : list SVGGElement) (ds : list Durations) : Prop :=
  let st1 := snd (checkAndCreateNewBar st) in
  let rests := fillerRests (noteCursorX st1) (quarterNoteSpacing st) ds in
  let barStart :=
    noteCursorX st1 + remainingBeatsInBar st * quarterNoteSpacing st
    + quarters BAR_SPACING in
  let group := mkGroup cls (Some barStart) (render d) in
  exists st',
    token tokenString pending st = (Return (pending ++ rests ++ [group]), st') /\
    noteEntries st' = noteEntries st ++ rests ++ [group] /\
    notesLayer st' = notesLayer st /\
    currentBeatCount st' =
      currentBeatCount st + remainingBeatsInBar st + durationBeatValueMap d /\
    noteCursorX st' = barStart + durationBeatValueMap d * quarterNoteSpacing st.

(** The class and the shapes of every group drawn so far, in order. *)
Definition drawnShapes (st : t) : list (string * list Shape) :=
  map (fun g => (className g, shapes g)) (noteEntries st).

(** The beat value of a rest glyph. *)
Definition restBeats (s : Shape) : Z :=
  match s with
  | Glyph REST_WHOLE _ => durationBeatValueMap Whole
  | Glyph REST_HALF _ => durationBeatValueMap Half
  | Glyph REST_QUARTER _ => durationBeatValueMap Quarter
  | Glyph REST_EIGHTH _ => durationBeatValueMap Eighth
  | _ => 0
  end.

(** The beats of the rests among [groups]. *)
Definition restBeatsOf (groups : list SVGGElement) : Z :=
  fold_right (fun g acc => fold_right (fun s a => restBeats s + a) 0 (shapes g) + acc)
             0 groups.

(** The note heads of a group. *)
Definition noteHeads (g : SVGGElement) : nat :=
  List.length (filter (fun s => match s with
                                | Glyph NOTE_HEAD_QUARTER _ => true
                                | _ => false
                                end) (shapes g)).

Definition isRestGroup (g : SVGGElement) : Prop := className g = "rest".

(** The groups of class "note" among [groups], in order. *)
Definition noteGroupsOf (groups : list SVGGElement) : list SVGGElement :=
  filter (fun g => String.eqb (className g) "note") groups.

(** What [drawNote] draws for a well-formed member. *)
Definition tokenShapes (noteString : string) : list Shape :=
  match parseDurationNoteString noteString with
  | Some d => renderNote d
  | None => []
  end.

(** The number of notes a beam draws: [noteCount], or the least whole number
    of notes that covers the beats remaining, if that is less. *)
Definition beamedCount (noteCount remaining beatValue : Z) : Z :=
  Z.min noteCount ((remaining + beatValue - 1) / beatValue).

(** The heads and stems of [m] beamed notes, [spacing] apart from [localX]. *)
Fixpoint beamHeads (localX spacing : Z) (m : nat) : list Shape :=
  match m with
  | O => []
  | S m' =>
      Glyph NOTE_HEAD_QUARTER localX :: Stem localX
      :: beamHeads (localX + spacing) spacing m'
  end.

(** The configuration of the staff is kept and the beat count has not gone
    down. *)
Definition staffKept (st st' : t) : Prop :=
  topNumber st' = topNumber st /\
  barsCount st' = barsCount st /\
  quarterNoteSpacing st' = quarterNoteSpacing st /\
  maxBeatCount st' = maxBeatCount st /\
  currentBeatCount st <= currentBeatCount st'.

(** The staff that the constructor returns, for the closed examples. *)
Definition constructed (c : Completion t) : t :=
  match c with
  | Return st => st
  | Throw _ => mk 0 0 0 0 [] 0 0 []
  end.

End RhythmSpec.

(** *** The chord passes *)

Section ChordSpecDefs.
Import SVGRenderer NoteRenderer.
Context {K : Constants} {H : NoteHelpers}.

(** The entries [i - 1] and [i] of [notes] are exactly one diatonic step
    apart. *)
Definition oneStepAbove (notes : list NoteEntry) (i : nat) : bool :=
  match i with
  | O => false
  | S j =>
      match nth_error notes j, nth_error notes i with
      | Some prev, Some curr => nameOctaveIdx curr - nameOctaveIdx prev =? 1
      | _, _ => false
      end
  end.

(** The entries the close-note pass offsets: the second of two entries one
    step apart, unless the first was itself offset. *)
Fixpoint offsetByPass (notes : list NoteEntry) (i : nat) : bool :=
  match i with
  | O => false
  | S j => oneStepAbove notes (S j) && negb (offsetByPass notes j)
  end.

Definition closeNotesXOffset : Q := (inject_Z NOTE_SPACING / 2)%Q.

(** The entry [n'] is [n] after the offset [c]: its group is translated
    to [(c, yPos)], and its first accidental, if it has one, is translated
    by [- c] on top of the whole part of the translation it had. *)
Definition closeNoteOffsetApplied (c : Q) (n n' : NoteEntry) : Prop :=
  note n' = note n /\ xPos n' = xPos n /\ yPos n' = yPos n /\
  accidentalXOffset n' = accidentalXOffset n /\
  uid (gElement n') = uid (gElement n) /\
  transform (gElement n') = Some (c, yPos n) /\
  accidentalElement (children (gElement n')) =
    match accidentalElement (children (gElement n)) with
    | None => None
    | Some (Some x) => Some (Some (- c + inject_Z (readTranslateX x))%Q)
    | Some None => Some (Some (- c)%Q)
    end.

Definition afterCloseNotes (notes : list NoteEntry) (i : nat) (n : NoteEntry)
    : NoteEntry :=
  if offsetByPass notes i then offsetCloseNote closeNotesXOffset n else n.
End ChordSpecDefs.


Section AccidentalSpecDefs.
Import SVGRenderer NoteRenderer.
Context {K : Constants}.

(** For each entry, the length so far of the run of consecutive
    accidental-bearing entries that it ends (0 for an entry without an
    accidental); [prev] is the length of the run before the first entry. *)
Fixpoint runLengths (prev : nat) (flags : list bool) : list nat :=
  match flags with
  | [] => []
  | b :: flags' =>
      let r := if b then S prev else O in
      r :: runLengths r flags'
  end.

(** The place of the entry inside its stack: the run is cut into stacks of
    [CHORD_MAX_CONSECUTIVE_ACCIDENTALS] entries, and the place counts from
    1 inside each. *)
Definition runPosition (runLength : nat) : Z :=
  match runLength with
  | O => 0
  | S k => Z.of_nat k mod CHORD_MAX_CONSECUTIVE_ACCIDENTALS + 1
  end.

Definition stackedOffset (runLength : nat) : Z :=
  ACCIDENTAL_OFFSET_X * runPosition runLength.

Definition stackedOffsets (notes : list NoteEntry) : list Z :=
  map stackedOffset (runLengths 0 (map hasAccidental notes)).

Definition mostNegative (offsets : list Z) : Z :=
  fold_right Z.min 0 offsets.

(** The locals of the pass after an entry that ends a run of length [r]. *)
Definition scanInvariant (s : AccidentalScan) (r : nat) : Prop :=
  currentAccidentalCount s = runPosition r /\
  consecutiveXOffset s = stackedOffset r /\
  maxConsecutiveXOffset s <= consecutiveXOffset s /\
  maxConsecutiveXOffset s <= 0.

(** The entry with its accidental, when it has one, translated by
    [offset] less the one unit the glyph already carries; untouched for a
    zero offset. *)
Definition withStackedAccidental (offset : Z) (n : NoteEntry) : NoteEntry :=
  if offset =? 0 then n
  else set_gElement
         (setGroupAccidentalTransform
            (inject_Z (offset + - ACCIDENTAL_OFFSET_X)) (gElement n)) n.

Fixpoint zipWith {A B C : Type} (f : A -> B -> C) (l1 : list A) (l2 : list B)
    : list C :=
  match l1, l2 with
  | a :: l1', b :: l2' => f a b :: zipWith f l1' l2'
  | _, _ => []
  end.
End AccidentalSpecDefs.


Section PitchedExamples.
Import SVGRenderer NoteRenderer.

(** The entries [renderChord] hands to its two passes, for the closed
    examples. *)
Definition exampleChordEntries (notes : list string) : list NoteEntry :=
  match renderChord_loop (K := exampleConstants) (H := exampleHelpers)
          (SM := exampleStrategyMethods)
          (SingleStaffStrategy "treble") notes [] SVGRenderer.new with
  | (Return entries, _) => entries
  | (Throw _, _) => []
  end.

(** A treble staff on which [notes] were drawn, for the closed examples. *)
Definition exampleMusicStaff (notes : list string) : MusicStaff.t :=
  match MusicStaff.new (K := exampleConstants)
          (mkMusicStaffOptions None None None None) with
  | (Return st, _) =>
      snd (MusicStaff.drawNote (K := exampleConstants)
             (H := exampleHelpers) (SM := exampleStrategyMethods) notes st)
  | (Throw _, r) =>
      MusicStaff.mk r (SingleStaffStrategy "treble")
        (withDefaults (mkMusicStaffOptions None None None None)) [] 0%Q
  end.
End PitchedExamples.

(** *** The constructors *)

Definition supportedStaffTypes : list string := ["treble"; "bass"; "alto"; "grand"].

(** The strategy that goes with a supported staff type: the grand strategy
    for "grand", a single-clef strategy of that clef otherwise. *)
Definition expectedStrategy (staffType : string) : StaffStrategy :=
  if String.eqb staffType "grand" then GrandStaffStrategy "grand"
  else SingleStaffStrategy staffType.

(** *** The layout of the rhythm staff, in closed form *)

Module RhythmLayout.
Import RhythmStaff RhythmSpec.

(** The durations of the rests that the [while] loop of
    [createRemainingRests] draws for [beatsLeft] ticks, within [fuel]
    turns. *)
Fixpoint fillerDurations (fuel : nat) (beatsLeft : Z) : list Durations :=
  match fuel with
  | O => []
  | S fuel' =>
      if 0 <? beatsLeft
      then biggestRest beatsLeft
           :: fillerDurations fuel'
                (beatsLeft - durationBeatValueMap (biggestRest beatsLeft))
      else []
  end.

(** The test of [checkAndCreateNewBar]: the bar is full and is not the
    last. *)
Definition startsNewBar (st : t) : bool :=
  (0 <? currentBeatCount st) && (beatInBar st =? 0)
  && (currentBeatCount st <? maxBeatCount st).

(** The cursor after [checkAndCreateNewBar]. *)
Definition cursorAtToken (st : t) : Z :=
  if startsNewBar st then noteCursorX st + quarters BAR_SPACING
  else noteCursorX st.

(** The test of [checkAndFillBarWithRests]. *)
Definition overflows (st : t) (beatValue : Z) : bool :=
  remainingBeatsInBar st <? beatValue.

(** The filler rests a token of [beatValue] ticks brings with it. *)
Definition fillerFor (st : t) (beatValue : Z) : list Durations :=
  if overflows st beatValue
  then fillerDurations (Z.to_nat (remainingBeatsInBar st)) (remainingBeatsInBar st)
  else [].

(** Where the group of a token of [beatValue] ticks is placed. *)
Definition tokenX (st : t) (beatValue : Z) : Z :=
  cursorAtToken st
  + totalBeats (fillerFor st beatValue) * quarterNoteSpacing st
  + (if overflows st beatValue then quarters BAR_SPACING else 0).

(** A well-formed token of duration [d] on a staff that is not full: the
    groups it adds (the filler rests, then its own group of class [cls],
    drawn by [render]) and the staff after it, nothing being committed
    yet. *)
Definition placeToken (cls : string) (render : Durations -> list Shape)
    (d : Durations) (st : t) : list SVGGElement * t :=
  let beatValue := durationBeatValueMap d in
  let rests :=
    fillerRests (cursorAtToken st) (quarterNoteSpacing st) (fillerFor st beatValue) in
  let group := mkGroup cls (Some (tokenX st beatValue)) (render d) in
  (rests ++ [group],
   mk (topNumber st) (barsCount st) (quarterNoteSpacing st)
      (tokenX st beatValue + beatValue * quarterNoteSpacing st)
      (noteEntries st ++ rests ++ [group])
      (maxBeatCount st)
      (currentBeatCount st + totalBeats (fillerFor st beatValue) + beatValue)
      (notesLayer st)).

(** The beamed group [drawBeamedNotes(note, noteCount)] draws for the
    duration [d], and the staff after it. *)
Definition placeBeam (note : string) (d : Durations) (noteCount : Z) (st : t)
    : SVGGElement * t :=
  let beatValue := durationBeatValueMap d in
  let spacingAmount := beatValue * quarterNoteSpacing st in
  let m := Z.to_nat (beamedCount noteCount (remainingBeatsInBar st) beatValue) in
  let localX := Z.of_nat m * spacingAmount in
  let beams :=
    BeamRect (localX - spacingAmount) 0 ::
    (if String.eqb note "s"
     then [BeamRect (localX - spacingAmount) BEAM_LINE_Y_OFFSET]
     else []) in
  let group :=
    mkGroup "beamed-note" (Some (cursorAtToken st))
            (beamHeads 0 spacingAmount m ++ beams) in
  (group,
   mk (topNumber st) (barsCount st) (quarterNoteSpacing st)
      (cursorAtToken st + localX)
      (noteEntries st ++ [group])
      (maxBeatCount st)
      (currentBeatCount st + Z.of_nat m * beatValue)
      (notesLayer st ++ [group])).

(** The states of a staff: [st] is reached from [st0] by calls of the public
    methods, each of which has returned or thrown. *)
Inductive reachable (st0 : t) : t -> Prop :=
| reachable_start : reachable st0 st0
| reachable_drawNote (st : t) (notes : list string) :
    reachable st0 st -> reachable st0 (snd (drawNote notes st))
| reachable_drawRest (st : t) (rests : list string) :
    reachable st0 st -> reachable st0 (snd (drawRest rests st))
| reachable_drawBeamedNotes (st : t) (note : string) (noteCount : Z) :
    reachable st0 st -> reachable st0 (snd (drawBeamedNotes note noteCount st))
| reachable_clearAllNotes (st : t) :
    reachable st0 st -> reachable st0 (snd (clearAllNotes st)).

(** The horizontal position of a group. *)
Definition groupX (g : SVGGElement) : Z :=
  match transform g with
  | Some x => x
  | None => 0
  end.

(** A staff on which nothing is drawn. *)
Definition emptyStaff (st : t) : Prop :=
  noteCursorX st = 0 /\ currentBeatCount st = 0 /\
  noteEntries st = [] /\ notesLayer st = [].

(** The accounting that every method keeps; [pending] are the groups
    drawn by a batch and not yet committed.  The tracking list is the layer
    followed by the pending groups; the beat count is not negative and
    exceeds the capacity by 17 ticks at most; the cursor is the beat count
    times the spacing, plus [k] bar gaps, one at most for each bar that was
    begun after the first. *)
Definition accounted (pending : list SVGGElement) (st : t) : Prop :=
  0 < topNumber st /\ 0 <= barsCount st /\
  maxBeatCount st = quarters (barsCount st * topNumber st) /\
  0 <= currentBeatCount st <= maxBeatCount st + 17 /\
  noteEntries st = notesLayer st ++ pending /\
  exists k : Z,
    0 <= k /\
    (k = 0 \/ k * quarters (topNumber st) < currentBeatCount st) /\
    noteCursorX st
    = currentBeatCount st * quarterNoteSpacing st + k * quarters BAR_SPACING.

(** The groups [entries] are placed from left to right before [cursor]:
    each has a position, which is not negative, lies before [cursor] and
    lies after the position of the group before it. *)
Definition placedBefore (entries : list SVGGElement) (cursor : Z) : Prop :=
  StronglySorted Z.lt (map groupX entries) /\
  Forall (fun g => exists x, transform g = Some x /\ 0 <= x < cursor) entries.

Definition leftToRight (st : t) : Prop :=
  placedBefore (noteEntries st) (noteCursorX st).

(** The spacing is positive, the cursor is not negative and the groups are
    placed from left to right. *)
Definition spaced (st : t) : Prop :=
  0 < quarterNoteSpacing st /\ 0 <= noteCursorX st /\ leftToRight st.

(** The two staffs hold groups at the same places, one for one, and count
    the same beats. *)
Definition samePlaces (st1 st2 : t) : Prop :=
  topNumber st1 = topNumber st2 /\ barsCount st1 = barsCount st2 /\
  quarterNoteSpacing st1 = quarterNoteSpacing st2 /\
  maxBeatCount st1 = maxBeatCount st2 /\
  currentBeatCount st1 = currentBeatCount st2 /\
  noteCursorX st1 = noteCursorX st2 /\
  map transform (noteEntries st1) = map transform (noteEntries st2) /\
  map transform (notesLayer st1) = map transform (notesLayer st2).

End RhythmLayout.

(** *** The beat marker of the rhythm staff *)

Module BeatUI.
Import RhythmStaff.

Definition STAFF_SPACING : Z := 30.

(** The rectangle [rendererInstance.drawRect(width, height, uiLayer,
    {x, fill})] returns, as far as the class reads and writes it: its size
    and its [x] and [display] attributes ([None] for an attribute that is
    not set). *)
Record SVGRectElement : Type := mkRect {
  rect_width : Q;
  rect_height : Z;
  rect_x : Z;
  rect_display : option string
}.

(** The three fields of a [RhythmStaff] that the marker methods write.
    [currentBeatUICount] is in beats and [currentBeatUIXPos] in pixels; the
    methods read [topNumber], [quarterNoteSpacing] and [maxBeatCount] of
    the staff and write none of its other fields. *)
Record t : Type := mk {
  currentBeatUICount : Z;
  currentBeatUIElement : option SVGRectElement;
  currentBeatUIXPos : Z
}.

Definition set_currentBeatUICount (c : Z) (u : t) : t :=
  mk c (currentBeatUIElement u) (currentBeatUIXPos u).

Definition set_currentBeatUIElement (e : option SVGRectElement) (u : t) : t :=
  mk (currentBeatUICount u) e (currentBeatUIXPos u).

Definition set_currentBeatUIXPos (x : Z) (u : t) : t :=
  mk (currentBeatUICount u) (currentBeatUIElement u) x.

(** [this.currentBeatUIElement!.setAttribute(...)]: the attribute is set on
    the element; on [null] the call is a TypeError. *)
Definition onElement (f : SVGRectElement -> SVGRectElement) : M t unit :=
  fun u =>
    match currentBeatUIElement u with
    | Some r => (Return tt, set_currentBeatUIElement (Some (f r)) u)
    | None => (Throw TypeError, u)
    end.

Definition setDisplay (d : option string) (r : SVGRectElement) : SVGRectElement :=
  mkRect (rect_width r) (rect_height r) (rect_x r) d.

Definition setX (x : Z) (r : SVGRectElement) : SVGRectElement :=
  mkRect (rect_width r) (rect_height r) x (rect_display r).

(** [getAttribute("display") === "none"]. *)
Definition isHidden (r : SVGRectElement) : bool :=
  match rect_display r with
  | Some d => String.eqb d "none"
  | None => false
  end.

Section WithConstants.
Context {K : Constants}.

Definition CURRENT_BEAT_UI_START_X_POS : Z := NOTE_LAYER_START_X.

(** The fields as their initialisers leave them. *)
Definition new : t := mk 0 None CURRENT_BEAT_UI_START_X_POS.

Definition createBeatUIElement (st : RhythmStaff.t) : M t unit :=
  modify (set_currentBeatUIElement
            (Some (mkRect (inject_Z (quarterNoteSpacing st) / 2)
                          (STAFF_SPACING * 2)
                          CURRENT_BEAT_UI_START_X_POS None))).

(** [incrementCurrentBeatUI()], on the staff [st]. *)
Definition incrementCurrentBeatUI (st : RhythmStaff.t) : M t unit :=
  u <- get ;;
  (match currentBeatUIElement u with
   | None => createBeatUIElement st
   | Some _ => ret tt
   end) ;;
  u <- get ;;
  if maxBeatCount st <=? quarters (currentBeatUICount u) then
    onElement (setDisplay (Some "none"))
  else
    (match currentBeatUIElement u with
     | Some r => if isHidden r then onElement (setDisplay None) else ret tt
     | None => ret tt
     end) ;;
    modify (fun u => set_currentBeatUICount (currentBeatUICount u + 1) u) ;;
    u <- get ;;
    (if (topNumber st <? currentBeatUICount u)
        && (Z.rem (currentBeatUICount u) (topNumber st) =? 1)
     then modify (fun u => set_currentBeatUIXPos (currentBeatUIXPos u + BAR_SPACING) u)
     else ret tt) ;;
    (if 1 <? currentBeatUICount u
     then modify (fun u =>
            set_currentBeatUIXPos (currentBeatUIXPos u + quarterNoteSpacing st) u)
     else ret tt) ;;
    u <- get ;;
    onElement (setX (currentBeatUIXPos u)).

(** [resetCurrentBeatUI()]. *)
Definition resetCurrentBeatUI : M t unit :=
  modify (set_currentBeatUICount 0) ;;
  modify (set_currentBeatUIXPos CURRENT_BEAT_UI_START_X_POS) ;;
  u <- get ;;
  match currentBeatUIElement u with
  | Some _ =>
      onElement (setDisplay (Some "none")) ;;
      onElement (setX (currentBeatUIXPos u))
  | None => ret tt
  end.

(** [n] calls of [incrementCurrentBeatUI] in a row. *)
Fixpoint increments (st : RhythmStaff.t) (n : nat) : M t unit :=
  match n with
  | O => ret tt
  | S n' => incrementCurrentBeatUI st ;; increments st n'
  end.

(** Where the marker stands at beat [n], for [1 <= n]: one spacing further
    for each beat after the first, and one bar gap further for each bar
    before the beat's. *)
Definition markerX (st : RhythmStaff.t) (n : Z) : Z :=
  CURRENT_BEAT_UI_START_X_POS
  + (n - 1) * quarterNoteSpacing st
  + BAR_SPACING * ((n - 1) / topNumber st).

(** The marker fields at beat [n]: the count is [n], the position is the
    start for [n = 0] and [markerX st n] after, and the rectangle, which is
    there as soon as a beat was counted, stands at that position. *)
Definition atBeat (st : RhythmStaff.t) (n : Z) (u : t) : Prop :=
  currentBeatUICount u = n /\
  currentBeatUIXPos u
  = (if n =? 0 then CURRENT_BEAT_UI_START_X_POS else markerX st n) /\
  match currentBeatUIElement u with
  | Some r => rect_x r = currentBeatUIXPos u
  | None => n = 0
  end.

(** The groups of [n] quarter notes drawn one after the other from beat
    [j] on: each stands where the marker stands at its beat, the start of
    the notes layer taken off. *)
Fixpoint quarterNotesFrom (st : RhythmStaff.t) (j : Z) (n : nat)
    : list SVGGElement :=
  match n with
  | O => []
  | S n' =>
      mkGroup "note"
        (Some (quarters (markerX st (j + 1) - CURRENT_BEAT_UI_START_X_POS)))
        (renderNote Quarter)
      :: quarterNotesFrom st (j + 1) n'
  end.

End WithConstants.
End BeatUI.

(** *** The layout of the pitched staff, in closed form *)

Module PitchedLayout.
Import SVGRenderer NoteRenderer MusicStaff.

(** The renderer after [k] calls of [createGroup]. *)
Definition takeUids (k : nat) (r : SVGRenderer.t) : SVGRenderer.t :=
  SVGRenderer.mk (nextUid r + k) (notesLayer r) (notesLayerClassList r)
    (staffLayer r) (totalRootSvgYOffset r) (totalRootSvgHeight r)
    (rootCommitted r).

Section WithConstants.
Context {K : Constants} {H : NoteHelpers} {SM : StrategyMethods}.

(** The group [renderNote] draws for the note [n] at [ySpacing], as the
    node [u]: the head, the accidental and the ledger lines. *)
Definition noteGroupOf (strategy : StaffStrategy) (n : NoteObj) (ySpacing : Q)
    (u : nat) : SVGGElement :=
  mkGroup u "note" None
    (noteHead (duration n) (shouldNoteFlip strategy ySpacing)
     ++ fst (noteAccidental (accidental n))
     ++ map (fun e => Line (ledger_x1 e) (ledger_yPos e) (ledger_x2 e) (ledger_yPos e))
            (getLedgerLinesX strategy (name n) (octave n) (duration n) ySpacing))
    [].

(** The offset [renderNote] returns for the accidental of [n]. *)
Definition accidentalOffsetOf (n : NoteObj) : Q :=
  inject_Z (snd (noteAccidental (accidental n))).

Definition yPosOf (strategy : StaffStrategy) (n : NoteObj) : Q :=
  calculateNoteYPos strategy (name n) (octave n).

(** The entry for the note [n] placed from [x0] (the cursor for [drawNote],
    the head's own position for [changeNoteByIndex]), as the node [u]. *)
Definition noteEntryAt (strategy : StaffStrategy) (n : NoteObj) (x0 : Q)
    (u : nat) : NoteEntry :=
  mkNoteEntry
    (setTransform (x0 + accidentalOffsetOf n)%Q (yPosOf strategy n)
       (noteGroupOf strategy n (yPosOf strategy n) u))
    n (x0 + accidentalOffsetOf n)%Q (yPosOf strategy n) (accidentalOffsetOf n).

(** The entries [renderChord] makes for the members [notes] before its two
    passes, the first as the node [u]; the list stops at a member that does
    not parse. *)
Fixpoint chordEntriesFrom (strategy : StaffStrategy) (u : nat)
    (notes : list string) : list NoteEntry :=
  match notes with
  | [] => []
  | noteString :: notes' =>
      match parseNoteString noteString with
      | Some n =>
          mkNoteEntry
            (setTransform 0 (yPosOf strategy n)
               (noteGroupOf strategy n (yPosOf strategy n) u))
            n 0 (yPosOf strategy n) 0
          :: chordEntriesFrom strategy (S u) notes'
      | None => []
      end
  end.

(** What [renderChord(notes)] returns when every member parses, the chord
    group being the node [u]: the two passes are run on the entries, and the
    groups they leave are the children of the chord group. *)
Definition chordReturn (strategy : StaffStrategy) (u : nat) (notes : list string)
    : RenderNoteReturn :=
  let '(accidentalXOffset, noteObjs) :=
    chordOffsetConsecutiveAccidentals (chordEntriesFrom strategy (S u) notes) in
  match chordOffsetCloseNotes noteObjs with
  | Return (closeNotesXOffset, noteObjs) =>
      mkRenderNoteReturn
        (setSubgroups (map gElement noteObjs) (mkGroup u "chord" None [] []))
        (inject_Z accidentalXOffset) closeNotesXOffset
  | Throw _ =>
      mkRenderNoteReturn (mkGroup u "chord" None [] []) (inject_Z accidentalXOffset) 0
  end.

(** The entry a chord is tracked by: the chord group placed from [x0] (the
    cursor for [drawChord], the chord's own position for
    [changeChordByIndex]), with the first member as its note. *)
Definition chordEntryAt (strategy : StaffStrategy) (notes : list string)
    (n : NoteObj) (x0 : Q) (u : nat) : NoteEntry :=
  mkNoteEntry
    (setTransform (x0 + accidentalOffset (chordReturn strategy u notes))%Q 0
       (noteGroup (chordReturn strategy u notes)))
    n (x0 + accidentalOffset (chordReturn strategy u notes))%Q 0
    (accidentalOffset (chordReturn strategy u notes)).

(** The states of a staff: [st] is reached from [st0] by calls of the
    public methods, each of which has returned or thrown. *)
Inductive reachable (st0 : MusicStaff.t) : MusicStaff.t -> Prop :=
| reachable_start : reachable st0 st0
| reachable_drawNote (st : MusicStaff.t) (notes : list string) :
    reachable st0 st -> reachable st0 (snd (drawNote notes st))
| reachable_drawChord (st : MusicStaff.t) (notes : list string) :
    reachable st0 st -> reachable st0 (snd (drawChord notes st))
| reachable_clearAllNotes (st : MusicStaff.t) :
    reachable st0 st -> reachable st0 (snd (clearAllNotes st))
| reachable_changeNoteByIndex (st : MusicStaff.t) (note : string) (noteIndex : Z) :
    reachable st0 st ->
    reachable st0 (snd (changeNoteByIndex note noteIndex st))
| reachable_changeChordByIndex (st : MusicStaff.t) (notes : list string)
    (chordIndex : Z) :
    reachable st0 st ->
    reachable st0 (snd (changeChordByIndex notes chordIndex st)).

(** The groups [groups] are distinct nodes that the renderer [r] has
    created. *)
Definition ownNodes (groups : list SVGGElement) (r : SVGRenderer.t) : Prop :=
  NoDup (map uid groups) /\
  Forall (fun g => (uid g < nextUid r)%nat) groups.

(** The tracking list and the document agree; [pending] are the groups
    drawn by a batch and not yet committed.  The groups of the entries are
    the children of the notes layer followed by the pending groups, in
    order, and they are distinct nodes of the renderer. *)
Definition tracked (pending : list SVGGElement) (st : MusicStaff.t) : Prop :=
  map gElement (noteEntries st)
  = notesLayer (svgRendererInstance st) ++ pending /\
  ownNodes (notesLayer (svgRendererInstance st) ++ pending)
           (svgRendererInstance st).

(** The notes [ns] drawn one after the other from [cursor] on, the first as
    the node [u]: each is placed at the cursor plus the offset of its
    accidental, and moves the cursor on by [NOTE_SPACING] plus that
    offset. *)
Fixpoint placedNotes (strategy : StaffStrategy) (cursor : Q) (u : nat)
    (ns : list NoteObj) : list NoteEntry :=
  match ns with
  | [] => []
  | n :: ns' =>
      noteEntryAt strategy n cursor u
      :: placedNotes strategy
           (cursor + (inject_Z NOTE_SPACING + accidentalOffsetOf n))%Q (S u) ns'
  end.

Fixpoint cursorAfter (cursor : Q) (ns : list NoteObj) : Q :=
  match ns with
  | [] => cursor
  | n :: ns' =>
      cursorAfter (cursor + (inject_Z NOTE_SPACING + accidentalOffsetOf n))%Q ns'
  end.

(** A member of a batch or of a chord that does not parse. *)
Definition malformed (noteString : string) : bool :=
  match parseNoteString noteString with
  | Some _ => false
  | None => true
  end.

(** Where the group of the member [i] of a chord stands inside the chord
    group: moved right by the close-note offset, or not at all. *)
Definition chordNoteX (entries : list NoteEntry) (i : nat) : Q :=
  if offsetByPass entries i then closeNotesXOffset else 0%Q.

(** Where the accidental of the member [i] stands inside its note group:
    at its stacked offset less the unit its glyph carries, and as far to the
    left again as the group was moved to the right. *)
Definition chordAccidentalX (entries : list NoteEntry) (i : nat) : Q :=
  let stacked :=
    inject_Z (nth i (stackedOffsets entries) 0 + - ACCIDENTAL_OFFSET_X) in
  if offsetByPass entries i then (- closeNotesXOffset + stacked)%Q else stacked.

(** One of the members before the [i]-th is offset by the close-note pass. *)
Definition offsetBefore (entries : list NoteEntry) (i : nat) : bool :=
  existsb (offsetByPass entries) (seq 0 i).

(** The room a chord takes beside its note spacing: half a note spacing
    when one of its members is offset to the right, none otherwise. *)
Definition chordCursorOffset (entries : list NoteEntry) : Q :=
  if offsetBefore entries (List.length entries) then closeNotesXOffset else 0%Q.

(** The staff [st'] is the staff [st] later: the same strategy and options,
    and the same renderer but for the notes layer and the nodes created. *)
Definition laterStaff (st st' : MusicStaff.t) : Prop :=
  strategyInstance st' = strategyInstance st /\
  options st' = options st /\
  exists k : nat,
    SVGRenderer.set_notesLayer [] (svgRendererInstance st')
    = takeUids k (SVGRenderer.set_notesLayer [] (svgRendererInstance st)).

End WithConstants.
End PitchedLayout.

(** *** The scrolling staff, in closed form *)

Module ScrollingLayout.
Import SVGRenderer NoteRenderer ScrollingStaff PitchedLayout.

Section WithConstants.
Context {K : Constants} {H : NoteHelpers} {SM : StrategyMethods}.

(** The error for which an entry of the buffer cannot be drawn, if there is
    one: a member that does not parse, or no member at all. *)
Definition entryError (entry : bool * list string) : option Error :=
  if fst entry then
    if existsb malformed (snd entry) then Some ParseError
    else match snd entry with
         | [] => Some TypeError
         | _ :: _ => None
         end
  else
    match snd entry with
    | [] => Some TypeError
    | noteString :: _ => if malformed noteString then Some ParseError else None
    end.

(** The states of a staff: [st] is reached from [st0] by calls of the
    public methods, each of which has returned or thrown. *)
Inductive reachable (st0 : ScrollingStaff.t) : ScrollingStaff.t -> Prop :=
| reachable_start : reachable st0 st0
| reachable_queueNotes (st : ScrollingStaff.t)
    (notes : list (string + list string)) :
    reachable st0 st -> reachable st0 (snd (queueNotes notes st))
| reachable_advanceNotes (st : ScrollingStaff.t) :
    reachable st0 st -> reachable st0 (snd (advanceNotes st))
| reachable_clearAllNotes (st : ScrollingStaff.t) :
    reachable st0 st -> reachable st0 (snd (clearAllNotes st)).

(** The wrapper of an active entry stands where the entry says. *)
Definition wrapperAt (e : SVGGElement * Q) : Prop :=
  className (fst e) = "note-wrapper" /\ transform (fst e) = Some (snd e, 0%Q).

(** The document shows the active entries: the children of the notes layer
    are the wrappers of the active entries, in order; each is translated to
    the position of its entry; they are distinct nodes of the renderer. *)
Definition shown (st : ScrollingStaff.t) : Prop :=
  notesLayer (svgRendererInstance st) = map fst (activeEntries st) /\
  Forall wrapperAt (activeEntries st) /\
  ownNodes (map fst (activeEntries st)) (svgRendererInstance st).

(** The active entries after the scroll of [advanceNotes]: every entry has
    moved left by the note spacing, and the first is gone when it has
    reached the left edge. *)
Definition advanced (entries : list (SVGGElement * Q))
    : list (SVGGElement * Q) :=
  match map advanceEntry entries with
  | [] => []
  | first :: rest => if Qle_bool (snd first) 0 then rest else first :: rest
  end.

(** The wrapper that [renderFirstNoteGroups] and [renderNextNote] make for
    the rendered entry [res], as the node [u], at [x]. *)
Definition wrapperOf (res : Renderer.RenderNoteReturn) (u : nat) (x : Q)
    : SVGGElement :=
  setStyleTransform x
    (appendGroup (Renderer.noteGroup res) (mkGroup u "note-wrapper" None [] [])).

(** The staff after the rendered entry [res] was taken off the buffer and
    shown at [x], the renderer being [r] by then and the cursor moving to
    [cursor]. *)
Definition withEntryShown (res : Renderer.RenderNoteReturn) (x cursor : Q)
    (r : SVGRenderer.t) (st : ScrollingStaff.t) : ScrollingStaff.t :=
  let w := wrapperOf res (nextUid (svgRendererInstance st)) x in
  ScrollingStaff.mk
    (SVGRenderer.set_notesLayer (notesLayer r ++ [w]) r)
    (strategyInstance st) (options st)
    (activeEntries st ++ [(w, x)]) (tl (noteBuffer st)) cursor.




(** The staff [st'] is the staff [st] later: the same strategy and options,
    and the same renderer but for the notes layer and the nodes created. *)
Definition later (st st' : ScrollingStaff.t) : Prop :=
  strategyInstance st' = strategyInstance st /\
  options st' = options st /\
  exists k : nat,
    SVGRenderer.set_notesLayer [] (svgRendererInstance st')
    = takeUids k (SVGRenderer.set_notesLayer [] (svgRendererInstance st)).

End WithConstants.
End ScrollingLayout.

(** A scrolling treble staff of the default width as the constructor leaves
    it, for the closed examples. *)
Definition exampleScrollingStaff : ScrollingStaff.t :=
  match ScrollingStaff.new (K := exampleConstants)
          (mkMusicStaffOptions None None None None) with
  | (Return st, _) => st
  | (Throw _, r) =>
      ScrollingStaff.mk r (SingleStaffStrategy "treble")
        (withDefaults (mkMusicStaffOptions None None None None)) [] [] 0%Q
  end.

(** * Theorems *)

(** ** The rhythm staff *)

Section RhythmStaffFacts.
Import RhythmStaff RhythmSpec.

Lemma biggestRest_greedy (r : Z) :
2 <= r ->
In (biggestRest r) restDenominations /\
durationBeatValueMap (biggestRest r) <= r /\
(forall d', In d' restDenominations -> durationBeatValueMap d' <= r ->
            durationBeatValueMap d' <= durationBeatValueMap (biggestRest r)).
Proof.
intros Hr. unfold biggestRest, restDenominations. simpl.
destruct (0 <=? r - 8) eqn:E8; [|destruct (0 <=? r - 4) eqn:E4].
- apply Z.leb_le in E8. simpl. repeat split; auto; try lia.
  intros d' [<-|[<-|[<-|[]]]]; simpl; lia.
- apply Z.leb_gt in E8. apply Z.leb_le in E4. simpl. repeat split; auto; try lia.
  intros d' [<-|[<-|[<-|[]]]]; simpl; lia.
- apply Z.leb_gt in E8. apply Z.leb_gt in E4. simpl. repeat split; auto; try lia.
  intros d' [<-|[<-|[<-|[]]]]; simpl; lia.
Qed.

Lemma biggestRest_even (r : Z) : Z.even (durationBeatValueMap (biggestRest r)) = true.
Proof. unfold biggestRest. destruct (0 <=? r - _); [|destruct (0 <=? r - _)]; reflexivity. Qed.

Lemma createRemainingRests_loop_spec (fuel : nat) :
forall (beatsLeft : Z) (acc : list SVGGElement) (st : t),
  0 <= beatsLeft -> Z.even beatsLeft = true ->
  (Z.to_nat beatsLeft <= fuel)%nat ->
  exists ds,
    GreedyRests beatsLeft ds /\ totalBeats ds = beatsLeft /\
    createRemainingRests_loop fuel beatsLeft acc st =
    (Return (acc ++ fillerRests (noteCursorX st) (quarterNoteSpacing st) ds),
     set_noteCursorX (noteCursorX st + beatsLeft * quarterNoteSpacing st)
       (set_currentBeatCount (currentBeatCount st + beatsLeft) st)).
Proof.
induction fuel as [|fuel IH]; intros beatsLeft acc st Hpos Heven Hfuel.
- assert (beatsLeft = 0) by lia. subst. exists []. repeat split; [constructor|].
  simpl. unfold ret. rewrite app_nil_r. destruct st; unfold set_noteCursorX, set_currentBeatCount; simpl.
  do 2 f_equal; lia.
- simpl. destruct (0 <? beatsLeft) eqn:E.
  + apply Z.ltb_lt in E.
    assert (H2 : 2 <= beatsLeft).
    { destruct (Z.eq_dec beatsLeft 1) as [->|]; [discriminate|lia]. }
    destruct (biggestRest_greedy beatsLeft H2) as (Hin & Hle & Hmax).
    pose proof (biggestRest_even beatsLeft) as Hev.
    set (d := biggestRest beatsLeft) in *.
    assert (Hd2 : 2 <= durationBeatValueMap d).
    { destruct Hin as [<-|[<-|[<-|[]]]]; simpl; lia. }
    unfold bind, get, modify at 1 2.
    edestruct (IH (beatsLeft - durationBeatValueMap d)) as (ds & Hg & Hsum & Heq);
      [lia | rewrite Z.even_sub, Heven, Hev; reflexivity | lia | ].
    rewrite Heq. exists (d :: ds). split; [|split].
    * constructor; assumption.
    * unfold totalBeats in *. simpl. lia.
    * destruct st; unfold set_noteCursorX, set_currentBeatCount; simpl.
      rewrite <- app_assoc. simpl. do 2 f_equal; lia.
  + apply Z.ltb_ge in E. assert (beatsLeft = 0) by lia. subst.
    exists []. repeat split; [constructor|].
    unfold ret. simpl. rewrite app_nil_r. destruct st; unfold set_noteCursorX, set_currentBeatCount; simpl.
    do 2 f_equal; lia.
Qed.

Lemma checkAndCreateNewBar_run (st : t) :
exists x,
  checkAndCreateNewBar st = (Return tt, set_noteCursorX x st) /\
  (x = noteCursorX st \/ x = noteCursorX st + quarters BAR_SPACING).
Proof.
unfold checkAndCreateNewBar, bind, get.
destruct ((0 <? currentBeatCount st) && (beatInBar st =? 0)
          && (currentBeatCount st <? maxBeatCount st)).
- exists (noteCursorX st + quarters BAR_SPACING). split; [reflexivity|now right].
- exists (noteCursorX st). split; [|now left].
  unfold ret. destruct st; reflexivity.
Qed.

Lemma remainingBeatsInBar_set_noteCursorX (x : Z) (st : t) :
remainingBeatsInBar (set_noteCursorX x st) = remainingBeatsInBar st.
Proof. reflexivity. Qed.

Lemma even_rem_quarters (a n : Z) :
0 <= a -> 0 < n -> Z.even (Z.rem a (quarters n)) = Z.even a.
Proof.
intros Ha Hn. unfold quarters.
rewrite Z.rem_mod_nonneg by lia.
rewrite Z.mod_eq by lia.
rewrite Z.even_sub, <- Z.mul_assoc, Z.even_mul.
change (Z.even 4) with true. cbn [orb].
destruct (Z.even a); reflexivity.
Qed.

Lemma remainingBeatsInBar_bounds (st : t) :
0 < topNumber st -> 0 <= currentBeatCount st ->
0 < remainingBeatsInBar st <= quarters (topNumber st).
Proof.
intros Hn Hc. unfold remainingBeatsInBar, beatInBar.
rewrite Z.rem_mod_nonneg by (unfold quarters; lia).
pose proof (Z.mod_pos_bound (currentBeatCount st) (quarters (topNumber st))).
unfold quarters in *. lia.
Qed.

Lemma remainingBeatsInBar_even (st : t) :
0 < topNumber st -> 0 <= currentBeatCount st ->
Z.even (currentBeatCount st) = true ->
Z.even (remainingBeatsInBar st) = true.
Proof.
intros Hn Hc He. unfold remainingBeatsInBar, beatInBar.
rewrite Z.even_sub, even_rem_quarters, He by assumption.
unfold quarters. rewrite Z.even_mul. reflexivity.
Qed.

Lemma bar_is_full_after_filling (st : t) :
0 < topNumber st -> 0 <= currentBeatCount st ->
Z.rem (currentBeatCount st + remainingBeatsInBar st) (quarters (topNumber st)) = 0.
Proof.
intros Hn Hc. unfold remainingBeatsInBar, beatInBar.
assert (Hq : 0 < quarters (topNumber st)) by (unfold quarters; lia).
rewrite !Z.rem_mod_nonneg; try lia.
- set (m := quarters (topNumber st)) in *.
  replace (currentBeatCount st + (m - currentBeatCount st mod m))
    with (m * (currentBeatCount st / m + 1)).
  + rewrite Z.mul_comm. apply Z.mod_mul. lia.
  + rewrite (Z.div_mod (currentBeatCount st) m) at 2 by lia. lia.
- pose proof (Z.mod_pos_bound (currentBeatCount st) (quarters (topNumber st)) Hq).
  rewrite Z.rem_mod_nonneg by lia. lia.
Qed.

Lemma checkAndFillBarWithRests_overflow (beatValue : Z) (st : t) :
0 < topNumber st -> 0 <= currentBeatCount st ->
Z.even (currentBeatCount st) = true ->
remainingBeatsInBar st < beatValue ->
exists ds,
  GreedyRests (remainingBeatsInBar st) ds /\
  totalBeats ds = remainingBeatsInBar st /\
  checkAndFillBarWithRests beatValue st =
  (Return (Some (fillerRests (noteCursorX st) (quarterNoteSpacing st) ds)),
   set_noteCursorX
     (noteCursorX st + remainingBeatsInBar st * quarterNoteSpacing st
      + quarters BAR_SPACING)
     (set_currentBeatCount (currentBeatCount st + remainingBeatsInBar st) st)).
Proof.
intros Hn Hc He Hov.
pose proof (remainingBeatsInBar_bounds st Hn Hc) as Hb.
destruct (createRemainingRests_loop_spec
            (Z.to_nat (remainingBeatsInBar st)) (remainingBeatsInBar st) [] st)
  as (ds & Hg & Hsum & Heq);
  [lia | now apply remainingBeatsInBar_even | lia |].
exists ds. split; [assumption|]. split; [assumption|].
unfold checkAndFillBarWithRests, bind, get.
apply Z.ltb_lt in Hov. rewrite Hov.
unfold createRemainingRests. rewrite Heq. simpl.
unfold handleNewBar, modify, ret. simpl.
destruct st; reflexivity.
Qed.

(** Claim C4, as amended.  In [drawNote] and [drawRest], a token whose beat
  value exceeds the beats remaining in the current bar, met while the beat
  count is a whole number of eighth notes, makes the engine draw filler rests
  that are a greedy largest-fits-first decomposition over half, quarter and
  eighth of exactly the remainder; the bar is then full, the cursor moves
  on by one bar gap and the token is placed there.  With one beat
  remaining the filler is exactly one quarter rest. *)
Theorem C4_overflow_fills_bar_with_greedy_rests :
forall (st : t) (tokenString : string) (d : Durations)
       (pending : list SVGGElement),
  parseDurationNoteString tokenString = Some d ->
  0 < topNumber st ->
  0 <= currentBeatCount st < maxBeatCount st ->
  Z.even (currentBeatCount st) = true ->
  remainingBeatsInBar st < durationBeatValueMap d ->
  exists ds : list Durations,
    GreedyRests (remainingBeatsInBar st) ds /\
    totalBeats ds = remainingBeatsInBar st /\
    Z.rem (currentBeatCount st + totalBeats ds) (quarters (topNumber st)) = 0 /\
    fillsBarThenPlaces drawNoteToken "note" renderNote st tokenString d pending ds /\
    fillsBarThenPlaces drawRestToken "rest" renderRest st tokenString d pending ds /\
    (remainingBeatsInBar st = quarters 1 -> ds = [Quarter]).
Proof.
intros st tokenString d pending Hparse Hn [Hc Hmax] He Hov.
destruct (checkAndCreateNewBar_run st) as (x & Hbar & _).
set (st1 := set_noteCursorX x st).
destruct (checkAndFillBarWithRests_overflow (durationBeatValueMap d) st1)
  as (ds & Hg & Hsum & Hfill); try assumption.
exists ds. change (remainingBeatsInBar st1) with (remainingBeatsInBar st) in *.
split; [assumption|]. split; [assumption|]. split.
{ rewrite Hsum. now apply bar_is_full_after_filling. }
assert (Hguard : (maxBeatCount st <=? currentBeatCount st) = false)
  by (apply Z.leb_gt; lia).
split; [|split].
- unfold fillsBarThenPlaces. rewrite Hbar. cbn [snd].
  unfold drawNoteToken. rewrite Hparse. unfold bind at 1. unfold get at 1.
  rewrite Hguard. unfold bind at 1. rewrite Hbar.
  unfold bind at 1. fold st1. rewrite Hfill.
  eexists. split; [reflexivity|].
  destruct st; cbn. repeat split; try reflexivity; try lia.
  rewrite <- app_assoc. reflexivity.
- unfold fillsBarThenPlaces. rewrite Hbar. cbn [snd].
  unfold drawRestToken. rewrite Hparse. unfold bind at 1. unfold get at 1.
  rewrite Hguard. unfold bind at 1. rewrite Hbar.
  unfold bind at 1. fold st1. rewrite Hfill.
  eexists. split; [reflexivity|].
  destruct st; cbn. repeat split; try reflexivity; try lia.
  rewrite <- app_assoc. reflexivity.
- intros H1. rewrite H1 in Hg. unfold quarters in Hg. simpl in Hg.
  inversion Hg as [|r d1 ds1 Hin Hle Hbig Hrest]; subst.
  assert (d1 = Quarter).
  { destruct Hin as [<-|[<-|[<-|[]]]]; simpl in *; try lia; try reflexivity.
    specialize (Hbig Quarter). simpl in Hbig.
    assert (4 <= 2) by (apply Hbig; [right; left; reflexivity | lia]). lia. }
  subst. simpl in Hrest. inversion Hrest as [|r d2 ds2 Hin2 Hle2 _ _]; subst.
  + reflexivity.
  + destruct Hin2 as [<-|[<-|[<-|[]]]]; simpl in *; lia.
Qed.

Lemma createRemainingRests_loop_groups (fuel : nat) :
forall (beatsLeft : Z) (acc : list SVGGElement) (st : t),
exists new st',
  createRemainingRests_loop fuel beatsLeft acc st = (Return (acc ++ new), st') /\
  Forall isRestGroup new /\
  noteEntries st' = noteEntries st /\ notesLayer st' = notesLayer st /\
  maxBeatCount st' = maxBeatCount st.
Proof.
induction fuel as [|fuel IH]; intros beatsLeft acc st.
- exists [], st. simpl. unfold ret. rewrite app_nil_r. repeat split; constructor.
- simpl. destruct (0 <? beatsLeft).
  + unfold bind, get, modify at 1 2.
    match goal with
    | |- context [createRemainingRests_loop fuel ?b ?a ?s] =>
        destruct (IH b a s) as (new & st' & Heq & Hall & He & Hl & Hm)
    end.
    rewrite Heq. eexists (_ :: new), st'. rewrite <- app_assoc. simpl.
    split; [reflexivity|]. split; [constructor; [reflexivity|assumption]|].
    destruct st; simpl in *. auto.
  + exists [], st. unfold ret. rewrite app_nil_r. repeat split; constructor.
Qed.

Lemma checkAndFillBarWithRests_groups (beatValue : Z) (st : t) :
exists rests st',
  checkAndFillBarWithRests beatValue st = (Return rests, st') /\
  Forall isRestGroup (match rests with Some l => l | None => [] end) /\
  noteEntries st' = noteEntries st /\ notesLayer st' = notesLayer st /\
  maxBeatCount st' = maxBeatCount st.
Proof.
unfold checkAndFillBarWithRests, bind, get.
destruct (remainingBeatsInBar st <? beatValue).
- unfold createRemainingRests.
  destruct (createRemainingRests_loop_groups
              (Z.to_nat (remainingBeatsInBar st)) (remainingBeatsInBar st) [] st)
    as (new & st' & Heq & Hall & He & Hl & Hm).
  rewrite Heq. simpl. eexists (Some new), _. split; [reflexivity|].
  destruct st'; simpl in *. auto.
- exists None, st. repeat split; constructor.
Qed.

(** The three ways a member of a [drawNote] batch can end. *)
Lemma drawNoteToken_cases (noteString : string) (pending : list SVGGElement) (st : t) :
(parseDurationNoteString noteString = None /\
 drawNoteToken noteString pending st = (Throw ParseError, snd (commitIfAny pending st)))
\/
(exists d, parseDurationNoteString noteString = Some d /\
 maxBeatCount st <= currentBeatCount st /\
 drawNoteToken noteString pending st = (Throw MaxBeatError, snd (commitIfAny pending st)))
\/
(exists d rests x st',
   parseDurationNoteString noteString = Some d /\
   currentBeatCount st < maxBeatCount st /\
   drawNoteToken noteString pending st =
     (Return (pending ++ rests ++ [mkGroup "note" (Some x) (renderNote d)]), st') /\
   Forall isRestGroup rests /\
   noteEntries st' =
     noteEntries st ++ rests ++ [mkGroup "note" (Some x) (renderNote d)] /\
   notesLayer st' = notesLayer st /\
   maxBeatCount st' = maxBeatCount st).
Proof.
unfold drawNoteToken.
destruct (parseDurationNoteString noteString) as [d|] eqn:Hparse.
- right.
  destruct (maxBeatCount st <=? currentBeatCount st) eqn:Hmax.
  + left. exists d. apply Z.leb_le in Hmax. repeat split; try assumption.
    unfold bind at 1. unfold get at 1. apply Z.leb_le in Hmax. rewrite Hmax.
    unfold bind, throw. destruct (commitIfAny pending st) as [[[]|err] st1] eqn:Hc;
      [reflexivity|].
    destruct pending; discriminate.
  + right.
    destruct (checkAndCreateNewBar_run st) as (x0 & Hbar & _).
    destruct (checkAndFillBarWithRests_groups (durationBeatValueMap d)
                (set_noteCursorX x0 st)) as (rests & st1 & Hfill & Hall & He & Hl & Hm).
    exists d, (match rests with Some l => l | None => [] end), (noteCursorX st1).
    eexists. split; [reflexivity|]. split; [now apply Z.leb_gt in Hmax|].
    split.
    { unfold bind at 1. unfold get at 1. rewrite Hmax.
      unfold bind at 1. rewrite Hbar. unfold bind at 1. rewrite Hfill.
      reflexivity. }
    split; [assumption|].
    destruct st1, st; simpl in *. subst.
    repeat split. rewrite <- app_assoc. reflexivity.
- left. split; [reflexivity|].
  unfold bind, throw. destruct (commitIfAny pending st) as [[[]|err] st1] eqn:Hc;
    [reflexivity|].
  destruct pending; discriminate.
Qed.

Lemma commitIfAny_run (pending : list SVGGElement) (st : t) :
commitIfAny pending st = commitElementsToDOM pending st.
Proof.
destruct pending; [|reflexivity].
unfold commitIfAny, commitElementsToDOM, modify, ret.
rewrite app_nil_r. destruct st; reflexivity.
Qed.

Lemma drawNote_loop_malformed (bad : string) (rest : list string) :
parseDurationNoteString bad = None ->
forall (pre : list string) (pending : list SVGGElement) (st st' : t),
  drawNote_loop pre pending st = (Return tt, st') ->
  drawNote_loop (pre ++ bad :: rest) pending st = (Throw ParseError, st').
Proof.
intros Hbad. induction pre as [|a pre IH]; intros pending st st' Hrun.
- simpl in *. unfold bind.
  destruct (drawNoteToken_cases bad pending st)
    as [[_ ->]|[(d & Hd & _)|(d & ? & ? & ? & Hd & _)]]; try congruence.
  rewrite commitIfAny_run. rewrite Hrun. reflexivity.
- simpl in *. unfold bind in *.
  destruct (drawNoteToken a pending st) as [[g|err] st1]; [|discriminate].
  now apply IH.
Qed.

Lemma drawNote_loop_failure (rest : list string) :
forall (pre : list string) (pending : list SVGGElement) (st st' : t) (err : Error),
  drawNote_loop pre pending st = (Throw err, st') ->
  drawNote_loop (pre ++ rest) pending st = (Throw err, st').
Proof.
induction pre as [|a pre IH]; intros pending st st' err Hrun.
- discriminate.
- simpl in *. unfold bind in *.
  destruct (drawNoteToken a pending st) as [[g|e1] st1]; [|assumption].
  now apply IH.
Qed.

Lemma noteGroupsOf_rests (rests : list SVGGElement) :
Forall isRestGroup rests -> noteGroupsOf rests = [].
Proof.
induction 1 as [|g l Hg _ IH]; [reflexivity|].
unfold noteGroupsOf in *. simpl. rewrite Hg. simpl. exact IH.
Qed.

Lemma drawNote_loop_committed :
forall (pre : list string) (pending : list SVGGElement) (st st' : t),
  drawNote_loop pre pending st = (Return tt, st') ->
  exists groups,
    notesLayer st' = notesLayer st ++ pending ++ groups /\
    noteEntries st' = noteEntries st ++ groups /\
    map shapes (noteGroupsOf groups) = map tokenShapes pre.
Proof.
induction pre as [|a pre IH]; intros pending st st' Hrun.
- simpl in Hrun. injection Hrun as <-. exists []. simpl.
  rewrite !app_nil_r. destruct st; repeat split.
- simpl in Hrun. unfold bind in Hrun.
  destruct (drawNoteToken_cases a pending st)
    as [[_ Heq]|[(d & _ & _ & Heq)|(d & rests & x & st1 & Hd & _ & Heq & Hall & He & Hl & _)]];
    rewrite Heq in Hrun; try discriminate.
  destruct (IH _ _ _ Hrun) as (groups & Hlayer & Hentries & Hshapes).
  exists (rests ++ [mkGroup "note" (Some x) (renderNote d)] ++ groups).
  rewrite Hlayer, Hentries, Hl, He. rewrite <- !app_assoc. simpl.
  repeat split.
  pose proof (noteGroupsOf_rests rests Hall) as Hr.
  unfold noteGroupsOf in *. rewrite filter_app, Hr.
  simpl. rewrite Hshapes. unfold tokenShapes at 2. rewrite Hd. reflexivity.
Qed.


Lemma drawNote_loop_stops :
  forall (notes : list string) (pending : list SVGGElement) (st : t),
    Exists (fun s => parseDurationNoteString s = None) notes ->
    exists pre failing rest err st',
      notes = pre ++ failing :: rest /\
      Forall (fun s => parseDurationNoteString s <> None) pre /\
      ((err = ParseError /\ parseDurationNoteString failing = None) \/
       (err = MaxBeatError /\ parseDurationNoteString failing <> None)) /\
      drawNote_loop pre pending st = (Return tt, st') /\
      forall rest', drawNote_loop (pre ++ failing :: rest') pending st
                    = (Throw err, st').
Proof.
  induction notes as [|a notes IH]; intros pending st Hex.
  - inversion Hex.
  - destruct (drawNoteToken_cases a pending st)
      as [[Hp Heq]|[(d & Hp & _ & Heq)|(d & rests & x & st1 & Hp & _ & Heq & _)]].
    + exists [], a, notes, ParseError. eexists. split; [reflexivity|].
      split; [constructor|]. split; [left; split; [reflexivity|assumption]|].
      split; [reflexivity|].
      intros rest'. cbn. unfold bind. rewrite Heq.
      rewrite commitIfAny_run. reflexivity.
    + exists [], a, notes, MaxBeatError. eexists. split; [reflexivity|].
      split; [constructor|]. split; [right; split; [reflexivity|congruence]|].
      split; [reflexivity|].
      intros rest'. cbn. unfold bind. rewrite Heq.
      rewrite commitIfAny_run. reflexivity.
    + assert (Hex' : Exists (fun s => parseDurationNoteString s = None) notes).
      { inversion Hex; subst; [congruence|assumption]. }
      destruct (IH (pending ++ rests ++ [mkGroup "note" (Some x) (renderNote d)])
                   st1 Hex')
        as (pre & failing & rest & err & st' & -> & Hall & Herr & Hpre & Hstop).
      exists (a :: pre), failing, rest, err, st'. split; [reflexivity|].
      split; [constructor; [congruence|assumption]|]. split; [assumption|].
      split.
      * cbn. unfold bind. rewrite Heq. assumption.
      * intros rest'. cbn. unfold bind. rewrite Heq. apply Hstop.
Qed.

(** Claim C4, the amended statement at a concrete input: a 4/4 staff of two
  bars with three quarter notes drawn, and the token "h". *)
Lemma C4_overflow_witness :
exists ds : list Durations,
  GreedyRests (remainingBeatsInBar
                 (snd (drawNote ["q"; "q"; "q"] (constructed (exampleStaff 4 2))))) ds /\
  totalBeats ds
    = remainingBeatsInBar
        (snd (drawNote ["q"; "q"; "q"] (constructed (exampleStaff 4 2)))) /\
  Z.rem (currentBeatCount
           (snd (drawNote ["q"; "q"; "q"] (constructed (exampleStaff 4 2))))
         + totalBeats ds)
        (quarters (topNumber
           (snd (drawNote ["q"; "q"; "q"] (constructed (exampleStaff 4 2)))))) = 0 /\
  fillsBarThenPlaces drawNoteToken "note" renderNote
    (snd (drawNote ["q"; "q"; "q"] (constructed (exampleStaff 4 2)))) "h" Half [] ds /\
  fillsBarThenPlaces drawRestToken "rest" renderRest
    (snd (drawNote ["q"; "q"; "q"] (constructed (exampleStaff 4 2)))) "h" Half [] ds /\
  (remainingBeatsInBar
     (snd (drawNote ["q"; "q"; "q"] (constructed (exampleStaff 4 2)))) = quarters 1 ->
   ds = [Quarter]).
Proof.
apply (C4_overflow_fills_bar_with_greedy_rests
         (snd (drawNote ["q"; "q"; "q"] (constructed (exampleStaff 4 2))))
         "h" Half []).
- reflexivity.
- vm_compute. reflexivity.
- vm_compute. split; [discriminate|reflexivity].
- vm_compute. reflexivity.
- vm_compute. reflexivity.
Defined.

(** Claim C4 as stated fails after a beam of sixteenth notes.  On a 4/4
  staff, three beamed sixteenths leave 3.25 beats (13 ticks) in the bar; a
  whole note then overflows, and the filler is a half, a quarter and an
  eighth rest: 3.5 beats (14 ticks), one sixteenth more than the
  remainder, so that the whole note starts a sixteenth past the bar line. *)
Lemma C4_counterexample_sixteenth_remainder :
exists s1 s2 : t,
  drawBeamedNotes "s" 3 (constructed (exampleStaff 4 2)) = (Return tt, s1) /\
  remainingBeatsInBar s1 = 13 /\
  drawNote ["w"] s1 = (Return tt, s2) /\
  drawnShapes s2 =
    [("beamed-note",
      [Glyph NOTE_HEAD_QUARTER 0; Stem 0; Glyph NOTE_HEAD_QUARTER 31; Stem 31;
       Glyph NOTE_HEAD_QUARTER 62; Stem 62; BeamRect 62 0; BeamRect 62 6]);
     ("rest", [Glyph REST_HALF 0]);
     ("rest", [Glyph REST_QUARTER 0]);
     ("rest", [Glyph REST_EIGHTH 0]);
     ("note", [Glyph NOTE_HEAD_WHOLE 0])] /\
  restBeatsOf (noteEntries s2) = 14 /\
  currentBeatCount s2 = 3 + 14 + 16.
Proof.
do 2 eexists.
split; [vm_compute; reflexivity|].
split; [vm_compute; reflexivity|].
split; [vm_compute; reflexivity|].
repeat split.
Qed.

(** Claim C1 on the code: on a 4/4 staff of one bar, [drawNote(["q", "q",
  "q", "h"])] draws three quarter notes, which leave one beat in the bar,
  then one filler quarter rest, and then draws the half note all the same:
  the call returns, five groups are committed, and the beat count is 6
  against a capacity of 4.  No MaxBeatError is thrown. *)
Theorem C1_half_note_drawn_past_the_only_bar :
exists st0 st3 st4 : t,
  exampleStaff 4 1 = Return st0 /\
  drawNote ["q"; "q"; "q"] st0 = (Return tt, st3) /\
  remainingBeatsInBar st3 = quarters 1 /\
  drawNote ["q"; "q"; "q"; "h"] st0 = (Return tt, st4) /\
  drawnShapes st4 =
    [("note", [Glyph NOTE_HEAD_QUARTER 0; Stem 0]);
     ("note", [Glyph NOTE_HEAD_QUARTER 0; Stem 0]);
     ("note", [Glyph NOTE_HEAD_QUARTER 0; Stem 0]);
     ("rest", [Glyph REST_QUARTER 0]);
     ("note", [Glyph NOTE_HEAD_HALF 0; Stem 0])] /\
  notesLayer st4 = noteEntries st4 /\
  currentBeatCount st4 = quarters 6 /\
  maxBeatCount st4 = quarters 4.
Proof.
do 3 eexists.
split; [vm_compute; reflexivity|].
split; [vm_compute; reflexivity|].
split; [vm_compute; reflexivity|].
split; [vm_compute; reflexivity|].
repeat split.
Qed.

(** Claim C2 on the code: the invariant [currentBeatCount <= maxBeatCount]
  breaks.  On a 3/4 staff of one bar (capacity 3 beats), [drawNote("w")]
  fills the bar with a half and a quarter rest and then draws the whole
  note, which leaves the beat count at 7; on a 4/4 staff of one bar,
  [drawRest(["q", "w"])] leaves it at 8 against a capacity of 4. *)
Theorem C2_beat_count_exceeds_capacity :
exists st0 st1 st2 st3 : t,
  exampleStaff 3 1 = Return st0 /\
  drawNote ["w"] st0 = (Return tt, st1) /\
  drawnShapes st1 =
    [("rest", [Glyph REST_HALF 0]);
     ("rest", [Glyph REST_QUARTER 0]);
     ("note", [Glyph NOTE_HEAD_WHOLE 0])] /\
  maxBeatCount st1 = quarters (1 * 3) /\
  currentBeatCount st1 = quarters 7 /\
  exampleStaff 4 1 = Return st2 /\
  drawRest ["q"; "w"] st2 = (Return tt, st3) /\
  maxBeatCount st3 = quarters (1 * 4) /\
  currentBeatCount st3 = quarters 8.
Proof.
do 4 eexists.
split; [vm_compute; reflexivity|].
split; [vm_compute; reflexivity|].
split; [vm_compute; reflexivity|].
split; [vm_compute; reflexivity|].
split; [vm_compute; reflexivity|].
split; [vm_compute; reflexivity|].
split; [vm_compute; reflexivity|].
repeat split.
Qed.

(** Claim C3 on the code: on a 4/4 staff of one bar (4 beats), a half rest,
  a beam of two eighth notes and a half note are all accepted, the half
  note after one filler quarter rest; the beat count is then 6, and only
  the next token fails with MaxBeatError, leaving the state as it was. *)
Theorem C3_six_beats_accepted_on_a_four_beat_staff :
exists st0 st1 st2 st3 : t,
  exampleStaff 4 1 = Return st0 /\
  drawRest ["h"] st0 = (Return tt, st1) /\
  drawBeamedNotes "e" 2 st1 = (Return tt, st2) /\
  currentBeatCount st2 = quarters 3 /\
  drawNote ["h"] st2 = (Return tt, st3) /\
  currentBeatCount st3 = quarters 6 /\
  maxBeatCount st3 = quarters (4 * 1) /\
  drawNote ["q"] st3 = (Throw MaxBeatError, st3).
Proof.
do 4 eexists.
split; [vm_compute; reflexivity|].
split; [vm_compute; reflexivity|].
split; [vm_compute; reflexivity|].
split; [vm_compute; reflexivity|].
split; [vm_compute; reflexivity|].
repeat split.
Qed.

(** Claim C5 on the code: a beam is not capped to the bar when the beats
  remaining are not a whole number of its notes.  On a 4/4 staff, after
  three beamed sixteenths (0.75 beat, 3 ticks) [drawBeamedNotes("e", 8)]
  draws seven eighth notes, from 0.75 to 4.25 beats, across the bar line at
  4; after seven sixteenths (2.25 beats remain) it draws five, to 4.25
  again. *)
Theorem C5_eighth_beam_crosses_the_bar_line :
exists s1 s2 s3 s4 : t,
  drawBeamedNotes "s" 3 (constructed (exampleStaff 4 2)) = (Return tt, s1) /\
  currentBeatCount s1 = 3 /\
  drawBeamedNotes "e" 8 s1 = (Return tt, s2) /\
  map noteHeads (noteEntries s2) = [3%nat; 7%nat] /\
  currentBeatCount s2 = 17 /\
  drawBeamedNotes "s" 7 (constructed (exampleStaff 4 2)) = (Return tt, s3) /\
  remainingBeatsInBar s3 = 9 /\
  drawBeamedNotes "e" 8 s3 = (Return tt, s4) /\
  map noteHeads (noteEntries s4) = [7%nat; 5%nat] /\
  currentBeatCount s4 = 17 /\
  quarters (topNumber s4) = 16.
Proof.
do 4 eexists.
split; [vm_compute; reflexivity|].
split; [vm_compute; reflexivity|].
split; [vm_compute; reflexivity|].
split; [vm_compute; reflexivity|].
split; [vm_compute; reflexivity|].
split; [vm_compute; reflexivity|].
split; [vm_compute; reflexivity|].
split; [vm_compute; reflexivity|].
repeat split.
Qed.

End RhythmStaffFacts.

(** ** Further facts about the rhythm staff *)

Section RhythmStaffGeneral.
Import RhythmStaff RhythmSpec.

(** The loop of [createRemainingRests] leaves by its test: any two amounts of
    fuel that cover [beatsLeft] give the same run. *)
Lemma createRemainingRests_loop_fuel (fuel1 : nat) :
  forall (fuel2 : nat) (beatsLeft : Z) (acc : list SVGGElement) (st : t),
    (Z.to_nat beatsLeft <= fuel1)%nat -> (Z.to_nat beatsLeft <= fuel2)%nat ->
    createRemainingRests_loop fuel1 beatsLeft acc st
    = createRemainingRests_loop fuel2 beatsLeft acc st.
Proof.
  induction fuel1 as [|fuel1 IH]; intros fuel2 beatsLeft acc st H1 H2.
  - assert (Hle : beatsLeft <= 0) by lia.
    destruct fuel2 as [|fuel2]; [reflexivity|]. cbn.
    apply Z.ltb_ge in Hle. rewrite Hle. reflexivity.
  - destruct fuel2 as [|fuel2].
    + assert (Hle : beatsLeft <= 0) by lia. cbn.
      apply Z.ltb_ge in Hle. rewrite Hle. reflexivity.
    + cbn. destruct (0 <? beatsLeft) eqn:E; [|reflexivity].
      apply Z.ltb_lt in E. unfold bind, get, modify.
      assert (Hd : 2 <= durationBeatValueMap (biggestRest beatsLeft)).
      { unfold biggestRest.
        destruct (0 <=? beatsLeft - _); [|destruct (0 <=? beatsLeft - _)];
          cbn; lia. }
      apply IH; lia.
Qed.

Lemma Qltb_fixedNoteCount (i n r b : Z) :
  0 < b ->
  Qltb (inject_Z i) (Qmin (inject_Z n) (inject_Z r / inject_Z b))
  = (i <? n) && (i * b <? r).
Proof.
  intros Hb. unfold Qltb.
  assert (Hdiv : (inject_Z r / inject_Z b <= inject_Z i)%Q <-> r <= i * b).
  { destruct b as [|p|p]; try lia.
    unfold Qle, Qdiv, Qmult, Qinv, inject_Z. cbn. lia. }
  assert (Hn : (inject_Z n <= inject_Z i)%Q <-> n <= i).
  { rewrite <- Zle_Qle. reflexivity. }
  destruct (Qle_bool (Qmin (inject_Z n) (inject_Z r / inject_Z b)) (inject_Z i))
    eqn:E.
  - apply Qle_bool_iff in E. apply Q.min_le_iff in E. cbn.
    symmetry. apply andb_false_iff.
    destruct E as [E|E]; [left; apply Z.ltb_ge; tauto | right; apply Z.ltb_ge; tauto].
  - cbn. symmetry. apply andb_true_iff.
    assert (Hnot : ~ (Qmin (inject_Z n) (inject_Z r / inject_Z b) <= inject_Z i)%Q).
    { intros Hle. apply Qle_bool_iff in Hle. congruence. }
    rewrite Q.min_le_iff in Hnot.
    split; apply Z.ltb_lt.
    + destruct (Z_lt_le_dec i n); [assumption|]. exfalso. apply Hnot. left. tauto.
    + destruct (Z_lt_le_dec (i * b) r); [assumption|]. exfalso. apply Hnot. right. tauto.
Qed.

Lemma beam_test (i n r b : Z) :
  0 < b ->
  (i <? n) && (i * b <? r) = (i <? beamedCount n r b).
Proof.
  intros Hb. unfold beamedCount.
  assert (Hceil : i * b < r <-> i < (r + b - 1) / b).
  { pose proof (Z.div_mod (r + b - 1) b ltac:(lia)) as Hdm.
    pose proof (Z.mod_pos_bound (r + b - 1) b Hb) as Hm.
    set (q := (r + b - 1) / b) in *. set (m := (r + b - 1) mod b) in *.
    split; intros Hlt; nia. }
  destruct (i <? Z.min n ((r + b - 1) / b)) eqn:E.
  - apply Z.ltb_lt in E. apply andb_true_iff. split; apply Z.ltb_lt; [lia|].
    apply Hceil. lia.
  - apply Z.ltb_ge in E. apply andb_false_iff.
    destruct (Z_lt_le_dec i n) as [Hin|Hin]; [right|left]; apply Z.ltb_ge; [|lia].
    destruct (Z_lt_le_dec (i * b) r) as [Hlt|]; [|lia].
    apply Hceil in Hlt. lia.
Qed.

Lemma beam_loop_spec (noteCount remaining spacing beatValue : Z) (fuel : nat) :
  0 < beatValue ->
  forall (i localX : Z) (drawn : list Shape) (st : t),
    (Z.to_nat (beamedCount noteCount remaining beatValue - i) <= fuel)%nat ->
    let m := Z.to_nat (beamedCount noteCount remaining beatValue - i) in
    beam_loop fuel i
      (Qmin (inject_Z noteCount) (inject_Z remaining / inject_Z beatValue))
      spacing beatValue localX drawn st
    = (Return (localX + Z.of_nat m * spacing, drawn ++ beamHeads localX spacing m),
       set_currentBeatCount (currentBeatCount st + Z.of_nat m * beatValue) st).
Proof.
  intros Hb. induction fuel as [|fuel IH]; intros i localX drawn st Hfuel m.
  - assert (Hm : m = O) by (unfold m; lia). rewrite Hm. cbn.
    unfold ret. rewrite app_nil_r, !Z.add_0_r. destruct st; reflexivity.
  - cbn [beam_loop]. rewrite Qltb_fixedNoteCount, beam_test by assumption.
    destruct (i <? beamedCount noteCount remaining beatValue) eqn:E.
    + apply Z.ltb_lt in E. unfold bind, modify.
      rewrite IH by lia. cbn zeta.
      assert (Hm : m = S (Z.to_nat (beamedCount noteCount remaining beatValue - (i + 1))))
        by (unfold m; lia).
      rewrite Hm. cbn [beamHeads]. rewrite <- app_assoc. cbn [app].
      replace (localX + spacing
               + Z.of_nat (Z.to_nat (beamedCount noteCount remaining beatValue - (i + 1)))
                 * spacing)
        with (localX
              + Z.of_nat (S (Z.to_nat (beamedCount noteCount remaining beatValue - (i + 1))))
                * spacing) by lia.
      destruct st; unfold set_currentBeatCount.
      cbn -[Z.of_nat Z.mul Z.add Z.sub beamedCount Z.to_nat].
      do 2 f_equal. lia.
    + apply Z.ltb_ge in E.
      assert (Hm : m = O) by (unfold m; lia). rewrite Hm. cbn.
      unfold ret. rewrite app_nil_r, !Z.add_0_r. destruct st; reflexivity.
Qed.

(** The loop of [drawBeamedNotes] leaves by its test: any two amounts of fuel
    that cover the notes still to draw give the same run. *)
Lemma beam_loop_fuel (noteCount remaining spacing beatValue : Z) (fuel1 fuel2 : nat) :
  0 < beatValue ->
  forall (i localX : Z) (drawn : list Shape) (st : t),
    (Z.to_nat (beamedCount noteCount remaining beatValue - i) <= fuel1)%nat ->
    (Z.to_nat (beamedCount noteCount remaining beatValue - i) <= fuel2)%nat ->
    beam_loop fuel1 i
      (Qmin (inject_Z noteCount) (inject_Z remaining / inject_Z beatValue))
      spacing beatValue localX drawn st
    = beam_loop fuel2 i
        (Qmin (inject_Z noteCount) (inject_Z remaining / inject_Z beatValue))
        spacing beatValue localX drawn st.
Proof.
  intros Hb i localX drawn st H1 H2.
  rewrite !beam_loop_spec by (assumption || lia). reflexivity.
Qed.

Lemma noteHeads_beamHeads (x localX spacing : Z) (m : nat) (beams : list Shape) :
  (forall s, In s beams -> match s with Glyph _ _ => False | _ => True end) ->
  noteHeads (mkGroup "beamed-note" (Some x) (beamHeads localX spacing m ++ beams)) = m.
Proof.
  intros Hbeams. unfold noteHeads. cbn [shapes].
  rewrite filter_app, length_app.
  assert (Hb : filter (fun s => match s with
                                | Glyph NOTE_HEAD_QUARTER _ => true
                                | _ => false
                                end) beams = []).
  { induction beams as [|s beams IH]; [reflexivity|].
    cbn. pose proof (Hbeams s (or_introl eq_refl)) as Hs.
    destruct s; try contradiction; apply IH; intros s' Hs'; apply Hbeams; now right. }
  rewrite Hb. cbn [List.length]. rewrite Nat.add_0_r.
  revert localX. induction m as [|m IH]; intros localX; [reflexivity|].
  cbn. rewrite IH. reflexivity.
Qed.

Lemma staffKept_refl (st : t) : staffKept st st.
Proof. unfold staffKept. repeat split; lia. Qed.

Lemma staffKept_trans (st1 st2 st3 : t) :
  staffKept st1 st2 -> staffKept st2 st3 -> staffKept st1 st3.
Proof. unfold staffKept. intuition congruence || lia. Qed.

Lemma durationBeatValueMap_pos (d : Durations) : 0 < durationBeatValueMap d.
Proof. destruct d; reflexivity. Qed.

Lemma createRemainingRests_loop_kept (fuel : nat) :
  forall (beatsLeft : Z) (acc : list SVGGElement) (st : t),
    staffKept st (snd (createRemainingRests_loop fuel beatsLeft acc st)).
Proof.
  induction fuel as [|fuel IH]; intros beatsLeft acc st.
  - apply staffKept_refl.
  - cbn [createRemainingRests_loop]. destruct (0 <? beatsLeft).
    + unfold bind, get, modify.
      eapply staffKept_trans; [|apply IH].
      pose proof (durationBeatValueMap_pos (biggestRest beatsLeft)).
      unfold staffKept. destruct st; cbn. repeat split; lia.
    + apply staffKept_refl.
Qed.

Lemma checkAndCreateNewBar_kept (st : t) :
  staffKept st (snd (checkAndCreateNewBar st)).
Proof.
  destruct (checkAndCreateNewBar_run st) as (x & -> & _).
  unfold staffKept. destruct st; cbn. repeat split; lia.
Qed.

Lemma checkAndFillBarWithRests_kept (beatValue : Z) (st : t) :
  staffKept st (snd (checkAndFillBarWithRests beatValue st)).
Proof.
  unfold checkAndFillBarWithRests, bind, get.
  destruct (remainingBeatsInBar st <? beatValue); [|apply staffKept_refl].
  unfold createRemainingRests.
  pose proof (createRemainingRests_loop_kept
                (Z.to_nat (remainingBeatsInBar st)) (remainingBeatsInBar st) [] st) as Hk.
  destruct (createRemainingRests_loop_groups
              (Z.to_nat (remainingBeatsInBar st)) (remainingBeatsInBar st) [] st)
    as (new & st' & Heq & _).
  rewrite Heq in *. cbn in *.
  eapply staffKept_trans; [exact Hk|].
  unfold staffKept. destruct st'; cbn. repeat split; lia.
Qed.

Lemma commitIfAny_kept (groups : list SVGGElement) (st : t) :
  staffKept st (snd (commitIfAny groups st)).
Proof.
  rewrite commitIfAny_run. unfold staffKept. destruct st; cbn. repeat split; lia.
Qed.

(** The three ways a member of a [drawRest] batch can end. *)
Lemma drawRestToken_cases (restString : string) (pending : list SVGGElement) (st : t) :
  (parseDurationNoteString restString = None /\
   drawRestToken restString pending st = (Throw ParseError, snd (commitIfAny pending st)))
  \/
  (exists d, parseDurationNoteString restString = Some d /\
   maxBeatCount st <= currentBeatCount st /\
   drawRestToken restString pending st = (Throw MaxBeatError, snd (commitIfAny pending st)))
  \/
  (exists d st1 st2,
     parseDurationNoteString restString = Some d /\
     currentBeatCount st < maxBeatCount st /\
     checkAndCreateNewBar st = (Return tt, st1) /\
     st2 = snd (checkAndFillBarWithRests (durationBeatValueMap d) st1) /\
     exists groups,
       drawRestToken restString pending st =
         (Return (pending ++ groups),
          set_noteEntries (noteEntries st2 ++ groups)
            (set_currentBeatCount (currentBeatCount st2 + durationBeatValueMap d)
               (set_noteCursorX
                  (noteCursorX st2 + durationBeatValueMap d * quarterNoteSpacing st)
                  st2)))).
Proof.
  unfold drawRestToken.
  destruct (parseDurationNoteString restString) as [d|] eqn:Hparse.
  - right.
    destruct (maxBeatCount st <=? currentBeatCount st) eqn:Hmax.
    + left. exists d. apply Z.leb_le in Hmax. repeat split; try assumption.
      unfold bind at 1. unfold get at 1. apply Z.leb_le in Hmax. rewrite Hmax.
      unfold bind, throw. destruct (commitIfAny pending st) as [[[]|err] st1] eqn:Hc;
        [reflexivity|].
      destruct pending; discriminate.
    + right.
      destruct (checkAndCreateNewBar_run st) as (x0 & Hbar & _).
      destruct (checkAndFillBarWithRests_groups (durationBeatValueMap d)
                  (set_noteCursorX x0 st)) as (rests & st1 & Hfill & _ & He & _).
      exists d, (set_noteCursorX x0 st), st1.
      split; [reflexivity|]. split; [now apply Z.leb_gt in Hmax|].
      split; [assumption|]. split; [rewrite Hfill; reflexivity|].
      exists ((match rests with Some l => l | None => [] end)
              ++ [mkGroup "rest" (Some (noteCursorX st1)) (renderRest d)]).
      unfold bind at 1. unfold get at 1. rewrite Hmax.
      unfold bind at 1. rewrite Hbar. unfold bind at 1. rewrite Hfill.
      cbn. rewrite <- !app_assoc. destruct st1; cbn. reflexivity.
  - left. split; [reflexivity|].
    unfold bind, throw. destruct (commitIfAny pending st) as [[[]|err] st1] eqn:Hc;
      [reflexivity|].
    destruct pending; discriminate.
Qed.

Lemma commit_then_throw (groups : list SVGGElement) (err : Error)
    (A : Type) (st : t) :
  bind (commitIfAny groups) (fun _ => @throw t A err) st
  = (Throw err, snd (commitIfAny groups st)).
Proof.
  unfold bind, throw.
  destruct (commitIfAny groups st) as [[[]|e] st1] eqn:Hc; [reflexivity|].
  destruct groups; discriminate.
Qed.

Lemma drawNoteToken_kept (noteString : string) (pending : list SVGGElement) (st : t) :
  staffKept st (snd (drawNoteToken noteString pending st)).
Proof.
  unfold drawNoteToken.
  destruct (parseDurationNoteString noteString) as [d|].
  - unfold bind at 1. unfold get at 1.
    destruct (maxBeatCount st <=? currentBeatCount st).
    + rewrite commit_then_throw. apply commitIfAny_kept.
    + pose proof (checkAndCreateNewBar_kept st) as Hk1.
      destruct (checkAndCreateNewBar_run st) as (x0 & Hbar & _).
      rewrite Hbar in Hk1. cbn [snd] in Hk1.
      pose proof (checkAndFillBarWithRests_kept (durationBeatValueMap d)
                    (set_noteCursorX x0 st)) as Hk2.
      destruct (checkAndFillBarWithRests_groups (durationBeatValueMap d)
                  (set_noteCursorX x0 st)) as (rests & st1 & Hfill & _).
      rewrite Hfill in Hk2. cbn [snd] in Hk2.
      unfold bind at 1. rewrite Hbar. unfold bind at 1. rewrite Hfill.
      eapply staffKept_trans; [exact Hk1|].
      eapply staffKept_trans; [exact Hk2|].
      pose proof (durationBeatValueMap_pos d).
      unfold staffKept. destruct st1; cbn. repeat split; lia.
  - rewrite commit_then_throw. apply commitIfAny_kept.
Qed.

Lemma drawRestToken_kept (restString : string) (pending : list SVGGElement) (st : t) :
  staffKept st (snd (drawRestToken restString pending st)).
Proof.
  destruct (drawRestToken_cases restString pending st)
    as [[_ ->]|[(d & _ & _ & ->)|(d & st1 & st2 & _ & _ & Hbar & Hfill & groups & ->)]];
    try apply commitIfAny_kept.
  pose proof (checkAndCreateNewBar_kept st) as Hk1. rewrite Hbar in Hk1.
  pose proof (checkAndFillBarWithRests_kept (durationBeatValueMap d) st1) as Hk2.
  rewrite <- Hfill in Hk2. cbn [snd] in *.
  eapply staffKept_trans; [exact Hk1|].
  eapply staffKept_trans; [exact Hk2|].
  pose proof (durationBeatValueMap_pos d).
  unfold staffKept. destruct st2; cbn. repeat split; lia.
Qed.

Lemma drawNote_loop_kept (notes : list string) :
  forall (pending : list SVGGElement) (st : t),
    staffKept st (snd (drawNote_loop notes pending st)).
Proof.
  induction notes as [|a notes IH]; intros pending st.
  - unfold staffKept. destruct st; cbn. repeat split; lia.
  - cbn [drawNote_loop]. unfold bind.
    pose proof (drawNoteToken_kept a pending st) as Hk.
    destruct (drawNoteToken a pending st) as [[g|err] st1]; cbn [snd] in *;
      [|assumption].
    eapply staffKept_trans; [exact Hk|apply IH].
Qed.

Lemma drawRest_loop_kept (rests : list string) :
  forall (pending : list SVGGElement) (st : t),
    staffKept st (snd (drawRest_loop rests pending st)).
Proof.
  induction rests as [|a rests IH]; intros pending st.
  - unfold staffKept. destruct st; cbn. repeat split; lia.
  - cbn [drawRest_loop]. unfold bind.
    pose proof (drawRestToken_kept a pending st) as Hk.
    destruct (drawRestToken a pending st) as [[g|err] st1]; cbn [snd] in *;
      [|assumption].
    eapply staffKept_trans; [exact Hk|apply IH].
Qed.

Lemma beam_loop_kept (fuel : nat) :
  forall (i : Z) (fixedNoteCount : Q) (spacing beatValue localX : Z)
         (drawn : list Shape) (st : t),
    0 < beatValue ->
    staffKept st
      (snd (beam_loop fuel i fixedNoteCount spacing beatValue localX drawn st)).
Proof.
  induction fuel as [|fuel IH]; intros i fixedNoteCount spacing beatValue localX drawn st Hb.
  - apply staffKept_refl.
  - cbn [beam_loop]. destruct (Qltb (inject_Z i) fixedNoteCount);
      [|apply staffKept_refl].
    unfold bind, modify.
    eapply staffKept_trans; [|apply IH; assumption].
    unfold staffKept. destruct st; cbn. repeat split; lia.
Qed.

Lemma drawBeamedNotes_kept (note : string) (noteCount : Z) (st : t) :
  staffKept st (snd (drawBeamedNotes note noteCount st)).
Proof.
  unfold drawBeamedNotes.
  destruct (noteCount <? 2); [apply staffKept_refl|].
  unfold bind at 1. unfold get at 1.
  destruct (maxBeatCount st <=? currentBeatCount st); [apply staffKept_refl|].
  destruct (if String.eqb note "s" then Some Sixteenth
            else parseDurationNoteString note) as [d|]; [|apply staffKept_refl].
  pose proof (checkAndCreateNewBar_kept st) as Hk1.
  destruct (checkAndCreateNewBar_run st) as (x0 & Hbar & _).
  rewrite Hbar in Hk1. cbn [snd] in Hk1.
  unfold bind at 1. rewrite Hbar. unfold bind at 1. unfold get at 1.
  set (st1 := set_noteCursorX x0 st) in *.
  eapply staffKept_trans; [exact Hk1|].
  unfold bind at 1.
  match goal with
  | |- context [beam_loop ?f ?i ?q ?s ?b ?x ?dr st1] =>
      pose proof (beam_loop_kept f i q s b x dr st1 (durationBeatValueMap_pos d)) as Hk2;
      destruct (beam_loop f i q s b x dr st1) as [[[localX drawn]|err] st2]
  end; cbn [snd] in *; [|assumption].
  eapply staffKept_trans; [exact Hk2|].
  unfold staffKept. destruct st2; cbn. repeat split; lia.
Qed.

Lemma beam_loop_returns (fuel : nat) :
  forall (i : Z) (fixedNoteCount : Q) (spacing beatValue localX : Z)
         (drawn : list Shape) (st : t),
  exists r st',
    beam_loop fuel i fixedNoteCount spacing beatValue localX drawn st
    = (Return r, st').
Proof.
  induction fuel as [|fuel IH]; intros i fixedNoteCount spacing beatValue localX drawn st;
    cbn [beam_loop].
  - eexists _, _. reflexivity.
  - destruct (Qltb (inject_Z i) fixedNoteCount); [|eexists _, _; reflexivity].
    unfold bind, modify. apply IH.
Qed.

(** What [drawBeamedNotes] does when it is given room.  With a beam
    duration, at least two notes asked for and the staff not full, the call
    draws one group of exactly [beamedCount] notes: as many as asked for, or
    the least whole number of notes that covers the beats remaining in the
    bar, if that is less.  The beat count and the cursor move on by that many
    notes.  When the beats remaining are a whole number of notes, that is
    [remaining / beatValue] notes at most and the group ends within the
    bar. *)
Theorem drawBeamedNotes_draws_beamedCount :
  forall (st : t) (note : string) (d : Durations) (noteCount : Z),
    (if String.eqb note "s" then Some Sixteenth
     else parseDurationNoteString note) = Some d ->
    2 <= noteCount ->
    0 < topNumber st ->
    0 <= currentBeatCount st < maxBeatCount st ->
    let st1 := snd (checkAndCreateNewBar st) in
    let beatValue := durationBeatValueMap d in
    let remaining := remainingBeatsInBar st in
    let count := beamedCount noteCount remaining beatValue in
    1 <= count /\
    (exists (group : SVGGElement) (st' : t),
       drawBeamedNotes note noteCount st = (Return tt, st') /\
       noteEntries st' = noteEntries st ++ [group] /\
       notesLayer st' = notesLayer st ++ [group] /\
       className group = "beamed-note" /\
       transform group = Some (noteCursorX st1) /\
       Z.of_nat (noteHeads group) = count /\
       currentBeatCount st' = currentBeatCount st + count * beatValue /\
       noteCursorX st'
         = noteCursorX st1 + count * (beatValue * quarterNoteSpacing st) /\
       maxBeatCount st' = maxBeatCount st) /\
    (remaining mod beatValue = 0 ->
     count = Z.min noteCount (remaining / beatValue) /\
     count * beatValue <= remaining).
Proof.
  intros st note d noteCount Hd Hn HN [Hc Hroom] st1 beatValue remaining count.
  pose proof (durationBeatValueMap_pos d) as Hb. fold beatValue in Hb.
  pose proof (remainingBeatsInBar_bounds st HN Hc) as Hrem. fold remaining in Hrem.
  assert (Hceil : 1 <= (remaining + beatValue - 1) / beatValue).
  { apply Z.div_le_lower_bound; lia. }
  assert (Hcount : 1 <= count) by (unfold count, beamedCount; lia).
  split; [assumption|]. split.
  - destruct (checkAndCreateNewBar_run st) as (x0 & Hbar & _).
    assert (Hst1 : st1 = set_noteCursorX x0 st) by (unfold st1; rewrite Hbar; reflexivity).
    unfold drawBeamedNotes.
    assert (E2 : (noteCount <? 2) = false) by (apply Z.ltb_ge; lia).
    rewrite E2. unfold bind at 1. unfold get at 1.
    assert (Efull : (maxBeatCount st <=? currentBeatCount st) = false)
      by (apply Z.leb_gt; lia).
    rewrite Efull, Hd.
    unfold bind at 1. rewrite Hbar. unfold bind at 1. unfold get at 1.
    unfold bind at 1.
    change (remainingBeatsInBar (set_noteCursorX x0 st)) with remaining.
    change (quarterNoteSpacing (set_noteCursorX x0 st)) with (quarterNoteSpacing st).
    fold beatValue.
    assert (Hle : count <= noteCount) by (unfold count, beamedCount; lia).
    rewrite beam_loop_spec by (assumption || (fold count; lia)).
    fold count. rewrite Z.sub_0_r.
    eexists (mkGroup "beamed-note" _ _), _. split; [reflexivity|].
    rewrite Hst1. cbn -[Z.mul Z.add Z.sub Z.to_nat Z.of_nat beamHeads noteHeads].
    rewrite Z2Nat.id by lia.
    repeat split; try lia.
    rewrite noteHeads_beamHeads; [lia|].
    intros s [<-|Hs]; [exact I|].
    destruct (String.eqb note "s"); [destruct Hs as [<-|[]]; exact I | destruct Hs].
  - intros Hmod. apply Z.div_exact in Hmod; [|lia].
    assert (Hq : (remaining + beatValue - 1) / beatValue = remaining / beatValue).
    { rewrite Hmod at 1.
      replace (beatValue * (remaining / beatValue) + beatValue - 1)
        with ((remaining / beatValue) * beatValue + (beatValue - 1)) by lia.
      rewrite Z.div_add_l by lia. rewrite (Z.div_small (beatValue - 1)) by lia. lia. }
    unfold count, beamedCount. rewrite Hq. split; [reflexivity|]. nia.
Qed.

(** The four ways a [drawBeamedNotes] call can end. *)
Lemma drawBeamedNotes_cases (note : string) (noteCount : Z) (st : t) :
  (noteCount < 2 /\ drawBeamedNotes note noteCount st = (Throw StateError, st))
  \/
  (2 <= noteCount /\ maxBeatCount st <= currentBeatCount st /\
   drawBeamedNotes note noteCount st = (Throw MaxBeatError, st))
  \/
  (2 <= noteCount /\ currentBeatCount st < maxBeatCount st /\
   drawBeamedNotes note noteCount st = (Throw ParseError, st))
  \/
  (2 <= noteCount /\ currentBeatCount st < maxBeatCount st /\
   exists st', drawBeamedNotes note noteCount st = (Return tt, st')).
Proof.
  destruct (noteCount <? 2) eqn:E2.
  { left. split; [now apply Z.ltb_lt in E2|].
    unfold drawBeamedNotes. rewrite E2. reflexivity. }
  right.
  destruct (maxBeatCount st <=? currentBeatCount st) eqn:Efull.
  { left. split; [now apply Z.ltb_ge in E2|]. split; [now apply Z.leb_le in Efull|].
    unfold drawBeamedNotes. rewrite E2. unfold bind, get. rewrite Efull. reflexivity. }
  right.
  destruct (if String.eqb note "s" then Some Sixteenth
            else parseDurationNoteString note) as [d|] eqn:Hd.
  2:{ left. split; [now apply Z.ltb_ge in E2|]. split; [now apply Z.leb_gt in Efull|].
      unfold drawBeamedNotes. rewrite E2. unfold bind, get. rewrite Efull, Hd.
      reflexivity. }
  right. split; [now apply Z.ltb_ge in E2|]. split; [now apply Z.leb_gt in Efull|].
  destruct (checkAndCreateNewBar_run st) as (x0 & Hbar & _).
  unfold drawBeamedNotes. rewrite E2. unfold bind at 1. unfold get at 1.
  rewrite Efull, Hd.
  unfold bind at 1. rewrite Hbar. unfold bind at 1. unfold get at 1.
  unfold bind at 1.
  match goal with
  | |- context [beam_loop ?f ?i ?q ?s ?b ?x ?dr ?s1] =>
      destruct (beam_loop_returns f i q s b x dr s1) as ([localX drawn] & st2 & Hloop)
  end.
  rewrite Hloop. eexists. reflexivity.
Qed.

(** The beat count never goes below zero and the capacity is the
    constructor's.  A staff comes out of the constructor with a supported
    time signature and bar count, no beat counted and the capacity
    [barsCount * topNumber]; [drawNote], [drawRest] and [drawBeamedNotes],
    whether they return or throw, keep the configuration and the capacity and
    do not lower the beat count; [clearAllNotes] keeps them and resets the
    beat count and the cursor. *)
Theorem beat_count_lower_bound_and_capacity :
  (forall (K : Constants) (options : RhythmStaffOptions) (st : t),
     new options = Return st ->
     (topNumber st = 3 \/ topNumber st = 4) /\
     1 <= barsCount st <= 3 /\
     currentBeatCount st = 0 /\
     maxBeatCount st = quarters (barsCount st * topNumber st)) /\
  (forall (st : t) (notes : list string),
     staffKept st (snd (drawNote notes st))) /\
  (forall (st : t) (rests : list string),
     staffKept st (snd (drawRest rests st))) /\
  (forall (st : t) (note : string) (noteCount : Z),
     staffKept st (snd (drawBeamedNotes note noteCount st))) /\
  (forall st : t,
     exists st', clearAllNotes st = (Return tt, st') /\
       topNumber st' = topNumber st /\ barsCount st' = barsCount st /\
       quarterNoteSpacing st' = quarterNoteSpacing st /\
       maxBeatCount st' = maxBeatCount st /\
       currentBeatCount st' = 0 /\ noteCursorX st' = 0 /\
       noteEntries st' = [] /\ notesLayer st' = []).
Proof.
  split; [|split; [|split; [|split]]].
  - intros K options st. unfold new.
    destruct (opt_topNumber options =? 3) eqn:E3;
      destruct (opt_topNumber options =? 4) eqn:E4; cbn [orb negb];
      try discriminate;
      (destruct ((opt_barsCount options <? 1) || (3 <? opt_barsCount options)) eqn:Eb;
       [discriminate|]);
      apply orb_false_iff in Eb; destruct Eb as [Eb1 Eb2];
      apply Z.ltb_ge in Eb1; apply Z.ltb_ge in Eb2;
      intros Hst; injection Hst as <-; cbn;
      rewrite ?Z.eqb_eq in *; repeat split; auto; lia.
  - intros st notes. apply drawNote_loop_kept.
  - intros st rests. apply drawRest_loop_kept.
  - intros st note noteCount. apply drawBeamedNotes_kept.
  - intros st. eexists. split; [reflexivity|]. cbn. repeat split.
Qed.

(** A token is refused for want of room exactly when the staff is full.  A
    member of a [drawNote] or [drawRest] batch, and a [drawBeamedNotes] call,
    fails with MaxBeatError if and only if it is well formed and
    [currentBeatCount >= maxBeatCount] as it is processed; and a member or a
    call that fails, with whatever error, leaves the beat count, the cursor
    and the entries as they were (a batch commits the groups of its earlier
    members to the layer before it throws). *)
Theorem MaxBeatError_iff_staff_is_full :
  forall (st : t) (pending : list SVGGElement),
    (forall noteString : string,
       ((exists st', drawNoteToken noteString pending st = (Throw MaxBeatError, st'))
        <-> (parseDurationNoteString noteString <> None /\
             maxBeatCount st <= currentBeatCount st)) /\
       (forall err st',
          drawNoteToken noteString pending st = (Throw err, st') ->
          st' = set_notesLayer (notesLayer st ++ pending) st)) /\
    (forall restString : string,
       ((exists st', drawRestToken restString pending st = (Throw MaxBeatError, st'))
        <-> (parseDurationNoteString restString <> None /\
             maxBeatCount st <= currentBeatCount st)) /\
       (forall err st',
          drawRestToken restString pending st = (Throw err, st') ->
          st' = set_notesLayer (notesLayer st ++ pending) st)) /\
    (forall (note : string) (noteCount : Z),
       ((exists st', drawBeamedNotes note noteCount st = (Throw MaxBeatError, st'))
        <-> (2 <= noteCount /\ maxBeatCount st <= currentBeatCount st)) /\
       (forall err st',
          drawBeamedNotes note noteCount st = (Throw err, st') -> st' = st)).
Proof.
  intros st pending.
  assert (Hcommit : snd (commitIfAny pending st)
                    = set_notesLayer (notesLayer st ++ pending) st).
  { rewrite commitIfAny_run. reflexivity. }
  split; [|split].
  - intros noteString.
    destruct (drawNoteToken_cases noteString pending st)
      as [[Hp Heq]|[(d & Hp & Hfull & Heq)|(d & rests & x & st1 & Hp & Hroom & Heq & _)]];
      rewrite Heq; (split; [split|]).
    + intros [st' Hst']. discriminate.
    + intros [Hwf _]. congruence.
    + intros err st' Hst'. injection Hst' as _ <-. exact Hcommit.
    + intros _. split; [congruence|assumption].
    + intros _. eexists; reflexivity.
    + intros err st' Hst'. injection Hst' as _ <-. exact Hcommit.
    + intros [st' Hst']. discriminate.
    + intros [_ Hfull]. lia.
    + intros err st' Hst'. discriminate.
  - intros restString.
    destruct (drawRestToken_cases restString pending st)
      as [[Hp Heq]|[(d & Hp & Hfull & Heq)
                   |(d & st1 & st2 & Hp & Hroom & _ & _ & groups & Heq)]];
      rewrite Heq; (split; [split|]).
    + intros [st' Hst']. discriminate.
    + intros [Hwf _]. congruence.
    + intros err st' Hst'. injection Hst' as _ <-. exact Hcommit.
    + intros _. split; [congruence|assumption].
    + intros _. eexists; reflexivity.
    + intros err st' Hst'. injection Hst' as _ <-. exact Hcommit.
    + intros [st' Hst']. discriminate.
    + intros [_ Hfull]. lia.
    + intros err st' Hst'. discriminate.
  - intros note noteCount.
    destruct (drawBeamedNotes_cases note noteCount st)
      as [[Hn Heq]|[(Hn & Hfull & Heq)|[(Hn & Hroom & Heq)|(Hn & Hroom & st' & Heq)]]];
      rewrite Heq; (split; [split|]).
    + intros [st' Hst']. discriminate.
    + intros [Hn' _]. lia.
    + intros err st' Hst'. injection Hst' as _ <-. reflexivity.
    + intros _. split; assumption.
    + intros _. eexists; reflexivity.
    + intros err st' Hst'. injection Hst' as _ <-. reflexivity.
    + intros [st' Hst']. discriminate.
    + intros [_ Hfull]. lia.
    + intros err st' Hst'. injection Hst' as _ <-. reflexivity.
    + intros [st'' Hst']. discriminate.
    + intros [_ Hfull]. lia.
    + intros err st'' Hst'. discriminate.
Qed.
End RhythmStaffGeneral.

(** [drawBeamedNotes_draws_beamedCount] at a concrete input: eight eighth
    notes asked for after a half note on a 4/4 staff; four are drawn. *)
Lemma drawBeamedNotes_witness :
  exists (group : RhythmStaff.SVGGElement) (st' : RhythmStaff.t),
    RhythmStaff.drawBeamedNotes "e" 8
      (snd (RhythmStaff.drawNote ["h"] (RhythmSpec.constructed (exampleStaff 4 2))))
      = (Return tt, st') /\
    RhythmSpec.noteHeads group = 4%nat /\
    RhythmStaff.currentBeatCount st' = RhythmStaff.quarters 4.
Proof.
  destruct (drawBeamedNotes_draws_beamedCount
              (snd (RhythmStaff.drawNote ["h"] (RhythmSpec.constructed (exampleStaff 4 2))))
              "e" Eighth 8)
    as (_ & (group & st' & Hrun & _ & _ & _ & _ & Hheads & Hcount & _) & _).
  - reflexivity.
  - discriminate.
  - reflexivity.
  - split; [discriminate|reflexivity].
  - exists group, st'. split; [exact Hrun|]. split.
    + apply Nat2Z.inj. rewrite Hheads. reflexivity.
    + rewrite Hcount. reflexivity.
Defined.

(** ** The chord passes of the note renderer *)

Section ChordFacts.
Import SVGRenderer NoteRenderer.
Context {K : Constants} {H : NoteHelpers}.

Lemma length_replaceNth {A : Type} (i : nat) (x : A) (l : list A) :
  List.length (replaceNth i x l) = List.length l.
Proof.
  revert i; induction l as [|y l IH]; intros [|i]; simpl; auto.
Qed.

Lemma nth_error_replaceNth_eq {A : Type} (i : nat) (x : A) (l : list A) :
  (i < List.length l)%nat -> nth_error (replaceNth i x l) i = Some x.
Proof.
  revert i; induction l as [|y l IH]; intros [|i] Hi; simpl in *; try lia; auto.
  apply IH. lia.
Qed.

Lemma nth_error_replaceNth_neq {A : Type} (i k : nat) (x : A) (l : list A) :
  i <> k -> nth_error (replaceNth i x l) k = nth_error l k.
Proof.
  revert i k; induction l as [|y l IH]; intros [|i] [|k] Hik; simpl;
    try congruence; auto.
Qed.

Lemma nth_error_Some_lt {A : Type} (l : list A) (k : nat) (x : A) :
  nth_error l k = Some x -> (k < List.length l)%nat.
Proof. intros Hk. apply nth_error_Some. congruence. Qed.

Lemma nth_error_pointwise {A : Type} (l1 l2 : list A) :
  List.length l1 = List.length l2 ->
  (forall k, (k < List.length l1)%nat -> nth_error l1 k = nth_error l2 k) ->
  l1 = l2.
Proof.
  revert l2; induction l1 as [|x l1 IH]; intros [|y l2] Hlen Hnth;
    simpl in *; try discriminate; [reflexivity|].
  f_equal.
  - specialize (Hnth O). simpl in Hnth. assert (Some x = Some y) by (apply Hnth; lia).
    congruence.
  - apply IH; [lia|]. intros k Hk. apply (Hnth (S k)). lia.
Qed.

Lemma closeNotes_loop_spec (notes : list NoteEntry) (fuel : nat) :
  forall (i : nat) (prev : option NoteEntry) (off : Q) (cur : list NoteEntry),
    (1 <= i)%nat ->
    List.length cur = List.length notes ->
    (forall k n, (k < i)%nat -> nth_error notes k = Some n ->
                 nth_error cur k = Some (afterCloseNotes notes k n)) ->
    (forall k, (i <= k)%nat -> nth_error cur k = nth_error notes k) ->
    prev = nth_error notes (i - 1) ->
    ((i <= List.length notes)%nat -> offsetByPass notes (i - 1) = false) ->
    (List.length notes + 1 <= fuel + i)%nat ->
    (off = 0%Q \/ off = closeNotesXOffset) ->
    exists off' out,
      closeNotes_loop fuel i prev off cur = Return (off', out) /\
      (off' = 0%Q \/ off' = closeNotesXOffset) /\
      List.length out = List.length notes /\
      forall k n, nth_error notes k = Some n ->
                  nth_error out k = Some (afterCloseNotes notes k n).
Proof.
  induction fuel as [|fuel IH];
    intros i prev off cur Hi Hlen Hdone Htodo Hprev Hnot Hfuel Hoff.
  - exists off, cur. simpl. repeat split; try assumption.
    intros k n Hk. apply Hdone; [|assumption].
    apply nth_error_Some_lt in Hk. lia.
  - cbn [closeNotes_loop]. destruct (nth_error cur i) as [currNote|] eqn:Hcur.
    + assert (Hilt : (i < List.length notes)%nat).
      { rewrite <- Hlen. eapply nth_error_Some_lt; eassumption. }
      assert (Hcurr : nth_error notes i = Some currNote).
      { rewrite <- Htodo by lia. assumption. }
      destruct (nth_error notes (i - 1)) as [p|] eqn:Hp.
      2:{ apply nth_error_None in Hp. lia. }
      subst prev.
      assert (Hone : oneStepAbove notes i
                     = (nameOctaveIdx currNote - nameOctaveIdx p =? 1)).
      { destruct i as [|j]; [lia|]. unfold oneStepAbove.
        replace (S j - 1)%nat with j in Hp by lia.
        rewrite Hp, Hcurr. reflexivity. }
      assert (Hshift : offsetByPass notes i = oneStepAbove notes i).
      { destruct i as [|j]; [lia|]. cbn [offsetByPass].
        replace (S j - 1)%nat with j in Hnot by lia.
        rewrite Hnot by lia. apply andb_true_r. }
      destruct (nameOctaveIdx currNote - nameOctaveIdx p =? 1) eqn:Hdiff.
      * (* the pair is one step apart: currNote is offset, the next entry skipped *)
        apply IH.
        -- lia.
        -- rewrite length_replaceNth. assumption.
        -- intros k n Hk Hn.
           destruct (Nat.eq_dec k i) as [->|Hki].
           ++ rewrite nth_error_replaceNth_eq by lia.
              unfold afterCloseNotes. rewrite Hshift, Hone.
              assert (n = currNote) by congruence. subst n. reflexivity.
           ++ rewrite nth_error_replaceNth_neq by congruence.
              destruct (Nat.eq_dec k (S i)) as [->|Hks].
              ** rewrite Htodo by lia. rewrite Hn. unfold afterCloseNotes.
                 cbn [offsetByPass]. rewrite Hshift, Hone, andb_false_r.
                 reflexivity.
              ** apply Hdone; [lia|assumption].
        -- intros k Hk. rewrite nth_error_replaceNth_neq by lia.
           apply Htodo. lia.
        -- rewrite nth_error_replaceNth_neq by lia.
           replace (S (S i) - 1)%nat with (S i) by lia.
           apply Htodo. lia.
        -- intros _. replace (S (S i) - 1)%nat with (S i) by lia.
           cbn [offsetByPass]. rewrite Hshift, Hone, andb_false_r. reflexivity.
        -- lia.
        -- right. reflexivity.
      * (* any other distance: nothing changes *)
        apply IH.
        -- lia.
        -- assumption.
        -- intros k n Hk Hn.
           destruct (Nat.eq_dec k i) as [->|Hki].
           ++ rewrite Hcur. unfold afterCloseNotes. rewrite Hshift, Hone.
              assert (n = currNote) by congruence. subst n. reflexivity.
           ++ apply Hdone; [lia|assumption].
        -- intros k Hk. apply Htodo. lia.
        -- replace (S i - 1)%nat with i by lia. symmetry. assumption.
        -- intros _. replace (S i - 1)%nat with i by lia.
           rewrite Hshift, Hone. reflexivity.
        -- lia.
        -- assumption.
    + exists off, cur. repeat split; try assumption.
      intros k n Hk. apply Hdone; [|assumption].
      apply nth_error_None in Hcur. apply nth_error_Some_lt in Hk. lia.
Qed.

Lemma accidentalElement_setAccidentalTransform (x : Q) (cs : list Child) :
  accidentalElement (setAccidentalTransform x cs) =
    match accidentalElement cs with
    | Some _ => Some (Some x)
    | None => None
    end.
Proof.
  induction cs as [|[href tr|x1 y1 x2 y2] cs IH]; cbn; try assumption.
  - reflexivity.
  - destruct (isAccidentalGlyph href) eqn:E; cbn; rewrite E; [reflexivity|assumption].
Qed.

Lemma offsetCloseNote_applied (c : Q) (n : NoteEntry) :
  closeNoteOffsetApplied c n (offsetCloseNote c n).
Proof.
  unfold closeNoteOffsetApplied, offsetCloseNote.
  destruct n as [[u cls tr cs subs] nt x y a]. cbn.
  destruct (accidentalElement cs) as [[old|]|] eqn:E; cbn;
    repeat split; try reflexivity.
  - rewrite accidentalElement_setAccidentalTransform, E. reflexivity.
  - rewrite accidentalElement_setAccidentalTransform, E. reflexivity.
  - assumption.
Qed.

(** Claim C6, as amended.  The close-note pass never fails and changes
    entries in place only.  Scanning consecutive entries, it offsets the
    second of two entries whose diatonic indices differ by exactly 1,
    unless the first of the two was itself offset (the scan resumes after
    the entry that follows an offset one, so the pair they form is never
    examined): the group of an offset entry is translated right by
    [NOTE_SPACING / 2], and its accidental, if any, by the opposite amount
    on top of the translation it had.  Every other entry, the first one
    and the second of a pair at any other distance included, is left as it
    was. *)
Theorem C6_close_notes_pass :
  forall notes : list NoteEntry,
  exists (off : Q) (out : list NoteEntry),
    chordOffsetCloseNotes notes = Return (off, out) /\
    (off = 0%Q \/ off = closeNotesXOffset) /\
    List.length out = List.length notes /\
    forall (i : nat) (n : NoteEntry),
      nth_error notes i = Some n ->
      exists n' : NoteEntry,
        nth_error out i = Some n' /\
        if offsetByPass notes i
        then closeNoteOffsetApplied closeNotesXOffset n n'
        else n' = n.
Proof.
  intros notes.
  destruct (closeNotes_loop_spec notes (List.length notes) 1
              (nth_error notes 0) 0%Q notes)
    as (off & out & Hrun & Hoff & Hlen & Hout).
  - lia.
  - reflexivity.
  - intros k n Hk Hn. assert (k = 0)%nat by lia. subst k.
    rewrite Hn. reflexivity.
  - reflexivity.
  - reflexivity.
  - reflexivity.
  - lia.
  - left. reflexivity.
  - exists off, out. repeat split; try assumption.
    intros i n Hn. exists (afterCloseNotes notes i n).
    split; [now apply Hout|].
    unfold afterCloseNotes. destruct (offsetByPass notes i); [|reflexivity].
    apply offsetCloseNote_applied.
Qed.
End ChordFacts.

(** Claim C6 as stated fails on three stacked seconds.  In the chord C4, D4,
    E4 both consecutive pairs are exactly one diatonic step apart; the pass
    offsets D4 by half the note spacing and leaves E4, the second entry of
    the pair D4-E4, where it was. *)
Lemma C6_counterexample_three_stacked_seconds :
  exists (off : Q) (out : list NoteRenderer.NoteEntry),
    oneStepAbove (H := exampleHelpers)
      (exampleChordEntries ["C4q"; "D4q"; "E4q"]) 1 = true /\
    oneStepAbove (H := exampleHelpers)
      (exampleChordEntries ["C4q"; "D4q"; "E4q"]) 2 = true /\
    NoteRenderer.chordOffsetCloseNotes (K := exampleConstants) (H := exampleHelpers)
      (exampleChordEntries ["C4q"; "D4q"; "E4q"]) = Return (off, out) /\
    map (fun e => option_map fst (SVGRenderer.transform (NoteRenderer.gElement e))) out
      = [Some 0%Q; Some (inject_Z 28 / 2)%Q; Some 0%Q] /\
    nth_error out 2 = nth_error (exampleChordEntries ["C4q"; "D4q"; "E4q"]) 2.
Proof.
  do 2 eexists.
  split; [vm_compute; reflexivity|].
  split; [vm_compute; reflexivity|].
  split; [vm_compute; reflexivity|].
  split; vm_compute; reflexivity.
Qed.

Section AccidentalFacts.
Import SVGRenderer NoteRenderer.
Context {K : Constants}.

Lemma runPosition_bounds (r : nat) :
  1 <= CHORD_MAX_CONSECUTIVE_ACCIDENTALS ->
  0 <= runPosition r <= CHORD_MAX_CONSECUTIVE_ACCIDENTALS.
Proof.
  intros Hmax. destruct r as [|k]; simpl; [lia|].
  pose proof (Z.mod_pos_bound (Z.of_nat k) CHORD_MAX_CONSECUTIVE_ACCIDENTALS).
  lia.
Qed.

Lemma runPosition_succ (r : nat) :
  1 <= CHORD_MAX_CONSECUTIVE_ACCIDENTALS ->
  runPosition (S r) =
    if runPosition r <? CHORD_MAX_CONSECUTIVE_ACCIDENTALS
    then runPosition r + 1 else 1.
Proof.
  intros Hmax. set (m := CHORD_MAX_CONSECUTIVE_ACCIDENTALS) in *.
  destruct r as [|k].
  - unfold runPosition. fold m. cbn [Z.of_nat].
    destruct (0 <? m) eqn:E; [|apply Z.ltb_ge in E; lia].
    rewrite Zmod_0_l. reflexivity.
  - unfold runPosition. fold m.
    pose proof (Z.mod_pos_bound (Z.of_nat k) m ltac:(lia)) as Hb.
    replace (Z.of_nat (S k)) with (Z.of_nat k + 1) by lia.
    destruct (Z.of_nat k mod m + 1 <? m) eqn:E.
    + apply Z.ltb_lt in E. f_equal.
      rewrite Z.add_mod by lia.
      destruct (Z.eq_dec m 1) as [->|Hm1]; [lia|].
      rewrite (Z.mod_small 1 m) by lia.
      apply Z.mod_small. lia.
    + apply Z.ltb_ge in E.
      assert (Hk : Z.of_nat k mod m = m - 1) by lia.
      rewrite (Z.div_mod (Z.of_nat k) m) by lia. rewrite Hk.
      replace (m * (Z.of_nat k / m) + (m - 1) + 1)
        with ((Z.of_nat k / m + 1) * m) by lia.
      rewrite Z.mod_mul by lia. reflexivity.
Qed.

Lemma scanStep_invariant (s : AccidentalScan) (r : nat) (n : NoteEntry) :
  ACCIDENTAL_OFFSET_X < 0 -> 1 <= CHORD_MAX_CONSECUTIVE_ACCIDENTALS ->
  scanInvariant s r ->
  let r' := if hasAccidental n then S r else O in
  scanInvariant (scanStep s n) r' /\
  maxConsecutiveXOffset (scanStep s n)
    = Z.min (maxConsecutiveXOffset s) (stackedOffset r').
Proof.
  intros HA Hmax (Hc & Ho & Hm & Hm0).
  pose proof (runPosition_bounds r Hmax) as Hb.
  pose proof (runPosition_succ r Hmax) as Hs.
  unfold scanStep, scanInvariant, stackedOffset in *.
  destruct (hasAccidental n); cbn [andb].
  - rewrite Hc.
    destruct (runPosition r <? CHORD_MAX_CONSECUTIVE_ACCIDENTALS) eqn:E.
    + apply Z.ltb_lt in E. cbn -[Z.min runPosition Z.mul]. rewrite Hs, Ho.
      repeat split; try lia.
    + apply Z.ltb_ge in E.
      assert (Hle : (runPosition r <=? CHORD_MAX_CONSECUTIVE_ACCIDENTALS) = true)
        by (apply Z.leb_le; lia).
      rewrite Hle. cbn -[Z.min runPosition Z.mul]. rewrite Hs.
      repeat split; try lia. nia. nia.
  - cbn -[Z.min Z.mul]. repeat split; try lia.
Qed.

Lemma fold_min_start (m o : Z) (l : list Z) :
  fold_right Z.min (Z.min m o) l = Z.min o (fold_right Z.min m l).
Proof. induction l as [|x l IH]; simpl; lia. Qed.

Lemma accidentals_loop_spec (notes : list NoteEntry) :
  ACCIDENTAL_OFFSET_X < 0 -> 1 <= CHORD_MAX_CONSECUTIVE_ACCIDENTALS ->
  forall (s : AccidentalScan) (r : nat),
    scanInvariant s r ->
    let offsets := map stackedOffset (runLengths r (map hasAccidental notes)) in
    maxConsecutiveXOffset (fst (accidentals_loop s notes))
      = fold_right Z.min (maxConsecutiveXOffset s) offsets /\
    snd (accidentals_loop s notes) = zipWith withStackedAccidental offsets notes.
Proof.
  intros HA Hmax. induction notes as [|n notes IH]; intros s r Hinv.
  - split; reflexivity.
  - destruct (scanStep_invariant s r n HA Hmax Hinv) as (Hinv' & Hmin).
    cbn zeta in Hinv'.
    specialize (IH _ _ Hinv'). cbn zeta in IH. destruct IH as (IHm & IHo).
    cbn [accidentals_loop].
    destruct (accidentals_loop (scanStep s n) notes) as [s'' out] eqn:Hloop.
    cbn [fst snd] in *. cbn [map runLengths fold_right zipWith].
    split.
    + rewrite IHm, Hmin, fold_min_start. reflexivity.
    + rewrite IHo. f_equal.
      destruct Hinv' as (_ & Ho' & _).
      unfold scanApply, withStackedAccidental. rewrite Ho'. reflexivity.
Qed.

Lemma no_accidentals_offsets (notes : list NoteEntry) :
  forallb (fun n => negb (hasAccidental n)) notes = true ->
  stackedOffsets notes = map (fun _ => 0) notes.
Proof.
  unfold stackedOffsets. induction notes as [|n notes IH]; intros Hall;
    [reflexivity|].
  cbn [forallb] in Hall. apply andb_prop in Hall. destruct Hall as [Hn Hall].
  apply negb_true_iff in Hn. cbn [map runLengths]. rewrite Hn.
  cbn [map]. rewrite (IH Hall). unfold stackedOffset, runPosition.
  rewrite Z.mul_0_r. reflexivity.
Qed.

Lemma zipWith_zero_offsets (notes : list NoteEntry) :
  zipWith withStackedAccidental (map (fun _ => 0) notes) notes = notes.
Proof.
  induction notes as [|n notes IH]; [reflexivity|].
  cbn [map zipWith]. rewrite IH. reflexivity.
Qed.

Lemma mostNegative_zero_offsets (notes : list NoteEntry) :
  mostNegative (map (fun _ => 0) notes) = 0.
Proof.
  unfold mostNegative. induction notes as [|n notes IH]; [reflexivity|].
  cbn [map fold_right]. rewrite IH. reflexivity.
Qed.

Lemma mostNegative_nonpos (offsets : list Z) : mostNegative offsets <= 0.
Proof.
  unfold mostNegative. induction offsets as [|o offsets IH]; cbn [fold_right]; lia.
Qed.

(** The first run of digits of a whole number is that number. *)
Lemma readTranslateX_inject_Z (z : Z) : readTranslateX (inject_Z z) = z.
Proof.
  unfold readTranslateX. rewrite Qceiling_Z, Qfloor_Z.
  destruct (Qle_bool 0 (inject_Z z)); reflexivity.
Qed.

(** A chord with an accidental reaches an offset of at least one unit to the
    left. *)
Lemma mostNegative_with_accidental (notes : list NoteEntry) :
  ACCIDENTAL_OFFSET_X < 0 ->
  1 <= CHORD_MAX_CONSECUTIVE_ACCIDENTALS ->
  existsb hasAccidental notes = true ->
  forall prev : nat,
    mostNegative (map stackedOffset (runLengths prev (map hasAccidental notes)))
      <= ACCIDENTAL_OFFSET_X.
Proof.
  intros HA Hmax. unfold mostNegative.
  induction notes as [|n notes IH]; intros Hsome prev; [discriminate|].
  cbn [existsb map runLengths fold_right] in *.
  destruct (hasAccidental n) eqn:Hn.
  - assert (Hpos : 1 <= runPosition (S prev)).
    { cbn [runPosition].
      pose proof (Z.mod_pos_bound (Z.of_nat prev) CHORD_MAX_CONSECUTIVE_ACCIDENTALS).
      lia. }
    unfold stackedOffset at 1. nia.
  - cbn [orb] in Hsome. specialize (IH Hsome O). lia.
Qed.

(** The value the accidental pass returns is strictly positive, and at least
    one unit, as soon as one note of the chord has an accidental: it is the
    width taken on the left, never a leftward (negative) offset. *)
Theorem accidentals_pass_returns_a_positive_width :
  forall notes : list NoteEntry,
    ACCIDENTAL_OFFSET_X < 0 ->
    1 <= CHORD_MAX_CONSECUTIVE_ACCIDENTALS ->
    existsb hasAccidental notes = true ->
    0 < - ACCIDENTAL_OFFSET_X <= fst (chordOffsetConsecutiveAccidentals notes).
Proof.
  intros notes HA Hmax Hsome.
  assert (Hinit : scanInvariant (mkScan 0 0 0) 0).
  { unfold scanInvariant, stackedOffset, runPosition. cbn. lia. }
  destruct (accidentals_loop_spec notes HA Hmax _ _ Hinit) as (Hm & _).
  cbn zeta in Hm.
  unfold chordOffsetConsecutiveAccidentals.
  destruct (accidentals_loop (mkScan 0 0 0) notes) as [s out].
  cbn [fst snd] in *. rewrite Hm.
  change (maxConsecutiveXOffset (mkScan 0 0 0)) with 0.
  pose proof (mostNegative_with_accidental notes HA Hmax Hsome O) as Hleft.
  unfold mostNegative in Hleft. lia.
Qed.

(** Claim C7, as amended.  With a leftward (negative) accidental unit and a
    maximum run length of at least 1: the entry in place k of a run of
    consecutive accidental-bearing entries (an entry without accidental
    ends the run) has the offset [ACCIDENTAL_OFFSET_X] times
    [(k - 1) mod max + 1]: one unit further left than the entry before it,
    until the run has reached the maximum, after which the offset restarts
    from one unit; the accidental of such an entry is translated by that
    offset less one unit.  The pass returns the negation of the
    most negative of these offsets, which is a magnitude and never
    negative, and 0 for a chord without accidentals, which it leaves as it
    was. *)
Theorem C7_consecutive_accidentals_pass :
  forall notes : list NoteEntry,
    ACCIDENTAL_OFFSET_X < 0 ->
    1 <= CHORD_MAX_CONSECUTIVE_ACCIDENTALS ->
    chordOffsetConsecutiveAccidentals notes
      = (- mostNegative (stackedOffsets notes),
         zipWith withStackedAccidental (stackedOffsets notes) notes) /\
    0 <= - mostNegative (stackedOffsets notes) /\
    stackedOffset 0 = 0 /\
    (forall r : nat,
       stackedOffset (S r) =
         if runPosition r <? CHORD_MAX_CONSECUTIVE_ACCIDENTALS
         then stackedOffset r + ACCIDENTAL_OFFSET_X
         else ACCIDENTAL_OFFSET_X) /\
    (forallb (fun n => negb (hasAccidental n)) notes = true ->
     chordOffsetConsecutiveAccidentals notes = (0, notes)).
Proof.
  intros notes HA Hmax.
  assert (Hinit : scanInvariant (mkScan 0 0 0) 0).
  { unfold scanInvariant, stackedOffset, runPosition. cbn. lia. }
  destruct (accidentals_loop_spec notes HA Hmax _ _ Hinit) as (Hm & Ho).
  cbn zeta in Hm, Ho. fold (stackedOffsets notes) in Hm, Ho.
  assert (Hrun : chordOffsetConsecutiveAccidentals notes
                 = (- mostNegative (stackedOffsets notes),
                    zipWith withStackedAccidental (stackedOffsets notes) notes)).
  { unfold chordOffsetConsecutiveAccidentals.
    destruct (accidentals_loop (mkScan 0 0 0) notes) as [s out].
    cbn [fst snd] in Hm, Ho. rewrite Hm, Ho. reflexivity. }
  split; [exact Hrun|].
  split; [pose proof (mostNegative_nonpos (stackedOffsets notes)); lia|].
  split; [unfold stackedOffset, runPosition; lia|].
  split.
  - intros r. unfold stackedOffset. rewrite (runPosition_succ r Hmax).
    destruct (runPosition r <? CHORD_MAX_CONSECUTIVE_ACCIDENTALS); lia.
  - intros Hnone. rewrite Hrun, (no_accidentals_offsets notes Hnone).
    rewrite mostNegative_zero_offsets, zipWith_zero_offsets. reflexivity.
Qed.
End AccidentalFacts.

(** [accidentals_pass_returns_a_positive_width] at the chord C#4, E4. *)
Lemma accidentals_pass_positive_witness :
  0 < 10 <= fst (NoteRenderer.chordOffsetConsecutiveAccidentals
                   (K := exampleConstants) (exampleChordEntries ["C#4q"; "E4q"])).
Proof.
  apply (accidentals_pass_returns_a_positive_width (K := exampleConstants)
           (exampleChordEntries ["C#4q"; "E4q"]));
    [vm_compute; reflexivity | vm_compute; discriminate | vm_compute; reflexivity].
Defined.

(** Claim C7, the amended statement at a concrete input: the chord C#4, D#4,
    E#4, F#4, G4, with a unit of -10 and a maximum run of 3. *)
Lemma C7_consecutive_accidentals_witness :
  NoteRenderer.chordOffsetConsecutiveAccidentals (K := exampleConstants)
    (exampleChordEntries ["C#4q"; "D#4q"; "E#4q"; "F#4q"; "G4q"])
    = (- mostNegative
           (stackedOffsets (K := exampleConstants)
              (exampleChordEntries ["C#4q"; "D#4q"; "E#4q"; "F#4q"; "G4q"])),
       zipWith (withStackedAccidental (K := exampleConstants))
         (stackedOffsets (K := exampleConstants)
            (exampleChordEntries ["C#4q"; "D#4q"; "E#4q"; "F#4q"; "G4q"]))
         (exampleChordEntries ["C#4q"; "D#4q"; "E#4q"; "F#4q"; "G4q"])) /\
  stackedOffsets (K := exampleConstants)
    (exampleChordEntries ["C#4q"; "D#4q"; "E#4q"; "F#4q"; "G4q"])
    = [-10; -20; -30; -10; 0].
Proof.
  split.
  - apply (C7_consecutive_accidentals_pass (K := exampleConstants)
             (exampleChordEntries ["C#4q"; "D#4q"; "E#4q"; "F#4q"; "G4q"]));
      [vm_compute; reflexivity | vm_compute; discriminate].
  - vm_compute. reflexivity.
Defined.

(** Claim C7 as stated fails on the sign of the result.  For the chord C#4,
    D#4, E4 with a unit of -10 the offsets reached are -10 and -20; the most
    negative, which the pass keeps in [maxConsecutiveXOffset], is -20, and
    the pass returns 20. *)
Lemma C7_counterexample_returns_the_magnitude :
  stackedOffsets (K := exampleConstants)
    (exampleChordEntries ["C#4q"; "D#4q"; "E4q"]) = [-10; -20; 0] /\
  NoteRenderer.maxConsecutiveXOffset
    (fst (NoteRenderer.accidentals_loop (K := exampleConstants)
            (NoteRenderer.mkScan 0 0 0)
            (exampleChordEntries ["C#4q"; "D#4q"; "E4q"]))) = -20 /\
  fst (NoteRenderer.chordOffsetConsecutiveAccidentals (K := exampleConstants)
         (exampleChordEntries ["C#4q"; "D#4q"; "E4q"])) = 20.
Proof.
  repeat split; vm_compute; reflexivity.
Qed.

(** ** The pitched staff *)

Section PitchedFacts.
Import SVGRenderer NoteRenderer MusicStaff.
Context {K : Constants} {H : NoteHelpers} {SM : StrategyMethods}.

(** [renderNote] always returns, and only takes a fresh node identity. *)
Lemma renderNote_run (strategy : StaffStrategy) (n : NoteObj) (y : Q)
    (r : SVGRenderer.t) :
  exists res r',
    renderNote strategy n y r = (Return res, r') /\
    SVGRenderer.notesLayer r' = SVGRenderer.notesLayer r.
Proof.
  unfold renderNote, bind, createGroup.
  destruct (noteAccidental (accidental n)) as [glyph xOffset].
  eexists _, _. split; reflexivity.
Qed.

Lemma onRenderer_renderNote (strategy : StaffStrategy) (n : NoteObj) (y : Q)
    (st : MusicStaff.t) :
  exists res r',
    onRenderer (renderNote strategy n y) st
      = (Return res, set_svgRendererInstance r' st) /\
    SVGRenderer.notesLayer r' = SVGRenderer.notesLayer (svgRendererInstance st).
Proof.
  destruct (renderNote_run strategy n y (svgRendererInstance st))
    as (res & r' & Hrun & Hlayer).
  exists res, r'. unfold onRenderer. rewrite Hrun. split; [reflexivity|assumption].
Qed.

Lemma changeNoteByIndex_past_the_end (noteString : string) (noteIndex : Z)
    (st : MusicStaff.t) :
  Z.of_nat (List.length (noteEntries st)) <= noteIndex ->
  changeNoteByIndex noteString noteIndex st = (Throw BoundsError, st).
Proof.
  intros Hge. unfold changeNoteByIndex, bind, get.
  apply Z.leb_le in Hge. rewrite Hge. reflexivity.
Qed.


Lemma pitched_commitIfAny_run (pending : list SVGGElement) (st : MusicStaff.t) :
  MusicStaff.commitIfAny pending st
    = onRenderer (SVGRenderer.commitElementsToDOM pending) st.
Proof.
  destruct pending; [|reflexivity].
  unfold MusicStaff.commitIfAny, onRenderer, SVGRenderer.commitElementsToDOM,
    modify, ret, SVGRenderer.set_notesLayer, set_svgRendererInstance.
  rewrite app_nil_r. destruct st as [[] ? ? ? ?]; reflexivity.
Qed.

(** The two ways a member of a pitched [drawNote] batch can end. *)
Lemma pitched_drawNoteToken_cases (noteString : string)
    (pending : list SVGGElement) (st : MusicStaff.t) :
  (parseNoteString noteString = None /\
   MusicStaff.drawNoteToken noteString pending st
     = (Throw ParseError, snd (MusicStaff.commitIfAny pending st)))
  \/
  (exists noteObj entry st',
     parseNoteString noteString = Some noteObj /\
     MusicStaff.drawNoteToken noteString pending st
       = (Return (pending ++ [gElement entry]), st') /\
     note entry = noteObj /\
     noteEntries st' = noteEntries st ++ [entry] /\
     SVGRenderer.notesLayer (svgRendererInstance st')
       = SVGRenderer.notesLayer (svgRendererInstance st)).
Proof.
  unfold MusicStaff.drawNoteToken.
  destruct (parseNoteString noteString) as [noteObj|].
  - right.
    destruct (onRenderer_renderNote (strategyInstance st) noteObj
                (calculateNoteYPos (strategyInstance st) (name noteObj) (octave noteObj))
                st) as (res & r' & Hrun & Hlayer).
    exists noteObj,
      (mkNoteEntry
         (setTransform (noteCursorX st + accidentalOffset res)%Q
            (calculateNoteYPos (strategyInstance st) (name noteObj) (octave noteObj))
            (noteGroup res))
         noteObj (noteCursorX st + accidentalOffset res)%Q
         (calculateNoteYPos (strategyInstance st) (name noteObj) (octave noteObj))
         (accidentalOffset res)).
    eexists. split; [reflexivity|].
    split.
    { unfold bind at 1. unfold get at 1. unfold bind at 1. rewrite Hrun.
      cbn. reflexivity. }
    cbn. destruct st; cbn in *. auto.
  - left. split; [reflexivity|].
    unfold bind, throw.
    destruct (MusicStaff.commitIfAny pending st) as [[[]|err] st1] eqn:Hc;
      [reflexivity|].
    destruct pending; discriminate.
Qed.

Lemma pitched_drawNote_loop_committed :
  forall (pre : list string) (pending : list SVGGElement) (st st' : MusicStaff.t),
    MusicStaff.drawNote_loop pre pending st = (Return tt, st') ->
    exists entries,
      SVGRenderer.notesLayer (svgRendererInstance st')
        = SVGRenderer.notesLayer (svgRendererInstance st)
          ++ pending ++ map gElement entries /\
      noteEntries st' = noteEntries st ++ entries /\
      map (fun e => Some (note e)) entries = map parseNoteString pre.
Proof.
  induction pre as [|a pre IH]; intros pending st st' Hrun.
  - cbn in Hrun. injection Hrun as <-. exists []. cbn.
    rewrite !app_nil_r. destruct st as [[] ? ? ? ?]; repeat split.
  - cbn [MusicStaff.drawNote_loop] in Hrun. unfold bind in Hrun.
    destruct (pitched_drawNoteToken_cases a pending st)
      as [[_ Heq]|(noteObj & entry & st1 & Hp & Heq & Hnote & He & Hl)];
      rewrite Heq in Hrun; try discriminate.
    destruct (IH _ _ _ Hrun) as (entries & Hlayer & Hentries & Hnotes).
    exists (entry :: entries).
    rewrite Hlayer, Hentries, Hl, He. rewrite <- !app_assoc. cbn.
    repeat split. rewrite Hnotes, Hnote, Hp. reflexivity.
Qed.

(** A batch with a malformed member stops at the first one. *)
Lemma pitched_drawNote_loop_stops :
  forall (notes : list string) (pending : list SVGGElement) (st : MusicStaff.t),
    Exists (fun s => parseNoteString s = None) notes ->
    exists pre failing rest st',
      notes = pre ++ failing :: rest /\
      Forall (fun s => parseNoteString s <> None) pre /\
      parseNoteString failing = None /\
      MusicStaff.drawNote_loop pre pending st = (Return tt, st') /\
      forall rest', MusicStaff.drawNote_loop (pre ++ failing :: rest') pending st
                    = (Throw ParseError, st').
Proof.
  induction notes as [|a notes IH]; intros pending st Hex.
  - inversion Hex.
  - destruct (pitched_drawNoteToken_cases a pending st)
      as [[Hp Heq]|(noteObj & entry & st1 & Hp & Heq & _)].
    + exists [], a, notes. eexists. split; [reflexivity|].
      split; [constructor|]. split; [assumption|].
      split; [reflexivity|].
      intros rest'. cbn. unfold bind. rewrite Heq.
      rewrite pitched_commitIfAny_run. reflexivity.
    + assert (Hex' : Exists (fun s => parseNoteString s = None) notes).
      { inversion Hex; subst; [congruence|assumption]. }
      destruct (IH (pending ++ [gElement entry]) st1 Hex')
        as (pre & failing & rest & st' & -> & Hall & Hbad & Hpre & Hstop).
      exists (a :: pre), failing, rest, st'. split; [reflexivity|].
      split; [constructor; [congruence|assumption]|]. split; [assumption|].
      split.
      * cbn. unfold bind. rewrite Heq. assumption.
      * intros rest'. cbn. unfold bind. rewrite Heq. apply Hstop.
Qed.

End PitchedFacts.



(** ** Batches of notes, on both staffs *)

Section BatchFacts.
Context {K : Constants} {H : NoteHelpers} {SM : StrategyMethods}.

(** Claim C9.  A [drawNote] batch that contains a malformed member stops
    at its first failing member, on the rhythm staff and on the pitched
    staff alike: the members before it are drawn, each in its turn, and
    they are committed to the notes layer; the error is thrown; whatever
    follows the failing member has no effect.  The state is the one the
    members before the failing one would have left on their own.  On the
    pitched staff the failing member is the first malformed one; on the
    rhythm staff it may also be a member before it that meets a full
    staff. *)
Theorem C9_batch_drawNote_is_best_effort :
  forall (rnotes : list string) (rs : RhythmStaff.t)
         (mnotes : list string) (ms : MusicStaff.t),
    Exists (fun s => parseDurationNoteString s = None) rnotes ->
    Exists (fun s => parseNoteString s = None) mnotes ->
    (exists (pre : list string) (failing : string) (rest : list string)
            (err : Error) (rs' : RhythmStaff.t)
            (groups : list RhythmStaff.SVGGElement),
       rnotes = pre ++ failing :: rest /\
       Forall (fun s => parseDurationNoteString s <> None) pre /\
       ((err = ParseError /\ parseDurationNoteString failing = None) \/
        (err = MaxBeatError /\ parseDurationNoteString failing <> None)) /\
       RhythmStaff.drawNote rnotes rs = (Throw err, rs') /\
       (forall rest', RhythmStaff.drawNote (pre ++ failing :: rest') rs
                      = (Throw err, rs')) /\
       RhythmStaff.drawNote pre rs = (Return tt, rs') /\
       RhythmStaff.notesLayer rs' = RhythmStaff.notesLayer rs ++ groups /\
       RhythmStaff.noteEntries rs' = RhythmStaff.noteEntries rs ++ groups /\
       map RhythmStaff.shapes (RhythmSpec.noteGroupsOf groups)
         = map RhythmSpec.tokenShapes pre)
    /\
    (exists (pre : list string) (failing : string) (rest : list string)
            (ms' : MusicStaff.t) (entries : list NoteRenderer.NoteEntry),
       mnotes = pre ++ failing :: rest /\
       Forall (fun s => parseNoteString s <> None) pre /\
       parseNoteString failing = None /\
       MusicStaff.drawNote mnotes ms = (Throw ParseError, ms') /\
       (forall rest', MusicStaff.drawNote (pre ++ failing :: rest') ms
                      = (Throw ParseError, ms')) /\
       MusicStaff.drawNote pre ms = (Return tt, ms') /\
       SVGRenderer.notesLayer (MusicStaff.svgRendererInstance ms')
         = SVGRenderer.notesLayer (MusicStaff.svgRendererInstance ms)
           ++ map NoteRenderer.gElement entries /\
       MusicStaff.noteEntries ms' = MusicStaff.noteEntries ms ++ entries /\
       map (fun e => Some (NoteRenderer.note e)) entries
         = map parseNoteString pre).
Proof.
  intros rnotes rs mnotes ms Hr Hm. split.
  - destruct (drawNote_loop_stops rnotes [] rs Hr)
      as (pre & failing & rest & err & rs' & Hsplit & Hall & Herr & Hpre & Hstop).
    destruct (drawNote_loop_committed pre [] rs rs' Hpre)
      as (groups & Hlayer & Hentries & Hshapes).
    exists pre, failing, rest, err, rs', groups.
    repeat split; try assumption.
    rewrite Hsplit. apply Hstop.
  - destruct (pitched_drawNote_loop_stops mnotes [] ms Hm)
      as (pre & failing & rest & ms' & Hsplit & Hall & Hbad & Hpre & Hstop).
    destruct (pitched_drawNote_loop_committed pre [] ms ms' Hpre)
      as (entries & Hlayer & Hentries & Hnotes).
    exists pre, failing, rest, ms', entries.
    repeat split; try assumption.
    rewrite Hsplit. apply Hstop.
Qed.
End BatchFacts.

(** Claim C9 at a concrete input: a rhythm batch and a pitched batch, each
    with a malformed second member. *)
Lemma C9_batch_drawNote_witness :
  (exists (err : Error) (rs' : RhythmStaff.t),
     RhythmStaff.drawNote ["q"; "x"; "h"] (RhythmSpec.constructed (exampleStaff 4 2))
       = (Throw err, rs')) /\
  (exists ms' : MusicStaff.t,
     MusicStaff.drawNote (K := exampleConstants) (H := exampleHelpers)
       (SM := exampleStrategyMethods) ["C4q"; "oops"; "E4q"] (exampleMusicStaff [])
       = (Throw ParseError, ms')).
Proof.
  destruct (C9_batch_drawNote_is_best_effort (K := exampleConstants)
              (H := exampleHelpers) (SM := exampleStrategyMethods)
              ["q"; "x"; "h"] (RhythmSpec.constructed (exampleStaff 4 2))
              ["C4q"; "oops"; "E4q"] (exampleMusicStaff []))
    as [(pre & failing & rest & err & rs' & groups & _ & _ & _ & Hr & _)
        (mpre & mfailing & mrest & ms' & entries & _ & _ & _ & Hm & _)].
  - apply Exists_cons_tl, Exists_cons_hd. reflexivity.
  - apply Exists_cons_tl, Exists_cons_hd. reflexivity.
  - split; [exists err, rs'; exact Hr | exists ms'; exact Hm].
Defined.

(** ** The constructors of the pitched staffs *)

Section ConstructorFacts.
Context {K : Constants}.

Lemma selectStrategy_supported (staffType : string) :
  In staffType supportedStaffTypes ->
  selectStrategy staffType = Some (expectedStrategy staffType).
Proof.
  intros [<-|[<-|[<-|[<-|[]]]]]; reflexivity.
Qed.

Lemma selectStrategy_unsupported (staffType : string) :
  ~ In staffType supportedStaffTypes ->
  selectStrategy staffType = None.
Proof.
  intros Hnot. unfold selectStrategy.
  destruct (String.eqb staffType "grand") eqn:E1;
    [apply String.eqb_eq in E1; subst; exfalso; apply Hnot; cbn; auto|].
  destruct (String.eqb staffType "bass") eqn:E2;
    [apply String.eqb_eq in E2; subst; exfalso; apply Hnot; cbn; auto|].
  destruct (String.eqb staffType "treble") eqn:E3;
    [apply String.eqb_eq in E3; subst; exfalso; apply Hnot; cbn; auto|].
  destruct (String.eqb staffType "alto") eqn:E4;
    [apply String.eqb_eq in E4; subst; exfalso; apply Hnot; cbn; auto|].
  reflexivity.
Qed.

(** Claim C10.  A staff type outside treble, bass, alto and grand makes
    the constructor of [MusicStaff], and that of [ScrollingStaff], throw
    before [drawStaff] is called and before the root element is
    committed, and there is no instance.  A supported staff type gives an
    instance whose strategy is the grand strategy for "grand" and the
    single-clef strategy of that clef for "treble", "bass" and "alto", and
    the staff is drawn once, with that strategy. *)
Theorem C10_constructor_selects_the_strategy :
  forall options : MusicStaffOptions,
    (~ In (staffType (withDefaults options)) supportedStaffTypes ->
     exists r1 r2 : SVGRenderer.t,
       MusicStaff.new options = (Throw ConfigError, r1) /\
       SVGRenderer.staffLayer r1 = [] /\
       SVGRenderer.rootCommitted r1 = false /\
       ScrollingStaff.new options = (Throw ConfigError, r2) /\
       SVGRenderer.staffLayer r2 = [] /\
       SVGRenderer.rootCommitted r2 = false)
    /\
    (In (staffType (withDefaults options)) supportedStaffTypes ->
     exists (m : MusicStaff.t) (s : ScrollingStaff.t) (r1 r2 : SVGRenderer.t),
       MusicStaff.new options = (Return m, r1) /\
       MusicStaff.strategyInstance m
         = expectedStrategy (staffType (withDefaults options)) /\
       SVGRenderer.staffLayer r1
         = [(expectedStrategy (staffType (withDefaults options)),
             width (withDefaults options))] /\
       SVGRenderer.rootCommitted r1 = true /\
       ScrollingStaff.new options = (Return s, r2) /\
       ScrollingStaff.strategyInstance s
         = expectedStrategy (staffType (withDefaults options)) /\
       SVGRenderer.staffLayer r2
         = [(expectedStrategy (staffType (withDefaults options)),
             width (withDefaults options))] /\
       SVGRenderer.rootCommitted r2 = true)
    /\
    expectedStrategy "treble" = SingleStaffStrategy "treble" /\
    expectedStrategy "bass" = SingleStaffStrategy "bass" /\
    expectedStrategy "alto" = SingleStaffStrategy "alto" /\
    expectedStrategy "grand" = GrandStaffStrategy "grand".
Proof.
  intros options. split; [|split].
  - intros Hnot. apply selectStrategy_unsupported in Hnot.
    unfold MusicStaff.new, ScrollingStaff.new,
      MusicStaff.construct, ScrollingStaff.construct.
    rewrite Hnot. cbn. eexists _, _. repeat split.
  - intros Hin. apply selectStrategy_supported in Hin.
    unfold MusicStaff.new, ScrollingStaff.new,
      MusicStaff.construct, ScrollingStaff.construct.
    rewrite Hin.
    destruct (truthy (spaceAbove (withDefaults options)));
      destruct (truthy (spaceBelow (withDefaults options)));
      cbn; eexists _, _, _, _; repeat split.
  - repeat split.
Qed.
End ConstructorFacts.

(** Claim C10 at concrete inputs: the staff types "soprano" and "grand". *)
Lemma C10_constructor_witness :
  (exists r1 r2 : SVGRenderer.t,
     MusicStaff.new (K := exampleConstants)
       (mkMusicStaffOptions None (Some "soprano") None None)
       = (Throw ConfigError, r1) /\
     SVGRenderer.staffLayer r1 = [] /\
     SVGRenderer.rootCommitted r1 = false /\
     ScrollingStaff.new (K := exampleConstants)
       (mkMusicStaffOptions None (Some "soprano") None None)
       = (Throw ConfigError, r2) /\
     SVGRenderer.staffLayer r2 = [] /\
     SVGRenderer.rootCommitted r2 = false)
  /\
  (exists (m : MusicStaff.t) (s : ScrollingStaff.t),
     fst (MusicStaff.new (K := exampleConstants)
            (mkMusicStaffOptions None (Some "grand") None None)) = Return m /\
     MusicStaff.strategyInstance m = GrandStaffStrategy "grand" /\
     fst (ScrollingStaff.new (K := exampleConstants)
            (mkMusicStaffOptions None (Some "grand") None None)) = Return s /\
     ScrollingStaff.strategyInstance s = GrandStaffStrategy "grand").
Proof.
  split.
  - apply (C10_constructor_selects_the_strategy (K := exampleConstants)
             (mkMusicStaffOptions None (Some "soprano") None None)).
    cbn. intros [E|[E|[E|[E|[]]]]]; discriminate E.
  - destruct (C10_constructor_selects_the_strategy (K := exampleConstants)
                (mkMusicStaffOptions None (Some "grand") None None))
      as (_ & Hsup & _).
    destruct Hsup as (m & s & r1 & r2 & Hm & Hms & _ & _ & Hs & Hss & _).
    + cbn. auto.
    + exists m, s. rewrite Hm, Hs. repeat split; assumption.
Defined.

(** ** The rhythm staff in closed form *)

(** Equality of two states, or of two results, field by field. *)
Ltac fields_eq := repeat (first [reflexivity | lia | f_equal]).

Section RhythmLayoutFacts.
Import RhythmStaff RhythmSpec RhythmLayout.

Lemma totalBeats_app (ds1 ds2 : list Durations) :
  totalBeats (ds1 ++ ds2) = totalBeats ds1 + totalBeats ds2.
Proof.
  unfold totalBeats. induction ds1 as [|d ds1 IH]; cbn [app fold_right]; lia.
Qed.

(** The loop of [createRemainingRests], whatever the fuel. *)
Lemma createRemainingRests_loop_run (fuel : nat) :
  forall (beatsLeft : Z) (acc : list SVGGElement) (st : t),
    createRemainingRests_loop fuel beatsLeft acc st
    = (Return (acc ++ fillerRests (noteCursorX st) (quarterNoteSpacing st)
                        (fillerDurations fuel beatsLeft)),
       set_noteCursorX
         (noteCursorX st
          + totalBeats (fillerDurations fuel beatsLeft) * quarterNoteSpacing st)
         (set_currentBeatCount
            (currentBeatCount st + totalBeats (fillerDurations fuel beatsLeft)) st)).
Proof.
  induction fuel as [|fuel IH]; intros beatsLeft acc st.
  - cbn [createRemainingRests_loop fillerDurations fillerRests totalBeats fold_right].
    unfold ret. rewrite app_nil_r. destruct st; unfold set_noteCursorX, set_currentBeatCount.
    cbn. do 2 f_equal; lia.
  - cbn [createRemainingRests_loop fillerDurations].
    destruct (0 <? beatsLeft) eqn:E.
    + unfold bind at 1. unfold get at 1. unfold bind at 1. unfold modify at 1.
      unfold bind at 1. unfold modify at 1.
      rewrite IH. destruct st as [tn bc q c es mx n ly].
      unfold set_noteCursorX, set_currentBeatCount. cbn [topNumber barsCount
        quarterNoteSpacing noteCursorX noteEntries maxBeatCount currentBeatCount
        notesLayer fillerRests totalBeats fold_right].
      rewrite <- app_assoc. cbn [app].
      fold (totalBeats (fillerDurations fuel
              (beatsLeft - durationBeatValueMap (biggestRest beatsLeft)))).
      f_equal. f_equal; lia.
    + cbn [fillerRests totalBeats fold_right]. unfold ret. rewrite app_nil_r.
      destruct st; unfold set_noteCursorX, set_currentBeatCount.
      cbn. do 2 f_equal; lia.
Qed.

Lemma checkAndCreateNewBar_at (st : t) :
  checkAndCreateNewBar st = (Return tt, set_noteCursorX (cursorAtToken st) st).
Proof.
  unfold checkAndCreateNewBar, cursorAtToken, startsNewBar, bind, get.
  destruct ((0 <? currentBeatCount st) && (beatInBar st =? 0)
            && (currentBeatCount st <? maxBeatCount st)).
  - reflexivity.
  - unfold ret. destruct st. reflexivity.
Qed.

Lemma checkAndFillBarWithRests_run (beatValue : Z) (st : t) :
  checkAndFillBarWithRests beatValue st
  = (Return (if overflows st beatValue
             then Some (fillerRests (noteCursorX st) (quarterNoteSpacing st)
                          (fillerFor st beatValue))
             else None),
     set_noteCursorX
       (noteCursorX st
        + totalBeats (fillerFor st beatValue) * quarterNoteSpacing st
        + (if overflows st beatValue then quarters BAR_SPACING else 0))
       (set_currentBeatCount
          (currentBeatCount st + totalBeats (fillerFor st beatValue)) st)).
Proof.
  unfold checkAndFillBarWithRests, fillerFor, overflows, bind at 1, get at 1.
  destruct (remainingBeatsInBar st <? beatValue) eqn:E.
  - unfold createRemainingRests, bind at 1.
    rewrite createRemainingRests_loop_run. cbn [app].
    unfold bind, handleNewBar, modify, ret.
    destruct st. unfold set_noteCursorX, set_currentBeatCount. cbn. reflexivity.
  - unfold ret. cbn [totalBeats fold_right].
    destruct st. unfold set_noteCursorX, set_currentBeatCount. cbn.
    do 2 f_equal; lia.
Qed.

Lemma remainingBeatsInBar_cursor (x : Z) (st : t) :
  remainingBeatsInBar (set_noteCursorX x st) = remainingBeatsInBar st.
Proof. reflexivity. Qed.

(** A well-formed note token on a staff that is not full. *)
Lemma drawNoteToken_placed (noteString : string) (d : Durations)
    (pending : list SVGGElement) (st : t) :
  parseDurationNoteString noteString = Some d ->
  currentBeatCount st < maxBeatCount st ->
  drawNoteToken noteString pending st
  = (Return (pending ++ fst (placeToken "note" renderNote d st)),
     snd (placeToken "note" renderNote d st)).
Proof.
  intros Hd Hroom. unfold drawNoteToken. rewrite Hd.
  unfold bind at 1. unfold get at 1.
  assert (E : (maxBeatCount st <=? currentBeatCount st) = false)
    by (apply Z.leb_gt; lia).
  rewrite E. unfold bind at 1. rewrite checkAndCreateNewBar_at.
  unfold bind at 1. rewrite checkAndFillBarWithRests_run.
  unfold placeToken, tokenX, fillerFor, overflows.
  rewrite !remainingBeatsInBar_cursor.
  destruct (remainingBeatsInBar st <? durationBeatValueMap d);
    destruct st; unfold bind, get, modify, pushEntries, ret,
      set_noteCursorX, set_currentBeatCount, set_noteEntries;
    cbn; rewrite ?app_nil_r, <- ?app_assoc; fields_eq.
Qed.

(** A well-formed rest token on a staff that is not full. *)
Lemma drawRestToken_placed (restString : string) (d : Durations)
    (pending : list SVGGElement) (st : t) :
  parseDurationNoteString restString = Some d ->
  currentBeatCount st < maxBeatCount st ->
  drawRestToken restString pending st
  = (Return (pending ++ fst (placeToken "rest" renderRest d st)),
     snd (placeToken "rest" renderRest d st)).
Proof.
  intros Hd Hroom. unfold drawRestToken. rewrite Hd.
  unfold bind at 1. unfold get at 1.
  assert (E : (maxBeatCount st <=? currentBeatCount st) = false)
    by (apply Z.leb_gt; lia).
  rewrite E. unfold bind at 1. rewrite checkAndCreateNewBar_at.
  unfold bind at 1. rewrite checkAndFillBarWithRests_run.
  unfold placeToken, tokenX, fillerFor, overflows.
  rewrite !remainingBeatsInBar_cursor.
  destruct (remainingBeatsInBar st <? durationBeatValueMap d);
    destruct st; unfold bind, get, modify, pushEntries, ret,
      set_noteCursorX, set_currentBeatCount, set_noteEntries;
    cbn; rewrite ?app_nil_r, <- ?app_assoc; fields_eq.
Qed.

Lemma drawNoteToken_full (noteString : string) (d : Durations)
    (pending : list SVGGElement) (st : t) :
  parseDurationNoteString noteString = Some d ->
  maxBeatCount st <= currentBeatCount st ->
  drawNoteToken noteString pending st
  = (Throw MaxBeatError, snd (commitIfAny pending st)).
Proof.
  intros Hd Hfull. unfold drawNoteToken. rewrite Hd.
  unfold bind at 1. unfold get at 1.
  assert (E : (maxBeatCount st <=? currentBeatCount st) = true)
    by (apply Z.leb_le; lia).
  rewrite E. apply commit_then_throw.
Qed.

Lemma drawNoteToken_malformed (noteString : string)
    (pending : list SVGGElement) (st : t) :
  parseDurationNoteString noteString = None ->
  drawNoteToken noteString pending st
  = (Throw ParseError, snd (commitIfAny pending st)).
Proof.
  intros Hd. unfold drawNoteToken. rewrite Hd. apply commit_then_throw.
Qed.

Lemma drawRestToken_full (restString : string) (d : Durations)
    (pending : list SVGGElement) (st : t) :
  parseDurationNoteString restString = Some d ->
  maxBeatCount st <= currentBeatCount st ->
  drawRestToken restString pending st
  = (Throw MaxBeatError, snd (commitIfAny pending st)).
Proof.
  intros Hd Hfull. unfold drawRestToken. rewrite Hd.
  unfold bind at 1. unfold get at 1.
  assert (E : (maxBeatCount st <=? currentBeatCount st) = true)
    by (apply Z.leb_le; lia).
  rewrite E. apply commit_then_throw.
Qed.

Lemma drawRestToken_malformed (restString : string)
    (pending : list SVGGElement) (st : t) :
  parseDurationNoteString restString = None ->
  drawRestToken restString pending st
  = (Throw ParseError, snd (commitIfAny pending st)).
Proof.
  intros Hd. unfold drawRestToken. rewrite Hd. apply commit_then_throw.
Qed.

(** A beam on a staff that is not full. *)
Lemma drawBeamedNotes_placed (note : string) (d : Durations) (noteCount : Z)
    (st : t) :
  (if String.eqb note "s" then Some Sixteenth
   else parseDurationNoteString note) = Some d ->
  2 <= noteCount ->
  currentBeatCount st < maxBeatCount st ->
  drawBeamedNotes note noteCount st
  = (Return tt, snd (placeBeam note d noteCount st)).
Proof.
  intros Hd Hn Hroom. unfold drawBeamedNotes.
  assert (E2 : (noteCount <? 2) = false) by (apply Z.ltb_ge; lia).
  rewrite E2. unfold bind at 1. unfold get at 1.
  assert (E : (maxBeatCount st <=? currentBeatCount st) = false)
    by (apply Z.leb_gt; lia).
  rewrite E, Hd. unfold bind at 1. rewrite checkAndCreateNewBar_at.
  unfold bind at 1. unfold get at 1.
  rewrite remainingBeatsInBar_cursor.
  pose proof (durationBeatValueMap_pos d) as Hb.
  unfold bind at 1.
  rewrite (beam_loop_spec noteCount (remainingBeatsInBar st) _ _ _ Hb).
  2:{ unfold beamedCount. lia. }
  cbn zeta. rewrite Z.sub_0_r.
  unfold placeBeam.
  destruct st; unfold bind, get, modify, pushEntries, ret, commitElementsToDOM,
    set_noteCursorX, set_currentBeatCount, set_noteEntries, set_notesLayer.
  cbn. fields_eq.
Qed.

(** *** The accounting *)

Lemma durationBeatValueMap_le (d : Durations) : durationBeatValueMap d <= 16.
Proof. destruct d; cbn; lia. Qed.

Lemma biggestRest_value (r : Z) :
  0 < r ->
  2 <= durationBeatValueMap (biggestRest r) <= r + 1.
Proof.
  intros Hr. unfold biggestRest.
  destruct (0 <=? r - durationBeatValueMap Half) eqn:E8;
    [|destruct (0 <=? r - durationBeatValueMap Quarter) eqn:E4];
    cbn in *; lia.
Qed.

(** The filler is at most the beats left and one tick. *)
Lemma fillerDurations_total (fuel : nat) :
  forall r : Z,
    0 <= totalBeats (fillerDurations fuel r) /\
    (0 <= r -> totalBeats (fillerDurations fuel r) <= r + 1) /\
    (r <= 0 -> totalBeats (fillerDurations fuel r) = 0).
Proof.
  induction fuel as [|fuel IH]; intros r; cbn [fillerDurations].
  - cbn. lia.
  - destruct (0 <? r) eqn:E.
    + apply Z.ltb_lt in E. pose proof (biggestRest_value r E) as Hv.
      destruct (IH (r - durationBeatValueMap (biggestRest r))) as (H0 & Hle & Hz).
      cbn [totalBeats fold_right].
      fold (totalBeats (fillerDurations fuel
              (r - durationBeatValueMap (biggestRest r)))).
      repeat split; lia.
    + apply Z.ltb_ge in E. cbn. lia.
Qed.

(** The end of the bar [n] lies in is within the capacity. *)
Lemma bar_end_within_capacity (top bars n : Z) :
  0 < top -> 0 <= n < quarters (bars * top) ->
  n + (quarters top - Z.rem n (quarters top)) <= quarters (bars * top).
Proof.
  unfold quarters. intros Htop [Hn Hlt].
  rewrite Z.rem_mod_nonneg by lia.
  pose proof (Z.div_mod n (4 * top) ltac:(lia)) as Hdm.
  pose proof (Z.mod_pos_bound n (4 * top) ltac:(lia)) as Hb.
  assert (Hq : n / (4 * top) < bars) by nia.
  nia.
Qed.

Lemma cursorAtToken_gap (st : t) :
  exists a : Z, 0 <= a <= 1 /\
    cursorAtToken st = noteCursorX st + a * quarters BAR_SPACING /\
    (a = 1 -> 0 < currentBeatCount st /\ beatInBar st = 0).
Proof.
  unfold cursorAtToken, startsNewBar.
  destruct (0 <? currentBeatCount st) eqn:E1; cbn [andb];
    [destruct (beatInBar st =? 0) eqn:E2; cbn [andb];
     [destruct (currentBeatCount st <? maxBeatCount st)|]|].
  - exists 1. apply Z.ltb_lt in E1. apply Z.eqb_eq in E2. repeat split; lia.
  - exists 0. repeat split; lia.
  - exists 0. repeat split; lia.
  - exists 0. repeat split; lia.
Qed.

(** The filler covers the beats left. *)
Lemma fillerDurations_covers (fuel : nat) :
  forall r : Z,
    (Z.to_nat r <= fuel)%nat -> r <= totalBeats (fillerDurations fuel r).
Proof.
  induction fuel as [|fuel IH]; intros r Hf; cbn [fillerDurations].
  - cbn. lia.
  - destruct (0 <? r) eqn:E.
    + apply Z.ltb_lt in E. pose proof (biggestRest_value r E) as Hv.
      cbn [totalBeats fold_right].
      fold (totalBeats (fillerDurations fuel
              (r - durationBeatValueMap (biggestRest r)))).
      specialize (IH (r - durationBeatValueMap (biggestRest r)) ltac:(lia)). lia.
    + apply Z.ltb_ge in E. cbn. lia.
Qed.

(** The bar gaps counted so far, against the bars that were completed. *)
Lemma gaps_within_completed_bars (bar count k : Z) :
  0 < bar -> 0 <= count -> 0 <= k ->
  k = 0 \/ k * bar < count ->
  k * bar <= count - Z.rem count bar /\
  (Z.rem count bar = 0 -> 0 < count -> (k + 1) * bar <= count).
Proof.
  intros Hbar Hc Hk Hgap.
  rewrite Z.rem_mod_nonneg by lia.
  pose proof (Z.div_mod count bar ltac:(lia)) as Hdm.
  pose proof (Z.mod_pos_bound count bar Hbar) as Hb.
  assert (Hq : k <= count / bar) by (apply Z.div_le_lower_bound; nia).
  split; [nia|].
  intros H0 Hpos. rewrite H0 in Hdm.
  assert (Hq' : k < count / bar) by nia.
  nia.
Qed.

Lemma placeToken_accounted (cls : string) (render : Durations -> list Shape)
    (d : Durations) (pending : list SVGGElement) (st : t) :
  accounted pending st ->
  currentBeatCount st < maxBeatCount st ->
  accounted (pending ++ fst (placeToken cls render d st))
            (snd (placeToken cls render d st)).
Proof.
  intros (Htop & Hbars & Hmax & [Hc0 Hc1] & Hsync & k & Hk & Hgap & Hcur) Hroom.
  pose proof (remainingBeatsInBar_bounds st Htop Hc0) as Hrem.
  pose proof (durationBeatValueMap_pos d) as Hb.
  pose proof (durationBeatValueMap_le d) as Hb16.
  pose proof (bar_end_within_capacity (topNumber st) (barsCount st)
                (currentBeatCount st) Htop ltac:(lia)) as Hend.
  fold (beatInBar st) in Hend. fold (remainingBeatsInBar st) in Hend.
  destruct (fillerDurations_total (Z.to_nat (remainingBeatsInBar st))
              (remainingBeatsInBar st)) as (Ht0 & Ht1 & _).
  specialize (Ht1 ltac:(lia)).
  pose proof (fillerDurations_covers (Z.to_nat (remainingBeatsInBar st))
                (remainingBeatsInBar st) ltac:(lia)) as Ht2.
  destruct (cursorAtToken_gap st) as (a & Ha & Hat & Hfull).
  destruct (gaps_within_completed_bars (quarters (topNumber st))
              (currentBeatCount st) k ltac:(unfold quarters; lia) Hc0 Hk Hgap)
    as (Hg1 & Hg2).
  fold (beatInBar st) in Hg1, Hg2.
  assert (Hrdef : remainingBeatsInBar st = quarters (topNumber st) - beatInBar st)
    by reflexivity.
  unfold accounted, placeToken, tokenX, fillerFor, overflows.
  cbn [fst snd topNumber barsCount quarterNoteSpacing noteCursorX noteEntries
       maxBeatCount currentBeatCount notesLayer].
  destruct (remainingBeatsInBar st <? durationBeatValueMap d) eqn:E.
  - apply Z.ltb_lt in E.
    repeat split; try assumption; try lia.
    + rewrite Hsync, <- !app_assoc. reflexivity.
    + exists (k + a + 1). split; [lia|]. split; [|rewrite Hat, Hcur; lia].
      right. assert (Ha' : a = 0 \/ a = 1) by lia. destruct Ha' as [->| ->].
      * nia.
      * destruct (Hfull eq_refl) as (Hpos & Hbib).
        specialize (Hg2 Hbib Hpos). rewrite Hbib in Hrdef. nia.
  - apply Z.ltb_ge in E. cbn [totalBeats fold_right fillerRests app].
    repeat split; try assumption; try lia.
    + rewrite Hsync, <- !app_assoc. reflexivity.
    + exists (k + a). split; [lia|]. split; [|rewrite Hat, Hcur; lia].
      assert (Ha' : a = 0 \/ a = 1) by lia. destruct Ha' as [->| ->].
      * destruct Hgap as [->|Hgap]; [left; lia|right; lia].
      * right. destruct (Hfull eq_refl) as (Hpos & Hbib).
        specialize (Hg2 Hbib Hpos). nia.
Qed.

Lemma beamed_beats (noteCount remaining beatValue : Z) :
  0 < beatValue -> 0 < remaining -> 2 <= noteCount ->
  1 <= beamedCount noteCount remaining beatValue /\
  beamedCount noteCount remaining beatValue * beatValue
  <= remaining + beatValue - 1.
Proof.
  intros Hb Hr Hn. unfold beamedCount.
  pose proof (Z.mul_div_le (remaining + beatValue - 1) beatValue Hb) as Hle.
  assert (Hceil : 1 <= (remaining + beatValue - 1) / beatValue)
    by (apply Z.div_le_lower_bound; lia).
  split; [lia|].
  destruct (Z.min_spec noteCount ((remaining + beatValue - 1) / beatValue))
    as [[Hlt ->]|[Hlt ->]]; nia.
Qed.

Lemma placeBeam_accounted (note : string) (d : Durations) (noteCount : Z)
    (st : t) :
  accounted [] st ->
  2 <= noteCount ->
  currentBeatCount st < maxBeatCount st ->
  accounted [] (snd (placeBeam note d noteCount st)).
Proof.
  intros (Htop & Hbars & Hmax & [Hc0 Hc1] & Hsync & k & Hk & Hgap & Hcur) Hn Hroom.
  pose proof (remainingBeatsInBar_bounds st Htop Hc0) as Hrem.
  pose proof (durationBeatValueMap_pos d) as Hb.
  pose proof (durationBeatValueMap_le d) as Hb16.
  pose proof (bar_end_within_capacity (topNumber st) (barsCount st)
                (currentBeatCount st) Htop ltac:(lia)) as Hend.
  fold (beatInBar st) in Hend. fold (remainingBeatsInBar st) in Hend.
  destruct (beamed_beats noteCount (remainingBeatsInBar st)
              (durationBeatValueMap d) Hb ltac:(lia) Hn) as (Hm1 & Hm2).
  destruct (cursorAtToken_gap st) as (a & Ha & Hat & Hfull).
  destruct (gaps_within_completed_bars (quarters (topNumber st))
              (currentBeatCount st) k ltac:(unfold quarters; lia) Hc0 Hk Hgap)
    as (Hg1 & Hg2).
  fold (beatInBar st) in Hg1, Hg2.
  unfold accounted, placeBeam.
  cbn [fst snd topNumber barsCount quarterNoteSpacing noteCursorX noteEntries
       maxBeatCount currentBeatCount notesLayer].
  rewrite Z2Nat.id by lia.
  repeat split; try assumption; try lia.
  - rewrite Hsync, !app_nil_r. reflexivity.
  - exists (k + a). split; [lia|]. split; [|rewrite Hat, Hcur; lia].
    assert (Ha' : a = 0 \/ a = 1) by lia. destruct Ha' as [->| ->].
    + destruct Hgap as [->|Hgap]; [left; lia|right; nia].
    + right. destruct (Hfull eq_refl) as (Hpos & Hbib).
      specialize (Hg2 Hbib Hpos). nia.
Qed.

Lemma commit_accounted (pending : list SVGGElement) (st : t) :
  accounted pending st -> accounted [] (snd (commitIfAny pending st)).
Proof.
  intros (Htop & Hbars & Hmax & Hc & Hsync & Hk).
  rewrite commitIfAny_run. unfold commitElementsToDOM, modify, accounted.
  cbn [snd]. destruct st. cbn in *. rewrite app_nil_r.
  repeat split; try assumption; lia.
Qed.

Lemma drawNote_loop_accounted (notes : list string) :
  forall (pending : list SVGGElement) (st : t),
    accounted pending st ->
    accounted [] (snd (drawNote_loop notes pending st)).
Proof.
  induction notes as [|s notes IH]; intros pending st Hacc.
  - cbn [drawNote_loop]. rewrite <- commitIfAny_run.
    apply commit_accounted, Hacc.
  - cbn [drawNote_loop]. unfold bind at 1.
    destruct (parseDurationNoteString s) as [d|] eqn:Hd.
    + destruct (Z_lt_ge_dec (currentBeatCount st) (maxBeatCount st)) as [Hroom|Hfull].
      * rewrite (drawNoteToken_placed s d pending st Hd Hroom).
        apply IH, placeToken_accounted; assumption.
      * rewrite (drawNoteToken_full s d pending st Hd ltac:(lia)).
        apply commit_accounted, Hacc.
    + rewrite (drawNoteToken_malformed s pending st Hd).
      apply commit_accounted, Hacc.
Qed.

Lemma drawRest_loop_accounted (rests : list string) :
  forall (pending : list SVGGElement) (st : t),
    accounted pending st ->
    accounted [] (snd (drawRest_loop rests pending st)).
Proof.
  induction rests as [|s rests IH]; intros pending st Hacc.
  - cbn [drawRest_loop]. rewrite <- commitIfAny_run.
    apply commit_accounted, Hacc.
  - cbn [drawRest_loop]. unfold bind at 1.
    destruct (parseDurationNoteString s) as [d|] eqn:Hd.
    + destruct (Z_lt_ge_dec (currentBeatCount st) (maxBeatCount st)) as [Hroom|Hfull].
      * rewrite (drawRestToken_placed s d pending st Hd Hroom).
        apply IH, placeToken_accounted; assumption.
      * rewrite (drawRestToken_full s d pending st Hd ltac:(lia)).
        apply commit_accounted, Hacc.
    + rewrite (drawRestToken_malformed s pending st Hd).
      apply commit_accounted, Hacc.
Qed.

(** [drawBeamedNotes] either throws and leaves the staff as it was, or
    places the beam. *)
Lemma drawBeamedNotes_outcome (note : string) (noteCount : Z) (st : t) :
  snd (drawBeamedNotes note noteCount st) = st \/
  exists d,
    2 <= noteCount /\ currentBeatCount st < maxBeatCount st /\
    snd (drawBeamedNotes note noteCount st) = snd (placeBeam note d noteCount st).
Proof.
  destruct (drawBeamedNotes_cases note noteCount st)
    as [(_ & ->)|[(_ & _ & ->)|[(_ & _ & ->)|(Hn & Hroom & st' & Hrun)]]];
    try (left; reflexivity).
  destruct (if String.eqb note "s" then Some Sixteenth
            else parseDurationNoteString note) as [d|] eqn:Hd.
  - right. exists d. repeat split; try assumption.
    rewrite (drawBeamedNotes_placed note d noteCount st Hd Hn Hroom). reflexivity.
  - exfalso. revert Hrun. unfold drawBeamedNotes.
    assert (E2 : (noteCount <? 2) = false) by (apply Z.ltb_ge; lia).
    assert (E : (maxBeatCount st <=? currentBeatCount st) = false)
      by (apply Z.leb_gt; lia).
    rewrite E2. unfold bind at 1. unfold get at 1. rewrite E, Hd.
    discriminate.
Qed.

Lemma reachable_accounted (st0 st : t) :
  accounted [] st0 -> reachable st0 st -> accounted [] st.
Proof.
  intros H0 Hreach. induction Hreach as [|st notes _ IH|st rests _ IH
                                        |st note noteCount _ IH|st _ IH].
  - exact H0.
  - apply drawNote_loop_accounted, IH.
  - apply drawRest_loop_accounted, IH.
  - destruct (drawBeamedNotes_outcome note noteCount st)
      as [->|(d & Hn & Hroom & ->)]; [exact IH|].
    apply placeBeam_accounted; assumption.
  - destruct IH as (Htop & Hbars & Hmax & Hc & Hsync & Hk).
    unfold clearAllNotes, modify, accounted. cbn [snd].
    destruct st. cbn in *. repeat split; try assumption; try lia.
    exists 0. lia.
Qed.

(** A staff as the constructor returns it. *)
Lemma new_accounted (K : Constants) (options : RhythmStaffOptions) (st0 : t) :
  new options = Return st0 ->
  accounted [] st0 /\ emptyStaff st0.
Proof.
  unfold new.
  destruct (opt_topNumber options =? 3) eqn:E3;
    destruct (opt_topNumber options =? 4) eqn:E4; cbn [orb negb];
    try discriminate;
    (destruct ((opt_barsCount options <? 1) || (3 <? opt_barsCount options)) eqn:Eb;
     [discriminate|]);
    apply orb_false_iff in Eb; destruct Eb as [Eb1 Eb2];
    apply Z.ltb_ge in Eb1; apply Z.ltb_ge in Eb2;
    intros Hst; injection Hst as <-; unfold accounted, emptyStaff;
    cbn [topNumber barsCount quarterNoteSpacing noteCursorX noteEntries
         maxBeatCount currentBeatCount notesLayer app];
    unfold quarters;
    try apply Z.eqb_eq in E3; try apply Z.eqb_eq in E4;
    (repeat split; try nia; try reflexivity; exists 0; lia).
Qed.

(** *** Left to right *)

Lemma placedBefore_weaken (entries : list SVGGElement) (c c' : Z) :
  placedBefore entries c -> c <= c' -> placedBefore entries c'.
Proof.
  intros [Hs Hf] Hle. split; [exact Hs|].
  eapply Forall_impl; [|exact Hf].
  intros g (x & Hx & Hb). exists x. split; [exact Hx|lia].
Qed.

Lemma StronglySorted_snoc (l : list Z) (a : Z) :
  StronglySorted Z.lt l -> Forall (fun x => x < a) l ->
  StronglySorted Z.lt (l ++ [a]).
Proof.
  induction l as [|x l IH]; intros Hs Hf; cbn [app].
  - constructor; constructor.
  - inversion Hs as [|? ? Hs' Hx]; subst. inversion Hf as [|? ? Hxa Hf']; subst.
    constructor; [apply IH; assumption|].
    apply Forall_app. split; [exact Hx|]. constructor; [exact Hxa|constructor].
Qed.

(** One more group, at or after the cursor. *)
Lemma placedBefore_snoc (entries : list SVGGElement) (c x c' : Z)
    (cls : string) (sh : list Shape) :
  placedBefore entries c -> 0 <= c <= x -> x < c' ->
  placedBefore (entries ++ [mkGroup cls (Some x) sh]) c'.
Proof.
  intros [Hs Hf] Hcx Hxc. split.
  - rewrite map_app. cbn [map]. apply StronglySorted_snoc; [exact Hs|].
    apply Forall_map. eapply Forall_impl; [|exact Hf].
    intros g (y & Hy & Hb). unfold groupX. rewrite Hy. cbn. lia.
  - apply Forall_app. split.
    + eapply Forall_impl; [|exact Hf].
      intros g (y & Hy & Hb). exists y. split; [exact Hy|lia].
    + constructor; [|constructor]. exists x. cbn. split; [reflexivity|lia].
Qed.

Lemma totalBeats_nonneg (ds : list Durations) : 0 <= totalBeats ds.
Proof.
  unfold totalBeats. induction ds as [|d ds IH]; cbn [fold_right]; [lia|].
  pose proof (durationBeatValueMap_pos d). lia.
Qed.

Lemma placedBefore_fillerRests (q : Z) (ds : list Durations) :
  0 < q ->
  forall (entries : list SVGGElement) (c0 c : Z),
    placedBefore entries c0 -> 0 <= c0 <= c ->
    placedBefore (entries ++ fillerRests c q ds) (c + totalBeats ds * q).
Proof.
  intros Hq. induction ds as [|d ds IH]; intros entries c0 c Hp Hc.
  - cbn [fillerRests]. rewrite app_nil_r.
    apply (placedBefore_weaken entries c0); [exact Hp|cbn; lia].
  - cbn [fillerRests totalBeats fold_right]. fold (totalBeats ds).
    pose proof (durationBeatValueMap_pos d) as Hb.
    replace (entries ++ mkGroup "rest" (Some c) (renderRest d)
             :: fillerRests (c + durationBeatValueMap d * q) q ds)
      with ((entries ++ [mkGroup "rest" (Some c) (renderRest d)])
            ++ fillerRests (c + durationBeatValueMap d * q) q ds)
      by (rewrite <- app_assoc; reflexivity).
    replace (c + (durationBeatValueMap d + totalBeats ds) * q)
      with (c + durationBeatValueMap d * q + totalBeats ds * q) by lia.
    apply (IH _ (c + durationBeatValueMap d * q)); [|nia].
    apply (placedBefore_snoc entries c0); [exact Hp|lia|nia].
Qed.

Lemma cursor_nonneg (entries : list SVGGElement) (c : Z) (st : t) :
  accounted entries st -> 0 < quarterNoteSpacing st -> 0 <= noteCursorX st.
Proof.
  intros (_ & _ & _ & [Hc _] & _ & k & Hk & _ & ->) Hq. unfold quarters, BAR_SPACING. nia.
Qed.

Lemma placeToken_leftToRight (cls : string) (render : Durations -> list Shape)
    (d : Durations) (st : t) :
  0 < quarterNoteSpacing st -> 0 <= noteCursorX st ->
  leftToRight st ->
  leftToRight (snd (placeToken cls render d st)).
Proof.
  intros Hq Hc0 Hp. unfold leftToRight, placeToken.
  cbn [snd noteEntries noteCursorX].
  destruct (cursorAtToken_gap st) as (a & Ha & Hat & _).
  pose proof (durationBeatValueMap_pos d) as Hb.
  pose proof (totalBeats_nonneg (fillerFor st (durationBeatValueMap d))) as Ht.
  rewrite app_assoc.
  apply (placedBefore_snoc _
           (cursorAtToken st
            + totalBeats (fillerFor st (durationBeatValueMap d))
              * quarterNoteSpacing st)).
  - apply (placedBefore_fillerRests _ _ Hq _ (noteCursorX st)); [exact Hp|].
    unfold quarters, BAR_SPACING in Hat. lia.
  - unfold tokenX. unfold quarters, BAR_SPACING in *.
    destruct (overflows st (durationBeatValueMap d)); nia.
  - nia.
Qed.

Lemma placeBeam_leftToRight (note : string) (d : Durations) (noteCount : Z)
    (st : t) :
  accounted [] st -> 0 < quarterNoteSpacing st ->
  2 <= noteCount ->
  leftToRight st ->
  leftToRight (snd (placeBeam note d noteCount st)).
Proof.
  intros Hacc Hq Hn Hp.
  pose proof (cursor_nonneg [] 0 st Hacc Hq) as Hc0.
  destruct Hacc as (Htop & _ & _ & [Hcnt _] & _).
  pose proof (remainingBeatsInBar_bounds st Htop Hcnt) as Hrem.
  pose proof (durationBeatValueMap_pos d) as Hb.
  destruct (beamed_beats noteCount (remainingBeatsInBar st)
              (durationBeatValueMap d) Hb ltac:(lia) Hn) as (Hm1 & _).
  destruct (cursorAtToken_gap st) as (a & Ha & Hat & _).
  unfold leftToRight, placeBeam. cbn [snd noteEntries noteCursorX].
  rewrite Z2Nat.id by lia.
  apply (placedBefore_snoc _ (noteCursorX st)); [exact Hp| |].
  - unfold quarters, BAR_SPACING in Hat. lia.
  - nia.
Qed.

Lemma placeToken_spaced (cls : string) (render : Durations -> list Shape)
    (d : Durations) (st : t) :
  spaced st -> spaced (snd (placeToken cls render d st)).
Proof.
  intros (Hq & Hc & Hp). split; [exact Hq|]. split.
  - unfold placeToken, tokenX. cbn [snd noteCursorX].
    destruct (cursorAtToken_gap st) as (a & Ha & Hat & _).
    pose proof (durationBeatValueMap_pos d) as Hb.
    pose proof (totalBeats_nonneg (fillerFor st (durationBeatValueMap d))) as Ht.
    unfold quarters, BAR_SPACING in *.
    destruct (overflows st (durationBeatValueMap d)); nia.
  - apply placeToken_leftToRight; assumption.
Qed.

Lemma commit_spaced (pending : list SVGGElement) (st : t) :
  spaced st -> spaced (snd (commitIfAny pending st)).
Proof.
  rewrite commitIfAny_run. destruct st. exact (fun H => H).
Qed.

Lemma drawNote_loop_spaced (notes : list string) :
  forall (pending : list SVGGElement) (st : t),
    spaced st -> spaced (snd (drawNote_loop notes pending st)).
Proof.
  induction notes as [|s notes IH]; intros pending st Hsp.
  - cbn [drawNote_loop]. rewrite <- commitIfAny_run. apply commit_spaced, Hsp.
  - cbn [drawNote_loop]. unfold bind at 1.
    destruct (parseDurationNoteString s) as [d|] eqn:Hd.
    + destruct (Z_lt_ge_dec (currentBeatCount st) (maxBeatCount st)) as [Hroom|Hfull].
      * rewrite (drawNoteToken_placed s d pending st Hd Hroom).
        apply IH, placeToken_spaced, Hsp.
      * rewrite (drawNoteToken_full s d pending st Hd ltac:(lia)).
        apply commit_spaced, Hsp.
    + rewrite (drawNoteToken_malformed s pending st Hd).
      apply commit_spaced, Hsp.
Qed.

Lemma drawRest_loop_spaced (rests : list string) :
  forall (pending : list SVGGElement) (st : t),
    spaced st -> spaced (snd (drawRest_loop rests pending st)).
Proof.
  induction rests as [|s rests IH]; intros pending st Hsp.
  - cbn [drawRest_loop]. rewrite <- commitIfAny_run. apply commit_spaced, Hsp.
  - cbn [drawRest_loop]. unfold bind at 1.
    destruct (parseDurationNoteString s) as [d|] eqn:Hd.
    + destruct (Z_lt_ge_dec (currentBeatCount st) (maxBeatCount st)) as [Hroom|Hfull].
      * rewrite (drawRestToken_placed s d pending st Hd Hroom).
        apply IH, placeToken_spaced, Hsp.
      * rewrite (drawRestToken_full s d pending st Hd ltac:(lia)).
        apply commit_spaced, Hsp.
    + rewrite (drawRestToken_malformed s pending st Hd).
      apply commit_spaced, Hsp.
Qed.

Lemma placeBeam_spaced (note : string) (d : Durations) (noteCount : Z) (st : t) :
  accounted [] st -> 2 <= noteCount ->
  spaced st -> spaced (snd (placeBeam note d noteCount st)).
Proof.
  intros Hacc Hn (Hq & Hc & Hp). split; [exact Hq|]. split.
  - unfold placeBeam. cbn [snd noteCursorX].
    destruct (cursorAtToken_gap st) as (a & Ha & Hat & _).
    pose proof (durationBeatValueMap_pos d) as Hb.
    unfold quarters, BAR_SPACING in *. nia.
  - apply placeBeam_leftToRight; assumption.
Qed.

Lemma reachable_spaced (st0 st : t) :
  accounted [] st0 -> spaced st0 -> reachable st0 st -> spaced st.
Proof.
  intros Hacc0 Hsp0 Hreach.
  induction Hreach as [|st notes Hr IH|st rests Hr IH
                      |st note noteCount Hr IH|st Hr IH].
  - exact Hsp0.
  - apply drawNote_loop_spaced, IH.
  - apply drawRest_loop_spaced, IH.
  - destruct (drawBeamedNotes_outcome note noteCount st)
      as [->|(d & Hn & Hroom & ->)]; [exact IH|].
    apply placeBeam_spaced; [|assumption|exact IH].
    apply (reachable_accounted st0); assumption.
  - destruct IH as (Hq & _ & _). unfold clearAllNotes, modify, spaced, leftToRight.
    cbn [snd]. destruct st. cbn in *. split; [exact Hq|]. split; [lia|].
    split; constructor.
Qed.

(** The configuration is the constructor's for good. *)
Lemma reachable_configuration (st0 st : t) :
  reachable st0 st ->
  topNumber st = topNumber st0 /\ barsCount st = barsCount st0 /\
  quarterNoteSpacing st = quarterNoteSpacing st0 /\
  maxBeatCount st = maxBeatCount st0.
Proof.
  intros Hreach.
  induction Hreach as [|st notes Hr IH|st rests Hr IH
                      |st note noteCount Hr IH|st Hr IH].
  - repeat split.
  - destruct (drawNote_loop_kept notes [] st) as (H1 & H2 & H3 & H4 & _).
    unfold drawNote. rewrite H1, H2, H3, H4. exact IH.
  - destruct (drawRest_loop_kept rests [] st) as (H1 & H2 & H3 & H4 & _).
    unfold drawRest. rewrite H1, H2, H3, H4. exact IH.
  - destruct (drawBeamedNotes_kept note noteCount st) as (H1 & H2 & H3 & H4 & _).
    rewrite H1, H2, H3, H4. exact IH.
  - destruct st. exact IH.
Qed.

(** *** Rests and notes *)

Lemma placement_fields (st1 st2 : t) :
  topNumber st1 = topNumber st2 ->
  quarterNoteSpacing st1 = quarterNoteSpacing st2 ->
  maxBeatCount st1 = maxBeatCount st2 ->
  currentBeatCount st1 = currentBeatCount st2 ->
  noteCursorX st1 = noteCursorX st2 ->
  cursorAtToken st1 = cursorAtToken st2 /\
  forall beatValue : Z,
    fillerFor st1 beatValue = fillerFor st2 beatValue /\
    tokenX st1 beatValue = tokenX st2 beatValue.
Proof.
  destruct st1, st2.
  cbn [topNumber quarterNoteSpacing maxBeatCount currentBeatCount noteCursorX].
  intros -> -> -> -> ->. split; [reflexivity|]. intros beatValue. split; reflexivity.
Qed.

Lemma map_transform_fillerRests (c q : Z) (ds : list Durations) :
  forall c', c' = c ->
  map transform (fillerRests c q ds) = map transform (fillerRests c' q ds).
Proof. intros c' ->. reflexivity. Qed.

Lemma placeToken_samePlaces (cls1 cls2 : string)
    (render1 render2 : Durations -> list Shape) (d : Durations) (st1 st2 : t) :
  samePlaces st1 st2 ->
  map transform (fst (placeToken cls1 render1 d st1))
  = map transform (fst (placeToken cls2 render2 d st2)) /\
  samePlaces (snd (placeToken cls1 render1 d st1))
             (snd (placeToken cls2 render2 d st2)).
Proof.
  intros (Ht & Hb & Hq & Hm & Hc & Hx & He & Hl).
  destruct (placement_fields st1 st2 Ht Hq Hm Hc Hx) as (Hcur & Hf).
  destruct (Hf (durationBeatValueMap d)) as (Hfill & Htok).
  unfold placeToken, samePlaces.
  cbn [fst snd topNumber barsCount quarterNoteSpacing noteCursorX noteEntries
       maxBeatCount currentBeatCount notesLayer].
  rewrite !map_app. cbn [map transform]. rewrite Hcur, Hq, Hfill, Htok, He.
  repeat split; try assumption; try lia.
Qed.

Lemma commit_samePlaces (p1 p2 : list SVGGElement) (st1 st2 : t) :
  samePlaces st1 st2 -> map transform p1 = map transform p2 ->
  samePlaces (snd (commitIfAny p1 st1)) (snd (commitIfAny p2 st2)).
Proof.
  intros (Ht & Hb & Hq & Hm & Hc & Hx & He & Hl) Hp.
  rewrite !commitIfAny_run. destruct st1, st2. unfold samePlaces. cbn in *.
  rewrite !map_app, Hl, Hp. repeat split; assumption.
Qed.

Lemma loops_samePlaces (tokens : list string) :
  forall (p1 p2 : list SVGGElement) (st1 st2 : t),
    samePlaces st1 st2 -> map transform p1 = map transform p2 ->
    fst (drawNote_loop tokens p1 st1) = fst (drawRest_loop tokens p2 st2) /\
    samePlaces (snd (drawNote_loop tokens p1 st1))
               (snd (drawRest_loop tokens p2 st2)).
Proof.
  induction tokens as [|s tokens IH]; intros p1 p2 st1 st2 Hsame Hp.
  - cbn [drawNote_loop drawRest_loop]. rewrite <- !commitIfAny_run.
    split; [rewrite !commitIfAny_run; reflexivity|].
    apply commit_samePlaces; assumption.
  - cbn [drawNote_loop drawRest_loop]. unfold bind.
    assert (Hm : maxBeatCount st1 = maxBeatCount st2) by apply Hsame.
    assert (Hc : currentBeatCount st1 = currentBeatCount st2) by apply Hsame.
    destruct (parseDurationNoteString s) as [d|] eqn:Hd.
    + destruct (Z_lt_ge_dec (currentBeatCount st1) (maxBeatCount st1)) as [Hroom|Hfull].
      * rewrite (drawNoteToken_placed s d p1 st1 Hd Hroom).
        rewrite (drawRestToken_placed s d p2 st2 Hd ltac:(lia)).
        destruct (placeToken_samePlaces "note" "rest" renderNote renderRest d
                    st1 st2 Hsame) as (Hg & Hs).
        apply IH; [exact Hs|]. rewrite !map_app, Hp, Hg. reflexivity.
      * rewrite (drawNoteToken_full s d p1 st1 Hd ltac:(lia)).
        rewrite (drawRestToken_full s d p2 st2 Hd ltac:(lia)).
        cbn [fst snd]. split; [reflexivity|]. apply commit_samePlaces; assumption.
    + rewrite (drawNoteToken_malformed s p1 st1 Hd).
      rewrite (drawRestToken_malformed s p2 st2 Hd).
      cbn [fst snd]. split; [reflexivity|]. apply commit_samePlaces; assumption.
Qed.

(** *** Batches and single calls *)

Lemma placeToken_layer (cls : string) (render : Durations -> list Shape)
    (d : Durations) (layer : list SVGGElement) (st : t) :
  placeToken cls render d (set_notesLayer layer st)
  = (fst (placeToken cls render d st),
     set_notesLayer layer (snd (placeToken cls render d st))).
Proof. destruct st. reflexivity. Qed.

Lemma commit_pending (p1 p2 : list SVGGElement) (st : t) :
  snd (commitIfAny (p1 ++ p2) st)
  = snd (commitIfAny p2 (set_notesLayer (notesLayer st ++ p1) st)).
Proof.
  rewrite !commitIfAny_run. destruct st. unfold commitElementsToDOM, modify.
  cbn. rewrite app_assoc. reflexivity.
Qed.

Lemma drawNote_loop_pending (notes : list string) :
  forall (p1 p2 : list SVGGElement) (st : t),
    drawNote_loop notes (p1 ++ p2) st
    = drawNote_loop notes p2 (set_notesLayer (notesLayer st ++ p1) st).
Proof.
  induction notes as [|s notes IH]; intros p1 p2 st.
  - cbn [drawNote_loop]. destruct st. unfold commitElementsToDOM, modify.
    cbn. rewrite app_assoc. reflexivity.
  - cbn [drawNote_loop]. unfold bind.
    assert (Hfields : maxBeatCount (set_notesLayer (notesLayer st ++ p1) st)
                      = maxBeatCount st /\
                      currentBeatCount (set_notesLayer (notesLayer st ++ p1) st)
                      = currentBeatCount st) by (destruct st; split; reflexivity).
    destruct Hfields as (Hm & Hc).
    destruct (parseDurationNoteString s) as [d|] eqn:Hd.
    + destruct (Z_lt_ge_dec (currentBeatCount st) (maxBeatCount st)) as [Hroom|Hfull].
      * rewrite (drawNoteToken_placed s d (p1 ++ p2) st Hd Hroom).
        rewrite (drawNoteToken_placed s d p2
                   (set_notesLayer (notesLayer st ++ p1) st) Hd ltac:(lia)).
        rewrite placeToken_layer. cbn [fst snd].
        rewrite <- app_assoc, IH. destruct st. reflexivity.
      * rewrite (drawNoteToken_full s d (p1 ++ p2) st Hd ltac:(lia)).
        rewrite (drawNoteToken_full s d p2
                   (set_notesLayer (notesLayer st ++ p1) st) Hd ltac:(lia)).
        rewrite commit_pending. reflexivity.
    + rewrite (drawNoteToken_malformed s (p1 ++ p2) st Hd).
      rewrite (drawNoteToken_malformed s p2
                 (set_notesLayer (notesLayer st ++ p1) st) Hd).
      rewrite commit_pending. reflexivity.
Qed.

Lemma drawRest_loop_pending (rests : list string) :
  forall (p1 p2 : list SVGGElement) (st : t),
    drawRest_loop rests (p1 ++ p2) st
    = drawRest_loop rests p2 (set_notesLayer (notesLayer st ++ p1) st).
Proof.
  induction rests as [|s rests IH]; intros p1 p2 st.
  - cbn [drawRest_loop]. destruct st. unfold commitElementsToDOM, modify.
    cbn. rewrite app_assoc. reflexivity.
  - cbn [drawRest_loop]. unfold bind.
    assert (Hfields : maxBeatCount (set_notesLayer (notesLayer st ++ p1) st)
                      = maxBeatCount st /\
                      currentBeatCount (set_notesLayer (notesLayer st ++ p1) st)
                      = currentBeatCount st) by (destruct st; split; reflexivity).
    destruct Hfields as (Hm & Hc).
    destruct (parseDurationNoteString s) as [d|] eqn:Hd.
    + destruct (Z_lt_ge_dec (currentBeatCount st) (maxBeatCount st)) as [Hroom|Hfull].
      * rewrite (drawRestToken_placed s d (p1 ++ p2) st Hd Hroom).
        rewrite (drawRestToken_placed s d p2
                   (set_notesLayer (notesLayer st ++ p1) st) Hd ltac:(lia)).
        rewrite placeToken_layer. cbn [fst snd].
        rewrite <- app_assoc, IH. destruct st. reflexivity.
      * rewrite (drawRestToken_full s d (p1 ++ p2) st Hd ltac:(lia)).
        rewrite (drawRestToken_full s d p2
                   (set_notesLayer (notesLayer st ++ p1) st) Hd ltac:(lia)).
        rewrite commit_pending. reflexivity.
    + rewrite (drawRestToken_malformed s (p1 ++ p2) st Hd).
      rewrite (drawRestToken_malformed s p2
                 (set_notesLayer (notesLayer st ++ p1) st) Hd).
      rewrite commit_pending. reflexivity.
Qed.

Lemma drawNote_loop_app (l2 : list string) :
  forall (l1 : list string) (pending : list SVGGElement) (st : t),
    drawNote_loop (l1 ++ l2) pending st
    = match drawNote_loop l1 pending st with
      | (Return _, st1) => drawNote_loop l2 [] st1
      | (Throw err, st1) => (Throw err, st1)
      end.
Proof.
  induction l1 as [|s l1 IH]; intros pending st.
  - cbn [app drawNote_loop]. unfold commitElementsToDOM, modify.
    rewrite <- (app_nil_r pending) at 1. apply drawNote_loop_pending.
  - cbn [app drawNote_loop]. unfold bind.
    destruct (drawNoteToken s pending st) as [[groups|err] st1]; [apply IH|reflexivity].
Qed.

Lemma drawRest_loop_app (l2 : list string) :
  forall (l1 : list string) (pending : list SVGGElement) (st : t),
    drawRest_loop (l1 ++ l2) pending st
    = match drawRest_loop l1 pending st with
      | (Return _, st1) => drawRest_loop l2 [] st1
      | (Throw err, st1) => (Throw err, st1)
      end.
Proof.
  induction l1 as [|s l1 IH]; intros pending st.
  - cbn [app drawRest_loop]. unfold commitElementsToDOM, modify.
    rewrite <- (app_nil_r pending) at 1. apply drawRest_loop_pending.
  - cbn [app drawRest_loop]. unfold bind.
    destruct (drawRestToken s pending st) as [[groups|err] st1]; [apply IH|reflexivity].
Qed.

(** *** What holds of every staff *)

(** The tracking list and the notes layer agree.  On a staff that came out
    of the constructor, after any calls of [drawNote], [drawRest],
    [drawBeamedNotes] and [clearAllNotes], whether they returned or threw,
    [noteEntries] holds the children of the notes layer, in the same
    order: no group is tracked without being in the document, and none is
    in the document without being tracked. *)
Theorem noteEntries_are_the_children_of_the_notes_layer :
  forall (K : Constants) (options : RhythmStaffOptions) (st0 st : t),
    new options = Return st0 ->
    reachable st0 st ->
    noteEntries st = notesLayer st.
Proof.
  intros K options st0 st Hnew Hreach.
  destruct (new_accounted K options st0 Hnew) as (Hacc & _).
  destruct (reachable_accounted st0 st Hacc Hreach) as (_ & _ & _ & _ & Hsync & _).
  rewrite Hsync. apply app_nil_r.
Qed.

(** The cursor follows the beat count.  On every staff the cursor is the
    beat count times the quarter-note spacing, plus a whole number [k] of
    bar gaps; and there are never more gaps than bars that were filled:
    [k] times the length of a bar is at most the beat count. *)
Theorem cursor_is_the_beat_count_plus_bar_gaps :
  forall (K : Constants) (options : RhythmStaffOptions) (st0 st : t),
    new options = Return st0 ->
    reachable st0 st ->
    exists k : Z,
      0 <= k /\
      k * quarters (topNumber st0) <= currentBeatCount st /\
      noteCursorX st
      = currentBeatCount st * quarterNoteSpacing st0 + k * quarters BAR_SPACING.
Proof.
  intros K options st0 st Hnew Hreach.
  destruct (new_accounted K options st0 Hnew) as (Hacc & _).
  destruct (reachable_configuration st0 st Hreach) as (Ht & _ & Hq & _).
  destruct (reachable_accounted st0 st Hacc Hreach)
    as (_ & _ & _ & [Hc _] & _ & k & Hk & Hgap & Hcur).
  exists k. rewrite <- Ht, <- Hq. repeat split; try assumption.
  destruct Hgap as [->|Hgap]; lia.
Qed.

(** The beat count can pass the capacity (a token that does not fit the
    last bar is drawn all the same), but never by more than 17 ticks, that is
    a whole note and a sixteenth; and it is never negative. *)
Theorem beat_count_passes_the_capacity_by_17_ticks_at_most :
  forall (K : Constants) (options : RhythmStaffOptions) (st0 st : t),
    new options = Return st0 ->
    reachable st0 st ->
    0 <= currentBeatCount st <= maxBeatCount st0 + 17.
Proof.
  intros K options st0 st Hnew Hreach.
  destruct (new_accounted K options st0 Hnew) as (Hacc & _).
  destruct (reachable_configuration st0 st Hreach) as (_ & _ & _ & Hm).
  destruct (reachable_accounted st0 st Hacc Hreach) as (_ & _ & _ & Hc & _).
  rewrite <- Hm. exact Hc.
Qed.

(** Groups are placed from left to right.  When the quarter-note spacing
    the constructor computed is positive, every group of every staff has a
    position, which is not negative and lies before the cursor, and each
    group lies strictly to the right of the one drawn before it. *)
Theorem groups_are_placed_left_to_right :
  forall (K : Constants) (options : RhythmStaffOptions) (st0 st : t),
    new options = Return st0 ->
    0 < quarterNoteSpacing st0 ->
    reachable st0 st ->
    leftToRight st.
Proof.
  intros K options st0 st Hnew Hq Hreach.
  destruct (new_accounted K options st0 Hnew) as (Hacc & Hx & _ & He & _).
  assert (Hsp0 : spaced st0).
  { split; [exact Hq|]. split; [lia|]. unfold leftToRight. rewrite He.
    split; constructor. }
  apply (reachable_spaced st0 st Hacc Hsp0 Hreach).
Qed.

(** [clearAllNotes] undoes everything.  Whatever was drawn on a staff, and
    whatever calls failed on it, [clearAllNotes] returns and leaves the staff
    exactly as the constructor had made it; a call made after it therefore
    does what it does on a new staff. *)
Theorem clearAllNotes_restores_the_new_staff :
  forall (K : Constants) (options : RhythmStaffOptions) (st0 st : t),
    new options = Return st0 ->
    reachable st0 st ->
    clearAllNotes st = (Return tt, st0).
Proof.
  intros K options st0 st Hnew Hreach.
  destruct (new_accounted K options st0 Hnew) as (_ & Hx & Hc & He & Hl).
  destruct (reachable_configuration st0 st Hreach) as (Ht & Hb & Hq & Hm).
  unfold clearAllNotes, modify. destruct st, st0. cbn in *. subst. reflexivity.
Qed.

(** A rest takes the room of its note.  For the same tokens on the same
    staff, [drawRest] and [drawNote] end alike (both return, or both throw
    the same error), count the same beats, leave the cursor at the same
    place and put a group at each place where the other puts one, in the
    entries as in the layer. *)
Theorem a_rest_takes_the_room_of_its_note :
  forall (tokens : list string) (st : t),
    fst (drawNote tokens st) = fst (drawRest tokens st) /\
    samePlaces (snd (drawNote tokens st)) (snd (drawRest tokens st)).
Proof.
  intros tokens st. apply loops_samePlaces; [|reflexivity].
  unfold samePlaces. repeat split.
Qed.

(** A batch is the sequence of its calls.  Drawing [l1 ++ l2] in one call
    is drawing [l1] and then, if that returned, [l2]: same outcome, same
    staff, same layer; and when the call for [l1] throws, so does the batch,
    with the same error and the same staff.  In particular a batch does
    what one call for each of its members does. *)
Theorem a_batch_is_the_sequence_of_its_calls :
  forall (l1 l2 : list string) (st : t),
    drawNote (l1 ++ l2) st = (drawNote l1 ;; drawNote l2) st /\
    drawRest (l1 ++ l2) st = (drawRest l1 ;; drawRest l2) st.
Proof.
  intros l1 l2 st. unfold drawNote, drawRest, bind. split.
  - rewrite drawNote_loop_app.
    destruct (drawNote_loop l1 [] st) as [[[]|err] st1]; reflexivity.
  - rewrite drawRest_loop_app.
    destruct (drawRest_loop l1 [] st) as [[[]|err] st1]; reflexivity.
Qed.

End RhythmLayoutFacts.

(** [noteEntries_are_the_children_of_the_notes_layer] after a batch of
    which the third member is malformed and a beam. *)
Lemma noteEntries_notes_layer_witness :
  RhythmStaff.noteEntries
    (snd (RhythmStaff.drawBeamedNotes "e" 4
       (snd (RhythmStaff.drawNote ["q"; "h"; "x"; "q"]
          (RhythmSpec.constructed (exampleStaff 4 2))))))
  = RhythmStaff.notesLayer
      (snd (RhythmStaff.drawBeamedNotes "e" 4
         (snd (RhythmStaff.drawNote ["q"; "h"; "x"; "q"]
            (RhythmSpec.constructed (exampleStaff 4 2)))))).
Proof.
  apply (noteEntries_are_the_children_of_the_notes_layer exampleConstants
           (RhythmStaff.mkOptions 300 4 2)
           (RhythmSpec.constructed (exampleStaff 4 2))).
  - reflexivity.
  - apply RhythmLayout.reachable_drawBeamedNotes,
      RhythmLayout.reachable_drawNote, RhythmLayout.reachable_start.
Defined.

(** [cursor_is_the_beat_count_plus_bar_gaps] after five quarter notes on
    a 4/4 staff of two bars. *)
Lemma cursor_beat_count_witness :
  exists k : Z,
    0 <= k /\
    k * RhythmStaff.quarters 4
    <= RhythmStaff.currentBeatCount
         (snd (RhythmStaff.drawNote ["q"; "q"; "q"; "q"; "q"]
            (RhythmSpec.constructed (exampleStaff 4 2)))) /\
    RhythmStaff.noteCursorX
      (snd (RhythmStaff.drawNote ["q"; "q"; "q"; "q"; "q"]
         (RhythmSpec.constructed (exampleStaff 4 2))))
    = RhythmStaff.currentBeatCount
        (snd (RhythmStaff.drawNote ["q"; "q"; "q"; "q"; "q"]
           (RhythmSpec.constructed (exampleStaff 4 2))))
      * RhythmStaff.quarterNoteSpacing (RhythmSpec.constructed (exampleStaff 4 2))
      + k * RhythmStaff.quarters RhythmStaff.BAR_SPACING.
Proof.
  apply (cursor_is_the_beat_count_plus_bar_gaps exampleConstants
           (RhythmStaff.mkOptions 300 4 2)
           (RhythmSpec.constructed (exampleStaff 4 2))).
  - reflexivity.
  - apply RhythmLayout.reachable_drawNote, RhythmLayout.reachable_start.
Defined.

(** [beat_count_passes_the_capacity_by_17_ticks_at_most] where the bound is
    reached: on a 3/4 staff of one bar (12 ticks), eleven beamed sixteenths
    and then a whole note, which brings an eighth rest with it. *)
Lemma beat_count_bound_witness :
  RhythmStaff.currentBeatCount
    (snd (RhythmStaff.drawNote ["w"]
       (snd (RhythmStaff.drawBeamedNotes "s" 11
          (RhythmSpec.constructed (exampleStaff 3 1)))))) = 12 + 17 /\
  0 <= RhythmStaff.currentBeatCount
         (snd (RhythmStaff.drawNote ["w"]
            (snd (RhythmStaff.drawBeamedNotes "s" 11
               (RhythmSpec.constructed (exampleStaff 3 1))))))
    <= RhythmStaff.maxBeatCount (RhythmSpec.constructed (exampleStaff 3 1)) + 17.
Proof.
  split; [vm_compute; reflexivity|].
  apply (beat_count_passes_the_capacity_by_17_ticks_at_most exampleConstants
           (RhythmStaff.mkOptions 300 3 1)
           (RhythmSpec.constructed (exampleStaff 3 1))).
  - reflexivity.
  - apply RhythmLayout.reachable_drawNote,
      RhythmLayout.reachable_drawBeamedNotes, RhythmLayout.reachable_start.
Defined.

(** [groups_are_placed_left_to_right] on a staff of the default width, after
    notes, a bar filled with rests and a beam. *)
Lemma left_to_right_witness :
  RhythmLayout.leftToRight
    (snd (RhythmStaff.drawBeamedNotes "e" 4
       (snd (RhythmStaff.drawNote ["q"; "h"; "h"]
          (RhythmSpec.constructed (exampleStaff 4 2)))))).
Proof.
  apply (groups_are_placed_left_to_right exampleConstants
           (RhythmStaff.mkOptions 300 4 2)
           (RhythmSpec.constructed (exampleStaff 4 2))).
  - reflexivity.
  - vm_compute. reflexivity.
  - apply RhythmLayout.reachable_drawBeamedNotes,
      RhythmLayout.reachable_drawNote, RhythmLayout.reachable_start.
Defined.

(** [clearAllNotes_restores_the_new_staff] after a batch that overflowed
    the staff and a call that threw. *)
Lemma clearAllNotes_witness :
  RhythmStaff.clearAllNotes
    (snd (RhythmStaff.drawRest ["q"]
       (snd (RhythmStaff.drawNote ["w"; "w"; "h"; "w"]
          (RhythmSpec.constructed (exampleStaff 4 2))))))
  = (Return tt, RhythmSpec.constructed (exampleStaff 4 2)).
Proof.
  apply (clearAllNotes_restores_the_new_staff exampleConstants
           (RhythmStaff.mkOptions 300 4 2)).
  - reflexivity.
  - apply RhythmLayout.reachable_drawRest,
      RhythmLayout.reachable_drawNote, RhythmLayout.reachable_start.
Defined.

(** ** The beat marker *)

Section BeatUIFacts.
Import RhythmStaff RhythmSpec BeatUI.
Context {K : Constants}.

(** From one beat to the next: a spacing after the first beat, and a bar
    gap when the beat opens a bar after the first. *)
Lemma marker_step (start top q n : Z) :
  2 <= top -> 0 <= n ->
  start + (n + 1 - 1) * q + BAR_SPACING * ((n + 1 - 1) / top)
  = (if n =? 0 then start else start + (n - 1) * q + BAR_SPACING * ((n - 1) / top))
    + (if (top <? n + 1) && (Z.rem (n + 1) top =? 1) then BAR_SPACING else 0)
    + (if 1 <? n + 1 then q else 0).
Proof.
  intros Htop Hn. replace (n + 1 - 1) with n by lia.
  destruct (n =? 0) eqn:En.
  - apply Z.eqb_eq in En. subst n. change (0 + 1) with 1.
    assert (E1 : (top <? 1) = false) by (apply Z.ltb_ge; lia).
    rewrite E1. cbn [andb]. rewrite Z.div_0_l by lia. cbn. lia.
  - apply Z.eqb_neq in En.
    assert (E1 : (1 <? n + 1) = true) by (apply Z.ltb_lt; lia). rewrite E1.
    rewrite Z.rem_mod_nonneg by lia.
    pose proof (Z.div_mod n top ltac:(lia)) as Hdm.
    pose proof (Z.mod_pos_bound n top ltac:(lia)) as Hmb.
    unfold BAR_SPACING.
    destruct (Z.eq_dec (n mod top) 0) as [Hz|Hnz].
    + (* [n] closes a bar *)
      assert (Hm1 : (n + 1) mod top = 1).
      { symmetry. apply (Z.mod_unique (n + 1) top (n / top) 1); lia. }
      assert (Hd1 : (n - 1) / top = n / top - 1).
      { symmetry. apply (Z.div_unique (n - 1) top (n / top - 1) (top - 1)); lia. }
      assert (Hge : top <= n).
      { assert (0 < n / top) by nia. nia. }
      assert (Et : (top <? n + 1) = true) by (apply Z.ltb_lt; lia).
      rewrite Et, Hm1, Hd1. cbn [andb Z.eqb Pos.eqb]. lia.
    + assert (Hm1 : (n + 1) mod top <> 1).
      { intros Hm. apply Hnz.
        pose proof (Z.div_mod (n + 1) top ltac:(lia)) as Hdm2.
        rewrite Hm in Hdm2.
        symmetry. apply (Z.mod_unique n top ((n + 1) / top) 0); lia. }
      assert (Hd1 : (n - 1) / top = n / top).
      { symmetry. apply (Z.div_unique (n - 1) top (n / top) (n mod top - 1)); lia. }
      apply Z.eqb_neq in Hm1. rewrite Hm1, Hd1, andb_false_r. lia.
Qed.

Ltac marker_fields :=
  cbn [currentBeatUICount currentBeatUIElement currentBeatUIXPos
       setX setDisplay rect_x rect_display rect_width rect_height fst snd].

(** One call below the capacity: the marker moves to the next beat and is
    shown. *)
Lemma incrementCurrentBeatUI_moves (st : RhythmStaff.t) (n : Z) (u : t) :
  2 <= topNumber st -> 0 <= n ->
  quarters n < maxBeatCount st ->
  atBeat st n u ->
  exists (r : SVGRectElement) (u' : t),
    incrementCurrentBeatUI st u = (Return tt, u') /\
    atBeat st (n + 1) u' /\
    currentBeatUIElement u' = Some r /\ isHidden r = false.
Proof.
  intros Htop Hn Hroom (Hc & Hx & He).
  assert (Hfull : (maxBeatCount st <=? quarters n) = false)
    by (apply Z.leb_gt; lia).
  pose proof (marker_step CURRENT_BEAT_UI_START_X_POS (topNumber st)
                (quarterNoteSpacing st) n Htop Hn) as Hstep.
  fold (markerX st (n + 1)) in Hstep. fold (markerX st n) in Hstep.
  assert (E0 : (n + 1 =? 0) = false) by (apply Z.eqb_neq; lia).
  unfold atBeat. rewrite E0.
  destruct u as [c e x]. marker_fields. cbn [currentBeatUICount currentBeatUIElement
    currentBeatUIXPos] in Hc, Hx, He. subst c.
  assert (Hpos : forall x' : Z,
            x' = x
                 + (if (topNumber st <? n + 1)
                       && (Z.rem (n + 1) (topNumber st) =? 1)
                    then BAR_SPACING else 0)
                 + (if 1 <? n + 1 then quarterNoteSpacing st else 0) ->
            x' = markerX st (n + 1)) by (intros x' ->; lia).
  unfold incrementCurrentBeatUI.
  destruct e as [r0|]; [destruct (isHidden r0) eqn:Eh|];
    unfold createBeatUIElement, bind, get, ret, modify, onElement,
      set_currentBeatUICount, set_currentBeatUIXPos, set_currentBeatUIElement;
    marker_fields; rewrite Hfull; marker_fields; rewrite ?Eh;
    unfold isHidden; marker_fields;
    destruct ((topNumber st <? n + 1) && (Z.rem (n + 1) (topNumber st) =? 1));
    marker_fields; destruct (1 <? n + 1); marker_fields;
    eexists; eexists; (split; [reflexivity|]); marker_fields;
    (split; [split; [reflexivity|split; [apply Hpos; lia|reflexivity]]|]);
    (split; [reflexivity|]); try exact Eh; reflexivity.
Qed.

(** One call at the capacity: the marker is hidden and stays where it was. *)
Lemma incrementCurrentBeatUI_hides (st : RhythmStaff.t) (n : Z) (u : t) :
  maxBeatCount st <= quarters n ->
  atBeat st n u ->
  exists (r : SVGRectElement) (u' : t),
    incrementCurrentBeatUI st u = (Return tt, u') /\
    atBeat st n u' /\
    currentBeatUIElement u' = Some r /\ isHidden r = true.
Proof.
  intros Hfull (Hc & Hx & He).
  assert (E : (maxBeatCount st <=? quarters n) = true) by (apply Z.leb_le; lia).
  unfold atBeat. destruct u as [c e x]. marker_fields.
  cbn [currentBeatUICount currentBeatUIElement currentBeatUIXPos] in Hc, Hx, He.
  subst c. unfold incrementCurrentBeatUI.
  unfold bind at 1. unfold get at 1.
  destruct e as [r0|]; marker_fields.
  - unfold bind, get, ret, onElement, set_currentBeatUIElement. marker_fields.
    rewrite E. marker_fields.
    eexists. eexists. split; [reflexivity|]. marker_fields.
    repeat split; assumption.
  - unfold createBeatUIElement, bind, get, ret, modify, onElement,
      set_currentBeatUIElement. marker_fields.
    rewrite E. marker_fields.
    eexists. eexists. split; [reflexivity|]. marker_fields.
    subst n. cbn [Z.eqb] in Hx. repeat split; try assumption; try reflexivity.
    symmetry. exact Hx.
Qed.

Lemma increments_run (st : RhythmStaff.t) (beats : Z) (k : nat) :
  2 <= topNumber st ->
  maxBeatCount st = quarters beats ->
  forall (j : Z) (u : t),
    0 <= j <= beats ->
    atBeat st j u ->
    exists u' : t,
      increments st k u = (Return tt, u') /\
      atBeat st (Z.min (j + Z.of_nat k) beats) u' /\
      ((1 <= k)%nat ->
       exists r : SVGRectElement,
         currentBeatUIElement u' = Some r /\
         isHidden r = negb (j + Z.of_nat k <=? beats)).
Proof.
  intros Htop Hmax. induction k as [|k IH]; intros j u Hj Hat.
  - exists u. split; [reflexivity|]. split; [|lia].
    replace (Z.min (j + Z.of_nat 0) beats) with j by lia. exact Hat.
  - cbn [increments]. unfold bind.
    destruct (Z_lt_ge_dec j beats) as [Hlt|Hge].
    + destruct (incrementCurrentBeatUI_moves st j u Htop ltac:(lia)
                  ltac:(rewrite Hmax; unfold quarters; lia) Hat)
        as (r & u1 & -> & Hat1 & Hr & Hshown).
      destruct (IH (j + 1) u1 ltac:(lia) Hat1) as (u' & Hrun & Hat' & Hk).
      rewrite Hrun. exists u'. split; [reflexivity|].
      replace (j + Z.of_nat (S k)) with (j + 1 + Z.of_nat k) by lia.
      split; [exact Hat'|]. intros _. destruct k as [|k].
      * cbn [increments] in Hrun. injection Hrun as <-. exists r.
        split; [exact Hr|]. rewrite Hshown. symmetry.
        apply negb_false_iff, Z.leb_le. lia.
      * apply Hk. lia.
    + destruct (incrementCurrentBeatUI_hides st j u
                  ltac:(rewrite Hmax; unfold quarters; lia) Hat)
        as (r & u1 & -> & Hat1 & Hr & Hhidden).
      destruct (IH j u1 Hj Hat1) as (u' & Hrun & Hat' & Hk).
      rewrite Hrun. exists u'. split; [reflexivity|].
      replace (Z.min (j + Z.of_nat (S k)) beats)
        with (Z.min (j + Z.of_nat k) beats) by lia.
      split; [exact Hat'|]. intros _.
      assert (E : (j + Z.of_nat (S k) <=? beats) = false) by (apply Z.leb_gt; lia).
      rewrite E. cbn [negb]. destruct k as [|k].
      * cbn [increments] in Hrun. injection Hrun as <-. exists r.
        split; assumption.
      * destruct (Hk ltac:(lia)) as (r' & Hr' & Hh). exists r'.
        split; [exact Hr'|]. rewrite Hh.
        assert (E1 : (j + Z.of_nat (S k) <=? beats) = false) by (apply Z.leb_gt; lia).
        rewrite E1. reflexivity.
Qed.

Lemma new_atBeat (st : RhythmStaff.t) : atBeat st 0 new.
Proof. unfold atBeat, new. cbn. repeat split. Qed.

Lemma resetCurrentBeatUI_atBeat (st : RhythmStaff.t) (u : t) :
  exists u' : t,
    resetCurrentBeatUI u = (Return tt, u') /\ atBeat st 0 u' /\
    match currentBeatUIElement u, currentBeatUIElement u' with
    | Some _, Some r => isHidden r = true
    | None, None => True
    | _, _ => False
    end.
Proof.
  unfold resetCurrentBeatUI, atBeat. destruct u as [c [r|] x];
    unfold bind, get, ret, modify, onElement,
      set_currentBeatUICount, set_currentBeatUIXPos, set_currentBeatUIElement;
    marker_fields; eexists; (split; [reflexivity|]); marker_fields;
    repeat split; reflexivity.
Qed.

(** The beat marker follows the beats.  From the fields as the class
    initialises them, or as [resetCurrentBeatUI] leaves them whatever they
    were, [n >= 1] calls of [incrementCurrentBeatUI] all return.  As long as
    [n] is within the capacity of [beats] beats, the marker is shown at beat
    [n]: one quarter-note spacing after the start for each beat after the
    first, and one bar gap more for each bar completed before the beat.
    Past the capacity the marker is hidden and the count and the position
    stay those of the last beat.  The rectangle's [x] is the position the
    class holds. *)
Theorem beat_marker_follows_the_beats :
  forall (st : RhythmStaff.t) (beats : Z) (u0 : t) (n : nat),
    2 <= topNumber st ->
    0 <= beats ->
    maxBeatCount st = quarters beats ->
    u0 = new \/ (exists u : t, u0 = snd (resetCurrentBeatUI u)) ->
    (1 <= n)%nat ->
    exists (r : SVGRectElement) (u' : t),
      increments st n u0 = (Return tt, u') /\
      currentBeatUIElement u' = Some r /\
      rect_x r = currentBeatUIXPos u' /\
      if Z.of_nat n <=? beats
      then currentBeatUICount u' = Z.of_nat n /\
           currentBeatUIXPos u' = markerX st (Z.of_nat n) /\
           isHidden r = false
      else currentBeatUICount u' = beats /\
           currentBeatUIXPos u'
           = (if beats =? 0 then CURRENT_BEAT_UI_START_X_POS
              else markerX st beats) /\
           isHidden r = true.
Proof.
  intros st beats u0 n Htop Hbeats Hmax Hu0 Hn.
  assert (Hat0 : atBeat st 0 u0).
  { destruct Hu0 as [->|(u & ->)]; [apply new_atBeat|].
    destruct (resetCurrentBeatUI_atBeat st u) as (u' & -> & Hat & _). exact Hat. }
  destruct (increments_run st beats n Htop Hmax 0 u0 ltac:(lia) Hat0)
    as (u' & Hrun & (Hc & Hx & He) & Hk).
  destruct (Hk Hn) as (r & Hr & Hh).
  exists r, u'. split; [exact Hrun|]. split; [exact Hr|].
  rewrite Hr in He. split; [exact He|].
  cbn [Z.add] in *. destruct (Z.of_nat n <=? beats) eqn:E.
  - apply Z.leb_le in E.
    replace (Z.min (Z.of_nat n) beats) with (Z.of_nat n) in * by lia.
    assert (E0 : (Z.of_nat n =? 0) = false) by (apply Z.eqb_neq; lia).
    rewrite E0 in Hx. repeat split; assumption.
  - apply Z.leb_gt in E.
    replace (Z.min (Z.of_nat n) beats) with beats in * by lia.
    repeat split; assumption.
Qed.

(** *** The marker and the quarter notes *)

Lemma div_pred (top n : Z) :
  1 <= top -> 1 <= n ->
  n / top = (n - 1) / top + (if n mod top =? 0 then 1 else 0).
Proof.
  intros Htop Hn.
  pose proof (Z.div_mod n top ltac:(lia)) as Hdm.
  pose proof (Z.mod_pos_bound n top ltac:(lia)) as Hmb.
  destruct (n mod top =? 0) eqn:E.
  - apply Z.eqb_eq in E.
    assert (Hd : (n - 1) / top = n / top - 1).
    { symmetry. apply (Z.div_unique (n - 1) top (n / top - 1) (top - 1)); lia. }
    lia.
  - apply Z.eqb_neq in E.
    assert (Hd : (n - 1) / top = n / top).
    { symmetry. apply (Z.div_unique (n - 1) top (n / top) (n mod top - 1)); lia. }
    lia.
Qed.

(** A quarter note at beat [j] of a staff on which only quarter notes were
    drawn. *)
Lemma quarter_note_placed (st : RhythmStaff.t) (beats j : Z) :
  1 <= topNumber st ->
  maxBeatCount st = quarters beats ->
  0 <= j < beats ->
  currentBeatCount st = quarters j ->
  noteCursorX st
  = (if j =? 0 then 0
     else quarters (markerX st j - CURRENT_BEAT_UI_START_X_POS)
          + quarters (quarterNoteSpacing st)) ->
  RhythmLayout.placeToken "note" renderNote Quarter st
  = ([mkGroup "note"
        (Some (quarters (markerX st (j + 1) - CURRENT_BEAT_UI_START_X_POS)))
        (renderNote Quarter)],
     RhythmStaff.mk (topNumber st) (barsCount st) (quarterNoteSpacing st)
       (quarters (markerX st (j + 1) - CURRENT_BEAT_UI_START_X_POS)
        + quarters (quarterNoteSpacing st))
       (noteEntries st
        ++ [mkGroup "note"
              (Some (quarters (markerX st (j + 1) - CURRENT_BEAT_UI_START_X_POS)))
              (renderNote Quarter)])
       (maxBeatCount st) (quarters (j + 1)) (notesLayer st)).
Proof.
  intros Htop Hmax Hj Hc Hx.
  assert (Hrem : Z.rem (currentBeatCount st) (quarters (topNumber st))
                 = 4 * (j mod topNumber st)).
  { rewrite Hc. unfold quarters. rewrite Z.rem_mod_nonneg by lia.
    apply Z.mul_mod_distr_l; lia. }
  pose proof (Z.mod_pos_bound j (topNumber st) ltac:(lia)) as Hmb.
  assert (Hover : RhythmLayout.overflows st (durationBeatValueMap Quarter) = false).
  { unfold RhythmLayout.overflows, remainingBeatsInBar, beatInBar. rewrite Hrem.
    apply Z.ltb_ge. unfold quarters. cbn [durationBeatValueMap]. lia. }
  assert (Hcur : RhythmLayout.cursorAtToken st
                 = quarters (markerX st (j + 1) - CURRENT_BEAT_UI_START_X_POS)).
  { unfold RhythmLayout.cursorAtToken, RhythmLayout.startsNewBar, beatInBar.
    rewrite Hrem, Hx, Hc, Hmax. unfold markerX, quarters.
    replace (j + 1 - 1) with j by lia.
    destruct (j =? 0) eqn:Ej.
    - apply Z.eqb_eq in Ej. subst j. change (0 <? 4 * 0) with false. cbn [andb].
      rewrite Z.div_0_l by lia. lia.
    - apply Z.eqb_neq in Ej.
      assert (E1 : (0 <? 4 * j) = true) by (apply Z.ltb_lt; lia).
      assert (E2 : (4 * j <? 4 * beats) = true) by (apply Z.ltb_lt; lia).
      rewrite E1, E2, andb_true_r. cbn [andb].
      rewrite (div_pred (topNumber st) j Htop ltac:(lia)).
      unfold BAR_SPACING.
      destruct (j mod topNumber st =? 0) eqn:Em.
      + apply Z.eqb_eq in Em. rewrite Em. change (4 * 0 =? 0) with true. cbv iota. lia.
      + apply Z.eqb_neq in Em.
        assert (E3 : (4 * (j mod topNumber st) =? 0) = false)
          by (apply Z.eqb_neq; lia).
        rewrite E3. lia. }
  unfold RhythmLayout.placeToken, RhythmLayout.tokenX, RhythmLayout.fillerFor.
  rewrite Hover, Hcur, Hc. cbn [totalBeats fold_right fillerRests app].
  unfold quarters. cbn [durationBeatValueMap]. fields_eq.
Qed.

Lemma markerX_fields (st st' : RhythmStaff.t) (n : Z) :
  topNumber st' = topNumber st -> quarterNoteSpacing st' = quarterNoteSpacing st ->
  markerX st' n = markerX st n.
Proof. unfold markerX. intros -> ->. reflexivity. Qed.

Lemma quarterNotesFrom_fields (st st' : RhythmStaff.t) (n : nat) :
  topNumber st' = topNumber st -> quarterNoteSpacing st' = quarterNoteSpacing st ->
  forall j : Z, quarterNotesFrom st' j n = quarterNotesFrom st j n.
Proof.
  intros Ht Hq. induction n as [|n IH]; intros j; cbn [quarterNotesFrom].
  - reflexivity.
  - rewrite IH, (markerX_fields st st' _ Ht Hq). reflexivity.
Qed.

Lemma quarter_notes_run (beats : Z) (n : nat) :
  forall (j : Z) (pending : list SVGGElement) (st : RhythmStaff.t),
    1 <= topNumber st ->
    maxBeatCount st = quarters beats ->
    0 <= j -> j + Z.of_nat n <= beats ->
    currentBeatCount st = quarters j ->
    noteCursorX st
    = (if j =? 0 then 0
       else quarters (markerX st j - CURRENT_BEAT_UI_START_X_POS)
            + quarters (quarterNoteSpacing st)) ->
    exists st' : RhythmStaff.t,
      drawNote_loop (repeat "q" n) pending st = (Return tt, st') /\
      noteEntries st' = noteEntries st ++ quarterNotesFrom st j n /\
      notesLayer st'
      = notesLayer st ++ pending ++ quarterNotesFrom st j n.
Proof.
  induction n as [|n IH]; intros j pending st Htop Hmax Hj Hn Hc Hx.
  - cbn [repeat drawNote_loop quarterNotesFrom]. eexists. split; [reflexivity|].
    destruct st. cbn. rewrite !app_nil_r. split; reflexivity.
  - cbn [repeat drawNote_loop quarterNotesFrom]. unfold bind.
    rewrite (drawNoteToken_placed "q" Quarter pending st eq_refl
               ltac:(rewrite Hc, Hmax; unfold quarters; lia)).
    rewrite (quarter_note_placed st beats j Htop Hmax ltac:(lia) Hc Hx).
    cbn [fst snd].
    match goal with
    | |- context [drawNote_loop _ _ ?s1] =>
        destruct (IH (j + 1) (pending ++
                   [mkGroup "note"
                      (Some (quarters (markerX st (j + 1)
                                       - CURRENT_BEAT_UI_START_X_POS)))
                      (renderNote Quarter)]) s1) as (st' & Hrun & He & Hl)
    end; try (cbn; lia); try assumption.
    + cbn [noteCursorX quarterNoteSpacing].
      assert (E : (j + 1 =? 0) = false) by (apply Z.eqb_neq; lia). rewrite E.
      unfold markerX. cbn [topNumber quarterNoteSpacing]. reflexivity.
    + exists st'. split; [exact Hrun|].
      rewrite He, Hl. cbn [noteEntries notesLayer].
      match goal with
      | |- context [quarterNotesFrom ?s1 (j + 1) n] =>
          rewrite (quarterNotesFrom_fields st s1 n eq_refl eq_refl)
      end.
      rewrite <- !app_assoc. cbn [app]. split; reflexivity.
Qed.

Lemma nth_quarterNotesFrom (st : RhythmStaff.t) (n : nat) :
  forall (j : Z) (i : nat) (g : SVGGElement),
    nth_error (quarterNotesFrom st j n) i = Some g ->
    (i < n)%nat /\
    className g = "note" /\
    transform g
    = Some (quarters (markerX st (j + Z.of_nat i + 1)
                      - CURRENT_BEAT_UI_START_X_POS)).
Proof.
  induction n as [|n IH]; intros j i g Hg; cbn [quarterNotesFrom] in Hg.
  - destruct i; discriminate.
  - destruct i as [|i]; cbn [nth_error] in Hg.
    + injection Hg as <-. cbn. rewrite Z.add_0_r. repeat split. lia.
    + destruct (IH (j + 1) i g Hg) as (Hi & Hcls & Htr).
      repeat split; [lia|exact Hcls|]. rewrite Htr.
      replace (j + Z.of_nat (S i) + 1) with (j + 1 + Z.of_nat i + 1) by lia.
      reflexivity.
Qed.

Lemma length_quarterNotesFrom (st : RhythmStaff.t) (n : nat) :
  forall j : Z, List.length (quarterNotesFrom st j n) = n.
Proof.
  induction n as [|n IH]; intros j; cbn [quarterNotesFrom List.length];
    [reflexivity|]. rewrite IH. reflexivity.
Qed.

(** The marker stands under the quarter notes.  On a new staff, [n] quarter
    notes that fit the staff are all drawn, and the note of index [i] stands
    where the marker stands after [i + 1] calls of
    [incrementCurrentBeatUI]: its position inside the notes layer, which
    begins at [NOTE_LAYER_START_X], is the marker's less that start. *)
Theorem beat_marker_stands_under_the_quarter_notes :
  forall (options : RhythmStaffOptions) (st0 : RhythmStaff.t) (n : nat),
    RhythmStaff.new options = Return st0 ->
    Z.of_nat n <= barsCount st0 * topNumber st0 ->
    exists st : RhythmStaff.t,
      drawNote (repeat "q" n) st0 = (Return tt, st) /\
      List.length (noteEntries st) = n /\
      notesLayer st = noteEntries st /\
      forall (i : nat) (g : SVGGElement),
        nth_error (noteEntries st) i = Some g ->
        className g = "note" /\
        transform g
        = Some (quarters
                  (currentBeatUIXPos (snd (increments st0 (S i) BeatUI.new))
                   - NOTE_LAYER_START_X)).
Proof.
  intros options st0 n Hnew Hn.
  destruct (new_accounted K options st0 Hnew)
    as ((Htop & Hbars & Hmax & _) & Hx & Hc & He & Hl).
  assert (Htop2 : 2 <= topNumber st0).
  { revert Hnew. unfold RhythmStaff.new.
    destruct (opt_topNumber options =? 3) eqn:E3;
      destruct (opt_topNumber options =? 4) eqn:E4; cbn [orb negb];
      try discriminate;
      (destruct ((opt_barsCount options <? 1) || (3 <? opt_barsCount options));
       [discriminate|]);
      intros Hst; injection Hst as <-; cbn;
      try apply Z.eqb_eq in E3; try apply Z.eqb_eq in E4; lia. }
  destruct (quarter_notes_run (barsCount st0 * topNumber st0) n 0 [] st0
              ltac:(lia) Hmax ltac:(lia) ltac:(lia)
              ltac:(rewrite Hc; reflexivity) ltac:(rewrite Hx; reflexivity))
    as (st & Hrun & Hent & Hlay).
  exists st. split; [exact Hrun|].
  rewrite Hent, Hlay, He, Hl. cbn [app].
  split; [apply length_quarterNotesFrom|]. split; [reflexivity|].
  intros i g Hg.
  destruct (nth_quarterNotesFrom st0 n 0 i g Hg) as (Hi & Hcls & Htr).
  split; [exact Hcls|]. rewrite Htr. do 3 f_equal.
  destruct (increments_run st0 (barsCount st0 * topNumber st0) (S i) Htop2 Hmax
              0 BeatUI.new ltac:(nia) (new_atBeat st0))
    as (u' & Hinc & (_ & Hpos & _) & _).
  rewrite Hinc. cbn [snd]. rewrite Hpos.
  replace (Z.min (0 + Z.of_nat (S i)) (barsCount st0 * topNumber st0))
    with (Z.of_nat i + 1) by lia.
  assert (E : (Z.of_nat i + 1 =? 0) = false) by (apply Z.eqb_neq; lia).
  rewrite E. reflexivity.
Qed.

End BeatUIFacts.

(** [beat_marker_follows_the_beats] on a new 4/4 staff of two bars of the
    default width, at the sixth beat: five spacings of 31 and one bar gap
    after the start. *)
Lemma beat_marker_witness :
  exists (r : BeatUI.SVGRectElement) (u' : BeatUI.t),
    BeatUI.increments (K := exampleConstants)
      (RhythmSpec.constructed (exampleStaff 4 2)) 6
      (BeatUI.new (K := exampleConstants)) = (Return tt, u') /\
    BeatUI.currentBeatUIElement u' = Some r /\
    BeatUI.rect_x r = BeatUI.currentBeatUIXPos u' /\
    BeatUI.currentBeatUICount u' = 6 /\
    BeatUI.currentBeatUIXPos u' = 38 + 5 * 31 + 12 /\
    BeatUI.isHidden r = false.
Proof.
  destruct (beat_marker_follows_the_beats (K := exampleConstants)
              (RhythmSpec.constructed (exampleStaff 4 2)) 8
              (BeatUI.new (K := exampleConstants)) 6)
    as (r & u' & Hrun & Hr & Hx & Hc & Hpos & Hshown).
  - vm_compute. discriminate.
  - lia.
  - reflexivity.
  - left. reflexivity.
  - lia.
  - exists r, u'. repeat split; assumption.
Defined.

(** [beat_marker_stands_under_the_quarter_notes] on a new 4/4 staff of two
    bars, filled with eight quarter notes. *)
Lemma marker_under_quarter_notes_witness :
  exists st : RhythmStaff.t,
    RhythmStaff.drawNote (repeat "q" 8) (RhythmSpec.constructed (exampleStaff 4 2))
    = (Return tt, st) /\
    List.length (RhythmStaff.noteEntries st) = 8%nat /\
    RhythmStaff.notesLayer st = RhythmStaff.noteEntries st /\
    forall (i : nat) (g : RhythmStaff.SVGGElement),
      nth_error (RhythmStaff.noteEntries st) i = Some g ->
      RhythmStaff.className g = "note" /\
      RhythmStaff.transform g
      = Some (RhythmStaff.quarters
                (BeatUI.currentBeatUIXPos
                   (snd (BeatUI.increments (K := exampleConstants)
                           (RhythmSpec.constructed (exampleStaff 4 2)) (S i)
                           (BeatUI.new (K := exampleConstants))))
                 - NOTE_LAYER_START_X (Constants := exampleConstants))).
Proof.
  apply (beat_marker_stands_under_the_quarter_notes (K := exampleConstants)
           (RhythmStaff.mkOptions 300 4 2)
           (RhythmSpec.constructed (exampleStaff 4 2)) 8).
  - reflexivity.
  - vm_compute. discriminate.
Defined.

(** ** The pitched staff in closed form *)

Section PitchedLayoutFacts.
Import SVGRenderer NoteRenderer MusicStaff PitchedLayout.
Context {K : Constants} {H : NoteHelpers} {SM : StrategyMethods}.

Lemma takeUids_0 (r : SVGRenderer.t) : takeUids 0 r = r.
Proof. destruct r. unfold takeUids. cbn. rewrite Nat.add_0_r. reflexivity. Qed.

Lemma takeUids_takeUids (j k : nat) (r : SVGRenderer.t) :
  takeUids k (takeUids j r) = takeUids (j + k) r.
Proof. destruct r. unfold takeUids. cbn. rewrite Nat.add_assoc. reflexivity. Qed.

(** [renderNote], exactly. *)
Lemma renderNote_exact (strategy : StaffStrategy) (n : NoteObj) (y : Q)
    (r : SVGRenderer.t) :
  renderNote strategy n y r
  = (Return (mkRenderNoteReturn (noteGroupOf strategy n y (nextUid r))
               (accidentalOffsetOf n) 0),
     takeUids 1 r).
Proof.
  unfold renderNote, bind, createGroup, noteGroupOf, accidentalOffsetOf, takeUids.
  destruct (noteAccidental (accidental n)) as [glyph xOffset].
  cbn. rewrite Nat.add_1_r. reflexivity.
Qed.

(** A well-formed member of a [drawNote] batch. *)
Lemma pitched_drawNoteToken_placed (noteString : string) (n : NoteObj)
    (pending : list SVGGElement) (st : MusicStaff.t) :
  parseNoteString noteString = Some n ->
  MusicStaff.drawNoteToken noteString pending st
  = (Return (pending
             ++ [gElement (noteEntryAt (strategyInstance st) n (noteCursorX st)
                             (nextUid (svgRendererInstance st)))]),
     MusicStaff.mk (takeUids 1 (svgRendererInstance st)) (strategyInstance st)
       (options st)
       (noteEntries st
        ++ [noteEntryAt (strategyInstance st) n (noteCursorX st)
              (nextUid (svgRendererInstance st))])
       (noteCursorX st + (inject_Z NOTE_SPACING + accidentalOffsetOf n))%Q).
Proof.
  intros Hp. unfold MusicStaff.drawNoteToken. rewrite Hp.
  unfold bind at 1. unfold get at 1. unfold bind at 1. unfold onRenderer at 1.
  rewrite renderNote_exact. destruct st as [r s o es c].
  unfold bind, get, modify, ret, pushEntry, set_noteEntries, set_noteCursorX,
    set_svgRendererInstance, noteEntryAt, yPosOf.
  cbn. reflexivity.
Qed.

Lemma pitched_drawNoteToken_malformed (noteString : string)
    (pending : list SVGGElement) (st : MusicStaff.t) :
  parseNoteString noteString = None ->
  MusicStaff.drawNoteToken noteString pending st
  = (Throw ParseError, snd (MusicStaff.commitIfAny pending st)).
Proof.
  intros Hp. destruct (pitched_drawNoteToken_cases noteString pending st)
    as [[_ Heq]|(n & _ & _ & Hn & _)]; [exact Heq|congruence].
Qed.

(** The close-note pass always returns. *)
Lemma chordOffsetCloseNotes_returns (notes : list NoteEntry) :
  exists (off : Q) (out : list NoteEntry),
    chordOffsetCloseNotes notes = Return (off, out) /\
    (off = 0%Q \/ off = closeNotesXOffset) /\
    List.length out = List.length notes /\
    forall (k : nat) (n : NoteEntry),
      nth_error notes k = Some n ->
      nth_error out k = Some (afterCloseNotes notes k n).
Proof.
  destruct (closeNotes_loop_spec notes (List.length notes) 1
              (nth_error notes 0) 0%Q notes)
    as (off & out & Hrun & Hoff & Hlen & Hout).
  - lia.
  - reflexivity.
  - intros k n Hk Hn. assert (k = 0)%nat by lia. subst k.
    rewrite Hn. reflexivity.
  - reflexivity.
  - reflexivity.
  - reflexivity.
  - lia.
  - left. reflexivity.
  - exists off, out. repeat split; assumption.
Qed.

Lemma renderChord_loop_outcome (strategy : StaffStrategy) (notes : list string) :
  forall (noteObjs : list NoteEntry) (r : SVGRenderer.t),
    (Exists (fun s => parseNoteString s = None) notes /\
     exists k : nat,
       renderChord_loop strategy notes noteObjs r
       = (Throw ParseError, takeUids k r))
    \/
    (Forall (fun s => parseNoteString s <> None) notes /\
     renderChord_loop strategy notes noteObjs r
     = (Return (noteObjs ++ chordEntriesFrom strategy (nextUid r) notes),
        takeUids (List.length notes) r)).
Proof.
  induction notes as [|s notes IH]; intros noteObjs r.
  - right. split; [constructor|]. cbn. rewrite app_nil_r, takeUids_0. reflexivity.
  - destruct (parseNoteString s) as [n|] eqn:Hp.
    + assert (Hstep : renderChord_loop strategy (s :: notes) noteObjs r
                      = renderChord_loop strategy notes
                          (noteObjs
                           ++ [mkNoteEntry
                                 (setTransform 0 (yPosOf strategy n)
                                    (noteGroupOf strategy n (yPosOf strategy n)
                                       (nextUid r)))
                                 n 0 (yPosOf strategy n) 0])
                          (takeUids 1 r)).
      { cbn [renderChord_loop]. rewrite Hp. unfold bind at 1.
        rewrite renderNote_exact. reflexivity. }
      rewrite Hstep. cbn [chordEntriesFrom]. rewrite Hp.
      match goal with
      | |- context [renderChord_loop strategy notes ?acc ?r1] =>
          destruct (IH acc r1) as [(Hex & k & Hrun)|(Hall & Hrun)]; rewrite Hrun
      end.
      * left. split; [right; exact Hex|]. exists (1 + k)%nat.
        rewrite takeUids_takeUids. reflexivity.
      * right. split; [constructor; [congruence|exact Hall]|].
        rewrite takeUids_takeUids, <- app_assoc.
        cbn [app List.length nextUid takeUids].
        rewrite Nat.add_1_r. reflexivity.
    + left. split; [left; exact Hp|]. exists 0%nat.
      cbn [renderChord_loop]. rewrite Hp, takeUids_0. reflexivity.
Qed.

(** [renderChord] throws ParseError when a member does not parse, and
    otherwise returns the chord. *)
Lemma renderChord_outcome (strategy : StaffStrategy) (notes : list string)
    (r : SVGRenderer.t) :
  (Exists (fun s => parseNoteString s = None) notes /\
   exists k : nat,
     renderChord strategy notes r = (Throw ParseError, takeUids (S k) r))
  \/
  (Forall (fun s => parseNoteString s <> None) notes /\
   renderChord strategy notes r
   = (Return (chordReturn strategy (nextUid r) notes),
      takeUids (S (List.length notes)) r)).
Proof.
  assert (Hstep : renderChord strategy notes r
                  = (noteObjs <- renderChord_loop strategy notes [] ;;
                     let '(accidentalXOffset, noteObjs) :=
                       chordOffsetConsecutiveAccidentals noteObjs in
                     match chordOffsetCloseNotes noteObjs with
                     | Throw err => throw err
                     | Return (closeNotesXOffset, noteObjs) =>
                         ret (mkRenderNoteReturn
                                (setSubgroups (map gElement noteObjs)
                                   (mkGroup (nextUid r) "chord" None [] []))
                                (inject_Z accidentalXOffset) closeNotesXOffset)
                     end) (takeUids 1 r)).
  { unfold renderChord. unfold bind at 1. unfold createGroup, takeUids.
    rewrite Nat.add_1_r. reflexivity. }
  rewrite Hstep. unfold bind.
  destruct (renderChord_loop_outcome strategy notes [] (takeUids 1 r))
    as [(Hex & k & Hrun)|(Hall & Hrun)]; rewrite Hrun.
  - left. split; [exact Hex|]. exists k.
    rewrite takeUids_takeUids. reflexivity.
  - right. split; [exact Hall|].
    cbn [app nextUid takeUids]. rewrite Nat.add_1_r. unfold chordReturn.
    destruct (chordOffsetConsecutiveAccidentals
                (chordEntriesFrom strategy (S (nextUid r)) notes))
      as [acc e1].
    destruct (chordOffsetCloseNotes_returns e1) as (off & out & -> & _).
    unfold ret. rewrite takeUids_takeUids. reflexivity.
Qed.

(** *** The methods, exactly *)

Lemma parseFirst_of_parsed (notes : list string) (st : MusicStaff.t) :
  (2 <= List.length notes)%nat ->
  Forall (fun s => parseNoteString s <> None) notes ->
  exists n : NoteObj,
    parseNoteString (hd EmptyString notes) = Some n /\
    parseFirst notes st = (Return n, st).
Proof.
  intros Hlen Hall. destruct notes as [|s notes]; [cbn in Hlen; lia|].
  inversion Hall as [|? ? Hs _]; subst. cbn [hd parseFirst].
  destruct (parseNoteString s) as [n|]; [|congruence].
  exists n. split; reflexivity.
Qed.

(** [drawChord]: the three ways it ends. *)
Lemma drawChord_outcome (notes : list string) (st : MusicStaff.t) :
  ((List.length notes < 2)%nat /\ drawChord notes st = (Throw StateError, st))
  \/
  ((2 <= List.length notes)%nat /\
   Exists (fun s => parseNoteString s = None) notes /\
   exists k : nat,
     drawChord notes st
     = (Throw ParseError,
        set_svgRendererInstance (takeUids (S k) (svgRendererInstance st)) st))
  \/
  ((2 <= List.length notes)%nat /\
   Forall (fun s => parseNoteString s <> None) notes /\
   exists n : NoteObj,
     parseNoteString (hd EmptyString notes) = Some n /\
     drawChord notes st
     = (Return tt,
        MusicStaff.mk
          (SVGRenderer.set_notesLayer
             (notesLayer (svgRendererInstance st)
              ++ [gElement (chordEntryAt (strategyInstance st) notes n
                              (noteCursorX st) (nextUid (svgRendererInstance st)))])
             (takeUids (S (List.length notes)) (svgRendererInstance st)))
          (strategyInstance st) (options st)
          (noteEntries st
           ++ [chordEntryAt (strategyInstance st) notes n (noteCursorX st)
                 (nextUid (svgRendererInstance st))])
          (noteCursorX st
           + (inject_Z NOTE_SPACING
              + accidentalOffset (chordReturn (strategyInstance st)
                                    (nextUid (svgRendererInstance st)) notes)
              + cursorOffset (chordReturn (strategyInstance st)
                                (nextUid (svgRendererInstance st)) notes)))%Q)).
Proof.
  destruct (Z.of_nat (List.length notes) <? 2) eqn:E.
  - left. pose proof E as E'. apply Z.ltb_lt in E'. split; [lia|].
    unfold drawChord. rewrite E. reflexivity.
  - right. pose proof E as E'. apply Z.ltb_ge in E'.
    assert (Hlen : (2 <= List.length notes)%nat) by lia.
    destruct (renderChord_outcome (strategyInstance st) notes (svgRendererInstance st))
      as [(Hex & k & Hrun)|(Hall & Hrun)]; [left|right].
    + split; [exact Hlen|]. split; [exact Hex|]. exists k.
      unfold drawChord. rewrite E.
      unfold bind at 1. unfold get at 1. unfold bind at 1. unfold onRenderer at 1.
      rewrite Hrun. reflexivity.
    + split; [exact Hlen|]. split; [exact Hall|].
      destruct (parseFirst_of_parsed notes st Hlen Hall) as (n & Hn & _).
      exists n. split; [exact Hn|].
      unfold drawChord. rewrite E.
      unfold bind at 1. unfold get at 1. unfold bind at 1. unfold onRenderer at 1.
      rewrite Hrun.
      unfold bind at 1. unfold get at 1. unfold bind at 1.
      match goal with
      | |- context [parseFirst notes ?s1] =>
          destruct (parseFirst_of_parsed notes s1 Hlen Hall) as (n' & Hn' & ->)
      end.
      assert (n' = n) by congruence. subst n'.
      destruct st as [r s o es c].
      unfold bind, modify, pushEntry, onRenderer, commitElementsToDOM,
        set_noteEntries, set_noteCursorX, set_svgRendererInstance, chordEntryAt.
      cbn. reflexivity.
Qed.

Lemma entryAt_inside (entries : list NoteEntry) (noteIndex : Z) :
  0 <= noteIndex < Z.of_nat (List.length entries) ->
  exists e : NoteEntry,
    nth_error entries (Z.to_nat noteIndex) = Some e /\
    entryAt entries noteIndex = Some e.
Proof.
  intros Hi. unfold entryAt.
  assert (E : (noteIndex <? 0) = false) by (apply Z.ltb_ge; lia). rewrite E.
  destruct (nth_error entries (Z.to_nat noteIndex)) as [e|] eqn:Hn.
  - exists e. split; reflexivity.
  - apply nth_error_None in Hn. lia.
Qed.

(** [changeNoteByIndex] inside the list, up to the replacement in the
    document. *)
Lemma changeNoteByIndex_inside (noteString : string) (n : NoteObj)
    (noteIndex : Z) (e : NoteEntry) (st : MusicStaff.t) :
  parseNoteString noteString = Some n ->
  0 <= noteIndex < Z.of_nat (List.length (noteEntries st)) ->
  nth_error (noteEntries st) (Z.to_nat noteIndex) = Some e ->
  changeNoteByIndex noteString noteIndex st
  = match replaceFirst
            (gElement (noteEntryAt (strategyInstance st) n
                         (xPos e - accidentalXOffset e)%Q
                         (nextUid (svgRendererInstance st))))
            (gElement e) (notesLayer (svgRendererInstance st)) with
    | Some layer =>
        (Return tt,
         MusicStaff.mk
           (SVGRenderer.set_notesLayer layer (takeUids 1 (svgRendererInstance st)))
           (strategyInstance st) (options st)
           (replaceNth (Z.to_nat noteIndex)
              (noteEntryAt (strategyInstance st) n
                 (xPos e - accidentalXOffset e)%Q
                 (nextUid (svgRendererInstance st)))
              (noteEntries st))
           (noteCursorX st))
    | None =>
        (Throw NotFoundError,
         set_svgRendererInstance (takeUids 1 (svgRendererInstance st)) st)
    end.
Proof.
  intros Hp Hi He. unfold changeNoteByIndex.
  unfold bind at 1. unfold get at 1.
  assert (E : (Z.of_nat (List.length (noteEntries st)) <=? noteIndex) = false)
    by (apply Z.leb_gt; lia).
  rewrite E, Hp.
  destruct (entryAt_inside (noteEntries st) noteIndex Hi) as (e' & He' & ->).
  assert (e' = e) by congruence. subst e'.
  unfold bind at 1. unfold onRenderer at 1. rewrite renderNote_exact.
  destruct st as [r s o es c].
  unfold bind, modify, onRenderer, replaceChild, set_noteEntries,
    set_svgRendererInstance, noteEntryAt, yPosOf.
  cbn [svgRendererInstance strategyInstance options noteEntries noteCursorX
       noteGroup accidentalOffset gElement notesLayer takeUids nextUid fst snd].
  destruct (replaceFirst _ (gElement e) (notesLayer r)); reflexivity.
Qed.

(** [changeChordByIndex] inside the list, for a chord of which every member
    parses. *)
Lemma changeChordByIndex_inside (notes : list string) (chordIndex : Z)
    (e : NoteEntry) (st : MusicStaff.t) :
  (2 <= List.length notes)%nat ->
  Forall (fun s => parseNoteString s <> None) notes ->
  0 <= chordIndex < Z.of_nat (List.length (noteEntries st)) ->
  nth_error (noteEntries st) (Z.to_nat chordIndex) = Some e ->
  exists n : NoteObj,
    parseNoteString (hd EmptyString notes) = Some n /\
    changeChordByIndex notes chordIndex st
    = match replaceFirst
              (gElement (chordEntryAt (strategyInstance st) notes n
                           (xPos e - accidentalXOffset e)%Q
                           (nextUid (svgRendererInstance st))))
              (gElement e) (notesLayer (svgRendererInstance st)) with
      | Some layer =>
          (Return tt,
           MusicStaff.mk
             (SVGRenderer.set_notesLayer layer
                (takeUids (S (List.length notes)) (svgRendererInstance st)))
             (strategyInstance st) (options st)
             (replaceNth (Z.to_nat chordIndex)
                (chordEntryAt (strategyInstance st) notes n
                   (xPos e - accidentalXOffset e)%Q
                   (nextUid (svgRendererInstance st)))
                (noteEntries st))
             (noteCursorX st))
      | None =>
          (Throw NotFoundError,
           set_svgRendererInstance
             (takeUids (S (List.length notes)) (svgRendererInstance st)) st)
      end.
Proof.
  intros Hlen Hall Hi He.
  destruct (parseFirst_of_parsed notes st Hlen Hall) as (n & Hn & _).
  exists n. split; [exact Hn|].
  unfold changeChordByIndex. unfold bind at 1. unfold get at 1.
  assert (E : (Z.of_nat (List.length (noteEntries st)) <=? chordIndex) = false)
    by (apply Z.leb_gt; lia).
  assert (E2 : (Z.of_nat (List.length notes) <? 2) = false)
    by (apply Z.ltb_ge; lia).
  rewrite E, E2.
  destruct (entryAt_inside (noteEntries st) chordIndex Hi) as (e' & He' & ->).
  assert (e' = e) by congruence. subst e'.
  unfold bind at 1. unfold onRenderer at 1.
  destruct (renderChord_outcome (strategyInstance st) notes (svgRendererInstance st))
    as [(Hex & _)|(_ & ->)].
  { exfalso. apply Exists_exists in Hex. destruct Hex as (s & Hin & Hs).
    rewrite Forall_forall in Hall. exact (Hall s Hin Hs). }
  destruct st as [r s o es c].
  cbn [svgRendererInstance strategyInstance options noteEntries noteCursorX] in *.
  unfold bind at 1. unfold onRenderer at 1, replaceChild, set_svgRendererInstance.
  cbn [svgRendererInstance strategyInstance options noteEntries noteCursorX
       notesLayer takeUids].
  unfold chordEntryAt at 1. cbn [gElement].
  destruct (replaceFirst _ (gElement e) (notesLayer r)) as [layer|]; [|reflexivity].
  unfold bind at 1.
  match goal with
  | |- context [parseFirst notes ?s1] =>
      destruct (parseFirst_of_parsed notes s1 Hlen Hall) as (n' & Hn' & Hpf)
  end.
  assert (n' = n) by congruence. subst n'.
  rewrite Hpf. unfold modify, set_noteEntries, chordEntryAt. reflexivity.
Qed.

(** *** The tracking list and the document *)

Lemma replaceFirst_at (new old : SVGGElement) (l : list SVGGElement) :
  NoDup (map uid l) ->
  forall i : nat,
    nth_error l i = Some old ->
    replaceFirst new old l = Some (replaceNth i new l).
Proof.
  induction l as [|g l IH]; intros Hnd i Hi.
  - destruct i; discriminate.
  - cbn [map] in Hnd. inversion Hnd as [|? ? Hnotin Hnd']; subst.
    destruct i as [|i]; cbn [nth_error] in Hi; cbn [replaceFirst replaceNth].
    + injection Hi as ->. rewrite Nat.eqb_refl. reflexivity.
    + destruct (Nat.eqb (uid g) (uid old)) eqn:E.
      * exfalso. apply Nat.eqb_eq in E. apply Hnotin. rewrite E.
        apply in_map. eapply nth_error_In. exact Hi.
      * rewrite (IH Hnd' i Hi). reflexivity.
Qed.

Lemma map_replaceNth {A B : Type} (f : A -> B) (x : A) (l : list A) :
  forall i : nat, map f (replaceNth i x l) = replaceNth i (f x) (map f l).
Proof.
  induction l as [|y l IH]; intros i; destruct i; cbn; try reflexivity.
  rewrite IH. reflexivity.
Qed.

Lemma In_replaceNth {A : Type} (x y : A) (l : list A) :
  forall i : nat, In y (replaceNth i x l) -> y = x \/ In y l.
Proof.
  induction l as [|z l IH]; intros i Hin; destruct i; cbn in *;
    try contradiction.
  - destruct Hin as [<-|Hin]; [left; reflexivity|right; right; exact Hin].
  - destruct Hin as [<-|Hin]; [right; left; reflexivity|].
    destruct (IH i Hin) as [->|Hin']; [left; reflexivity|right; right; exact Hin'].
Qed.

Lemma ownNodes_later (groups : list SVGGElement) (r r' : SVGRenderer.t) :
  ownNodes groups r -> (nextUid r <= nextUid r')%nat -> ownNodes groups r'.
Proof.
  intros [Hnd Hlt] Hle. split; [exact Hnd|].
  eapply Forall_impl; [|exact Hlt]. cbn. intros g Hg. lia.
Qed.

Lemma ownNodes_snoc (groups : list SVGGElement) (g : SVGGElement)
    (r r' : SVGRenderer.t) :
  ownNodes groups r -> uid g = nextUid r -> (nextUid r < nextUid r')%nat ->
  ownNodes (groups ++ [g]) r'.
Proof.
  intros [Hnd Hlt] Hg Hle. split.
  - rewrite map_app. cbn [map]. apply NoDup_app.
    + exact Hnd.
    + constructor; [intros []|constructor].
    + intros u Hu [<-|[]]. rewrite Forall_forall in Hlt.
      apply in_map_iff in Hu. destruct Hu as (g' & Hg' & Hin).
      specialize (Hlt g' Hin). lia.
  - apply Forall_app. split.
    + eapply Forall_impl; [|exact Hlt]. cbn. intros g' Hg'. lia.
    + constructor; [lia|constructor].
Qed.

Lemma ownNodes_replaceNth (groups : list SVGGElement) (g : SVGGElement)
    (r r' : SVGRenderer.t) (i : nat) :
  ownNodes groups r -> uid g = nextUid r -> (nextUid r < nextUid r')%nat ->
  ownNodes (replaceNth i g groups) r'.
Proof.
  intros [Hnd Hlt] Hg Hle. split.
  - clear Hle. revert i. induction groups as [|g0 groups IH]; intros i.
    + destruct i; constructor.
    + cbn [map] in Hnd. inversion Hnd as [|? ? Hnotin Hnd']; subst.
      inversion Hlt as [|? ? Hg0 Hlt']; subst.
      destruct i as [|i]; cbn [replaceNth map].
      * constructor; [|exact Hnd']. intros Hin.
        apply in_map_iff in Hin. destruct Hin as (g' & Hg' & Hin).
        rewrite Forall_forall in Hlt'. specialize (Hlt' g' Hin). lia.
      * constructor; [|apply IH; assumption]. intros Hin.
        apply in_map_iff in Hin. destruct Hin as (g' & Hg' & Hin).
        destruct (In_replaceNth g g' groups i Hin) as [->|Hin'].
        -- lia.
        -- apply Hnotin. rewrite <- Hg'. apply in_map. exact Hin'.
  - rewrite Forall_forall in *. intros g' Hin.
    destruct (In_replaceNth g g' groups i Hin) as [->|Hin'].
    + lia.
    + specialize (Hlt g' Hin'). lia.
Qed.

Lemma tracked_later (pending : list SVGGElement) (k : nat) (st : MusicStaff.t) :
  tracked pending st ->
  tracked pending (set_svgRendererInstance (takeUids k (svgRendererInstance st)) st).
Proof.
  intros [Hsync Hown]. destruct st as [r s o es c]. unfold tracked.
  cbn [svgRendererInstance noteEntries set_svgRendererInstance takeUids notesLayer] in *.
  split; [exact Hsync|].
  apply (ownNodes_later _ r); [exact Hown|]. cbn. lia.
Qed.

Lemma uid_noteEntryAt (strategy : StaffStrategy) (n : NoteObj) (x0 : Q) (u : nat) :
  uid (gElement (noteEntryAt strategy n x0 u)) = u.
Proof. reflexivity. Qed.

Lemma uid_chordReturn (strategy : StaffStrategy) (u : nat) (notes : list string) :
  uid (noteGroup (chordReturn strategy u notes)) = u.
Proof.
  unfold chordReturn.
  destruct (chordOffsetConsecutiveAccidentals
              (chordEntriesFrom strategy (S u) notes)) as [acc e1].
  destruct (chordOffsetCloseNotes e1) as [[off out]|err]; reflexivity.
Qed.

Lemma uid_chordEntryAt (strategy : StaffStrategy) (notes : list string)
    (n : NoteObj) (x0 : Q) (u : nat) :
  uid (gElement (chordEntryAt strategy notes n x0 u)) = u.
Proof. unfold chordEntryAt. cbn. apply uid_chordReturn. Qed.

Lemma pitched_commit_tracked (pending : list SVGGElement) (st : MusicStaff.t) :
  tracked pending st -> tracked [] (snd (MusicStaff.commitIfAny pending st)).
Proof.
  intros [Hsync Hown]. rewrite pitched_commitIfAny_run.
  destruct st as [r s o es c]. destruct r as [u l cl sl y h rc].
  unfold tracked, onRenderer, commitElementsToDOM, modify, ownNodes in *.
  cbn in *. rewrite app_nil_r. split; assumption.
Qed.

Lemma pitched_drawNote_loop_tracked (notes : list string) :
  forall (pending : list SVGGElement) (st : MusicStaff.t),
    tracked pending st ->
    tracked [] (snd (MusicStaff.drawNote_loop notes pending st)).
Proof.
  induction notes as [|s notes IH]; intros pending st Htr.
  - cbn [MusicStaff.drawNote_loop]. rewrite <- pitched_commitIfAny_run.
    apply pitched_commit_tracked, Htr.
  - cbn [MusicStaff.drawNote_loop]. unfold bind.
    destruct (parseNoteString s) as [n|] eqn:Hp.
    + rewrite (pitched_drawNoteToken_placed s n pending st Hp).
      apply IH. destruct Htr as [Hsync Hown]. unfold tracked.
      cbn [svgRendererInstance noteEntries takeUids notesLayer].
      rewrite map_app, Hsync, app_assoc. split; [reflexivity|].
      apply (ownNodes_snoc _ _ (svgRendererInstance st)); [exact Hown|reflexivity|].
      cbn. lia.
    + rewrite (pitched_drawNoteToken_malformed s pending st Hp).
      apply pitched_commit_tracked, Htr.
Qed.

Lemma drawChord_tracked (notes : list string) (st : MusicStaff.t) :
  tracked [] st -> tracked [] (snd (drawChord notes st)).
Proof.
  intros Htr.
  destruct (drawChord_outcome notes st)
    as [(_ & ->)|[(_ & _ & k & ->)|(_ & _ & n & _ & ->)]]; cbn [snd].
  - exact Htr.
  - apply tracked_later, Htr.
  - destruct Htr as [Hsync Hown]. unfold tracked.
    cbn [svgRendererInstance noteEntries SVGRenderer.set_notesLayer notesLayer].
    rewrite !app_nil_r in *. rewrite map_app, Hsync. split; [reflexivity|].
    destruct Hown as [Hnd Hlt]. 
    pose proof (ownNodes_snoc (notesLayer (svgRendererInstance st))
                  (gElement (chordEntryAt (strategyInstance st) notes n
                               (noteCursorX st) (nextUid (svgRendererInstance st))))
                  (svgRendererInstance st)
                  (takeUids (S (List.length notes)) (svgRendererInstance st))
                  (conj Hnd Hlt) (uid_chordEntryAt _ _ _ _ _)
                  ltac:(cbn; lia)) as Hown'.
    exact Hown'.
Qed.

(** Inside the list, on a tracked staff, the old group is found in the
    document at the index of its entry. *)
Lemma tracked_replaceFirst (new : SVGGElement) (e : NoteEntry) (i : nat)
    (st : MusicStaff.t) :
  tracked [] st ->
  nth_error (noteEntries st) i = Some e ->
  replaceFirst new (gElement e) (notesLayer (svgRendererInstance st))
  = Some (replaceNth i new (notesLayer (svgRendererInstance st))).
Proof.
  intros [Hsync [Hnd _]] He. rewrite app_nil_r in *.
  apply replaceFirst_at; [exact Hnd|].
  rewrite <- Hsync. apply map_nth_error. exact He.
Qed.

Lemma replaced_tracked (e' : NoteEntry) (i k : nat) (st : MusicStaff.t) :
  tracked [] st ->
  uid (gElement e') = nextUid (svgRendererInstance st) ->
  tracked []
    (MusicStaff.mk
       (SVGRenderer.set_notesLayer
          (replaceNth i (gElement e') (notesLayer (svgRendererInstance st)))
          (takeUids (S k) (svgRendererInstance st)))
       (strategyInstance st) (options st)
       (replaceNth i e' (noteEntries st)) (noteCursorX st)).
Proof.
  intros [Hsync Hown] Hu. rewrite app_nil_r in *. unfold tracked.
  cbn [svgRendererInstance noteEntries SVGRenderer.set_notesLayer notesLayer].
  rewrite app_nil_r, map_replaceNth, Hsync. split; [reflexivity|].
  pose proof (ownNodes_replaceNth (notesLayer (svgRendererInstance st))
                (gElement e') (svgRendererInstance st)
                (takeUids (S k) (svgRendererInstance st)) i Hown Hu
                ltac:(cbn; lia)) as Hown'.
  exact Hown'.
Qed.

Lemma changeNoteByIndex_negative_exact (noteString : string) (n : NoteObj)
    (noteIndex : Z) (st : MusicStaff.t) :
  parseNoteString noteString = Some n ->
  noteIndex < 0 ->
  changeNoteByIndex noteString noteIndex st
  = (Throw TypeError,
     set_svgRendererInstance (takeUids 1 (svgRendererInstance st)) st).
Proof.
  intros Hp Hneg. unfold changeNoteByIndex. unfold bind at 1. unfold get at 1.
  assert (E : (Z.of_nat (List.length (noteEntries st)) <=? noteIndex) = false)
    by (apply Z.leb_gt; lia).
  rewrite E, Hp. unfold bind at 1. unfold onRenderer at 1.
  rewrite renderNote_exact. unfold entryAt.
  apply Z.ltb_lt in Hneg. rewrite Hneg. reflexivity.
Qed.

Lemma changeNoteByIndex_malformed (noteString : string) (noteIndex : Z)
    (st : MusicStaff.t) :
  parseNoteString noteString = None ->
  noteIndex < Z.of_nat (List.length (noteEntries st)) ->
  changeNoteByIndex noteString noteIndex st = (Throw ParseError, st).
Proof.
  intros Hp Hlt. unfold changeNoteByIndex. unfold bind at 1. unfold get at 1.
  assert (E : (Z.of_nat (List.length (noteEntries st)) <=? noteIndex) = false)
    by (apply Z.leb_gt; lia).
  rewrite E, Hp. reflexivity.
Qed.

Lemma changeNoteByIndex_tracked (noteString : string) (noteIndex : Z)
    (st : MusicStaff.t) :
  tracked [] st -> tracked [] (snd (changeNoteByIndex noteString noteIndex st)).
Proof.
  intros Htr.
  destruct (Z_le_gt_dec (Z.of_nat (List.length (noteEntries st))) noteIndex)
    as [Hge|Hlt].
  - rewrite (changeNoteByIndex_past_the_end noteString noteIndex st Hge). exact Htr.
  - destruct (parseNoteString noteString) as [n|] eqn:Hp.
    + destruct (Z_lt_ge_dec noteIndex 0) as [Hneg|Hpos].
      * rewrite (changeNoteByIndex_negative_exact noteString n noteIndex st Hp Hneg).
        apply tracked_later, Htr.
      * destruct (entryAt_inside (noteEntries st) noteIndex ltac:(lia))
          as (e & He & _).
        rewrite (changeNoteByIndex_inside noteString n noteIndex e st Hp
                   ltac:(lia) He).
        rewrite (tracked_replaceFirst _ e (Z.to_nat noteIndex) st Htr He).
        cbn [snd]. apply (replaced_tracked _ _ 0 st Htr). reflexivity.
    + rewrite (changeNoteByIndex_malformed noteString noteIndex st Hp ltac:(lia)).
      exact Htr.
Qed.

(** [changeChordByIndex]: the ways it ends outside the successful one. *)
Lemma changeChordByIndex_refused (notes : list string) (chordIndex : Z)
    (st : MusicStaff.t) :
  (Z.of_nat (List.length (noteEntries st)) <= chordIndex ->
   changeChordByIndex notes chordIndex st = (Throw BoundsError, st)) /\
  (chordIndex < Z.of_nat (List.length (noteEntries st)) ->
   (List.length notes < 2)%nat ->
   changeChordByIndex notes chordIndex st = (Throw StateError, st)) /\
  (chordIndex < Z.of_nat (List.length (noteEntries st)) ->
   (2 <= List.length notes)%nat ->
   Exists (fun s => parseNoteString s = None) notes ->
   exists k : nat,
     changeChordByIndex notes chordIndex st
     = (Throw ParseError,
        set_svgRendererInstance (takeUids (S k) (svgRendererInstance st)) st)) /\
  (chordIndex < 0 ->
   (2 <= List.length notes)%nat ->
   Forall (fun s => parseNoteString s <> None) notes ->
   changeChordByIndex notes chordIndex st
   = (Throw TypeError,
      set_svgRendererInstance
        (takeUids (S (List.length notes)) (svgRendererInstance st)) st)).
Proof.
  repeat split.
  - intros Hge. unfold changeChordByIndex, bind, get.
    apply Z.leb_le in Hge. rewrite Hge. reflexivity.
  - intros Hlt Hlen. unfold changeChordByIndex, bind, get.
    assert (E : (Z.of_nat (List.length (noteEntries st)) <=? chordIndex) = false)
      by (apply Z.leb_gt; lia).
    assert (E2 : (Z.of_nat (List.length notes) <? 2) = true)
      by (apply Z.ltb_lt; lia).
    rewrite E, E2. reflexivity.
  - intros Hlt Hlen Hex.
    destruct (renderChord_outcome (strategyInstance st) notes (svgRendererInstance st))
      as [(_ & k & Hrun)|(Hall & _)].
    + exists k. unfold changeChordByIndex. unfold bind at 1. unfold get at 1.
      assert (E : (Z.of_nat (List.length (noteEntries st)) <=? chordIndex) = false)
        by (apply Z.leb_gt; lia).
      assert (E2 : (Z.of_nat (List.length notes) <? 2) = false)
        by (apply Z.ltb_ge; lia).
      rewrite E, E2. unfold bind at 1. unfold onRenderer at 1. rewrite Hrun.
      reflexivity.
    + exfalso. apply Exists_exists in Hex. destruct Hex as (s & Hin & Hs).
      rewrite Forall_forall in Hall. exact (Hall s Hin Hs).
  - intros Hneg Hlen Hall.
    destruct (renderChord_outcome (strategyInstance st) notes (svgRendererInstance st))
      as [(Hex & _)|(_ & Hrun)].
    + exfalso. apply Exists_exists in Hex. destruct Hex as (s & Hin & Hs).
      rewrite Forall_forall in Hall. exact (Hall s Hin Hs).
    + unfold changeChordByIndex. unfold bind at 1. unfold get at 1.
      assert (E : (Z.of_nat (List.length (noteEntries st)) <=? chordIndex) = false)
        by (apply Z.leb_gt; lia).
      assert (E2 : (Z.of_nat (List.length notes) <? 2) = false)
        by (apply Z.ltb_ge; lia).
      rewrite E, E2. unfold bind at 1. unfold onRenderer at 1. rewrite Hrun.
      unfold entryAt. apply Z.ltb_lt in Hneg. rewrite Hneg. reflexivity.
Qed.

Lemma parse_all_or_not (notes : list string) :
  Forall (fun s => parseNoteString s <> None) notes \/
  Exists (fun s => parseNoteString s = None) notes.
Proof.
  induction notes as [|s notes IH].
  - left. constructor.
  - destruct (parseNoteString s) as [n|] eqn:Hp.
    + destruct IH as [Hall|Hex].
      * left. constructor; [congruence|exact Hall].
      * right. right. exact Hex.
    + right. left. exact Hp.
Qed.

Lemma changeChordByIndex_tracked (notes : list string) (chordIndex : Z)
    (st : MusicStaff.t) :
  tracked [] st -> tracked [] (snd (changeChordByIndex notes chordIndex st)).
Proof.
  intros Htr.
  destruct (changeChordByIndex_refused notes chordIndex st)
    as (Hbounds & Hshort & Hbad & Hneg).
  destruct (Z_le_gt_dec (Z.of_nat (List.length (noteEntries st))) chordIndex)
    as [Hge|Hlt].
  { rewrite (Hbounds Hge). exact Htr. }
  destruct (le_lt_dec 2 (List.length notes)) as [Hlen|Hlen].
  2:{ rewrite (Hshort ltac:(lia) Hlen). exact Htr. }
  destruct (parse_all_or_not notes) as [Hall|Hex].
  2:{ destruct (Hbad ltac:(lia) Hlen Hex) as (k & ->). apply tracked_later, Htr. }
  destruct (Z_lt_ge_dec chordIndex 0) as [Hn|Hpos].
  { rewrite (Hneg Hn Hlen Hall). apply tracked_later, Htr. }
  destruct (entryAt_inside (noteEntries st) chordIndex ltac:(lia)) as (e & He & _).
  destruct (changeChordByIndex_inside notes chordIndex e st Hlen Hall
              ltac:(lia) He) as (n & _ & ->).
  rewrite (tracked_replaceFirst _ e (Z.to_nat chordIndex) st Htr He).
  cbn [snd]. apply (replaced_tracked _ _ (List.length notes) st Htr).
  apply uid_chordEntryAt.
Qed.

Lemma reachable_tracked (st0 st : MusicStaff.t) :
  tracked [] st0 -> reachable st0 st -> tracked [] st.
Proof.
  intros H0 Hreach.
  induction Hreach as [|st notes _ IH|st notes _ IH|st _ IH
                      |st note noteIndex _ IH|st notes chordIndex _ IH].
  - exact H0.
  - apply pitched_drawNote_loop_tracked, IH.
  - apply drawChord_tracked, IH.
  - unfold tracked, ownNodes. destruct st as [[u l cl sl y h rc] s o es c].
    cbn. repeat split; constructor.
  - apply changeNoteByIndex_tracked, IH.
  - apply changeChordByIndex_tracked, IH.
Qed.

Lemma new_tracked (options : MusicStaffOptions) (st0 : MusicStaff.t)
    (r : SVGRenderer.t) :
  MusicStaff.new options = (Return st0, r) ->
  tracked [] st0 /\ noteEntries st0 = [] /\ noteCursorX st0 = 0%Q /\
  svgRendererInstance st0 = r /\
  notesLayer r = [] /\
  selectStrategy (staffType (withDefaults options)) = Some (strategyInstance st0).
Proof.
  unfold MusicStaff.new, MusicStaff.construct.
  destruct (selectStrategy (staffType (withDefaults options))) as [strategy|];
    [|discriminate].
  unfold bind, drawStaff, modify, ret, commitRoot,
    addTotalRootSvgYOffset, addTotalRootSvgHeight.
  destruct (truthy (spaceAbove (withDefaults options)));
    destruct (truthy (spaceBelow (withDefaults options)));
    cbn; intros Heq; injection Heq as <- <-;
    unfold tracked, ownNodes; cbn; repeat split; constructor.
Qed.

(** *** The staff stays the staff *)

Lemma laterStaff_refl (st : MusicStaff.t) : laterStaff st st.
Proof.
  repeat split. exists 0%nat. rewrite takeUids_0. reflexivity.
Qed.

Lemma laterStaff_trans (st1 st2 st3 : MusicStaff.t) :
  laterStaff st1 st2 -> laterStaff st2 st3 -> laterStaff st1 st3.
Proof.
  intros (Hs & Ho & j & Hj) (Hs' & Ho' & k & Hk).
  split; [congruence|]. split; [congruence|].
  exists (j + k)%nat. rewrite Hk, Hj. apply takeUids_takeUids.
Qed.

Lemma laterStaff_renderer (st : MusicStaff.t) (k : nat)
    (layer : list SVGGElement) (entries : list NoteEntry) (cursor : Q) :
  laterStaff st
    (MusicStaff.mk
       (SVGRenderer.set_notesLayer layer (takeUids k (svgRendererInstance st)))
       (strategyInstance st) (options st) entries cursor).
Proof.
  repeat split. exists k. destruct st as [[u l cl sl y h rc] s o es c]. reflexivity.
Qed.

Lemma laterStaff_takeUids (st : MusicStaff.t) (k : nat) :
  laterStaff st
    (set_svgRendererInstance (takeUids k (svgRendererInstance st)) st).
Proof.
  repeat split. exists k. destruct st as [[u l cl sl y h rc] s o es c]. reflexivity.
Qed.

Lemma pitched_commit_later (pending : list SVGGElement) (st : MusicStaff.t) :
  laterStaff st (snd (MusicStaff.commitIfAny pending st)).
Proof.
  rewrite pitched_commitIfAny_run. repeat split. exists 0%nat.
  destruct st as [[u l cl sl y h rc] s o es c].
  unfold takeUids. cbn. rewrite Nat.add_0_r. reflexivity.
Qed.

Lemma pitched_drawNote_loop_later (notes : list string) :
  forall (pending : list SVGGElement) (st : MusicStaff.t),
    laterStaff st (snd (MusicStaff.drawNote_loop notes pending st)).
Proof.
  induction notes as [|s notes IH]; intros pending st.
  - cbn [MusicStaff.drawNote_loop]. rewrite <- pitched_commitIfAny_run.
    apply pitched_commit_later.
  - cbn [MusicStaff.drawNote_loop]. unfold bind.
    destruct (parseNoteString s) as [n|] eqn:Hp.
    + rewrite (pitched_drawNoteToken_placed s n pending st Hp).
      eapply laterStaff_trans; [|apply IH].
      repeat split. exists 1%nat.
      destruct st as [[u l cl sl y h rc] s0 o es c]. reflexivity.
    + rewrite (pitched_drawNoteToken_malformed s pending st Hp).
      apply pitched_commit_later.
Qed.

Lemma reachable_later (st0 st : MusicStaff.t) :
  reachable st0 st -> laterStaff st0 st.
Proof.
  intros Hreach.
  induction Hreach as [|st notes _ IH|st notes _ IH|st _ IH
                      |st note noteIndex _ IH|st notes chordIndex _ IH].
  - apply laterStaff_refl.
  - eapply laterStaff_trans; [exact IH|]. apply pitched_drawNote_loop_later.
  - eapply laterStaff_trans; [exact IH|].
    destruct (drawChord_outcome notes st)
      as [(_ & ->)|[(_ & _ & k & ->)|(_ & _ & n & _ & ->)]]; cbn [snd].
    + apply laterStaff_refl.
    + apply laterStaff_takeUids.
    + apply laterStaff_renderer.
  - eapply laterStaff_trans; [exact IH|].
    repeat split. exists 0%nat.
    destruct st as [[u l cl sl y h rc] s o es c].
    unfold takeUids. cbn. rewrite Nat.add_0_r. reflexivity.
  - eapply laterStaff_trans; [exact IH|].
    destruct (Z_le_gt_dec (Z.of_nat (List.length (noteEntries st))) noteIndex)
      as [Hge|Hlt].
    { rewrite (changeNoteByIndex_past_the_end note noteIndex st Hge).
      apply laterStaff_refl. }
    destruct (parseNoteString note) as [n|] eqn:Hp.
    2:{ rewrite (changeNoteByIndex_malformed note noteIndex st Hp ltac:(lia)).
        apply laterStaff_refl. }
    destruct (Z_lt_ge_dec noteIndex 0) as [Hneg|Hpos].
    { rewrite (changeNoteByIndex_negative_exact note n noteIndex st Hp Hneg).
      apply laterStaff_takeUids. }
    destruct (entryAt_inside (noteEntries st) noteIndex ltac:(lia)) as (e & He & _).
    rewrite (changeNoteByIndex_inside note n noteIndex e st Hp ltac:(lia) He).
    destruct (replaceFirst _ (gElement e) (notesLayer (svgRendererInstance st)));
      cbn [snd]; [apply laterStaff_renderer|apply laterStaff_takeUids].
  - eapply laterStaff_trans; [exact IH|].
    destruct (changeChordByIndex_refused notes chordIndex st)
      as (Hbounds & Hshort & Hbad & Hneg).
    destruct (Z_le_gt_dec (Z.of_nat (List.length (noteEntries st))) chordIndex)
      as [Hge|Hlt].
    { rewrite (Hbounds Hge). apply laterStaff_refl. }
    destruct (le_lt_dec 2 (List.length notes)) as [Hlen|Hlen].
    2:{ rewrite (Hshort ltac:(lia) Hlen). apply laterStaff_refl. }
    destruct (parse_all_or_not notes) as [Hall|Hex].
    2:{ destruct (Hbad ltac:(lia) Hlen Hex) as (k & ->). apply laterStaff_takeUids. }
    destruct (Z_lt_ge_dec chordIndex 0) as [Hn|Hpos].
    { rewrite (Hneg Hn Hlen Hall). apply laterStaff_takeUids. }
    destruct (entryAt_inside (noteEntries st) chordIndex ltac:(lia)) as (e & He & _).
    destruct (changeChordByIndex_inside notes chordIndex e st Hlen Hall
                ltac:(lia) He) as (n & _ & ->).
    destruct (replaceFirst _ (gElement e) (notesLayer (svgRendererInstance st)));
      cbn [snd]; [apply laterStaff_renderer|apply laterStaff_takeUids].
Qed.

(** *** What holds of every pitched staff *)

Lemma pitched_drawNote_loop_placed (ns : list NoteObj) :
  forall (notes : list string) (pending : list SVGGElement) (st : MusicStaff.t),
    map parseNoteString notes = map Some ns ->
    MusicStaff.drawNote_loop notes pending st
    = (Return tt,
       MusicStaff.mk
         (SVGRenderer.set_notesLayer
            (notesLayer (svgRendererInstance st) ++ pending
             ++ map gElement
                  (placedNotes (strategyInstance st) (noteCursorX st)
                     (nextUid (svgRendererInstance st)) ns))
            (takeUids (List.length ns) (svgRendererInstance st)))
         (strategyInstance st) (options st)
         (noteEntries st
          ++ placedNotes (strategyInstance st) (noteCursorX st)
               (nextUid (svgRendererInstance st)) ns)
         (cursorAfter (noteCursorX st) ns)).
Proof.
  induction ns as [|n ns IH]; intros notes pending st Hparse.
  - destruct notes; [|discriminate]. cbn [MusicStaff.drawNote_loop placedNotes
      cursorAfter map List.length].
    destruct st as [[u l cl sl y h rc] s o es c].
    unfold onRenderer, commitElementsToDOM, modify, takeUids. cbn.
    rewrite !app_nil_r, Nat.add_0_r. reflexivity.
  - destruct notes as [|s notes]; [discriminate|]. cbn [map] in Hparse.
    injection Hparse as Hs Hrest.
    cbn [MusicStaff.drawNote_loop]. unfold bind.
    rewrite (pitched_drawNoteToken_placed s n pending st Hs).
    rewrite (IH notes _ _ Hrest).
    destruct st as [[u l cl sl y h rc] s0 o es c].
    unfold takeUids. cbn. rewrite <- !app_assoc. cbn [app].
    rewrite Nat.add_1_r. do 3 f_equal. f_equal. lia.
Qed.

(** The tracking list and the notes layer agree.  On a staff that came out
    of the constructor, after any calls of [drawNote], [drawChord],
    [clearAllNotes], [changeNoteByIndex] and [changeChordByIndex], whether
    they returned or threw, the groups of [noteEntries] are the children of
    the notes layer, in the same order, and they are distinct nodes. *)
Theorem pitched_entries_are_the_children_of_the_notes_layer :
  forall (opts : MusicStaffOptions) (st0 st : MusicStaff.t) (r : SVGRenderer.t),
    MusicStaff.new opts = (Return st0, r) ->
    reachable st0 st ->
    map gElement (noteEntries st) = notesLayer (svgRendererInstance st) /\
    NoDup (map uid (notesLayer (svgRendererInstance st))).
Proof.
  intros opts st0 st r Hnew Hreach.
  destruct (new_tracked opts st0 r Hnew) as (Htr0 & _).
  destruct (reachable_tracked st0 st Htr0 Hreach) as (Hsync & Hnd & _).
  rewrite app_nil_r in *. split; assumption.
Qed.

(** [changeNoteByIndex] replaces a note in place.  On any staff reached from
    the constructor, the call returns exactly when the index is inside the
    list and the note parses (so the replacement in the document never
    fails).  It then puts the new note at the index, in the list and in the
    layer, leaves every other entry and the cursor as they were, and keeps
    the head where it was: the new position is the old one with the old
    accidental offset taken off and the new one added. *)
Theorem changeNoteByIndex_replaces_the_note_in_place :
  forall (opts : MusicStaffOptions) (st0 st : MusicStaff.t) (r : SVGRenderer.t)
         (noteString : string) (noteIndex : Z),
    MusicStaff.new opts = (Return st0, r) ->
    reachable st0 st ->
    ((exists st', changeNoteByIndex noteString noteIndex st = (Return tt, st'))
     <-> (0 <= noteIndex < Z.of_nat (List.length (noteEntries st)) /\
          parseNoteString noteString <> None)) /\
    forall (n : NoteObj) (e : NoteEntry),
      parseNoteString noteString = Some n ->
      0 <= noteIndex ->
      nth_error (noteEntries st) (Z.to_nat noteIndex) = Some e ->
      exists (e' : NoteEntry) (st' : MusicStaff.t),
        changeNoteByIndex noteString noteIndex st = (Return tt, st') /\
        noteEntries st' = replaceNth (Z.to_nat noteIndex) e' (noteEntries st) /\
        notesLayer (svgRendererInstance st')
        = replaceNth (Z.to_nat noteIndex) (gElement e')
            (notesLayer (svgRendererInstance st)) /\
        noteCursorX st' = noteCursorX st /\
        note e' = n /\
        yPos e' = calculateNoteYPos (strategyInstance st0) (name n) (octave n) /\
        accidentalXOffset e' = inject_Z (snd (noteAccidental (accidental n))) /\
        xPos e' = (xPos e - accidentalXOffset e + accidentalXOffset e')%Q /\
        className (gElement e') = "note" /\
        transform (gElement e') = Some (xPos e', yPos e').
Proof.
  intros opts st0 st r noteString noteIndex Hnew Hreach.
  destruct (new_tracked opts st0 r Hnew) as (Htr0 & _).
  pose proof (reachable_tracked st0 st Htr0 Hreach) as Htr.
  destruct (reachable_later st0 st Hreach) as (Hstrat & _).
  assert (Hin : forall (n : NoteObj) (e : NoteEntry),
            parseNoteString noteString = Some n ->
            0 <= noteIndex ->
            nth_error (noteEntries st) (Z.to_nat noteIndex) = Some e ->
            changeNoteByIndex noteString noteIndex st
            = (Return tt,
               MusicStaff.mk
                 (SVGRenderer.set_notesLayer
                    (replaceNth (Z.to_nat noteIndex)
                       (gElement (noteEntryAt (strategyInstance st) n
                                    (xPos e - accidentalXOffset e)%Q
                                    (nextUid (svgRendererInstance st))))
                       (notesLayer (svgRendererInstance st)))
                    (takeUids 1 (svgRendererInstance st)))
                 (strategyInstance st) (options st)
                 (replaceNth (Z.to_nat noteIndex)
                    (noteEntryAt (strategyInstance st) n
                       (xPos e - accidentalXOffset e)%Q
                       (nextUid (svgRendererInstance st)))
                    (noteEntries st))
                 (noteCursorX st))).
  { intros n e Hp Hpos He.
    assert (Hlt : (Z.to_nat noteIndex < List.length (noteEntries st))%nat)
      by (apply nth_error_Some; congruence).
    rewrite (changeNoteByIndex_inside noteString n noteIndex e st Hp
               ltac:(lia) He).
    rewrite (tracked_replaceFirst _ e (Z.to_nat noteIndex) st Htr He).
    reflexivity. }
  split.
  - split.
    + intros (st' & Hrun).
      destruct (Z_le_gt_dec (Z.of_nat (List.length (noteEntries st))) noteIndex)
        as [Hge|Hlt].
      { rewrite (changeNoteByIndex_past_the_end noteString noteIndex st Hge) in Hrun.
        discriminate. }
      destruct (parseNoteString noteString) as [n|] eqn:Hp.
      2:{ rewrite (changeNoteByIndex_malformed noteString noteIndex st Hp
                     ltac:(lia)) in Hrun. discriminate. }
      destruct (Z_lt_ge_dec noteIndex 0) as [Hneg|Hpos].
      { rewrite (changeNoteByIndex_negative_exact noteString n noteIndex st Hp Hneg)
          in Hrun. discriminate. }
      split; [lia|discriminate].
    + intros (Hi & Hp). destruct (parseNoteString noteString) as [n|] eqn:Hpn;
        [|congruence].
      destruct (entryAt_inside (noteEntries st) noteIndex Hi) as (e & He & _).
      eexists. apply (Hin n e eq_refl ltac:(lia) He).
  - intros n e Hp Hpos He. eexists. eexists.
    split; [apply (Hin n e Hp Hpos He)|].
    cbn [noteEntries svgRendererInstance noteCursorX SVGRenderer.set_notesLayer
         notesLayer].
    rewrite Hstrat. repeat split.
Qed.

(** [clearAllNotes] undoes everything.  Whatever was drawn or changed on a
    staff, and whatever calls failed on it, [clearAllNotes] returns and
    leaves the staff as the constructor had made it, but for the node
    identities that were used, which are not used again. *)
Theorem pitched_clearAllNotes_restores_the_new_staff :
  forall (opts : MusicStaffOptions) (st0 st : MusicStaff.t) (r : SVGRenderer.t),
    MusicStaff.new opts = (Return st0, r) ->
    reachable st0 st ->
    exists k : nat,
      clearAllNotes st
      = (Return tt,
         set_svgRendererInstance (takeUids k (svgRendererInstance st0)) st0).
Proof.
  intros opts st0 st r Hnew Hreach.
  destruct (new_tracked opts st0 r Hnew) as (_ & He0 & Hc0 & Hr0 & Hl0 & _).
  destruct (reachable_later st0 st Hreach) as (Hs & Ho & k & Hk).
  exists k. unfold clearAllNotes, replaceChildren, bind, modify, onRenderer.
  destruct st as [rs s o es c]. destruct st0 as [r0 s0 o0 es0 c0].
  cbn [svgRendererInstance strategyInstance options noteEntries noteCursorX
       set_noteCursorX set_noteEntries set_svgRendererInstance] in *.
  subst. rewrite Hk. destruct r as [u l cl sl y h rc].
  cbn in Hl0. subst l. reflexivity.
Qed.

(** [drawNote] places each note at the cursor.  For a batch of which every
    member parses, the call returns; each note is placed at the cursor plus
    the offset of its accidental and moves the cursor on by [NOTE_SPACING]
    plus that offset; the entries are added to the list and their groups to
    the layer, in the order of the batch. *)
Theorem drawNote_places_each_note_at_the_cursor :
  forall (notes : list string) (ns : list NoteObj) (st : MusicStaff.t),
    map parseNoteString notes = map Some ns ->
    exists st' : MusicStaff.t,
      drawNote notes st = (Return tt, st') /\
      noteEntries st'
      = noteEntries st
        ++ placedNotes (strategyInstance st) (noteCursorX st)
             (nextUid (svgRendererInstance st)) ns /\
      notesLayer (svgRendererInstance st')
      = notesLayer (svgRendererInstance st)
        ++ map gElement
             (placedNotes (strategyInstance st) (noteCursorX st)
                (nextUid (svgRendererInstance st)) ns) /\
      noteCursorX st' = cursorAfter (noteCursorX st) ns.
Proof.
  intros notes ns st Hparse. eexists. unfold drawNote.
  rewrite (pitched_drawNote_loop_placed ns notes [] st Hparse).
  split; [reflexivity|]. cbn. repeat split.
Qed.

(** *** The chord *)

Lemma accidentalElement_app (cs1 cs2 : list Child) :
  accidentalElement (cs1 ++ cs2)
  = match accidentalElement cs1 with
    | Some tr => Some tr
    | None => accidentalElement cs2
    end.
Proof.
  induction cs1 as [|[href tr|x1 y1 x2 y2] cs1 IH]; cbn [app accidentalElement].
  - reflexivity.
  - destruct (isAccidentalGlyph href); [reflexivity|exact IH].
  - exact IH.
Qed.

(** The group of a note holds an accidental glyph exactly when the note has
    an accidental, and the glyph has no translation of its own. *)
Lemma accidentalElement_noteGroupOf (strategy : StaffStrategy) (n : NoteObj)
    (y : Q) (u : nat) :
  accidentalElement (children (noteGroupOf strategy n y u))
  = match accidental n with
    | Some _ => Some None
    | None => None
    end.
Proof.
  unfold noteGroupOf. cbn [children]. rewrite !accidentalElement_app.
  assert (Hhead : accidentalElement
                    (noteHead (duration n) (shouldNoteFlip strategy y)) = None).
  { unfold noteHead, drawStem.
    destruct (duration n); destruct (shouldNoteFlip strategy y); reflexivity. }
  rewrite Hhead.
  assert (Hlines : forall l : list LedgerLine,
            accidentalElement
              (map (fun e => Line (ledger_x1 e) (ledger_yPos e) (ledger_x2 e)
                                  (ledger_yPos e)) l) = None).
  { induction l as [|a l IH]; [reflexivity|exact IH]. }
  rewrite Hlines.
  destruct (accidental n) as [[| | | |]|]; reflexivity.
Qed.

Lemma length_chordEntriesFrom (strategy : StaffStrategy) (notes : list string) :
  forall u : nat,
    Forall (fun s => parseNoteString s <> None) notes ->
    List.length (chordEntriesFrom strategy u notes) = List.length notes.
Proof.
  induction notes as [|s notes IH]; intros u Hall; [reflexivity|].
  inversion Hall as [|? ? Hs Hall']; subst. cbn [chordEntriesFrom].
  destruct (parseNoteString s); [|congruence].
  cbn [List.length]. rewrite (IH _ Hall'). reflexivity.
Qed.

Lemma nth_chordEntriesFrom (strategy : StaffStrategy) (notes : list string) :
  forall (u i : nat) (e : NoteEntry),
    nth_error (chordEntriesFrom strategy u notes) i = Some e ->
    nth_error (map parseNoteString notes) i = Some (Some (note e)) /\
    e = mkNoteEntry
          (setTransform 0 (yPosOf strategy (note e))
             (noteGroupOf strategy (note e) (yPosOf strategy (note e)) (u + i)))
          (note e) 0 (yPosOf strategy (note e)) 0.
Proof.
  induction notes as [|s notes IH]; intros u i e He; cbn [chordEntriesFrom] in He.
  - destruct i; discriminate.
  - destruct (parseNoteString s) as [n|] eqn:Hp; [|destruct i; discriminate].
    destruct i as [|i]; cbn [nth_error map] in *.
    + injection He as <-. cbn [note]. rewrite Hp, Nat.add_0_r. split; reflexivity.
    + destruct (IH (S u) i e He) as (Hn & Heq). split; [exact Hn|].
      rewrite Heq at 1. cbn [note]. do 3 f_equal. lia.
Qed.

Lemma nth_error_zipWith {A B C : Type} (f : A -> B -> C) (l1 : list A) :
  forall (l2 : list B) (i : nat),
    nth_error (zipWith f l1 l2) i
    = match nth_error l1 i, nth_error l2 i with
      | Some a, Some b => Some (f a b)
      | _, _ => None
      end.
Proof.
  induction l1 as [|a l1 IH]; intros l2 i.
  - cbn. destruct i; reflexivity.
  - destruct l2 as [|b l2]; cbn [zipWith].
    + destruct i; cbn; [reflexivity|]. destruct (nth_error l1 i); reflexivity.
    + destruct i; cbn [nth_error]; [reflexivity|apply IH].
Qed.

Lemma length_zipWith {A B C : Type} (f : A -> B -> C) (l1 : list A) :
  forall l2 : list B,
    List.length l1 = List.length l2 ->
    List.length (zipWith f l1 l2) = List.length l2.
Proof.
  induction l1 as [|a l1 IH]; intros [|b l2] Hlen; cbn in *; try discriminate;
    [reflexivity|]. rewrite IH; [reflexivity|lia].
Qed.

Lemma length_runLengths (flags : list bool) :
  forall prev : nat, List.length (runLengths prev flags) = List.length flags.
Proof.
  induction flags as [|b flags IH]; intros prev; cbn; [reflexivity|].
  rewrite IH. reflexivity.
Qed.

Lemma length_stackedOffsets (entries : list NoteEntry) :
  List.length (stackedOffsets entries) = List.length entries.
Proof.
  unfold stackedOffsets. rewrite length_map, length_runLengths, length_map.
  reflexivity.
Qed.

(** An entry without an accidental ends no run. *)
Lemma nth_runLengths (flags : list bool) :
  forall (prev i : nat) (b : bool),
    nth_error flags i = Some b ->
    exists k : nat,
      nth_error (runLengths prev flags) i = Some k /\
      (b = false -> k = O) /\ (b = true -> (1 <= k)%nat).
Proof.
  induction flags as [|b0 flags IH]; intros prev i b Hb.
  - destruct i; discriminate.
  - destruct i as [|i]; cbn [nth_error runLengths] in *.
    + injection Hb as ->. eexists. split; [reflexivity|].
      destruct b; split; intros; try discriminate; lia.
    + apply IH. exact Hb.
Qed.

Lemma stackedOffset_of_entry (entries : list NoteEntry) (i : nat) (e : NoteEntry) :
  ACCIDENTAL_OFFSET_X < 0 -> 1 <= CHORD_MAX_CONSECUTIVE_ACCIDENTALS ->
  nth_error entries i = Some e ->
  exists off : Z,
    nth_error (stackedOffsets entries) i = Some off /\
    nth i (stackedOffsets entries) 0 = off /\
    (hasAccidental e = false -> off = 0) /\
    (hasAccidental e = true -> off <> 0).
Proof.
  intros HA Hmax He.
  destruct (nth_runLengths (map hasAccidental entries) 0 i (hasAccidental e)
              (map_nth_error hasAccidental i entries He))
    as (k & Hk & Hno & Hyes).
  exists (stackedOffset k).
  assert (Hnth : nth_error (stackedOffsets entries) i = Some (stackedOffset k)).
  { unfold stackedOffsets. apply map_nth_error. exact Hk. }
  split; [exact Hnth|]. split; [apply nth_error_nth; exact Hnth|].
  split.
  - intros Hf. rewrite (Hno Hf). unfold stackedOffset, runPosition. lia.
  - intros Ht. specialize (Hyes Ht). destruct k as [|k]; [lia|].
    unfold stackedOffset. cbn [runPosition].
    assert (Hpos : 0 < CHORD_MAX_CONSECUTIVE_ACCIDENTALS) by lia.
    pose proof (Z.mod_pos_bound (Z.of_nat k) _ Hpos) as Hmod.
    intros Hzero. apply Z.mul_eq_0 in Hzero. lia.
Qed.

(** The accidental pass, exactly. *)
Lemma accidentals_pass_run (entries : list NoteEntry) :
  ACCIDENTAL_OFFSET_X < 0 -> 1 <= CHORD_MAX_CONSECUTIVE_ACCIDENTALS ->
  chordOffsetConsecutiveAccidentals entries
  = (- mostNegative (stackedOffsets entries),
     zipWith withStackedAccidental (stackedOffsets entries) entries).
Proof.
  intros HA Hmax.
  assert (Hinit : scanInvariant (mkScan 0 0 0) 0).
  { unfold scanInvariant, stackedOffset, runPosition. cbn. lia. }
  destruct (accidentals_loop_spec entries HA Hmax _ _ Hinit) as (Hm & Ho).
  cbn zeta in Hm, Ho. fold (stackedOffsets entries) in Hm, Ho.
  unfold chordOffsetConsecutiveAccidentals.
  destruct (accidentals_loop (mkScan 0 0 0) entries) as [s out].
  cbn [fst snd] in Hm, Ho. rewrite Hm, Ho. reflexivity.
Qed.

Lemma offsetByPass_notes (l1 l2 : list NoteEntry) :
  map note l1 = map note l2 ->
  forall i : nat, offsetByPass l1 i = offsetByPass l2 i.
Proof.
  intros Hnotes.
  assert (Hidx : forall i, option_map nameOctaveIdx (nth_error l1 i)
                           = option_map nameOctaveIdx (nth_error l2 i)).
  { intros i.
    assert (Hi : nth_error (map note l1) i = nth_error (map note l2) i)
      by (rewrite Hnotes; reflexivity).
    rewrite !nth_error_map in Hi.
    destruct (nth_error l1 i) as [a|], (nth_error l2 i) as [b|];
      cbn in *; try discriminate; [|reflexivity].
    injection Hi as Hi. unfold nameOctaveIdx. rewrite Hi. reflexivity. }
  assert (Hone : forall i, oneStepAbove l1 i = oneStepAbove l2 i).
  { intros [|j]; [reflexivity|]. unfold oneStepAbove.
    pose proof (Hidx j) as Hj. pose proof (Hidx (S j)) as Hsj.
    destruct (nth_error l1 j), (nth_error l2 j), (nth_error l1 (S j)),
      (nth_error l2 (S j)); cbn in *; try discriminate; try reflexivity.
    injection Hj as ->. injection Hsj as ->. reflexivity. }
  induction i as [|i IH]; [reflexivity|].
  cbn [offsetByPass]. rewrite Hone, IH. reflexivity.
Qed.

Lemma map_note_zipWith (offsets : list Z) :
  forall entries : list NoteEntry,
    List.length offsets = List.length entries ->
    map note (zipWith withStackedAccidental offsets entries) = map note entries.
Proof.
  induction offsets as [|o offsets IH]; intros [|e entries] Hlen; cbn in *;
    try discriminate; [reflexivity|].
  rewrite IH by lia. f_equal. unfold withStackedAccidental.
  destruct (o =? 0); reflexivity.
Qed.

Lemma offsetBefore_S (entries : list NoteEntry) (i : nat) :
  offsetBefore entries (S i)
  = offsetBefore entries i || offsetByPass entries i.
Proof.
  unfold offsetBefore. rewrite seq_S, existsb_app. cbn [existsb Nat.add].
  rewrite orb_false_r. reflexivity.
Qed.

Lemma offsetByPass_beyond (entries : list NoteEntry) (k : nat) :
  (List.length entries <= k)%nat -> offsetByPass entries k = false.
Proof.
  intros Hk. destruct k as [|j]; [reflexivity|]. cbn [offsetByPass].
  unfold oneStepAbove.
  assert (Hnone : nth_error entries (S j) = None) by (apply nth_error_None; lia).
  rewrite Hnone. destruct (nth_error entries j); reflexivity.
Qed.

Lemma offsetBefore_beyond (entries : list NoteEntry) (i : nat) :
  (List.length entries <= i)%nat ->
  offsetBefore entries i = offsetBefore entries (List.length entries).
Proof.
  intros Hle. induction Hle as [|m Hm IH]; [reflexivity|].
  rewrite offsetBefore_S, IH, (offsetByPass_beyond entries m Hm), orb_false_r.
  reflexivity.
Qed.

Lemma nameOctaveIdx_offsetCloseNote (c : Q) (n : NoteEntry) :
  nameOctaveIdx (offsetCloseNote c n) = nameOctaveIdx n.
Proof. reflexivity. Qed.

(** The offset the close-note loop returns: half a note spacing as soon as
    one member was offset. *)
Lemma closeNotes_loop_offset (notes : list NoteEntry) (fuel : nat) :
  forall (i : nat) (prev : option NoteEntry) (off : Q) (cur : list NoteEntry)
         (off' : Q) (out : list NoteEntry),
    (1 <= i)%nat ->
    List.length cur = List.length notes ->
    (forall k, option_map nameOctaveIdx (nth_error cur k)
               = option_map nameOctaveIdx (nth_error notes k)) ->
    option_map nameOctaveIdx prev
    = option_map nameOctaveIdx (nth_error notes (i - 1)) ->
    ((i <= List.length notes)%nat -> offsetByPass notes (i - 1) = false) ->
    (List.length notes + 1 <= fuel + i)%nat ->
    off = (if offsetBefore notes i then closeNotesXOffset else 0%Q) ->
    closeNotes_loop fuel i prev off cur = Return (off', out) ->
    off' = chordCursorOffset notes.
Proof.
  induction fuel as [|fuel IH];
    intros i prev off cur off' out Hi Hlen Hidx Hprev Hnot Hfuel Hoff Hrun.
  - cbn in Hrun. injection Hrun as <- _. rewrite Hoff.
    unfold chordCursorOffset. rewrite (offsetBefore_beyond notes i) by lia.
    reflexivity.
  - cbn [closeNotes_loop] in Hrun.
    destruct (nth_error cur i) as [currNote|] eqn:Hcur.
    2:{ injection Hrun as <- _. rewrite Hoff. apply nth_error_None in Hcur.
        unfold chordCursorOffset. rewrite (offsetBefore_beyond notes i) by lia.
        reflexivity. }
    assert (Hilt : (i < List.length notes)%nat).
    { rewrite <- Hlen. apply nth_error_Some. congruence. }
    destruct prev as [p|]; [|discriminate].
    pose proof (Hidx i) as Hci. rewrite Hcur in Hci.
    destruct (nth_error notes i) as [ni|] eqn:Hni; [|discriminate].
    destruct (nth_error notes (i - 1)) as [np|] eqn:Hnp; [|discriminate].
    cbn [option_map] in Hci, Hprev.
    injection Hci as Hci. injection Hprev as Hprev.
    assert (Hone : oneStepAbove notes i
                   = (nameOctaveIdx currNote - nameOctaveIdx p =? 1)).
    { destruct i as [|j]; [lia|]. unfold oneStepAbove.
      replace (S j - 1)%nat with j in Hnp by lia.
      rewrite Hnp, Hni, Hci, Hprev. reflexivity. }
    assert (Hshift : offsetByPass notes i = oneStepAbove notes i).
    { destruct i as [|j]; [lia|]. cbn [offsetByPass].
      replace (S j - 1)%nat with j in Hnot by lia.
      rewrite Hnot by lia. apply andb_true_r. }
    destruct (nameOctaveIdx currNote - nameOctaveIdx p =? 1) eqn:Hdiff.
    + apply (IH (S (S i)) _ _ _ off' out) in Hrun; [exact Hrun|lia| | | | |lia|].
      * rewrite length_replaceNth. exact Hlen.
      * intros k. destruct (Nat.eq_dec i k) as [<-|Hik].
        -- rewrite nth_error_replaceNth_eq by lia. rewrite Hni.
           cbn [option_map]. rewrite nameOctaveIdx_offsetCloseNote, Hci.
           reflexivity.
        -- rewrite nth_error_replaceNth_neq by exact Hik. apply Hidx.
      * rewrite nth_error_replaceNth_neq by lia.
        replace (S (S i) - 1)%nat with (S i) by lia. apply Hidx.
      * intros _. replace (S (S i) - 1)%nat with (S i) by lia.
        cbn [offsetByPass]. rewrite Hshift, Hone, andb_false_r. reflexivity.
      * rewrite !offsetBefore_S, Hshift, Hone, orb_true_r. reflexivity.
    + apply (IH (S i) _ _ _ off' out) in Hrun; [exact Hrun|lia|exact Hlen|exact Hidx
                                              | | |lia|].
      * replace (S i - 1)%nat with i by lia. rewrite Hni. cbn [option_map].
        rewrite Hci. reflexivity.
      * intros _. replace (S i - 1)%nat with i by lia.
        rewrite Hshift, Hone. reflexivity.
      * rewrite offsetBefore_S, Hshift, Hone, orb_false_r. exact Hoff.
Qed.

Lemma chordOffsetCloseNotes_offset (notes : list NoteEntry) (off : Q)
    (out : list NoteEntry) :
  chordOffsetCloseNotes notes = Return (off, out) ->
  off = chordCursorOffset notes.
Proof.
  intros Hrun. unfold chordOffsetCloseNotes in Hrun.
  apply (closeNotes_loop_offset notes _ 1 _ 0%Q notes off out) in Hrun;
    [exact Hrun|lia|reflexivity|reflexivity|reflexivity|reflexivity|lia|reflexivity].
Qed.

Lemma existsb_pointwise {A : Type} (f g : A -> bool) (l : list A) :
  (forall a, f a = g a) -> existsb f l = existsb g l.
Proof.
  intros Hfg. induction l as [|a l IH]; [reflexivity|].
  cbn [existsb]. rewrite Hfg, IH. reflexivity.
Qed.

Lemma chordCursorOffset_notes (l1 l2 : list NoteEntry) :
  map note l1 = map note l2 -> chordCursorOffset l1 = chordCursorOffset l2.
Proof.
  intros Hnotes. unfold chordCursorOffset, offsetBefore.
  assert (Hlen : List.length l1 = List.length l2).
  { rewrite <- (length_map note l1), Hnotes. apply length_map. }
  rewrite Hlen.
  rewrite (existsb_pointwise _ _ _ (offsetByPass_notes l1 l2 Hnotes)). reflexivity.
Qed.

(** The two passes of [renderChord], member by member.  The group of a
    member is offset to the right or left where it was; its accidental is
    put at its stacked offset, and moved back to the left by as much as the
    group was moved to the right. *)
Lemma chord_passes (entries : list NoteEntry) :
  ACCIDENTAL_OFFSET_X < 0 -> 1 <= CHORD_MAX_CONSECUTIVE_ACCIDENTALS ->
  exists out : list NoteEntry,
    chordOffsetCloseNotes (snd (chordOffsetConsecutiveAccidentals entries))
    = Return (chordCursorOffset entries, out) /\
    fst (chordOffsetConsecutiveAccidentals entries)
    = - mostNegative (stackedOffsets entries) /\
    List.length out = List.length entries /\
    forall (i : nat) (e : NoteEntry),
      nth_error entries i = Some e ->
      accidentalElement (children (gElement e))
      = match accidental (note e) with Some _ => Some None | None => None end ->
      exists e' : NoteEntry,
        nth_error out i = Some e' /\
        note e' = note e /\ yPos e' = yPos e /\
        uid (gElement e') = uid (gElement e) /\
        className (gElement e') = className (gElement e) /\
        subgroups (gElement e') = subgroups (gElement e) /\
        transform (gElement e')
        = (if offsetByPass entries i then Some (closeNotesXOffset, yPos e)
           else transform (gElement e)) /\
        accidentalElement (children (gElement e'))
        = match accidental (note e) with
          | Some _ => Some (Some (chordAccidentalX entries i))
          | None => None
          end.
Proof.
  intros HA Hmax. rewrite (accidentals_pass_run entries HA Hmax). cbn [fst snd].
  set (mid := zipWith withStackedAccidental (stackedOffsets entries) entries).
  assert (Hnotes : map note mid = map note entries).
  { apply map_note_zipWith, length_stackedOffsets. }
  assert (Hmidlen : List.length mid = List.length entries).
  { apply length_zipWith, length_stackedOffsets. }
  destruct (chordOffsetCloseNotes_returns mid) as (off & out & Hrun & _ & Hlen & Hout).
  exists out. split.
  { rewrite Hrun. rewrite (chordOffsetCloseNotes_offset mid off out Hrun).
    rewrite (chordCursorOffset_notes mid entries Hnotes). reflexivity. }
  split; [reflexivity|]. split; [lia|].
  intros i e He Hacc.
  destruct (stackedOffset_of_entry entries i e HA Hmax He)
    as (o & Ho & Hnth & Hzero & Hnonzero).
  assert (Hmid : nth_error mid i = Some (withStackedAccidental o e)).
  { unfold mid. rewrite nth_error_zipWith, Ho, He. reflexivity. }
  exists (afterCloseNotes mid i (withStackedAccidental o e)).
  split; [apply Hout, Hmid|].
  unfold afterCloseNotes, chordAccidentalX.
  rewrite (offsetByPass_notes mid entries Hnotes i), Hnth.
  unfold hasAccidental in Hzero, Hnonzero.
  destruct e as [[u cls tr cs subs] nt x y a].
  cbn [gElement note yPos children uid className subgroups transform] in *.
  destruct (accidental nt) as [acc|].
  - specialize (Hnonzero eq_refl). apply Z.eqb_neq in Hnonzero.
    unfold withStackedAccidental. rewrite Hnonzero.
    destruct (offsetByPass entries i).
    + unfold offsetCloseNote, set_gElement, setGroupAccidentalTransform, setTransform.
      cbn [gElement note yPos children uid className subgroups transform
           xPos accidentalXOffset].
      rewrite accidentalElement_setAccidentalTransform, Hacc.
      cbn [gElement note yPos children uid className subgroups transform].
      rewrite accidentalElement_setAccidentalTransform,
        accidentalElement_setAccidentalTransform, Hacc, readTranslateX_inject_Z.
      repeat split.
    + unfold set_gElement, setGroupAccidentalTransform.
      cbn [gElement note yPos children uid className subgroups transform].
      rewrite accidentalElement_setAccidentalTransform, Hacc. repeat split.
  - rewrite (Hzero eq_refl). unfold withStackedAccidental.
    change (0 =? 0) with true. cbv iota.
    destruct (offsetByPass entries i).
    + unfold offsetCloseNote, set_gElement, setTransform.
      cbn [gElement note yPos children uid className subgroups transform].
      rewrite Hacc.
      cbn [gElement note yPos children uid className subgroups transform].
      rewrite Hacc. repeat split.
    + cbn [gElement note yPos children uid className subgroups transform].
      rewrite Hacc. repeat split.
Qed.

Lemma not_both_parsed_and_malformed (notes : list string) :
  Forall (fun s => parseNoteString s <> None) notes ->
  Exists (fun s => parseNoteString s = None) notes -> False.
Proof.
  intros Hall Hex. apply Exists_exists in Hex. destruct Hex as (s & Hin & Hs).
  rewrite Forall_forall in Hall. exact (Hall s Hin Hs).
Qed.

Lemma existsb_malformed (notes : list string) :
  (existsb malformed notes = true <->
   Exists (fun s => parseNoteString s = None) notes) /\
  (existsb malformed notes = false <->
   Forall (fun s => parseNoteString s <> None) notes).
Proof.
  induction notes as [|s notes [IHt IHf]].
  - cbn [existsb]. split; split; intros Hx; try discriminate; try constructor.
    inversion Hx.
  - cbn [existsb]. unfold malformed at 1 3.
    destruct (parseNoteString s) as [n|] eqn:Hp; cbn [orb]; split; split.
    + intros Hex. right. apply IHt, Hex.
    + intros Hex. inversion Hex; subst; [congruence|]. apply IHt. assumption.
    + intros Hall. constructor; [congruence|]. apply IHf, Hall.
    + intros Hall. inversion Hall; subst. apply IHf. assumption.
    + intros _. left. exact Hp.
    + reflexivity.
    + discriminate.
    + intros Hall. inversion Hall; subst. congruence.
Qed.

(** [renderChord] lays the members of a chord out.  With a leftward
    accidental unit and runs of one accidental at least, a chord of which
    every member parses is drawn as one group of class "chord" that holds a
    group of class "note" for each member, in order.  A member stands at its
    own height, half a note spacing to the right when it is the second of
    two members one step apart (and the first was not moved), and its
    accidental stands at its stacked offset, counted from where the member
    stood before it was moved.  The call returns the width the accidentals
    take on the left, and half a note spacing as a cursor offset exactly
    when a member was moved. *)
Theorem renderChord_lays_out_the_members :
  forall (strategy : StaffStrategy) (notes : list string) (r : SVGRenderer.t),
    ACCIDENTAL_OFFSET_X < 0 -> 1 <= CHORD_MAX_CONSECUTIVE_ACCIDENTALS ->
    Forall (fun s => parseNoteString s <> None) notes ->
    let entries := chordEntriesFrom strategy (S (nextUid r)) notes in
    exists members : list SVGGElement,
      renderChord strategy notes r
      = (Return (mkRenderNoteReturn
                   (mkGroup (nextUid r) "chord" None [] members)
                   (inject_Z (- mostNegative (stackedOffsets entries)))
                   (chordCursorOffset entries)),
         takeUids (S (List.length notes)) r) /\
      List.length members = List.length notes /\
      forall (i : nat) (g : SVGGElement),
        nth_error members i = Some g ->
        exists (s : string) (n : NoteObj),
          nth_error notes i = Some s /\ parseNoteString s = Some n /\
          uid g = (S (nextUid r) + i)%nat /\
          className g = "note" /\
          subgroups g = [] /\
          transform g = Some (chordNoteX entries i, yPosOf strategy n) /\
          accidentalElement (children g)
          = match accidental n with
            | Some _ => Some (Some (chordAccidentalX entries i))
            | None => None
            end.
Proof.
  intros strategy notes r HA Hmax Hall entries.
  destruct (renderChord_outcome strategy notes r) as [(Hex & _)|(_ & Hrun)].
  { destruct (not_both_parsed_and_malformed notes Hall Hex). }
  destruct (chord_passes entries HA Hmax) as (out & Hclose & Hacc & Hlen & Hmember).
  assert (Hret : chordReturn strategy (nextUid r) notes
                 = mkRenderNoteReturn
                     (mkGroup (nextUid r) "chord" None [] (map gElement out))
                     (inject_Z (- mostNegative (stackedOffsets entries)))
                     (chordCursorOffset entries)).
  { unfold chordReturn. fold entries.
    destruct (chordOffsetConsecutiveAccidentals entries) as [acc mid].
    cbn [fst snd] in Hclose, Hacc. rewrite Hclose, Hacc. reflexivity. }
  exists (map gElement out). rewrite Hrun, Hret. split; [reflexivity|].
  assert (Hentries : List.length entries = List.length notes)
    by apply (length_chordEntriesFrom strategy notes _ Hall).
  split; [rewrite length_map; lia|].
  intros i g Hg. rewrite nth_error_map in Hg.
  destruct (nth_error out i) as [e'|] eqn:He'; [|discriminate].
  injection Hg as <-.
  assert (Hi : (i < List.length entries)%nat).
  { rewrite <- Hlen. apply nth_error_Some. congruence. }
  destruct (nth_error entries i) as [e|] eqn:He.
  2:{ apply nth_error_None in He. lia. }
  destruct (nth_chordEntriesFrom strategy notes _ i e He) as (Hparse & Hform).
  rewrite nth_error_map in Hparse.
  destruct (nth_error notes i) as [s|] eqn:Hs; [|discriminate].
  injection Hparse as Hparse.
  destruct (Hmember i e He) as (e2 & He2 & _ & _ & Huid & Hcls & Hsub & Htr & Hac).
  { rewrite Hform. cbn [gElement note]. unfold setTransform. cbn [children].
    apply accidentalElement_noteGroupOf. }
  assert (e2 = e') by congruence. subst e2.
  exists s, (note e). split; [reflexivity|]. split; [exact Hparse|].
  rewrite Huid, Hcls, Hsub, Htr, Hac. rewrite Hform.
  cbn [gElement note yPos]. unfold chordNoteX.
  destruct (offsetByPass entries i); repeat split.
Qed.

(** [drawChord] draws the whole chord or nothing.  The call returns exactly
    when the chord has two members at least and every member parses.  When
    it throws ([StateError] for a chord too short, [ParseError] otherwise),
    the tracking list, the notes layer and the cursor are as they were: no
    member of a chord with a malformed member is drawn.  When it returns,
    the group that [renderChord] made is placed at the cursor plus the
    accidental width, at height 0, appended to the layer and tracked with
    the first member as its note; the cursor moves on by [NOTE_SPACING],
    the accidental width and the cursor offset of the chord. *)
Theorem drawChord_draws_the_whole_chord_or_nothing :
  forall (notes : list string) (st : MusicStaff.t),
    ((exists st', drawChord notes st = (Return tt, st'))
     <-> ((2 <= List.length notes)%nat /\
          Forall (fun s => parseNoteString s <> None) notes)) /\
    (forall (err : Error) (st' : MusicStaff.t),
       drawChord notes st = (Throw err, st') ->
       err = (if (List.length notes <? 2)%nat then StateError else ParseError) /\
       noteEntries st' = noteEntries st /\
       notesLayer (svgRendererInstance st') = notesLayer (svgRendererInstance st) /\
       noteCursorX st' = noteCursorX st) /\
    (forall st' : MusicStaff.t,
       drawChord notes st = (Return tt, st') ->
       exists (ret : RenderNoteReturn) (r' : SVGRenderer.t) (n : NoteObj),
         renderChord (strategyInstance st) notes (svgRendererInstance st)
         = (Return ret, r') /\
         parseNoteString (hd EmptyString notes) = Some n /\
         let x := (noteCursorX st + accidentalOffset ret)%Q in
         let g := setTransform x 0 (noteGroup ret) in
         noteEntries st'
         = noteEntries st ++ [mkNoteEntry g n x 0 (accidentalOffset ret)] /\
         notesLayer (svgRendererInstance st')
         = notesLayer (svgRendererInstance st) ++ [g] /\
         noteCursorX st'
         = (noteCursorX st
            + (inject_Z NOTE_SPACING + accidentalOffset ret + cursorOffset ret))%Q).
Proof.
  intros notes st.
  destruct (drawChord_outcome notes st)
    as [(Hlen & Hrun)|[(Hlen & Hex & k & Hrun)|(Hlen & Hall & n & Hn & Hrun)]].
  - assert (E : (List.length notes <? 2)%nat = true) by (apply Nat.ltb_lt; lia).
    rewrite Hrun, E. split; [|split].
    + split; [intros (st' & Hst'); discriminate|intros (Hge & _); lia].
    + intros err st' Heq. injection Heq as <- <-. repeat split.
    + intros st' Heq. discriminate.
  - assert (E : (List.length notes <? 2)%nat = false) by (apply Nat.ltb_ge; lia).
    rewrite Hrun, E. split; [|split].
    + split; [intros (st' & Hst'); discriminate|].
      intros (_ & Hall). destruct (not_both_parsed_and_malformed notes Hall Hex).
    + intros err st' Heq. injection Heq as <- <-. repeat split.
    + intros st' Heq. discriminate.
  - rewrite Hrun. split; [|split].
    + split; [intros _; split; assumption|intros _; eexists; reflexivity].
    + intros err st' Heq. discriminate.
    + intros st' Heq. injection Heq as <-.
      destruct (renderChord_outcome (strategyInstance st) notes
                  (svgRendererInstance st)) as [(Hex & _)|(_ & Hrender)].
      { destruct (not_both_parsed_and_malformed notes Hall Hex). }
      eexists. eexists. exists n. split; [exact Hrender|]. split; [exact Hn|].
      cbn [noteEntries svgRendererInstance noteCursorX notesLayer
           SVGRenderer.set_notesLayer].
      unfold chordEntryAt. cbn [gElement]. repeat split.
Qed.

(** [changeChordByIndex] replaces an entry by a chord, in place.  On any
    staff reached from the constructor the call returns exactly when the
    index is inside the list, the chord has two members at least and every
    member parses.  When it throws, the tracking list, the notes layer and
    the cursor are as they were; the error tells the first check that
    failed.  When it returns, the group that [renderChord] made takes the
    place of the old one in the layer and in the list, at the old position
    with the old accidental width taken off and the new one added; the
    cursor does not move, whatever the width of the new chord. *)
Theorem changeChordByIndex_replaces_the_entry_in_place :
  forall (opts : MusicStaffOptions) (st0 st : MusicStaff.t) (r : SVGRenderer.t)
         (notes : list string) (chordIndex : Z),
    MusicStaff.new opts = (Return st0, r) ->
    reachable st0 st ->
    ((exists st', changeChordByIndex notes chordIndex st = (Return tt, st'))
     <-> (0 <= chordIndex < Z.of_nat (List.length (noteEntries st)) /\
          (2 <= List.length notes)%nat /\
          Forall (fun s => parseNoteString s <> None) notes)) /\
    (forall (err : Error) (st' : MusicStaff.t),
       changeChordByIndex notes chordIndex st = (Throw err, st') ->
       err = (if Z.of_nat (List.length (noteEntries st)) <=? chordIndex
              then BoundsError
              else if (List.length notes <? 2)%nat then StateError
              else if existsb malformed notes then ParseError
              else TypeError) /\
       noteEntries st' = noteEntries st /\
       notesLayer (svgRendererInstance st') = notesLayer (svgRendererInstance st) /\
       noteCursorX st' = noteCursorX st) /\
    (forall (st' : MusicStaff.t) (e : NoteEntry),
       changeChordByIndex notes chordIndex st = (Return tt, st') ->
       nth_error (noteEntries st) (Z.to_nat chordIndex) = Some e ->
       exists (ret : RenderNoteReturn) (r' : SVGRenderer.t) (n : NoteObj),
         renderChord (strategyInstance st) notes (svgRendererInstance st)
         = (Return ret, r') /\
         parseNoteString (hd EmptyString notes) = Some n /\
         let x := (xPos e - accidentalXOffset e + accidentalOffset ret)%Q in
         let g := setTransform x 0 (noteGroup ret) in
         noteEntries st'
         = replaceNth (Z.to_nat chordIndex)
             (mkNoteEntry g n x 0 (accidentalOffset ret)) (noteEntries st) /\
         notesLayer (svgRendererInstance st')
         = replaceNth (Z.to_nat chordIndex) g
             (notesLayer (svgRendererInstance st)) /\
         noteCursorX st' = noteCursorX st).
Proof.
  intros opts st0 st r notes chordIndex Hnew Hreach.
  destruct (new_tracked opts st0 r Hnew) as (Htr0 & _).
  pose proof (reachable_tracked st0 st Htr0 Hreach) as Htr.
  destruct (changeChordByIndex_refused notes chordIndex st)
    as (Hbounds & Hshort & Hbad & Hneg).
  destruct (existsb_malformed notes) as (Hmalformed & Hparsed).
  destruct (Z_le_gt_dec (Z.of_nat (List.length (noteEntries st))) chordIndex)
    as [Hge|Hlt].
  { assert (E : (Z.of_nat (List.length (noteEntries st)) <=? chordIndex) = true)
      by (apply Z.leb_le; lia).
    rewrite (Hbounds Hge), E. split; [|split].
    - split; [intros (st' & Hst'); discriminate|intros (Hin & _); lia].
    - intros err st' Heq. injection Heq as <- <-. repeat split.
    - intros st' e Heq. discriminate. }
  assert (E : (Z.of_nat (List.length (noteEntries st)) <=? chordIndex) = false)
    by (apply Z.leb_gt; lia).
  rewrite E.
  destruct (le_lt_dec 2 (List.length notes)) as [Hlen|Hlen].
  2:{ assert (E2 : (List.length notes <? 2)%nat = true) by (apply Nat.ltb_lt; lia).
      rewrite (Hshort ltac:(lia) Hlen), E2. split; [|split].
      - split; [intros (st' & Hst'); discriminate|intros (_ & Hge & _); lia].
      - intros err st' Heq. injection Heq as <- <-. repeat split.
      - intros st' e Heq. discriminate. }
  assert (E2 : (List.length notes <? 2)%nat = false) by (apply Nat.ltb_ge; lia).
  rewrite E2.
  destruct (parse_all_or_not notes) as [Hall|Hex].
  2:{ destruct (Hbad ltac:(lia) Hlen Hex) as (k & Hrun).
      rewrite Hrun, (proj2 Hmalformed Hex). split; [|split].
      - split; [intros (st' & Hst'); discriminate|].
        intros (_ & _ & Hall).
        destruct (not_both_parsed_and_malformed notes Hall Hex).
      - intros err st' Heq. injection Heq as <- <-. repeat split.
      - intros st' e Heq. discriminate. }
  rewrite (proj2 Hparsed Hall).
  destruct (Z_lt_ge_dec chordIndex 0) as [Hn|Hpos].
  { rewrite (Hneg Hn Hlen Hall). split; [|split].
    - split; [intros (st' & Hst'); discriminate|intros (Hin & _); lia].
    - intros err st' Heq. injection Heq as <- <-. repeat split.
    - intros st' e Heq. discriminate. }
  destruct (entryAt_inside (noteEntries st) chordIndex ltac:(lia)) as (e & He & _).
  destruct (changeChordByIndex_inside notes chordIndex e st Hlen Hall
              ltac:(lia) He) as (n & Hfirst & Hrun).
  rewrite (tracked_replaceFirst _ e (Z.to_nat chordIndex) st Htr He) in Hrun.
  rewrite Hrun. split; [|split].
  - split; [intros _; repeat split; [lia|lia|assumption|assumption]
           |intros _; eexists; reflexivity].
  - intros err st' Heq. discriminate.
  - intros st' e2 Heq He2. injection Heq as <-.
    assert (e2 = e) by congruence. subst e2.
    destruct (renderChord_outcome (strategyInstance st) notes
                (svgRendererInstance st)) as [(Hex & _)|(_ & Hrender)].
    { destruct (not_both_parsed_and_malformed notes Hall Hex). }
    eexists. eexists. exists n. split; [exact Hrender|]. split; [exact Hfirst|].
    cbn [noteEntries svgRendererInstance noteCursorX notesLayer
         SVGRenderer.set_notesLayer].
    unfold chordEntryAt. cbn [gElement]. repeat split.
Qed.

End PitchedLayoutFacts.

(** *** Closed examples on a treble staff *)

Section PitchedLayoutExamples.
Import SVGRenderer NoteRenderer MusicStaff PitchedLayout.
#[local] Existing Instance exampleConstants.
#[local] Existing Instance exampleHelpers.
#[local] Existing Instance exampleStrategyMethods.

Lemma new_exampleMusicStaff :
  MusicStaff.new (mkMusicStaffOptions None None None None)
  = (Return (exampleMusicStaff []),
     snd (MusicStaff.new (mkMusicStaffOptions None None None None))).
Proof. vm_compute. reflexivity. Defined.

(** A batch that stops at its second member, a chord that is too short and
    a chord that takes the place of the first note. *)
Lemma pitched_entries_witness :
  let st :=
    snd (changeChordByIndex ["C#4q"; "D4q"] 0
      (snd (drawChord ["C4q"]
        (snd (drawNote ["C4q"; "x"; "E4q"] (exampleMusicStaff [])))))) in
  map gElement (noteEntries st) = notesLayer (svgRendererInstance st) /\
  NoDup (map uid (notesLayer (svgRendererInstance st))).
Proof.
  intros st.
  apply (pitched_entries_are_the_children_of_the_notes_layer
           (mkMusicStaffOptions None None None None) (exampleMusicStaff []) st
           (snd (MusicStaff.new (mkMusicStaffOptions None None None None)))).
  - exact new_exampleMusicStaff.
  - apply reachable_changeChordByIndex, reachable_drawChord,
      reachable_drawNote, reachable_start.
Defined.

(** C#4 at the head of the staff becomes D4: the head stays where it was. *)
Lemma changeNoteByIndex_in_place_witness :
  let st := snd (drawNote ["C#4q"; "E4q"] (exampleMusicStaff [])) in
  exists (e' : NoteEntry) (st' : MusicStaff.t),
    changeNoteByIndex "D4q" 0 st = (Return tt, st') /\
    noteEntries st' = replaceNth 0 e' (noteEntries st) /\
    notesLayer (svgRendererInstance st')
    = replaceNth 0 (gElement e') (notesLayer (svgRendererInstance st)) /\
    noteCursorX st' = noteCursorX st /\
    note e' = mkNoteObj NoteD 4 Quarter None /\
    xPos e' = (inject_Z 10 - inject_Z 10 + inject_Z 0)%Q.
Proof.
  intros st.
  destruct (changeNoteByIndex_replaces_the_note_in_place
              (mkMusicStaffOptions None None None None) (exampleMusicStaff []) st
              (snd (MusicStaff.new (mkMusicStaffOptions None None None None)))
              "D4q" 0 new_exampleMusicStaff
              (reachable_drawNote _ _ _ (reachable_start _))) as [_ Hin].
  destruct (Hin (mkNoteObj NoteD 4 Quarter None)
              (mkNoteEntry
                 (mkGroup 0 "note" (Some (inject_Z 10, (100 # 2)%Q))
                    [Use NOTE_HEAD_QUARTER None;
                     Line (inject_Z 10) 0 (inject_Z 10) (- inject_Z 30);
                     Use ACCIDENTAL_SHARP None] [])
                 (mkNoteObj NoteC 4 Quarter (Some Sharp))
                 (inject_Z 10) (100 # 2)%Q (inject_Z 10)))
    as (e' & st' & Hrun & Hentries & Hlayer & Hcursor & Hnote & _ & Hacc & Hx & _).
  - reflexivity.
  - lia.
  - vm_compute. reflexivity.
  - exists e', st'. rewrite Hacc in Hx. repeat split; assumption.
Defined.

Lemma pitched_clearAllNotes_witness :
  exists k : nat,
    clearAllNotes
      (snd (drawChord ["C#4q"; "D4q"; "E#4q"]
         (snd (drawNote ["C4q"; "x"; "E4q"] (exampleMusicStaff [])))))
    = (Return tt,
       set_svgRendererInstance
         (takeUids k (svgRendererInstance (exampleMusicStaff [])))
         (exampleMusicStaff [])).
Proof.
  apply (pitched_clearAllNotes_restores_the_new_staff
           (mkMusicStaffOptions None None None None) (exampleMusicStaff []) _
           (snd (MusicStaff.new (mkMusicStaffOptions None None None None)))).
  - exact new_exampleMusicStaff.
  - apply reachable_drawChord, reachable_drawNote, reachable_start.
Defined.

Lemma drawNote_places_witness :
  exists st' : MusicStaff.t,
    drawNote ["C#4q"; "E4q"] (exampleMusicStaff ["D4q"]) = (Return tt, st') /\
    noteEntries st'
    = noteEntries (exampleMusicStaff ["D4q"])
      ++ placedNotes (strategyInstance (exampleMusicStaff ["D4q"]))
           (noteCursorX (exampleMusicStaff ["D4q"]))
           (nextUid (svgRendererInstance (exampleMusicStaff ["D4q"])))
           [mkNoteObj NoteC 4 Quarter (Some Sharp);
            mkNoteObj NoteE 4 Quarter None] /\
    notesLayer (svgRendererInstance st')
    = notesLayer (svgRendererInstance (exampleMusicStaff ["D4q"]))
      ++ map gElement
           (placedNotes (strategyInstance (exampleMusicStaff ["D4q"]))
              (noteCursorX (exampleMusicStaff ["D4q"]))
              (nextUid (svgRendererInstance (exampleMusicStaff ["D4q"])))
              [mkNoteObj NoteC 4 Quarter (Some Sharp);
               mkNoteObj NoteE 4 Quarter None]) /\
    noteCursorX st'
    = cursorAfter (noteCursorX (exampleMusicStaff ["D4q"]))
        [mkNoteObj NoteC 4 Quarter (Some Sharp);
         mkNoteObj NoteE 4 Quarter None].
Proof.
  apply (drawNote_places_each_note_at_the_cursor ["C#4q"; "E4q"]
           [mkNoteObj NoteC 4 Quarter (Some Sharp);
            mkNoteObj NoteE 4 Quarter None]
           (exampleMusicStaff ["D4q"])).
  vm_compute. reflexivity.
Defined.

(** The chord C#4, D4, E#4: D4 is one step above C#4 and is moved half a
    note spacing to the right; E#4, one step above D4, is not. *)
Lemma renderChord_witness :
  exists members : list SVGGElement,
    renderChord (SingleStaffStrategy "treble") ["C#4q"; "D4q"; "E#4q"]
      SVGRenderer.new
    = (Return (mkRenderNoteReturn (mkGroup 0 "chord" None [] members)
                 (inject_Z 10) (inject_Z 28 / 2)%Q),
       takeUids 4 SVGRenderer.new) /\
    List.length members = 3%nat.
Proof.
  destruct (renderChord_lays_out_the_members (SingleStaffStrategy "treble")
              ["C#4q"; "D4q"; "E#4q"] SVGRenderer.new)
    as (members & Hrun & Hlen & _).
  - vm_compute. reflexivity.
  - vm_compute. discriminate.
  - repeat constructor; vm_compute; discriminate.
  - exists members. split; [exact Hrun|exact Hlen].
Defined.

Lemma changeChordByIndex_in_place_witness :
  let st := snd (drawNote ["C#4q"; "E4q"] (exampleMusicStaff [])) in
  (exists st' : MusicStaff.t,
     changeChordByIndex ["C4q"; "D4q"] 1 st = (Return tt, st')) /\
  (forall (err : Error) (st' : MusicStaff.t),
     changeChordByIndex ["C4q"; "x"] 1 st = (Throw err, st') ->
     err = ParseError /\
     noteEntries st' = noteEntries st /\
     notesLayer (svgRendererInstance st') = notesLayer (svgRendererInstance st) /\
     noteCursorX st' = noteCursorX st).
Proof.
  intros st. split.
  - apply (changeChordByIndex_replaces_the_entry_in_place
             (mkMusicStaffOptions None None None None) (exampleMusicStaff []) st
             (snd (MusicStaff.new (mkMusicStaffOptions None None None None)))
             ["C4q"; "D4q"] 1 new_exampleMusicStaff
             (reachable_drawNote _ _ _ (reachable_start _))).
    split; [vm_compute; split; [discriminate|reflexivity]|].
    split; [vm_compute; lia|].
    repeat constructor; vm_compute; discriminate.
  - apply (changeChordByIndex_replaces_the_entry_in_place
             (mkMusicStaffOptions None None None None) (exampleMusicStaff []) st
             (snd (MusicStaff.new (mkMusicStaffOptions None None None None)))
             ["C4q"; "x"] 1 new_exampleMusicStaff
             (reachable_drawNote _ _ _ (reachable_start _))).
Defined.

End PitchedLayoutExamples.

(** ** The scrolling staff *)

Section ScrollingLayoutFacts.
Import SVGRenderer NoteRenderer ScrollingStaff PitchedLayout ScrollingLayout.
Context {K : Constants} {H : NoteHelpers} {SM : StrategyMethods}.

Lemma scrolling_renderNote_outcome (strategy : StaffStrategy)
    (noteString : string) (r : SVGRenderer.t) :
  exists c : Completion Renderer.RenderNoteReturn,
    Renderer.renderNote strategy noteString r = (c, takeUids 1 r) /\
    match parseNoteString noteString with
    | None => c = Throw ParseError
    | Some n =>
        exists res : Renderer.RenderNoteReturn,
          c = Return res /\ Renderer.noteObj res = n /\
          Renderer.cursorOffset res = 0%Q
    end.
Proof.
  unfold Renderer.renderNote, bind, createGroup, takeUids.
  rewrite Nat.add_1_r.
  destruct (parseNoteString noteString) as [n|].
  - destruct (noteAccidental (accidental n)) as [glyph off].
    eexists. split; [reflexivity|]. eexists. repeat split.
  - eexists. split; reflexivity.
Qed.

Lemma createGroup_exact (cls : string) (r : SVGRenderer.t) :
  createGroup cls r = (Return (mkGroup (nextUid r) cls None [] []), takeUids 1 r).
Proof. unfold createGroup, takeUids. rewrite Nat.add_1_r. reflexivity. Qed.

Lemma scrolling_renderChord_loop_outcome (strategy : StaffStrategy)
    (notes : list string) :
  forall (acc : list NoteEntry) (r : SVGRenderer.t),
  exists (k : nat) (c : Completion (list NoteEntry)),
    Renderer.renderChord_loop strategy notes acc r = (c, takeUids k r) /\
    if existsb malformed notes then c = Throw ParseError
    else exists out : list NoteEntry,
        c = Return out /\
        List.length out = (List.length acc + List.length notes)%nat.
Proof.
  induction notes as [|s notes IH]; intros acc r.
  - exists 0%nat. eexists. cbn. rewrite takeUids_0. split; [reflexivity|].
    eexists. split; [reflexivity|lia].
  - cbn [Renderer.renderChord_loop existsb]. unfold bind at 1.
    destruct (scrolling_renderNote_outcome strategy s r) as (c & Hrun & Hc).
    rewrite Hrun. unfold malformed at 1.
    destruct (parseNoteString s) as [n|].
    + destruct Hc as (res & -> & _). cbn [orb].
      match goal with
      | |- context [Renderer.renderChord_loop strategy notes ?a ?r1] =>
          destruct (IH a r1) as (k & c' & Hloop & Hc')
      end.
      rewrite Hloop, takeUids_takeUids. eexists. eexists.
      split; [reflexivity|].
      destruct (existsb malformed notes); [exact Hc'|].
      destruct Hc' as (out & -> & Hlen). exists out. split; [reflexivity|].
      rewrite Hlen, length_app. cbn [List.length]. lia.
    + subst c. eexists. eexists. split; reflexivity.
Qed.

Lemma length_accidentals_loop (notes : list NoteEntry) :
  forall s : AccidentalScan,
    List.length (snd (accidentals_loop s notes)) = List.length notes.
Proof.
  induction notes as [|n notes IH]; intros s; [reflexivity|].
  cbn [accidentals_loop]. specialize (IH (scanStep s n)).
  destruct (accidentals_loop (scanStep s n) notes) as [s' out].
  cbn [snd List.length] in *. rewrite IH. reflexivity.
Qed.

(** What [renderChord] of the renderer of the scrolling staff comes to. *)
Lemma scrolling_renderChord_outcome (strategy : StaffStrategy)
    (notes : list string) (r : SVGRenderer.t) :
  exists (k : nat) (c : Completion Renderer.RenderNoteReturn),
    Renderer.renderChord strategy notes r = (c, takeUids k r) /\
    match entryError (true, notes) with
    | Some e => c = Throw e
    | None =>
        exists res : Renderer.RenderNoteReturn,
          c = Return res /\
          (Renderer.cursorOffset res = 0%Q \/
           Renderer.cursorOffset res = closeNotesXOffset)
    end.
Proof.
  unfold Renderer.renderChord. unfold bind at 1. rewrite createGroup_exact.
  unfold bind at 1.
  destruct (scrolling_renderChord_loop_outcome strategy notes [] (takeUids 1 r))
    as (k & c & Hloop & Hc).
  rewrite Hloop, takeUids_takeUids. unfold entryError. cbn [fst snd].
  destruct (existsb malformed notes).
  - subst c. eexists. eexists. split; reflexivity.
  - destruct Hc as (out & -> & Hlen). cbn [List.length] in Hlen.
    unfold chordOffsetConsecutiveAccidentals.
    pose proof (length_accidentals_loop out (mkScan 0 0 0)) as Hmid.
    destruct (accidentals_loop (mkScan 0 0 0) out) as [sc mid].
    cbn [snd] in Hmid.
    destruct (chordOffsetCloseNotes_returns mid)
      as (off & out2 & Hclose & Hoff & Hlen2 & _).
    rewrite Hclose.
    destruct notes as [|s notes].
    + destruct out2 as [|first out2]; [|cbn in *; lia].
      eexists. eexists. split; reflexivity.
    + destruct out2 as [|first out2]; [cbn in *; lia|].
      eexists. eexists. split; [reflexivity|].
      eexists. split; [reflexivity|]. cbn [Renderer.cursorOffset]. exact Hoff.
Qed.

(** What the rendering of an entry of the buffer comes to: it throws the
    error of the entry, or returns; nodes are created on the way. *)
Lemma renderBuffered_outcome (strategy : StaffStrategy)
    (entry : bool * list string) (r : SVGRenderer.t) :
  exists (k : nat) (c : Completion Renderer.RenderNoteReturn),
    renderBuffered strategy entry r = (c, takeUids k r) /\
    match entryError entry with
    | Some e => c = Throw e
    | None =>
        exists res : Renderer.RenderNoteReturn,
          c = Return res /\
          (Renderer.cursorOffset res = 0%Q \/
           (fst entry = true /\
            Renderer.cursorOffset res = closeNotesXOffset))
    end.
Proof.
  destruct entry as [[|] notes]; unfold renderBuffered; cbn [fst snd].
  - unfold bind.
    destruct (scrolling_renderChord_outcome strategy notes r)
      as (k & c & Hrun & Hc).
    rewrite Hrun. destruct (entryError (true, notes)) as [e|].
    + subst c. eexists. eexists. split; reflexivity.
    + destruct Hc as (res & -> & Hoff). eexists. eexists.
      split; [reflexivity|]. eexists. split; [reflexivity|].
      cbn [Renderer.set_noteGroup Renderer.cursorOffset].
      destruct Hoff as [Hoff|Hoff]; [left; exact Hoff|right; split; [reflexivity|exact Hoff]].
  - unfold entryError. cbn [fst snd]. destruct notes as [|s notes].
    + exists 0%nat. eexists. rewrite takeUids_0. split; reflexivity.
    + unfold bind.
      destruct (scrolling_renderNote_outcome strategy s r) as (c & Hrun & Hc).
      rewrite Hrun. unfold malformed. destruct (parseNoteString s) as [n|].
      * destruct Hc as (res & -> & _ & Hoff). eexists. eexists.
        split; [reflexivity|]. eexists. split; [reflexivity|].
        left. exact Hoff.
      * subst c. eexists. eexists. split; reflexivity.
Qed.

(** One turn of the loop of [renderFirstNoteGroups]. *)
Lemma renderFirst_loop_step (fuel : nat) (st : ScrollingStaff.t)
    (entry : bool * list string) (rest : list (bool * list string)) :
  noteBuffer st = entry :: rest ->
  Qle_bool (maxVisibleX st) (noteCursorX st) = false ->
  renderFirstNoteGroups_loop (S fuel) st
  = match renderBuffered (strategyInstance st) entry
            (takeUids 1 (svgRendererInstance st)) with
    | (Return res, r) =>
        renderFirstNoteGroups_loop fuel
          (withEntryShown res (noteCursorX st)
             (noteCursorX st
              + (SCROLLING_NOTE_SPACING + Renderer.cursorOffset res))%Q r st)
    | (Throw e, r) => (Throw e, set_svgRendererInstance r st)
    end.
Proof.
  intros Hbuf Hcmp. cbn [renderFirstNoteGroups_loop].
  unfold bind at 1. unfold get at 1. rewrite Hbuf, Hcmp. cbn [negb].
  unfold bind at 1. unfold onRenderer at 1. rewrite createGroup_exact.
  unfold bind at 1. unfold onRenderer at 1.
  cbn [svgRendererInstance set_svgRendererInstance strategyInstance].
  destruct (renderBuffered (strategyInstance st) entry
              (takeUids 1 (svgRendererInstance st))) as [[res|e] r].
  - destruct st as [r0 s o es b c]. cbn [noteBuffer] in Hbuf. subst b.
    unfold bind, modify, onRenderer, appendChild, withEntryShown, wrapperOf,
      set_noteCursorX, set_activeEntries, set_noteBuffer, set_svgRendererInstance.
    cbn [svgRendererInstance strategyInstance options activeEntries noteBuffer
         noteCursorX tl].
    reflexivity.
  - destruct st as [r0 s o es b c]. reflexivity.
Qed.

Lemma renderFirst_loop_stop (fuel : nat) (st : ScrollingStaff.t) :
  fuel = O \/ noteBuffer st = [] \/
  Qle_bool (maxVisibleX st) (noteCursorX st) = true ->
  renderFirstNoteGroups_loop fuel st = (Return tt, st).
Proof.
  intros Hstop. destruct fuel as [|fuel]; [reflexivity|].
  cbn [renderFirstNoteGroups_loop]. unfold bind, get.
  destruct (noteBuffer st) as [|entry rest] eqn:Hbuf; [reflexivity|].
  destruct Hstop as [Hf|[Hb|Hc]]; [discriminate|discriminate|].
  rewrite Hc. reflexivity.
Qed.

(** [renderNextNote], exactly. *)
Lemma renderNextNote_exact (st : ScrollingStaff.t) :
  renderNextNote st
  = match noteBuffer st with
    | [] => (Return tt, st)
    | entry :: _ =>
        match renderBuffered (strategyInstance st) entry
                (takeUids 1 (svgRendererInstance st)) with
        | (Return res, r) =>
            (Return tt,
             withEntryShown res (noteCursorX st + SPAWN_X_OFFSET)%Q
               (noteCursorX st) r st)
        | (Throw e, r) => (Throw e, set_svgRendererInstance r st)
        end
    end.
Proof.
  unfold renderNextNote. unfold bind at 1. unfold get at 1.
  destruct (noteBuffer st) as [|entry rest] eqn:Hbuf; [reflexivity|].
  unfold bind at 1. unfold onRenderer at 1. rewrite createGroup_exact.
  unfold bind at 1. unfold onRenderer at 1.
  cbn [svgRendererInstance set_svgRendererInstance strategyInstance].
  destruct (renderBuffered (strategyInstance st) entry
              (takeUids 1 (svgRendererInstance st))) as [[res|e] r].
  - destruct st as [r0 s o es b c]. cbn [noteBuffer] in Hbuf. subst b.
    unfold bind, modify, onRenderer, appendChild, withEntryShown, wrapperOf,
      set_noteCursorX, set_activeEntries, set_noteBuffer, set_svgRendererInstance.
    cbn [svgRendererInstance strategyInstance options activeEntries noteBuffer
         noteCursorX tl].
    reflexivity.
  - destruct st as [r0 s o es b c]. reflexivity.
Qed.

Lemma queueNotes_loop_run (notes : list (string + list string)) :
  forall st : ScrollingStaff.t,
    queueNotes_loop notes st
    = (Return tt, set_noteBuffer (noteBuffer st ++ map buffered notes) st).
Proof.
  induction notes as [|entry notes IH]; intros st.
  - cbn. rewrite app_nil_r. destruct st. reflexivity.
  - cbn [queueNotes_loop map]. unfold bind, modify. rewrite IH.
    destruct st as [r s o es b c]. unfold set_noteBuffer.
    cbn [svgRendererInstance strategyInstance options activeEntries noteBuffer
         noteCursorX].
    rewrite <- app_assoc. reflexivity.
Qed.

(** [queueNotes], exactly. *)
Lemma queueNotes_exact (notes : list (string + list string))
    (st : ScrollingStaff.t) :
  queueNotes notes st
  = match renderFirstNoteGroups_loop
            (List.length (noteBuffer st ++ map buffered notes))
            (set_noteBuffer (noteBuffer st ++ map buffered notes) st) with
    | (Return _, st') =>
        (Return tt,
         if (1 <? List.length (activeEntries st'))%nat
         then set_noteCursorX (noteCursorX st' - SCROLLING_NOTE_SPACING * 2)%Q st'
         else st')
    | (Throw e, st') => (Throw e, st')
    end.
Proof.
  unfold queueNotes. unfold bind at 1. rewrite queueNotes_loop_run.
  unfold renderFirstNoteGroups. unfold bind at 1. unfold get at 1.
  unfold bind at 1. cbn [noteBuffer set_noteBuffer].
  destruct (renderFirstNoteGroups_loop _ _) as [[[]|e] st']; [|reflexivity].
  unfold bind, get. destruct (1 <? List.length (activeEntries st'))%nat;
    reflexivity.
Qed.

Lemma restyleChild_others (x : Q) (w : SVGGElement) (layer : list SVGGElement) :
  ~ In (uid w) (map uid layer) -> restyleChild x w layer = layer.
Proof.
  intros Hnot. unfold restyleChild. induction layer as [|g layer IH];
    [reflexivity|].
  cbn [map] in *. destruct (Nat.eqb (uid g) (uid w)) eqn:E.
  - apply Nat.eqb_eq in E. exfalso. apply Hnot. left. exact E.
  - rewrite IH; [reflexivity|]. intros Hin. apply Hnot. right. exact Hin.
Qed.

(** The [forEach] of [advanceNotes] on wrappers that are distinct nodes and
    are the children of the layer: each moves, in the list and in the
    layer. *)
Lemma advanceEntries_loop_run (entries : list (SVGGElement * Q)) :
  forall pre : list SVGGElement,
    NoDup (map uid pre ++ map uid (map fst entries)) ->
    advanceEntries_loop entries (pre ++ map fst entries)
    = (map advanceEntry entries, pre ++ map fst (map advanceEntry entries)).
Proof.
  induction entries as [|e entries IH]; intros pre Hnd; [reflexivity|].
  cbn [advanceEntries_loop map] in *.
  assert (Hstep : restyleChild (snd e - SCROLLING_NOTE_SPACING)%Q (fst e)
                    (pre ++ fst e :: map fst entries)
                  = (pre ++ [fst (advanceEntry e)]) ++ map fst entries).
  { pose proof (NoDup_remove_2 _ _ _ Hnd) as Hnot.
    unfold restyleChild. rewrite map_app. cbn [map].
    rewrite Nat.eqb_refl.
    fold (restyleChild (snd e - SCROLLING_NOTE_SPACING)%Q (fst e) pre).
    fold (restyleChild (snd e - SCROLLING_NOTE_SPACING)%Q (fst e)
            (map fst entries)).
    rewrite !restyleChild_others.
    - rewrite <- app_assoc. reflexivity.
    - intros Hin. apply Hnot. apply in_or_app. right. exact Hin.
    - intros Hin. apply Hnot. apply in_or_app. left. exact Hin. }
  rewrite Hstep. rewrite IH.
  - rewrite <- app_assoc. reflexivity.
  - rewrite map_app, <- app_assoc. exact Hnd.
Qed.

(** The staff after the scroll of [advanceNotes]. *)
Lemma advanceNotes_exact (st : ScrollingStaff.t) :
  shown st ->
  advanceNotes st
  = match activeEntries st with
    | [] => (Return tt, st)
    | _ :: _ =>
        renderNextNote
          (ScrollingStaff.mk
             (SVGRenderer.set_notesLayer
                (map fst (advanced (activeEntries st))) (svgRendererInstance st))
             (strategyInstance st) (options st)
             (advanced (activeEntries st)) (noteBuffer st) (noteCursorX st))
    end.
Proof.
  intros (Hlayer & _ & Hnd & _).
  unfold advanceNotes. unfold bind at 1. unfold get at 1.
  destruct (activeEntries st) as [|e es] eqn:Hes; [reflexivity|].
  rewrite Hlayer.
  pose proof (advanceEntries_loop_run (e :: es) [] Hnd) as Hrun.
  cbn [app] in Hrun. rewrite Hrun. unfold advanced. cbn [map].
  destruct st as [r s o A b c]. cbn [activeEntries] in Hes. subst A.
  cbn [svgRendererInstance strategyInstance options noteBuffer noteCursorX
       notesLayer] in *.
  unfold bind at 1. unfold modify at 1. unfold bind at 1.
  unfold onRenderer at 1, modify at 1.
  cbn [svgRendererInstance set_activeEntries strategyInstance options
       noteBuffer noteCursorX activeEntries].
  destruct (Qle_bool (snd (advanceEntry e)) 0) eqn:Hcmp.
  - unfold bind at 1. unfold bind at 1. unfold onRenderer at 1, removeChild.
    cbn [svgRendererInstance set_svgRendererInstance notesLayer set_notesLayer
         removeFirst].
    rewrite Nat.eqb_refl.
    unfold modify, set_activeEntries, set_svgRendererInstance, set_notesLayer.
    cbn [svgRendererInstance strategyInstance options noteBuffer noteCursorX
         activeEntries nextUid notesLayer notesLayerClassList staffLayer
         totalRootSvgYOffset totalRootSvgHeight rootCommitted].
    reflexivity.
  - unfold bind at 1. unfold ret at 1.
    unfold set_svgRendererInstance, set_notesLayer.
    cbn [svgRendererInstance strategyInstance options noteBuffer noteCursorX
         activeEntries nextUid notesLayer notesLayerClassList staffLayer
         totalRootSvgYOffset totalRootSvgHeight rootCommitted].
    reflexivity.
Qed.

(** *** The document shows the active entries *)

Lemma shown_later_renderer (k : nat) (st : ScrollingStaff.t) :
  shown st ->
  shown (set_svgRendererInstance (takeUids k (svgRendererInstance st)) st).
Proof.
  intros (Hlayer & Hat & Hown). destruct st as [r s o A b c].
  unfold shown in *.
  cbn [svgRendererInstance set_svgRendererInstance activeEntries takeUids
       notesLayer] in *.
  repeat split; try assumption; try apply Hown.
  destruct Hown as [_ Hlt]. eapply Forall_impl; [|exact Hlt].
  cbn. intros g Hg. lia.
Qed.

Lemma shown_withEntryShown (res : Renderer.RenderNoteReturn) (x cursor : Q)
    (k : nat) (st : ScrollingStaff.t) :
  shown st ->
  shown (withEntryShown res x cursor
           (takeUids k (takeUids 1 (svgRendererInstance st))) st).
Proof.
  intros (Hlayer & Hat & Hown). destruct st as [r s o A b c].
  unfold shown, withEntryShown in *.
  cbn [svgRendererInstance activeEntries takeUids notesLayer set_notesLayer] in *.
  rewrite map_app. cbn [map fst]. split; [rewrite Hlayer; reflexivity|].
  split.
  - apply Forall_app. split; [exact Hat|].
    constructor; [|constructor]. split; reflexivity.
  - apply (ownNodes_snoc _ _ r); [exact Hown|reflexivity|cbn; lia].
Qed.

Lemma uids_advanced (entries : list (SVGGElement * Q)) :
  map uid (map fst (map advanceEntry entries)) = map uid (map fst entries).
Proof.
  induction entries as [|e entries IH]; [reflexivity|].
  cbn [map]. rewrite IH. reflexivity.
Qed.

Lemma wrapperAt_advanceEntry (e : SVGGElement * Q) :
  wrapperAt e -> wrapperAt (advanceEntry e).
Proof. intros [Hcls _]. split; [exact Hcls|reflexivity]. Qed.

Lemma shown_advanced (st : ScrollingStaff.t) :
  shown st ->
  shown (ScrollingStaff.mk
           (SVGRenderer.set_notesLayer
              (map fst (advanced (activeEntries st))) (svgRendererInstance st))
           (strategyInstance st) (options st)
           (advanced (activeEntries st)) (noteBuffer st) (noteCursorX st)).
Proof.
  intros (Hlayer & Hat & Hnd & Hlt). destruct st as [r s o A b c].
  unfold shown, ownNodes.
  cbn [svgRendererInstance activeEntries notesLayer set_notesLayer nextUid] in *.
  split; [reflexivity|].
  assert (Hall : Forall wrapperAt (map advanceEntry A) /\
                 NoDup (map uid (map fst (map advanceEntry A))) /\
                 Forall (fun g => (uid g < nextUid r)%nat)
                        (map fst (map advanceEntry A))).
  { split; [|split].
    - rewrite Forall_map. eapply Forall_impl; [|exact Hat].
      intros e He. apply wrapperAt_advanceEntry, He.
    - rewrite uids_advanced. exact Hnd.
    - rewrite Forall_forall in *. intros g Hg.
      apply in_map_iff in Hg. destruct Hg as (e' & <- & He').
      apply in_map_iff in He'. destruct He' as (e & <- & He).
      apply (Hlt (fst e)). apply in_map. exact He. }
  unfold advanced. destruct (map advanceEntry A) as [|first rest]; [exact Hall|].
  destruct (Qle_bool (snd first) 0); [|exact Hall].
  destruct Hall as (H1 & H2 & H3). cbn [map] in *.
  inversion H1; inversion H2; inversion H3; subst. repeat split; assumption.
Qed.

Lemma renderFirst_loop_shown (fuel : nat) :
  forall st : ScrollingStaff.t,
    shown st -> shown (snd (renderFirstNoteGroups_loop fuel st)).
Proof.
  induction fuel as [|fuel IH]; intros st Hst; [exact Hst|].
  destruct (noteBuffer st) as [|entry rest] eqn:Hbuf.
  { rewrite renderFirst_loop_stop; [exact Hst|]. right. left. exact Hbuf. }
  destruct (Qle_bool (maxVisibleX st) (noteCursorX st)) eqn:Hcmp.
  { rewrite renderFirst_loop_stop; [exact Hst|]. right. right. exact Hcmp. }
  rewrite (renderFirst_loop_step fuel st entry rest Hbuf Hcmp).
  destruct (renderBuffered_outcome (strategyInstance st) entry
              (takeUids 1 (svgRendererInstance st))) as (k & c & Hrun & _).
  rewrite Hrun. destruct c as [res|e].
  - apply IH, shown_withEntryShown, Hst.
  - cbn [snd]. rewrite takeUids_takeUids. apply shown_later_renderer, Hst.
Qed.

Lemma shown_set_noteBuffer (b : list (bool * list string))
    (st : ScrollingStaff.t) :
  shown st -> shown (set_noteBuffer b st).
Proof. intros Hst. destruct st. exact Hst. Qed.

Lemma shown_set_noteCursorX (x : Q) (st : ScrollingStaff.t) :
  shown st -> shown (set_noteCursorX x st).
Proof. intros Hst. destruct st. exact Hst. Qed.

Lemma queueNotes_shown (notes : list (string + list string))
    (st : ScrollingStaff.t) :
  shown st -> shown (snd (queueNotes notes st)).
Proof.
  intros Hst. rewrite queueNotes_exact.
  pose proof (renderFirst_loop_shown
                (List.length (noteBuffer st ++ map buffered notes))
                (set_noteBuffer (noteBuffer st ++ map buffered notes) st)
                (shown_set_noteBuffer _ st Hst)) as Hloop.
  destruct (renderFirstNoteGroups_loop _ _) as [[[]|e] st']; cbn [snd] in *;
    [|exact Hloop].
  destruct (1 <? List.length (activeEntries st'))%nat;
    [apply shown_set_noteCursorX, Hloop|exact Hloop].
Qed.

Lemma renderNextNote_shown (st : ScrollingStaff.t) :
  shown st -> shown (snd (renderNextNote st)).
Proof.
  intros Hst. rewrite renderNextNote_exact.
  destruct (noteBuffer st) as [|entry rest]; [exact Hst|].
  destruct (renderBuffered_outcome (strategyInstance st) entry
              (takeUids 1 (svgRendererInstance st))) as (k & c & Hrun & _).
  rewrite Hrun. destruct c as [res|e]; cbn [snd].
  - apply shown_withEntryShown, Hst.
  - rewrite takeUids_takeUids. apply shown_later_renderer, Hst.
Qed.

Lemma advanceNotes_shown (st : ScrollingStaff.t) :
  shown st -> shown (snd (advanceNotes st)).
Proof.
  intros Hst. rewrite (advanceNotes_exact st Hst).
  destruct (activeEntries st) as [|e es] eqn:Hes; [exact Hst|].
  apply renderNextNote_shown. rewrite <- Hes. apply shown_advanced, Hst.
Qed.

Lemma scrolling_clearAllNotes_run (st : ScrollingStaff.t) :
  clearAllNotes st
  = (Return tt,
     ScrollingStaff.mk (SVGRenderer.set_notesLayer [] (svgRendererInstance st))
       (strategyInstance st) (options st) [] [] 0%Q).
Proof. destruct st as [r s o A b c]. reflexivity. Qed.

Lemma clearAllNotes_shown (st : ScrollingStaff.t) :
  shown (snd (clearAllNotes st)).
Proof.
  rewrite scrolling_clearAllNotes_run. cbn [snd]. unfold shown, ownNodes.
  cbn. repeat split; constructor.
Qed.

Lemma reachable_shown (st0 st : ScrollingStaff.t) :
  shown st0 -> reachable st0 st -> shown st.
Proof.
  intros H0 Hreach. induction Hreach as [|st notes _ IH|st _ IH|st _ IH].
  - exact H0.
  - apply queueNotes_shown, IH.
  - apply advanceNotes_shown, IH.
  - apply clearAllNotes_shown.
Qed.

Lemma scrolling_new_fields (opts : MusicStaffOptions) (st0 : ScrollingStaff.t)
    (r : SVGRenderer.t) :
  ScrollingStaff.new opts = (Return st0, r) ->
  activeEntries st0 = [] /\ noteBuffer st0 = [] /\ noteCursorX st0 = 0%Q /\
  svgRendererInstance st0 = r /\ notesLayer r = [].
Proof.
  unfold ScrollingStaff.new, ScrollingStaff.construct. intros Hnew.
  destruct (selectStrategy (staffType (withDefaults opts))) as [strategy|];
    [|discriminate].
  unfold bind, drawStaff, addTotalRootSvgYOffset, addTotalRootSvgHeight,
    addNotesLayerClass, commitRoot, modify, ret in Hnew.
  destruct (truthy (spaceAbove (withDefaults opts)));
    destruct (truthy (spaceBelow (withDefaults opts)));
    injection Hnew as <- <-; repeat split.
Qed.

Lemma new_shown (opts : MusicStaffOptions) (st0 : ScrollingStaff.t)
    (r : SVGRenderer.t) :
  ScrollingStaff.new opts = (Return st0, r) -> shown st0.
Proof.
  intros Hnew.
  destruct (scrolling_new_fields opts st0 r Hnew) as (HA & _ & _ & Hr & Hl).
  unfold shown, ownNodes. rewrite HA, Hr, Hl. cbn. repeat split; constructor.
Qed.

(** *** The entries are drawn in the order of the buffer *)



(** *** The staff stays the staff *)

Lemma scrolling_later_refl (st : ScrollingStaff.t) : later st st.
Proof. repeat split. exists 0%nat. rewrite takeUids_0. reflexivity. Qed.

Lemma later_same_renderer (st st' : ScrollingStaff.t) :
  svgRendererInstance st' = svgRendererInstance st ->
  strategyInstance st' = strategyInstance st ->
  options st' = options st ->
  later st st'.
Proof.
  intros Hr Hs Ho. split; [exact Hs|]. split; [exact Ho|].
  exists 0%nat. rewrite takeUids_0, Hr. reflexivity.
Qed.

Lemma scrolling_later_trans (st1 st2 st3 : ScrollingStaff.t) :
  later st1 st2 -> later st2 st3 -> later st1 st3.
Proof.
  intros (Hs & Ho & j & Hj) (Hs' & Ho' & k & Hk).
  split; [congruence|]. split; [congruence|].
  exists (j + k)%nat. rewrite Hk, Hj. apply takeUids_takeUids.
Qed.

Lemma scrolling_later_renderer (st : ScrollingStaff.t) (k : nat)
    (layer : list SVGGElement) (entries : list (SVGGElement * Q))
    (buffer : list (bool * list string)) (cursor : Q) :
  later st
    (ScrollingStaff.mk
       (SVGRenderer.set_notesLayer layer (takeUids k (svgRendererInstance st)))
       (strategyInstance st) (options st) entries buffer cursor).
Proof.
  repeat split. exists k. destruct st as [[u l cl sl y h rc] s o es b c].
  reflexivity.
Qed.

Lemma later_withEntryShown (res : Renderer.RenderNoteReturn) (x cursor : Q)
    (k : nat) (st : ScrollingStaff.t) :
  later st (withEntryShown res x cursor
              (takeUids k (takeUids 1 (svgRendererInstance st))) st).
Proof.
  repeat split. exists (1 + k)%nat. rewrite <- takeUids_takeUids.
  destruct st as [[u l cl sl y h rc] s o es b c]. reflexivity.
Qed.

Lemma later_set_svgRendererInstance (k : nat) (st : ScrollingStaff.t) :
  later st (set_svgRendererInstance (takeUids k (svgRendererInstance st)) st).
Proof.
  repeat split. exists k. destruct st as [[u l cl sl y h rc] s o es b c].
  reflexivity.
Qed.

Lemma renderFirst_loop_later (fuel : nat) :
  forall st : ScrollingStaff.t,
    later st (snd (renderFirstNoteGroups_loop fuel st)).
Proof.
  induction fuel as [|fuel IH]; intros st; [apply scrolling_later_refl|].
  destruct (noteBuffer st) as [|entry rest] eqn:Hbuf.
  { rewrite renderFirst_loop_stop by (right; left; exact Hbuf).
    apply scrolling_later_refl. }
  destruct (Qle_bool (maxVisibleX st) (noteCursorX st)) eqn:Hcmp.
  { rewrite renderFirst_loop_stop by (right; right; exact Hcmp).
    apply scrolling_later_refl. }
  rewrite (renderFirst_loop_step fuel st entry rest Hbuf Hcmp).
  destruct (renderBuffered_outcome (strategyInstance st) entry
              (takeUids 1 (svgRendererInstance st))) as (k & c & Hrun & _).
  rewrite Hrun. destruct c as [res|e].
  - eapply scrolling_later_trans; [apply later_withEntryShown|apply IH].
  - cbn [snd]. rewrite takeUids_takeUids. apply later_set_svgRendererInstance.
Qed.

Lemma queueNotes_later (notes : list (string + list string))
    (st : ScrollingStaff.t) :
  later st (snd (queueNotes notes st)).
Proof.
  rewrite queueNotes_exact.
  pose proof (renderFirst_loop_later
                (List.length (noteBuffer st ++ map buffered notes))
                (set_noteBuffer (noteBuffer st ++ map buffered notes) st))
    as Hloop.
  assert (Hstart : later st
                     (set_noteBuffer (noteBuffer st ++ map buffered notes) st)).
  { apply later_same_renderer; destruct st; reflexivity. }
  destruct (renderFirstNoteGroups_loop _ _) as [[[]|e] st']; cbn [snd] in *.
  - destruct (1 <? List.length (activeEntries st'))%nat.
    + eapply scrolling_later_trans; [exact Hstart|].
      eapply scrolling_later_trans; [exact Hloop|].
      apply later_same_renderer; destruct st'; reflexivity.
    + eapply scrolling_later_trans; [exact Hstart|exact Hloop].
  - eapply scrolling_later_trans; [exact Hstart|exact Hloop].
Qed.

Lemma renderNextNote_later (st : ScrollingStaff.t) :
  later st (snd (renderNextNote st)).
Proof.
  rewrite renderNextNote_exact.
  destruct (noteBuffer st) as [|entry rest]; [apply scrolling_later_refl|].
  destruct (renderBuffered_outcome (strategyInstance st) entry
              (takeUids 1 (svgRendererInstance st))) as (k & c & Hrun & _).
  rewrite Hrun. destruct c as [res|e]; cbn [snd].
  - apply later_withEntryShown.
  - rewrite takeUids_takeUids. apply later_set_svgRendererInstance.
Qed.

Lemma advanceNotes_later (st : ScrollingStaff.t) :
  shown st -> later st (snd (advanceNotes st)).
Proof.
  intros Hst. rewrite (advanceNotes_exact st Hst).
  destruct (activeEntries st) as [|e es] eqn:Hes; [apply scrolling_later_refl|].
  eapply scrolling_later_trans; [|apply renderNextNote_later].
  repeat split. exists 0%nat. rewrite takeUids_0.
  destruct st as [[u l cl sl y h rc] s o A b c]. reflexivity.
Qed.

Lemma clearAllNotes_later (st : ScrollingStaff.t) :
  later st (snd (clearAllNotes st)).
Proof.
  rewrite scrolling_clearAllNotes_run. cbn [snd]. repeat split.
  exists 0%nat. rewrite takeUids_0.
  destruct st as [[u l cl sl y h rc] s o A b c]. reflexivity.
Qed.

Lemma scrolling_reachable_later (st0 st : ScrollingStaff.t) :
  shown st0 -> reachable st0 st -> later st0 st.
Proof.
  intros H0 Hreach. induction Hreach as [|st notes Hr IH|st Hr IH|st Hr IH].
  - apply scrolling_later_refl.
  - eapply scrolling_later_trans; [exact IH|apply queueNotes_later].
  - eapply scrolling_later_trans; [exact IH|].
    apply advanceNotes_later. apply (reachable_shown st0 st H0 Hr).
  - eapply scrolling_later_trans; [exact IH|apply clearAllNotes_later].
Qed.

(** [advanceNotes] on a staff of which the document shows the active
    entries. *)
Lemma advanceNotes_outcome (st : ScrollingStaff.t) :
  shown st ->
  match activeEntries st with
  | [] => advanceNotes st = (Return tt, st)
  | _ :: _ =>
      noteCursorX (snd (advanceNotes st)) = noteCursorX st /\
      match noteBuffer st with
      | [] =>
          fst (advanceNotes st) = Return tt /\
          activeEntries (snd (advanceNotes st)) = advanced (activeEntries st) /\
          noteBuffer (snd (advanceNotes st)) = []
      | entry :: rest =>
          match entryError entry with
          | Some e =>
              fst (advanceNotes st) = Throw e /\
              activeEntries (snd (advanceNotes st))
              = advanced (activeEntries st) /\
              noteBuffer (snd (advanceNotes st)) = entry :: rest
          | None =>
              fst (advanceNotes st) = Return tt /\
              noteBuffer (snd (advanceNotes st)) = rest /\
              exists w : SVGGElement,
                activeEntries (snd (advanceNotes st))
                = advanced (activeEntries st)
                  ++ [(w, (noteCursorX st + SPAWN_X_OFFSET)%Q)]
          end
      end
  end.
Proof.
  intros Hst. rewrite (advanceNotes_exact st Hst).
  destruct (activeEntries st) as [|e0 es] eqn:Hes; [reflexivity|].
  rewrite renderNextNote_exact. cbn [noteBuffer strategyInstance noteCursorX
                                     svgRendererInstance].
  destruct (noteBuffer st) as [|entry rest] eqn:Hbuf.
  { cbn. repeat split. }
  destruct (renderBuffered_outcome (strategyInstance st) entry
              (takeUids 1
                 (SVGRenderer.set_notesLayer (map fst (advanced (e0 :: es)))
                    (svgRendererInstance st)))) as (k & c & Hrun & Hc).
  rewrite Hrun. destruct (entryError entry) as [e|].
  - subst c. cbn. repeat split.
  - destruct Hc as (res & -> & _). cbn. repeat split.
    eexists. reflexivity.
Qed.

(** The document shows the active entries of a scrolling staff.  Whatever
    was queued, scrolled or cleared, and whatever calls failed, the children
    of the notes layer are the wrappers of the active entries, in order;
    each wrapper is translated to the position its entry records; no node
    is shown twice. *)
Theorem scrolling_layer_shows_the_active_entries :
  forall (opts : MusicStaffOptions) (st0 st : ScrollingStaff.t)
         (r : SVGRenderer.t),
    ScrollingStaff.new opts = (Return st0, r) ->
    reachable st0 st ->
    notesLayer (svgRendererInstance st) = map fst (activeEntries st) /\
    Forall wrapperAt (activeEntries st) /\
    NoDup (map uid (map fst (activeEntries st))).
Proof.
  intros opts st0 st r Hnew Hreach.
  destruct (reachable_shown st0 st (new_shown opts st0 r Hnew) Hreach)
    as (Hlayer & Hat & Hnd & _).
  repeat split; assumption.
Qed.


(** [advanceNotes] scrolls the staff and spawns the next entry.  Without
    active entries the call does nothing, whatever waits in the buffer.
    Otherwise every active entry moves left by the note spacing, the first
    one is removed when it has reached the left edge (one entry at most is
    removed by a call), and the head of the buffer, when there is one, is
    drawn one spawn offset after the cursor and leaves the buffer.  When
    that entry cannot be drawn its error is thrown after the scroll, and
    the entry stays in the buffer.  The cursor never moves. *)
Theorem advanceNotes_scrolls_and_spawns :
  forall (opts : MusicStaffOptions) (st0 st : ScrollingStaff.t)
         (r : SVGRenderer.t),
    ScrollingStaff.new opts = (Return st0, r) ->
    reachable st0 st ->
    match activeEntries st with
    | [] => advanceNotes st = (Return tt, st)
    | _ :: _ =>
        noteCursorX (snd (advanceNotes st)) = noteCursorX st /\
        match noteBuffer st with
        | [] =>
            fst (advanceNotes st) = Return tt /\
            activeEntries (snd (advanceNotes st)) = advanced (activeEntries st) /\
            noteBuffer (snd (advanceNotes st)) = []
        | entry :: rest =>
            match entryError entry with
            | Some e =>
                fst (advanceNotes st) = Throw e /\
                activeEntries (snd (advanceNotes st))
                = advanced (activeEntries st) /\
                noteBuffer (snd (advanceNotes st)) = entry :: rest
            | None =>
                fst (advanceNotes st) = Return tt /\
                noteBuffer (snd (advanceNotes st)) = rest /\
                exists w : SVGGElement,
                  activeEntries (snd (advanceNotes st))
                  = advanced (activeEntries st)
                    ++ [(w, (noteCursorX st + SPAWN_X_OFFSET)%Q)]
            end
        end
    end.
Proof.
  intros opts st0 st r Hnew Hreach.
  apply advanceNotes_outcome.
  apply (reachable_shown st0 st (new_shown opts st0 r Hnew) Hreach).
Qed.

(** An entry that cannot be drawn blocks the staff.  When the entry at the
    head of the buffer cannot be drawn, every [queueNotes] that finds the
    cursor inside the visible width throws its error without drawing
    anything, and every [advanceNotes] on a staff with active entries
    throws it after the scroll; the entry is still at the head of the
    buffer after either call, so the next call meets it again.  Only
    [clearAllNotes] takes it off. *)
Theorem an_entry_that_cannot_be_drawn_blocks_the_staff :
  forall (opts : MusicStaffOptions) (st0 st : ScrollingStaff.t)
         (r : SVGRenderer.t) (entry : bool * list string) (e : Error),
    ScrollingStaff.new opts = (Return st0, r) ->
    reachable st0 st ->
    hd_error (noteBuffer st) = Some entry ->
    entryError entry = Some e ->
    (forall notes : list (string + list string),
       Qle_bool (maxVisibleX st) (noteCursorX st) = false ->
       fst (queueNotes notes st) = Throw e /\
       hd_error (noteBuffer (snd (queueNotes notes st))) = Some entry /\
       noteBuffer (snd (queueNotes notes st))
       = noteBuffer st ++ map buffered notes /\
       activeEntries (snd (queueNotes notes st)) = activeEntries st /\
       noteCursorX (snd (queueNotes notes st)) = noteCursorX st) /\
    (activeEntries st <> [] ->
     fst (advanceNotes st) = Throw e /\
     hd_error (noteBuffer (snd (advanceNotes st))) = Some entry /\
     activeEntries (snd (advanceNotes st)) = advanced (activeEntries st)) /\
    noteBuffer (snd (clearAllNotes st)) = [].
Proof.
  intros opts st0 st r entry e Hnew Hreach Hhd Herr.
  pose proof (reachable_shown st0 st (new_shown opts st0 r Hnew) Hreach) as Hst.
  destruct (noteBuffer st) as [|entry' rest] eqn:Hbuf; [discriminate|].
  injection Hhd as ->.
  split; [|split].
  - intros notes Hcmp. rewrite queueNotes_exact. rewrite Hbuf.
    set (st1 := set_noteBuffer ((entry :: rest) ++ map buffered notes) st).
    assert (Hb1 : noteBuffer st1 = entry :: (rest ++ map buffered notes))
      by (destruct st; reflexivity).
    assert (Hcmp1 : Qle_bool (maxVisibleX st1) (noteCursorX st1) = false)
      by (destruct st; exact Hcmp).
    cbn [app List.length].
    rewrite (renderFirst_loop_step _ st1 entry _ Hb1 Hcmp1).
    destruct (renderBuffered_outcome (strategyInstance st1) entry
                (takeUids 1 (svgRendererInstance st1))) as (k & c & Hrun & Hc).
    rewrite Hrun, Herr in *. subst c. cbn [fst snd].
    destruct st as [r0 s o A b cur]. cbn in Hbuf. subst b. repeat split.
  - intros Hactive. pose proof (advanceNotes_outcome st Hst) as Hout.
    destruct (activeEntries st) as [|e0 es]; [congruence|].
    rewrite Hbuf, Herr in Hout.
    destruct Hout as (_ & Hthrow & Hadv & Hsame).
    rewrite Hsame. repeat split; assumption.
  - rewrite scrolling_clearAllNotes_run. reflexivity.
Qed.

(** [clearAllNotes] undoes everything on a scrolling staff: whatever was
    queued, scrolled or had failed, the call returns and leaves the staff
    as the constructor had made it, but for the node identities that were
    used, which are not used again. *)
Theorem scrolling_clearAllNotes_restores_the_new_staff :
  forall (opts : MusicStaffOptions) (st0 st : ScrollingStaff.t)
         (r : SVGRenderer.t),
    ScrollingStaff.new opts = (Return st0, r) ->
    reachable st0 st ->
    exists k : nat,
      clearAllNotes st
      = (Return tt,
         set_svgRendererInstance (takeUids k (svgRendererInstance st0)) st0).
Proof.
  intros opts st0 st r Hnew Hreach.
  destruct (scrolling_new_fields opts st0 r Hnew) as (HA & Hb & Hc & Hr & Hl).
  destruct (scrolling_reachable_later st0 st (new_shown opts st0 r Hnew) Hreach)
    as (Hs & Ho & k & Hk).
  exists k. rewrite scrolling_clearAllNotes_run, Hk, Hs, Ho.
  destruct st0 as [r0 s0 o0 A0 b0 c0].
  cbn [svgRendererInstance strategyInstance options activeEntries noteBuffer
       noteCursorX set_svgRendererInstance] in *.
  subst. destruct r as [u l cl sl y h rc]. cbn in Hl. subst l. reflexivity.
Qed.

End ScrollingLayoutFacts.

(** *** Closed examples on a scrolling treble staff *)

Section ScrollingLayoutExamples.
Import SVGRenderer NoteRenderer ScrollingStaff PitchedLayout ScrollingLayout.
#[local] Existing Instance exampleConstants.
#[local] Existing Instance exampleHelpers.
#[local] Existing Instance exampleStrategyMethods.

Lemma new_exampleScrollingStaff :
  ScrollingStaff.new (mkMusicStaffOptions None None None None)
  = (Return exampleScrollingStaff,
     snd (ScrollingStaff.new (mkMusicStaffOptions None None None None))).
Proof. vm_compute. reflexivity. Defined.

(** A note, a chord and a malformed note are queued, and the staff is
    scrolled once. *)
Lemma scrolling_layer_witness :
  let st :=
    snd (advanceNotes
      (snd (queueNotes [inl "C4q"; inr ["C4q"; "D4q"]; inl "x"; inl "E4q"]
         exampleScrollingStaff))) in
  notesLayer (svgRendererInstance st) = map fst (activeEntries st) /\
  Forall wrapperAt (activeEntries st) /\
  NoDup (map uid (map fst (activeEntries st))).
Proof.
  intros st.
  apply (scrolling_layer_shows_the_active_entries
           (mkMusicStaffOptions None None None None) exampleScrollingStaff st
           (snd (ScrollingStaff.new (mkMusicStaffOptions None None None None)))).
  - exact new_exampleScrollingStaff.
  - apply reachable_advanceNotes, reachable_queueNotes, reachable_start.
Defined.

(** Ten quarter notes on the default width: six are drawn, from 0 to 300,
    and four wait; a scroll removes the first and spawns the seventh. *)
Lemma advanceNotes_witness :
  let st := snd (queueNotes (repeat (inl "C4q") 10) exampleScrollingStaff) in
  noteCursorX (snd (advanceNotes st)) = noteCursorX st /\
  fst (advanceNotes st) = Return tt /\
  noteBuffer (snd (advanceNotes st)) = repeat (false, ["C4q"]) 3 /\
  exists w : SVGGElement,
    activeEntries (snd (advanceNotes st))
    = advanced (activeEntries st) ++ [(w, (noteCursorX st + SPAWN_X_OFFSET)%Q)].
Proof.
  intros st.
  exact (advanceNotes_scrolls_and_spawns
           (mkMusicStaffOptions None None None None) exampleScrollingStaff st
           (snd (ScrollingStaff.new (mkMusicStaffOptions None None None None)))
           new_exampleScrollingStaff
           (reachable_queueNotes _ _ _ (reachable_start _))).
Defined.

(** The malformed note "x" behind a drawn note: the staff throws at every
    call from then on. *)
Lemma blocked_staff_witness :
  let st := snd (queueNotes [inl "C4q"; inl "x"; inl "E4q"] exampleScrollingStaff) in
  (forall notes : list (string + list string),
     Qle_bool (maxVisibleX st) (noteCursorX st) = false ->
     fst (queueNotes notes st) = Throw ParseError /\
     hd_error (noteBuffer (snd (queueNotes notes st))) = Some (false, ["x"]) /\
     noteBuffer (snd (queueNotes notes st)) = noteBuffer st ++ map buffered notes /\
     activeEntries (snd (queueNotes notes st)) = activeEntries st /\
     noteCursorX (snd (queueNotes notes st)) = noteCursorX st) /\
  (activeEntries st <> [] ->
   fst (advanceNotes st) = Throw ParseError /\
   hd_error (noteBuffer (snd (advanceNotes st))) = Some (false, ["x"]) /\
   activeEntries (snd (advanceNotes st)) = advanced (activeEntries st)) /\
  noteBuffer (snd (clearAllNotes st)) = [].
Proof.
  intros st.
  apply (an_entry_that_cannot_be_drawn_blocks_the_staff
           (mkMusicStaffOptions None None None None) exampleScrollingStaff st
           (snd (ScrollingStaff.new (mkMusicStaffOptions None None None None)))
           (false, ["x"]) ParseError).
  - exact new_exampleScrollingStaff.
  - apply reachable_queueNotes, reachable_start.
  - vm_compute. reflexivity.
  - vm_compute. reflexivity.
Defined.

Lemma scrolling_clearAllNotes_witness :
  exists k : nat,
    clearAllNotes
      (snd (advanceNotes
         (snd (queueNotes [inl "C4q"; inr ["C4q"; "D4q"]; inl "x"]
            exampleScrollingStaff))))
    = (Return tt,
       set_svgRendererInstance
         (takeUids k (svgRendererInstance exampleScrollingStaff))
         exampleScrollingStaff).
Proof.
  apply (scrolling_clearAllNotes_restores_the_new_staff
           (mkMusicStaffOptions None None None None) exampleScrollingStaff _
           (snd (ScrollingStaff.new (mkMusicStaffOptions None None None None)))).
  - exact new_exampleScrollingStaff.
  - apply reachable_advanceNotes, reachable_queueNotes, reachable_start.
Defined.

End ScrollingLayoutExamples.

